(** * SpGEMM partial-product generation and verification: a shallow embedding

    The development follows the Python sources of the repository:

    - [partial_prod_gen.py]  (estimator, pre-allocated and streaming
      generators, choice of the execution mode),
    - [cob_part1.py], [cob_part3.py]  (column resolution of the matrix loader,
      fixed-point scaling and descaling, the item-similarity generators, the
      neighbourhood filter and the ranking),
    - [Mul_verifier.py]  (the RTL regression checker),
    - [verifier.py]  (the recommendation verifier).

    Integers are [Z]; Python exceptions are an explicit error result; NumPy
    buffers are lists of cells that are either written or not yet written;
    [float32] values are rationals, with the rounding of each operation
    written out where scaling and descaling depend on it. *)

From Stdlib Require Import ZArith List Lia Bool QArith Qabs Qround Qpower
  String Permutation Sorted Floats.
Import ListNotations.

Set Warnings "-inexact-float".

Local Open Scope Z_scope.

(** ** Python and NumPy building blocks *)

Module Py.

(** What a run may end with instead of a value.  [IndexError] and
    [ValueError] are the Python exceptions; [Unspecified] marks a result that
    would depend on the content of a never-written [np.empty] cell;
    [Diverges] marks a loop that ran out of fuel; [NotNumeric] marks a run
    that goes on with text where this development has numbers. *)
Inductive error : Type :=
| IndexError
| ValueError
| Unspecified
| Diverges
| NotNumeric.

Inductive result (A : Type) : Type :=
| Ok (a : A)
| Raise (e : error).

Arguments Ok {A} a.
Arguments Raise {A} e.

Definition bind {A B : Type} (m : result A) (f : A -> result B) : result B :=
  match m with
  | Ok a => f a
  | Raise e => Raise e
  end.

Notation "x <- m ;; k" := (bind m (fun x => k))
  (at level 61, m at next level, right associativity).

(** [len(l)] *)
Definition len {A : Type} (l : list A) : Z := Z.of_nat (List.length l).

(** [l[i]] with Python's negative indices. *)
Definition index {A : Type} (l : list A) (i : Z) : result A :=
  let i' := if i <? 0 then i + len l else i in
  if (0 <=? i') && (i' <? len l) then
    match nth_error l (Z.to_nat i') with
    | Some x => Ok x
    | None => Raise IndexError
    end
  else Raise IndexError.

(** A slice bound brought into [0, n], as Python does for [l[s:e]]. *)
Definition clamp (n i : Z) : Z :=
  if i <? 0 then Z.max 0 (i + n) else Z.min i n.

(** [l[s:e]] *)
Definition slice {A : Type} (l : list A) (s e : Z) : list A :=
  let s' := clamp (len l) s in
  let e' := clamp (len l) e in
  firstn (Z.to_nat (e' - s')) (skipn (Z.to_nat s') l).

(** [range(n)] *)
Definition range (n : Z) : list Z := map Z.of_nat (seq 0 (Z.to_nat n)).

(** [for x in l: s = body(x, s)], stopping at the first exception. *)
Fixpoint for_each {A S : Type} (l : list A) (body : A -> S -> result S)
  (s : S) : result S :=
  match l with
  | [] => Ok s
  | x :: l' => s' <- body x s ;; for_each l' body s'
  end.

(** [np.diff(a)], on integers that are far from the bounds of their type *)
Fixpoint diff (a : list Z) : list Z :=
  match a with
  | x :: (y :: _) as t => (y - x) :: diff t
  | _ => []
  end.

(** A signed 64-bit accumulator. *)
Definition wrap64 (z : Z) : Z := (z + 2 ^ 63) mod 2 ^ 64 - 2 ^ 63.

(** [a[ks]] for an index array [ks]. *)
Fixpoint take_indices {A : Type} (a : list A) (ks : list Z) : result (list A) :=
  match ks with
  | [] => Ok []
  | k :: ks' =>
      x <- index a k ;;
      xs <- take_indices a ks' ;;
      Ok (x :: xs)
  end.

(** [a.sum(dtype=np.int64)] *)
Definition sum_int64 (a : list Z) : Z :=
  fold_left (fun acc x => wrap64 (acc + x)) a 0.

(** A NumPy buffer: [None] is a cell of [np.empty] nobody wrote yet. *)
Definition buffer (A : Type) : Type := list (option A).

(** [np.empty(n)]; a negative size is refused. *)
Definition np_empty (A : Type) (n : Z) : result (buffer A) :=
  if n <? 0 then Raise ValueError else Ok (repeat None (Z.to_nat n)).

(** [b[s:e] = vals]: the slice is clipped to the buffer; the value array must
    have the length of the slice, or length one (it is then broadcast). *)
Definition slice_assign {A : Type} (b : buffer A) (s e : Z) (vals : list A)
  : result (buffer A) :=
  let s' := clamp (len b) s in
  let e' := clamp (len b) e in
  let m := Z.max 0 (e' - s') in
  if m =? len vals then
    Ok (firstn (Z.to_nat s') b ++ map Some vals
          ++ skipn (Z.to_nat (s' + m)) b)
  else
    match vals with
    | [v] =>
        Ok (firstn (Z.to_nat s') b ++ repeat (Some v) (Z.to_nat m)
              ++ skipn (Z.to_nat (s' + m)) b)
    | _ => Raise ValueError
    end.

(** [b[s:e] = v] for a scalar [v]. *)
Definition slice_fill {A : Type} (b : buffer A) (s e : Z) (v : A) : buffer A :=
  let s' := clamp (len b) s in
  let e' := clamp (len b) e in
  let m := Z.max 0 (e' - s') in
  firstn (Z.to_nat s') b ++ repeat (Some v) (Z.to_nat m)
    ++ skipn (Z.to_nat (s' + m)) b.

(** Reading a whole buffer back. *)
Fixpoint read_cells {A : Type} (b : buffer A) : result (list A) :=
  match b with
  | [] => Ok []
  | Some x :: b' => xs <- read_cells b' ;; Ok (x :: xs)
  | None :: _ => Raise Unspecified
  end.

(** [a[mask]] for a boolean mask, which must be as long as [a]. *)
Fixpoint mask_select {A : Type} (a : list A) (mask : list bool)
  : result (list A) :=
  match a, mask with
  | [], [] => Ok []
  | x :: a', m :: mask' =>
      xs <- mask_select a' mask' ;;
      Ok (if m then x :: xs else xs)
  | _, _ => Raise IndexError
  end.

(** The buffer [b] starts with the written cells [xs]. *)
Definition holds {A : Type} (b : buffer A) (xs : list A) : Prop :=
  exists rest, b = map Some xs ++ rest.

(** The sum of a list of integers. *)
Definition zsum (l : list Z) : Z := fold_right Z.add 0 l.

(** [zip(a, b, c)] *)
Definition zip3 {A B C : Type} (a : list A) (b : list B) (c : list C)
  : list (A * B * C) :=
  combine (combine a b) c.

End Py.

Import Py.

(** ** The partial-product generator ([partial_prod_gen.py]) *)

Module PartialProdGen.

Section Generator.

(** The value type of the matrices ([np.float32] in the source), its product
    and the test [x != 0]. *)
Variable V : Type.
Variable mul : V -> V -> V.
Variable nonzero : V -> bool.

(** A [scipy.sparse.csr_matrix]: its shape and its three arrays. *)
Record csr : Type := mk_csr {
  shape0 : Z;
  shape1 : Z;
  indptr : list Z;
  indices : list Z;
  data : list V
}.

(** [M.nnz]: SciPy reads the stored-entry count of a compressed matrix off the
    last row pointer. *)
Definition nnz (M : csr) : result Z := index (indptr M) (-1).

(** [estimate_products(A_csr, AT_csr)] *)
Definition estimate_products (A_csr AT_csr : csr) : result Z :=
  let nnz_per_AT_row := diff (indptr AT_csr) in
  n <- nnz A_csr ;;
  if n =? 0 then Ok 0
  else
    let valid_indices_k :=
      filter (fun k => k <? len nnz_per_AT_row) (indices A_csr) in
    picked <- take_indices nnz_per_AT_row valid_indices_k ;;
    Ok (sum_int64 picked).

(** The three output buffers and the write cursor. *)
Record gen_state : Type := mk_gen {
  products : buffer V;
  i_indices : buffer Z;
  j_indices : buffer Z;
  write_pos : Z
}.

(** The body of the inner loop: all products of one stored entry [a_ik]. *)
Definition emit_entry (AT_csr : csr) (i k : Z) (a_ik : V) (st : gen_state)
  : result gen_state :=
  at_row_start <- index (indptr AT_csr) k ;;
  at_row_end <- index (indptr AT_csr) (k + 1) ;;
  if at_row_start =? at_row_end then Ok st
  else
    let at_row_cols := slice (indices AT_csr) at_row_start at_row_end in
    let at_row_vals := slice (data AT_csr) at_row_start at_row_end in
    let num_products := len at_row_vals in
    let end_pos := write_pos st + num_products in
    products' <- slice_assign (products st) (write_pos st) end_pos
                   (map (mul a_ik) at_row_vals) ;;
    let i_indices' := slice_fill (i_indices st) (write_pos st) end_pos i in
    j_indices' <- slice_assign (j_indices st) (write_pos st) end_pos
                    at_row_cols ;;
    Ok (mk_gen products' i_indices' j_indices' end_pos).

(** The body of the outer loop: one row of [A]. *)
Definition emit_row (A_csr AT_csr : csr) (i : Z) (st : gen_state)
  : result gen_state :=
  row_start <- index (indptr A_csr) i ;;
  row_end <- index (indptr A_csr) (i + 1) ;;
  if row_start =? row_end then Ok st
  else
    let row_cols := slice (indices A_csr) row_start row_end in
    let row_vals := slice (data A_csr) row_start row_end in
    for_each (range (len row_cols))
      (fun local_idx st =>
         k <- index row_cols local_idx ;;
         a_ik <- index row_vals local_idx ;;
         emit_entry AT_csr i k a_ik st)
      st.

(** Allocation and traversal: the state when the loops are left, together with
    the size of the allocation. *)
Definition fill_buffers (A_csr AT_csr : csr) : result (Z * gen_state) :=
  total_products <- estimate_products A_csr AT_csr ;;
  products0 <- np_empty V total_products ;;
  i_indices0 <- np_empty Z total_products ;;
  j_indices0 <- np_empty Z total_products ;;
  st <- for_each (range (shape0 A_csr)) (emit_row A_csr AT_csr)
          (mk_gen products0 i_indices0 j_indices0 0) ;;
  Ok (total_products, st).

(** Trimming to the cursor, dropping zero products, stacking the columns. *)
Definition finish (total_products : Z) (st : gen_state)
  : result (list (V * Z * Z)) :=
  let trim (A : Type) (b : buffer A) :=
    if write_pos st <? total_products then slice b 0 (write_pos st) else b in
  ps <- read_cells (trim V (products st)) ;;
  iis <- read_cells (trim Z (i_indices st)) ;;
  jjs <- read_cells (trim Z (j_indices st)) ;;
  Ok (filter (fun t => nonzero (fst (fst t))) (zip3 ps iis jjs)).

(** [produce_products_scipy_optimized(A_csr, AT_csr)] *)
Definition produce_products_scipy_optimized (A_csr AT_csr : csr)
  : result (list (V * Z * Z)) :=
  r <- fill_buffers A_csr AT_csr ;;
  finish (fst r) (snd r).

(** *** The streaming generator *)

(** The three ring buffers, the counters, and the rows written to the CSV
    file after its header. *)
Record stream_state : Type := mk_stream {
  buf_products : buffer V;
  buf_i : buffer Z;
  buf_j : buffer Z;
  total_written : Z;
  buf_pos : Z;
  csv_rows : list (V * Z * Z)
}.

(** [buf_pos >= chunk_size * 0.9].  The source compares an integer with a
    binary64 product; for chunk sizes below 2^49 the rounded product lies on
    the same side of every integer as the exact 9/10 of [chunk_size], which is
    what is compared here. *)
Definition high_water (chunk_size buf_pos : Z) : bool :=
  9 * chunk_size <=? 10 * buf_pos.

(** [wr.writerows(zip(buf_products[:buf_pos], buf_i[:buf_pos],
    buf_j[:buf_pos])); total_written += buf_pos; buf_pos = 0] *)
Definition flush (st : stream_state) : result stream_state :=
  ps <- read_cells (slice (buf_products st) 0 (buf_pos st)) ;;
  iis <- read_cells (slice (buf_i st) 0 (buf_pos st)) ;;
  jjs <- read_cells (slice (buf_j st) 0 (buf_pos st)) ;;
  Ok (mk_stream (buf_products st) (buf_i st) (buf_j st)
        (total_written st + buf_pos st) 0
        (csv_rows st ++ zip3 ps iis jjs)).

(** The [while remaining_products > 0] loop; [fuel] bounds the number of
    iterations. *)
Fixpoint stream_chunks (fuel : nat) (chunk_size i : Z) (a_ik : V)
  (at_row_cols : list Z) (at_row_vals : list V)
  (remaining_products at_offset : Z) (st : stream_state)
  : result stream_state :=
  if remaining_products >? 0 then
    match fuel with
    | O => Raise Diverges
    | S fuel' =>
        let space_left := chunk_size - buf_pos st in
        let write_count := Z.min remaining_products space_left in
        let at_end := at_offset + write_count in
        let products := map (mul a_ik) (slice at_row_vals at_offset at_end) in
        let non_zero_mask := map nonzero products in
        st1 <-
          (if existsb (fun b => b) non_zero_mask then
             let valid_products := filter nonzero products in
             let valid_i := repeat i (List.length valid_products) in
             valid_j <- mask_select (slice at_row_cols at_offset at_end)
                          non_zero_mask ;;
             let valid_count := len valid_products in
             if buf_pos st + valid_count <=? chunk_size then
               bp <- slice_assign (buf_products st) (buf_pos st)
                       (buf_pos st + valid_count) valid_products ;;
               bi <- slice_assign (buf_i st) (buf_pos st)
                       (buf_pos st + valid_count) valid_i ;;
               bj <- slice_assign (buf_j st) (buf_pos st)
                       (buf_pos st + valid_count) valid_j ;;
               Ok (mk_stream bp bi bj (total_written st)
                     (buf_pos st + valid_count) (csv_rows st))
             else Ok st
           else Ok st) ;;
        st2 <- (if high_water chunk_size (buf_pos st1) then flush st1
                else Ok st1) ;;
        stream_chunks fuel' chunk_size i a_ik at_row_cols at_row_vals
          (remaining_products - write_count) at_end st2
    end
  else Ok st.

(** The body of the inner [for] loop of the streaming generator. *)
Definition stream_entry (fuel : nat) (chunk_size : Z) (AT_csr : csr)
  (i k : Z) (a_ik : V) (st : stream_state) : result stream_state :=
  at_row_start <- index (indptr AT_csr) k ;;
  at_row_end <- index (indptr AT_csr) (k + 1) ;;
  if at_row_start =? at_row_end then Ok st
  else
    let at_row_cols := slice (indices AT_csr) at_row_start at_row_end in
    let at_row_vals := slice (data AT_csr) at_row_start at_row_end in
    let num_products := len at_row_vals in
    stream_chunks fuel chunk_size i a_ik at_row_cols at_row_vals
      num_products 0 st.

(** The body of the outer [for] loop of the streaming generator. *)
Definition stream_row (fuel : nat) (chunk_size : Z) (A_csr AT_csr : csr)
  (i : Z) (st : stream_state) : result stream_state :=
  row_start <- index (indptr A_csr) i ;;
  row_end <- index (indptr A_csr) (i + 1) ;;
  if row_start =? row_end then Ok st
  else
    let row_cols := slice (indices A_csr) row_start row_end in
    let row_vals := slice (data A_csr) row_start row_end in
    for_each (range (len row_cols))
      (fun local_idx st =>
         k <- index row_cols local_idx ;;
         a_ik <- index row_vals local_idx ;;
         stream_entry fuel chunk_size AT_csr i k a_ik st)
      st.

(** [produce_products_stream_scipy_optimized(A_csr, AT_csr, csv_path,
    chunk_size)]: the returned count and the rows of the file. *)
Definition produce_products_stream_scipy_optimized (fuel : nat)
  (A_csr AT_csr : csr) (chunk_size : Z) : result (Z * list (V * Z * Z)) :=
  buf_products0 <- np_empty V chunk_size ;;
  buf_i0 <- np_empty Z chunk_size ;;
  buf_j0 <- np_empty Z chunk_size ;;
  st <- for_each (range (shape0 A_csr))
          (stream_row fuel chunk_size A_csr AT_csr)
          (mk_stream buf_products0 buf_i0 buf_j0 0 0 []) ;;
  st' <- (if buf_pos st >? 0 then flush st else Ok st) ;;
  Ok (total_written st', csv_rows st').

(** *** Well-formed matrices and the logical product list *)

Fixpoint nondecreasing (l : list Z) : bool :=
  match l with
  | x :: (y :: _) as t => (x <=? y) && nondecreasing t
  | _ => true
  end.

(** The invariants of the CSR layout: [rows + 1] row pointers, starting at 0,
    never decreasing, ending at the number of stored entries; one value per
    column index; every column index inside the matrix. *)
Definition valid_csr (M : csr) : bool :=
  (0 <=? shape0 M) && (0 <=? shape1 M)
  && (len (indptr M) =? shape0 M + 1)
  && (nth 0 (indptr M) 0 =? 0)
  && nondecreasing (indptr M)
  && (last (indptr M) 0 =? len (indices M))
  && (len (data M) =? len (indices M))
  && forallb (fun k => (0 <=? k) && (k <? shape1 M)) (indices M).

(** Row pointer [r] of a matrix. *)
Definition row_ptr (M : csr) (r : Z) : Z := nth (Z.to_nat r) (indptr M) 0.

(** Row [r] of a matrix as its (column, value) pairs. *)
Definition row_of (M : csr) (r : Z) : list (Z * V) :=
  combine (slice (indices M) (row_ptr M r) (row_ptr M (r + 1)))
    (slice (data M) (row_ptr M r) (row_ptr M (r + 1))).

(** The elementary products of the entry [a_ik] of row [i]. *)
Definition entry_products (AT_csr : csr) (i : Z) (ka : Z * V)
  : list (V * Z * Z) :=
  map (fun jb => (mul (snd ka) (snd jb), i, fst jb))
    (row_of AT_csr (fst ka)).

(** All elementary products, row by row of [A]. *)
Definition all_products (A_csr AT_csr : csr) : list (V * Z * Z) :=
  flat_map (fun i => flat_map (entry_products AT_csr i) (row_of A_csr i))
    (range (shape0 A_csr)).

(** The number of stored entries in row [k]. *)
Definition row_nnz (M : csr) (k : Z) : Z :=
  row_ptr M (k + 1) - row_ptr M k.

(** *** The transpose, as SciPy builds it *)

(** The row pointers of a list of row lengths: 0, then the running sums. *)
Fixpoint running_sums (acc : Z) (l : list Z) : list Z :=
  match l with
  | [] => [acc]
  | x :: l' => acc :: running_sums (acc + x) l'
  end.

(** The entries of column [c], as (row, value) pairs, in row order. *)
Definition column_entries (M : csr) (c : Z) : list (Z * V) :=
  flat_map
    (fun i => map (fun ka => (i, snd ka))
                (filter (fun ka => fst ka =? c) (row_of M i)))
    (range (shape0 M)).

(** [M.transpose().tocsr()]: the shape is swapped and the entries are
    regrouped by their former column, each group keeping the row order. *)
Definition transpose (M : csr) : csr :=
  let groups := map (column_entries M) (range (shape1 M)) in
  mk_csr (shape1 M) (shape0 M)
    (running_sums 0 (map (fun g => len g) groups))
    (map fst (List.concat groups))
    (map snd (List.concat groups)).

(** The elementary products of row [i] of [A]. *)
Definition row_products (A_csr AT_csr : csr) (i : Z) : list (V * Z * Z) :=
  flat_map (entry_products AT_csr i) (row_of A_csr i).

(** The test of the zero filter on a triple. *)
Definition keeps (t : V * Z * Z) : bool := nonzero (fst (fst t)).

(** The state of the pre-allocated generator after it wrote the triples
    [done] into buffers of [cap] cells. *)
Definition gen_holds (st : gen_state) (done : list (V * Z * Z)) (cap : Z)
  : Prop :=
  holds (products st) (map (fun t => fst (fst t)) done)
  /\ holds (i_indices st) (map (fun t => snd (fst t)) done)
  /\ holds (j_indices st) (map (fun t => snd t) done)
  /\ write_pos st = len done
  /\ len (products st) = cap
  /\ len (i_indices st) = cap
  /\ len (j_indices st) = cap.

(** The state of the streaming generator after it took the triples [out]:
    the file has a prefix of them and the buffers of [cap] cells have the
    rest. *)
Definition stream_filled (st : stream_state) (out : list (V * Z * Z))
  (cap : Z) : Prop :=
  exists pending,
    out = csv_rows st ++ pending
    /\ holds (buf_products st) (map (fun t => fst (fst t)) pending)
    /\ holds (buf_i st) (map (fun t => snd (fst t)) pending)
    /\ holds (buf_j st) (map (fun t => snd t) pending)
    /\ buf_pos st = len pending
    /\ total_written st = len (csv_rows st)
    /\ len (buf_products st) = cap
    /\ len (buf_i st) = cap
    /\ len (buf_j st) = cap.

(** The same between two turns of the loops: the buffers are below the
    high-water mark. *)
Definition stream_holds (st : stream_state) (out : list (V * Z * Z))
  (cap : Z) : Prop :=
  stream_filled st out cap /\ high_water cap (buf_pos st) = false.

End Generator.

(** Integer matrices, for examples. *)
Definition nonzeroZ (x : Z) : bool := negb (x =? 0).

(** [[1,2,3],[4,0,5]] and its transpose. *)
Definition example_A : csr Z :=
  mk_csr Z 2 3 [0; 3; 5] [0; 1; 2; 0; 2] [1; 2; 3; 4; 5].
Definition example_AT : csr Z :=
  mk_csr Z 3 2 [0; 2; 3; 5] [0; 1; 0; 0; 1] [1; 4; 2; 3; 5].

(** [[2,0],[0,3]], which is its own transpose. *)
Definition diagonal_A : csr Z := mk_csr Z 2 2 [0; 1; 2] [0; 1] [2; 3].

(** A row with the entries 1 and 2, and a second matrix whose rows 0 and 1
    hold 5 and 7 in column 0. *)
Definition fanout_A : csr Z := mk_csr Z 1 2 [0; 2] [0; 1] [1; 2].
Definition fanout_AT : csr Z := mk_csr Z 2 1 [0; 1; 2] [0; 0] [5; 7].

(** A 1x2 matrix with one entry in column 1, and a 1x1 matrix: column 1 of
    the first is not a row of the second. *)
Definition wide_A : csr Z := mk_csr Z 1 2 [0; 1] [1] [1].
Definition short_AT : csr Z := mk_csr Z 1 1 [0; 1] [0] [1].

(** A 1x2 matrix whose stored column index is -1, and a 2x1 matrix with one
    entry in row 0 and two in row 1. *)
Definition negative_A : csr Z := mk_csr Z 1 2 [0; 1] [-1] [1].
Definition two_row_AT : csr Z := mk_csr Z 2 1 [0; 1; 3] [0; 0; 0] [1; 1; 1].

Arguments mk_csr {V}.
Arguments shape0 {V}.
Arguments shape1 {V}.
Arguments indptr {V}.
Arguments indices {V}.
Arguments data {V}.
Arguments nnz {V}.
Arguments estimate_products {V}.
Arguments valid_csr {V}.
Arguments row_of {V}.
Arguments row_ptr {V}.
Arguments column_entries {V}.
Arguments transpose {V}.
Arguments row_nnz {V}.
Arguments write_pos {V}.
Arguments products {V}.
Arguments i_indices {V}.
Arguments j_indices {V}.
Arguments mk_gen {V}.
Arguments fill_buffers {V}.
Arguments finish {V}.
Arguments produce_products_scipy_optimized {V}.
Arguments produce_products_stream_scipy_optimized {V}.
Arguments all_products {V}.
Arguments entry_products {V}.
Arguments row_products {V}.
Arguments keeps {V}.
Arguments gen_holds {V}.
Arguments stream_holds {V}.
Arguments stream_filled {V}.
Arguments emit_entry {V}.
Arguments emit_row {V}.
Arguments mk_stream {V}.
Arguments buf_products {V}.
Arguments buf_i {V}.
Arguments buf_j {V}.
Arguments total_written {V}.
Arguments buf_pos {V}.
Arguments csv_rows {V}.
Arguments flush {V}.
Arguments stream_chunks {V}.
Arguments stream_entry {V}.
Arguments stream_row {V}.

End PartialProdGen.

(** ** Choice of the execution mode ([main] of [partial_prod_gen.py]) *)

Module Planner.

Import PartialProdGen.

Inductive mode : Type := prealloc | stream.

Definition bytes_per_triple : Z := 12.

(** [MAX_RAM_GiB = 4] *)
Definition MAX_RAM_GiB : Q := 4.

(** [est_mem_GiB = (products * bytes_per_triple) / (1024**3)].  Python's
    integer product is exact and its true division is correctly rounded; the
    divisor is a power of two, so the quotient is exact up to 2^53 bytes and
    stays on the same side of the budget beyond. *)
Definition est_mem_GiB (products : Z) : Q :=
  inject_Z (products * bytes_per_triple) / inject_Z (1024 ^ 3).

(** [mode = "prealloc" if est_mem_GiB <= MAX_RAM_GiB else "stream"] *)
Definition choose_mode (products : Z) (max_ram_GiB : Q) : mode :=
  if Qle_bool (est_mem_GiB products) max_ram_GiB then prealloc else stream.

(** The decision as [main] takes it, from the two matrices. *)
Definition main_mode {V : Type} (A AT : csr V) : result mode :=
  products <- estimate_products A AT ;;
  Ok (choose_mode products MAX_RAM_GiB).

End Planner.

(** ** Column resolution of the matrix loader ([cob_part1.py]) *)

Module Loader.

Local Open Scope string_scope.

Definition user_aliases : list string := ["user_id"; "user"; "row"].
Definition item_aliases : list string := ["item_id"; "movie_id"; "item"; "col"].
Definition rating_aliases : list string := ["rating"; "value"; "val"].

(** [col in aliases] *)
Definition is_in (col : string) (aliases : list string) : bool :=
  existsb (String.eqb col) aliases.

(** [user_col], [item_col], [rating_col]; [None] is Python's [None]. *)
Record found : Type := mk_found {
  user_col : option string;
  item_col : option string;
  rating_col : option string
}.

(** One turn of [for col in df.columns]. *)
Definition scan_column (acc : found) (col : string) : found :=
  if is_in col user_aliases then
    mk_found (Some col) (item_col acc) (rating_col acc)
  else if is_in col item_aliases then
    mk_found (user_col acc) (Some col) (rating_col acc)
  else if is_in col rating_aliases then
    mk_found (user_col acc) (item_col acc) (Some col)
  else acc.

Definition scan_columns (columns : list string) : found :=
  fold_left scan_column columns (mk_found None None None).

(** The scan and the check that follows it. *)
Definition resolve_columns (columns : list string)
  : result (string * string * string) :=
  match scan_columns columns with
  | mk_found (Some u) (Some i) (Some r) => Ok (u, i, r)
  | _ => Raise ValueError
  end.

(** [load_matrix_from_csv]: the resolution, then the construction of the
    matrix from the three chosen columns ([build], SciPy's work). *)
Definition load_matrix_from_csv {M : Type}
  (build : string * string * string -> result M) (columns : list string)
  : result M :=
  chosen <- resolve_columns columns ;;
  build chosen.

(** The first, and the last, column whose name is one of [aliases]. *)
Definition first_match (aliases columns : list string) : option string :=
  find (fun col => is_in col aliases) columns.

Definition last_match (aliases columns : list string) : option string :=
  find (fun col => is_in col aliases) (rev columns).

End Loader.

(** ** Fixed-point scaling ([cob_part1.py]) and descaling ([cob_part3.py]) *)

Module Quantizer.

(** The values of the source are binary32 numbers ([float32] arrays).  A
    finite binary32 number is a rational [m * 2^e] with [|m| < 2^24] and
    [-149 <= e <= 104]; an operation on binary32 numbers returns the number
    of that form nearest to the exact result, an exact result halfway
    between two of them going to the one with the even [m]. *)

(** The integer a C conversion yields: the fraction is dropped. *)
Definition trunc (x : Q) : Z := Z.quot (Qnum x) (Z.pos (Qden x)).

(** [2^k], for a negative [k] as well. *)
Definition pow2 (k : Z) : Q := ((2 # 1) ^ k)%Q.

(** The exponent of the leading bit of a number other than zero: the largest
    [k] with [2^k <= |x|]. *)
Definition ilog2 (x : Q) : Z :=
  let k := Z.log2 (Z.abs (Qnum x)) - Z.log2 (Z.pos (Qden x)) in
  if Qle_bool (pow2 k) (Qabs x) then k else k - 1.

(** The nearest integer, a half going to the even one. *)
Definition rint (x : Q) : Z :=
  let f := Qfloor x in
  match (x - inject_Z f ?= 1 # 2)%Q with
  | Lt => f
  | Gt => f + 1
  | Eq => if Z.even f then f else f + 1
  end.

(** [np.float32(x)]: the binary32 number nearest to [x], with 24 bits from
    the leading one, and steps of [2^-149] next to zero.  The infinities that
    a result of magnitude [2^128] or more turns into have no rational; the
    large number that stands for them here converts to the same integer. *)
Definition float32 (x : Q) : Q :=
  if Qeq_bool x 0 then 0%Q
  else
    let e := Z.max (ilog2 x - 23) (- 149) in
    (inject_Z (rint (x / pow2 e)) * pow2 e)%Q.

(** A rational that is a finite binary32 number. *)
Definition binary32 (x : Q) : Prop :=
  exists m e : Z,
    Z.abs m < 2 ^ 24 /\ - 149 <= e <= 104 /\ (x == inject_Z m * pow2 e)%Q.

(** [x.astype(np.int32)]: the fraction is dropped; a number that does not fit
    becomes the least [int32], which is what the conversion instruction of the
    processor returns (NumPy adds a [RuntimeWarning]). *)
Definition astype_int32 (x : Q) : Z :=
  let t := trunc x in
  if (- 2 ^ 31 <=? t) && (t <? 2 ^ 31) then t else - 2 ^ 31.

(** [(products * scale_factor).astype(np.int32)], for one value: the scale
    factor becomes a binary32 number and the product is rounded to binary32
    before the conversion. *)
Definition quantize (v : Q) (scale_factor : Z) : Z :=
  astype_int32 (float32 (v * float32 (inject_Z scale_factor))).

(** [value.astype(np.float32) / scale_factor], for one value and a scale
    factor other than zero: the integer, which [astype(float)] has left as it
    is (binary64 holds every [int32]), is rounded to binary32, and so is the
    quotient. *)
Definition dequantize (q : Z) (scale_factor : Z) : Q :=
  float32 (float32 (inject_Z q) / float32 (inject_Z scale_factor)).

(** [SCALE_FACTOR = 65536] *)
Definition SCALE_FACTOR : Z := 65536.

End Quantizer.

(** ** The RTL regression checker ([Mul_verifier.py]) *)

Module RtlChecker.

Local Open Scope Q_scope.

(** [TOL = 1e-6] *)
Definition TOL : Q := 1 # 1000000.

(** The default relative tolerance of [np.isclose]. *)
Definition rtol : Q := 1 # 100000.

(** A key [(row_idx_i, col_idx_j)].  The software file keeps the numbers as
    parsed, so a key component may be a fraction such as 0.5. *)
Definition key : Type := (Q * Q)%type.

Definition key_eqb (a b : key) : bool :=
  Qeq_bool (fst a) (fst b) && Qeq_bool (snd a) (snd b).

(** Lexicographic order of keys, for [sort_values]. *)
Definition key_leb (a b : key) : bool :=
  if Qeq_bool (fst a) (fst b) then Qle_bool (snd a) (snd b)
  else Qle_bool (fst a) (fst b).

(** One record of the software file, by column name. *)
Record sw_row : Type := mk_sw {
  row_idx_i : Q;
  col_idx_j : Q;
  prod : Q
}.

(** [groupby(keys, sort=False)[col].sum()]: groups in order of first
    appearance, each holding the running sum of its values. *)
Fixpoint add_to_group (groups : list (key * Q)) (k : key) (v : Q)
  : list (key * Q) :=
  match groups with
  | [] => [(k, 0 + v)]
  | (k', s) :: rest =>
      if key_eqb k' k then (k', s + v) :: rest
      else (k', s) :: add_to_group rest k v
  end.

Definition groupby_sum (rows : list (key * Q)) : list (key * Q) :=
  fold_left (fun groups r => add_to_group groups (fst r) (snd r)) rows [].

(** The sum of the values that [rows] record under the key [k], added in the
    order of the rows. *)
Definition key_total (rows : list (key * Q)) (k : key) : Q :=
  fold_left (fun s r => if key_eqb k (fst r) then s + snd r else s) rows 0.

(** No two groups stand for the same key. *)
Fixpoint distinct_keys (groups : list (key * Q)) : bool :=
  match groups with
  | [] => true
  | g :: rest =>
      negb (existsb (fun h => key_eqb (fst g) (fst h)) rest)
      && distinct_keys rest
  end.

Local Open Scope string_scope.

(** A record as its key and its value. *)
Definition keyed (r : sw_row) : key * Q :=
  ((row_idx_i r, col_idx_j r), prod r).

(** [load_sw]: [columns] are the column names of the parsed file, [rows] its
    records. *)
Definition load_sw (columns : list string) (rows : list sw_row)
  : result (list (key * Q)) :=
  if forallb (fun c => existsb (String.eqb c) columns)
       ["row_idx_i"; "col_idx_j"; "prod"]
  then
    let df := filter (fun r => negb (Qeq_bool (row_idx_i r) (1 # 2))) rows in
    Ok (groupby_sum (map keyed df))
  else Raise ValueError.

Local Close Scope string_scope.

(** The hardware file as [pd.read_csv] parses it without a header line.
    When every cell is a number, the test for a textual first line is false
    and no line is removed: the frame has two columns, three columns, or any
    other number of them.  When some cell is text, as every cell under a
    textual first line is, the frame is [TextCells] with its number of
    columns: the source removes the first line if one of its cells has a
    letter, and the cells below stay text. *)
Inductive hw_frame : Type :=
| TwoColumns (rows : list (Q * Q))
| ThreeColumns (rows : list (Q * Q * Q))
| OtherShape
| TextCells (columns : Z).

(** [astype(int)] on a key column. *)
Definition as_int (x : Q) : Q := inject_Z (Quantizer.trunc x).

(** [load_hw].  The number of columns is checked after the removal of a
    textual first line.  A frame of two or three columns with text cells
    passes that check; its key columns are then parsed from text, and the
    value of a group is the concatenation of its text cells, not a number:
    there is no numeric frame to return. *)
Definition load_hw (raw : hw_frame) : result (list (key * Q)) :=
  match raw with
  | TwoColumns rows =>
      Ok (groupby_sum
            (map (fun r => ((as_int 0, as_int (fst r)), snd r)) rows))
  | ThreeColumns rows =>
      Ok (groupby_sum
            (map (fun r => ((as_int (fst (fst r)), as_int (snd (fst r))),
                            snd r)) rows))
  | OtherShape => Raise ValueError
  | TextCells columns =>
      if (columns =? 2) || (columns =? 3) then Raise NotNumeric
      else Raise ValueError
  end.

(** [pd.merge(sw, hw, how="outer", on=keys)] before sorting: every pairing of
    a left row with the right rows of its key, a left row alone when there is
    none, then the right rows whose key no left row has.  [None] is a missing
    value. *)
Definition outer_merge (sw hw : list (key * Q))
  : list (key * option Q * option Q) :=
  flat_map
    (fun l =>
       match filter (fun r => key_eqb (fst l) (fst r)) hw with
       | [] => [(fst l, Some (snd l), None)]
       | rs => map (fun r => (fst l, Some (snd l), Some (snd r))) rs
       end) sw
  ++ flat_map
       (fun r =>
          if existsb (fun l => key_eqb (fst l) (fst r)) sw then []
          else [(fst r, None, Some (snd r))]) hw.

(** [fillna(0)] on one cell. *)
Definition fillna0 (x : option Q) : Q :=
  match x with Some v => v | None => 0 end.

(** [np.isclose(a, b, atol=atol)] with the default [rtol]. *)
Definition isclose (a b atol : Q) : bool :=
  Qle_bool (Qabs (a - b)) (atol + rtol * Qabs b).

(** One line of [result.csv]. *)
Record report_row : Type := mk_report {
  rep_key : key;
  gold : Q;
  hw : Q;
  matched : bool
}.

Fixpoint insert_by_key (x : report_row) (l : list report_row)
  : list report_row :=
  match l with
  | [] => [x]
  | y :: l' =>
      if key_leb (rep_key x) (rep_key y) then x :: l
      else y :: insert_by_key x l'
  end.

(** [sort_values(["row_idx_i", "col_idx_j"])] *)
Definition sort_by_key (l : list report_row) : list report_row :=
  fold_right insert_by_key [] l.

(** [build_report], with the tolerance [TOL] of the module as a parameter. *)
Definition build_report_tol (tol : Q) (sw hw : list (key * Q))
  : list report_row :=
  let merged :=
    map (fun m =>
           let g := fillna0 (snd (fst m)) in
           let h := fillna0 (snd m) in
           mk_report (fst (fst m)) g h (isclose g h tol))
      (outer_merge sw hw) in
  sort_by_key merged.

Definition build_report (sw hw : list (key * Q)) : list report_row :=
  build_report_tol TOL sw hw.

(** The report of a run: both files loaded, then reconciled. *)
Definition run_report (columns : list string) (sw_rows : list sw_row)
  (raw_hw : hw_frame) : result (list report_row) :=
  sw <- load_sw columns sw_rows ;;
  hw <- load_hw raw_hw ;;
  Ok (build_report sw hw).

End RtlChecker.

(** ** The recommendation verifier ([verifier.py]) *)

Module RecVerifier.

Local Open Scope Q_scope.

(** One record of a recommendation file. *)
Record rec_row : Type := mk_rec {
  user_id : Z;
  item_id : Z;
  predicted_rating : Q
}.

(** The [_merge] column of an outer merge with [indicator=True]. *)
Inductive indicator : Type := left_only | right_only | both.

Definition indicator_eqb (a b : indicator) : bool :=
  match a, b with
  | left_only, left_only | right_only, right_only | both, both => true
  | _, _ => false
  end.

Record merged_row : Type := mk_merged {
  m_user : Z;
  m_item : Z;
  predicted_rating_golden : option Q;
  predicted_rating_coprocessor : option Q;
  _merge : indicator
}.

Definition same_ids (a b : rec_row) : bool :=
  (user_id a =? user_id b)%Z && (item_id a =? item_id b)%Z.

(** [pd.merge(df_golden, df_coprocessor, on=id_cols, how='outer',
    indicator=True)], up to the order of the rows. *)
Definition merge_outer (df_golden df_coprocessor : list rec_row)
  : list merged_row :=
  flat_map
    (fun g =>
       match filter (same_ids g) df_coprocessor with
       | [] => [mk_merged (user_id g) (item_id g)
                  (Some (predicted_rating g)) None left_only]
       | cs => map (fun c => mk_merged (user_id g) (item_id g)
                               (Some (predicted_rating g))
                               (Some (predicted_rating c)) both) cs
       end) df_golden
  ++ flat_map
       (fun c =>
          if existsb (fun g => same_ids g c) df_golden then []
          else [mk_merged (user_id c) (item_id c) None
                  (Some (predicted_rating c)) right_only]) df_coprocessor.

(** [abs(golden - coprocessor) > tolerance] on one common row. *)
Definition rating_differs (tolerance : Q) (m : merged_row) : bool :=
  match predicted_rating_golden m, predicted_rating_coprocessor m with
  | Some g, Some c => negb (Qle_bool (Qabs (g - c)) tolerance)
  | _, _ => false
  end.

(** What [compare_recommendations] computes and writes. *)
Record verdict : Type := mk_verdict {
  id_mismatch_count : Z;
  total_unique_pairs : Z;
  common_rows_count : Z;
  rating_mismatch_count : Z;
  passed : bool;
  summary_written : bool;
  id_mismatches_csv : option (list (Z * Z * indicator));
  rating_mismatches_csv : option (list (Z * Z * Q * Q * Q))
}.

Definition percent (count total : Z) : Q :=
  if (total >? 0)%Z then (inject_Z count / inject_Z total) * 100 else 0.

(** [compare_recommendations], from the two frames on. *)
Definition compare_recommendations (df_golden df_coprocessor : list rec_row)
  (tolerance mismatch_threshold_percent : Q) : verdict :=
  let merged_df := merge_outer df_golden df_coprocessor in
  let uncommon_rows :=
    filter (fun m => negb (indicator_eqb (_merge m) both)) merged_df in
  let id_mismatch_count := len uncommon_rows in
  let total_unique_pairs := len merged_df in
  let id_mismatch_percent := percent id_mismatch_count total_unique_pairs in
  let common_rows :=
    filter (fun m => indicator_eqb (_merge m) both) merged_df in
  let common_rows_count := len common_rows in
  let mismatched_ratings := filter (rating_differs tolerance) common_rows in
  let rating_mismatch_count := len mismatched_ratings in
  let rating_mismatch_percent :=
    percent rating_mismatch_count common_rows_count in
  let passed_id_check :=
    Qle_bool id_mismatch_percent mismatch_threshold_percent in
  let passed_rating_check :=
    Qle_bool rating_mismatch_percent mismatch_threshold_percent in
  let passed := passed_id_check && passed_rating_check in
  mk_verdict id_mismatch_count total_unique_pairs common_rows_count
    rating_mismatch_count passed passed
    (if passed || passed_id_check then None
     else Some (map (fun m => (m_user m, m_item m, _merge m)) uncommon_rows))
    (if passed || passed_rating_check then None
     else Some (map (fun m =>
                       let g := RtlChecker.fillna0 (predicted_rating_golden m) in
                       let c :=
                         RtlChecker.fillna0 (predicted_rating_coprocessor m) in
                       (m_user m, m_item m, g, c, Qabs (g - c)))
                  mismatched_ratings)).

End RecVerifier.

(** ** IEEE binary32 versions of scaling and descaling *)

Module Binary32.

Definition prec : Z := 24.
Definition emax : Z := 128.

(** The binary32 number nearest to an integer. *)
Definition of_int (z : Z) : spec_float := binary_normalize prec emax z 0 false.

(** [x.astype(np.int32)] on a binary32 number: the fraction is dropped; a
    number that is not finite or does not fit becomes the least [int32]. *)
Definition astype_int32 (x : spec_float) : Z :=
  match x with
  | S754_zero _ => 0
  | S754_finite s m e =>
      let mag := if 0 <=? e then Z.pos m * 2 ^ e else Z.pos m / 2 ^ (- e) in
      let t := if s then - mag else mag in
      if (- 2 ^ 31 <=? t) && (t <? 2 ^ 31) then t else - 2 ^ 31
  | _ => - 2 ^ 31
  end.

(** [(products * scale_factor).astype(np.int32)], for one value. *)
Definition quantize (v : spec_float) (scale_factor : Z) : Z :=
  astype_int32 (SFmul prec emax v (of_int scale_factor)).

(** [value.astype(np.float32) / scale_factor], for one value. *)
Definition dequantize (q : Z) (scale_factor : Z) : spec_float :=
  SFdiv prec emax (of_int q) (of_int scale_factor).

(** The rational a finite binary32 number stands for. *)
Definition to_Q (x : spec_float) : Q :=
  match x with
  | S754_finite s m e =>
      (inject_Z (if s then Z.neg m else Z.pos m) * Quantizer.pow2 e)%Q
  | _ => 0%Q
  end.

End Binary32.

(** ** IEEE binary64 versions of the two comparisons *)

Module Binary64.

Local Open Scope float_scope.

(** [np.isclose(a, b, atol=atol)] on binary64 numbers. *)
Definition isclose (a b atol : float) : bool :=
  PrimFloat.leb (PrimFloat.abs (a - b)) (atol + 1e-5 * PrimFloat.abs b).

(** [abs(g - c) > tolerance] on binary64 numbers. *)
Definition rating_differs (g c tolerance : float) : bool :=
  PrimFloat.ltb tolerance (PrimFloat.abs (g - c)).

End Binary64.

(** ** The traversal the generators share *)

Module Traversal.

Import PartialProdGen.

(** The body of the outer loop of every generator, with the body of its
    inner loop as a parameter: the stored entries of row [i], in order. *)
Definition traverse_row {V S : Type} (body : Z -> Z -> V -> S -> result S)
  (A_csr : csr V) (i : Z) (st : S) : result S :=
  row_start <- index (indptr A_csr) i ;;
  row_end <- index (indptr A_csr) (i + 1) ;;
  if row_start =? row_end then Ok st
  else
    let row_cols := slice (indices A_csr) row_start row_end in
    let row_vals := slice (data A_csr) row_start row_end in
    for_each (range (len row_cols))
      (fun local_idx st =>
         k <- index row_cols local_idx ;;
         a_ik <- index row_vals local_idx ;;
         body i k a_ik st)
      st.

(** The stored column indices of [A] that are row numbers of [AT]: the
    estimator counts these and skips the others. *)
Definition valid_indices_k {V : Type} (A_csr AT_csr : csr V) : list Z :=
  filter (fun k => k <? shape0 AT_csr) (indices A_csr).

(** A 2x3 matrix without stored entries, and arrays that are no matrix. *)
Definition empty_A : csr Z := mk_csr 2 3 [0; 0; 0] [] [].
Definition no_matrix : csr Z := mk_csr 5 5 [] [7] [].

(** A 1x2 matrix with entries in columns 0 and 1 and a 1x1 matrix: column 1
    of the first is not a row of the second. *)
Definition long_row_A : csr Z := mk_csr 1 2 [0; 2] [0; 1] [3; 4].
Definition one_row_AT : csr Z := mk_csr 1 1 [0; 1] [0] [5].

End Traversal.

(** ** The matrix product the triples stand for *)

Module MatMul.

Import PartialProdGen.

(** The entry [(r, c)] of an integer matrix: the sum of the values stored in
    row [r] under column [c]. *)
Definition dense_entry (M : csr Z) (r c : Z) : Z :=
  zsum (map snd (filter (fun ka => fst ka =? c) (row_of M r))).

(** The entry [(i, j)] of the product of two integer matrices, the
    contraction index running over the columns of the first. *)
Definition product_entry (A_csr AT_csr : csr Z) (i j : Z) : Z :=
  zsum (map (fun k => dense_entry A_csr i k * dense_entry AT_csr k j)
          (range (shape1 A_csr))).

(** The sum of the values of the triples with the key [(i, j)]. *)
Definition key_sum (triples : list (Z * Z * Z)) (i j : Z) : Z :=
  zsum (map (fun t => fst (fst t))
          (filter (fun t => (snd (fst t) =? i) && (snd t =? j)) triples)).

(** The product of two integers held in [float32] cells, as the generators
    store it: the exact product rounded to binary32, which is an integer
    again. *)
Definition mul32 (a b : Z) : Z :=
  Quantizer.trunc (Quantizer.float32 (inject_Z a * inject_Z b)).

(** Every stored value of the matrix has a magnitude of at most [bound]. *)
Definition bounded_data (bound : Z) (M : csr Z) : bool :=
  forallb (fun a => Z.abs a <=? bound) (data M).

End MatMul.

(** ** The item-similarity generators ([cob_part1.py]) *)

Module SimilarityGen.

Import PartialProdGen.

Section Similarity.

(** The value type, its product and its zero test as for the generators
    above, and [(x * scale_factor).astype(np.int32)] on one value. *)
Variable V : Type.
Variable mul : V -> V -> V.
Variable nonzero : V -> bool.
Variable scale : V -> Z.

(** A triple with its product scaled. *)
Definition scaled (t : V * Z * Z) : Z * Z * Z :=
  (scale (fst (fst t)), snd (fst t), snd t).

(** [produce_similarity_products_scipy_optimized(normalized_item_user_csr,
    scale_factor)]: the traversal, the trim and the zero filter are those of
    [produce_products_scipy_optimized], run on the matrix and its transpose;
    the products that are left are scaled before the columns are stacked. *)
Definition produce_similarity_products_scipy_optimized (A_csr : csr V)
  : result (list (Z * Z * Z)) :=
  let AT_csr := transpose A_csr in
  r <- fill_buffers mul A_csr AT_csr ;;
  triples <- finish nonzero (fst r) (snd r) ;;
  Ok (map scaled triples).

(** The body of the inner loop of the streaming version: the products of one
    stored entry are scaled, those that became zero are dropped, the buffer is
    flushed when the rest does not fit behind its cursor, and the rest is
    buffered when it fits into the buffer at all. *)
Definition similarity_entry (chunk_size : Z) (AT_csr : csr V) (i k : Z)
  (a_ik : V) (st : stream_state Z) : result (stream_state Z) :=
  at_row_start <- index (indptr AT_csr) k ;;
  at_row_end <- index (indptr AT_csr) (k + 1) ;;
  if at_row_start =? at_row_end then Ok st
  else
    let at_row_cols := slice (indices AT_csr) at_row_start at_row_end in
    let at_row_vals := slice (data AT_csr) at_row_start at_row_end in
    let products := map (mul a_ik) at_row_vals in
    let products_scaled := map scale products in
    let non_zero_mask := map nonzeroZ products_scaled in
    if existsb (fun b => b) non_zero_mask then
      let valid_products := filter nonzeroZ products_scaled in
      let valid_i := repeat i (List.length valid_products) in
      valid_j <- mask_select at_row_cols non_zero_mask ;;
      let valid_count := len valid_products in
      st1 <- (if buf_pos st + valid_count >? chunk_size then
                if buf_pos st >? 0 then flush st else Ok st
              else Ok st) ;;
      if valid_count <=? chunk_size then
        bp <- slice_assign (buf_products st1) (buf_pos st1)
                (buf_pos st1 + valid_count) valid_products ;;
        bi <- slice_assign (buf_i st1) (buf_pos st1)
                (buf_pos st1 + valid_count) valid_i ;;
        bj <- slice_assign (buf_j st1) (buf_pos st1)
                (buf_pos st1 + valid_count) valid_j ;;
        Ok (mk_stream bp bi bj (total_written st1)
              (buf_pos st1 + valid_count) (csv_rows st1))
      else Ok st1
    else Ok st.

(** The body of the outer loop of the streaming version. *)
Definition similarity_row (chunk_size : Z) (A_csr AT_csr : csr V) (i : Z)
  (st : stream_state Z) : result (stream_state Z) :=
  row_start <- index (indptr A_csr) i ;;
  row_end <- index (indptr A_csr) (i + 1) ;;
  if row_start =? row_end then Ok st
  else
    let row_cols := slice (indices A_csr) row_start row_end in
    let row_vals := slice (data A_csr) row_start row_end in
    for_each (range (len row_cols))
      (fun local_idx st =>
         k <- index row_cols local_idx ;;
         a_ik <- index row_vals local_idx ;;
         similarity_entry chunk_size AT_csr i k a_ik st)
      st.

(** [produce_similarity_products_stream(normalized_item_user_csr, csv_path,
    chunk_size, scale_factor)]: the returned count and the rows of the
    file. *)
Definition produce_similarity_products_stream (A_csr : csr V)
  (chunk_size : Z) : result (Z * list (Z * Z * Z)) :=
  let AT_csr := transpose A_csr in
  buf_products0 <- np_empty Z chunk_size ;;
  buf_i0 <- np_empty Z chunk_size ;;
  buf_j0 <- np_empty Z chunk_size ;;
  st <- for_each (range (shape0 A_csr))
          (similarity_row chunk_size A_csr AT_csr)
          (mk_stream buf_products0 buf_i0 buf_j0 0 0 []) ;;
  st' <- (if buf_pos st >? 0 then flush st else Ok st) ;;
  Ok (total_written st', csv_rows st').

(** *** What the streaming version writes *)

(** The scaled products of one stored entry that are not zero. *)
Definition scaled_entry (AT_csr : csr V) (i : Z) (ka : Z * V)
  : list (Z * Z * Z) :=
  filter (keeps nonzeroZ) (map scaled (entry_products mul AT_csr i ka)).

(** A group of triples, or nothing when the group is longer than the
    buffer. *)
Definition fitting (chunk_size : Z) (group : list (Z * Z * Z))
  : list (Z * Z * Z) :=
  if len group <=? chunk_size then group else [].

(** The groups of a row of the matrix, and of the matrix. *)
Definition fitting_row (chunk_size : Z) (A_csr AT_csr : csr V) (i : Z)
  : list (Z * Z * Z) :=
  flat_map (fun ka => fitting chunk_size (scaled_entry AT_csr i ka))
    (row_of A_csr i).

Definition fitting_products (chunk_size : Z) (A_csr : csr V)
  : list (Z * Z * Z) :=
  flat_map (fitting_row chunk_size A_csr (transpose A_csr))
    (range (shape0 A_csr)).

End Similarity.

(** Rational matrices, for examples: the product, the zero test, and the
    scaling by 65536 with the fraction dropped. *)
Definition nonzeroQ (x : Q) : bool := negb (Qeq_bool x 0).
Definition scaleQ (x : Q) : Z := Quantizer.trunc (x * inject_Z 65536).

(** The 1x2 matrix [[1/512, 1]]. *)
Definition small_A : csr Q := mk_csr 1 2 [0; 2] [0; 1] [(1 # 512)%Q; 1%Q].

(** The 2x1 matrix [[1], [1]]. *)
Definition ones_column : csr Q := mk_csr 2 1 [0; 1; 2] [0; 0] [1%Q; 1%Q].

End SimilarityGen.

(** ** The verdict of the RTL regression checker ([main] of
    [Mul_verifier.py]) *)

Module RtlMain.

Import RtlChecker.

(** The keys of a report never go down. *)
Fixpoint ascending (report : list report_row) : bool :=
  match report with
  | [] => true
  | x :: rest =>
      forallb (fun y => key_leb (rep_key x) (rep_key y)) rest
      && ascending rest
  end.

(** The unsorted lines of the report: the merged rows with the missing
    values filled and the match column. *)
Definition report_line (tol : Q) (m : key * option Q * option Q)
  : report_row :=
  mk_report (fst (fst m)) (fillna0 (snd (fst m))) (fillna0 (snd m))
    (isclose (fillna0 (snd (fst m))) (fillna0 (snd m)) tol).

(** [report["match"].all()] *)
Definition all_match (report : list report_row) : bool :=
  forallb matched report.

(** [bad = len(report) - report["match"].sum()] *)
Definition bad (report : list report_row) : Z :=
  len report - zsum (map (fun x => if matched x then 1 else 0) report).

(** The status [main] exits with once the report is written. *)
Definition exit_status (report : list report_row) : Z :=
  if all_match report then 0 else 1.

End RtlMain.

(** ** The neighbourhood filter and the ranking of [cob_part3.py] *)

Module Recommender.

(** [a[i] = v] *)
Definition set_item {A : Type} (a : list A) (i : Z) (v : A)
  : result (list A) :=
  let i' := if i <? 0 then i + len a else i in
  if (0 <=? i') && (i' <? len a) then
    Ok (firstn (Z.to_nat i') a ++ v :: skipn (Z.to_nat (i' + 1)) a)
  else Raise IndexError.

(** Sorting in ascending order. *)
Fixpoint insert_sorted (x : Q) (l : list Q) : list Q :=
  match l with
  | [] => [x]
  | y :: l' => if Qle_bool x y then x :: l else y :: insert_sorted x l'
  end.

Definition np_sort (a : list Q) : list Q := fold_right insert_sorted [] a.

(** [np.partition(a, kth)].  NumPy promises the element that sorting puts at
    position [kth], smaller ones before it and larger ones behind; the sorted
    array is such an arrangement, and the source reads position [kth]
    alone.  A position outside the array is refused. *)
Definition np_partition (a : list Q) (kth : Z) : result (list Q) :=
  let kth' := if kth <? 0 then kth + len a else kth in
  if (0 <=? kth') && (kth' <? len a) then Ok (np_sort a)
  else Raise ValueError.

(** [x < y] *)
Definition Qlt_bool (x y : Q) : bool := negb (Qle_bool y x).

(** The body of the loop of the neighbourhood filter, on row [i]:
    [sim_items[i] = 0], then, when the row has more than [k] entries, the
    entries below the k-th largest are set to 0. *)
Definition topk_row (k i : Z) (sim_items : list Q) : result (list Q) :=
  sim_items <- set_item sim_items i 0%Q ;;
  if len sim_items >? k then
    part <- np_partition sim_items (- k) ;;
    threshold <- index part (- k) ;;
    Ok (map (fun x => if Qlt_bool x threshold then 0%Q else x) sim_items)
  else Ok sim_items.

(** [for i in range(n_items)] over the rows of the dense similarity array. *)
Definition topk_filter (n_items k : Z) (item_similarity_array : list (list Q))
  : result (list (list Q)) :=
  for_each (range n_items)
    (fun i arr =>
       sim_items <- index arr i ;;
       sim_items' <- topk_row k i sim_items ;;
       set_item arr i sim_items')
    item_similarity_array.

(** What [np.argsort] returns: the positions of the array, each once, in an
    order in which the values never go down.  NumPy's default sort does not
    fix the order of equal values, so the function is a parameter of the
    ranking and only this much is known of it. *)
Definition argsort_correct (argsort : list Q -> list Z) : Prop :=
  forall a : list Q,
    Permutation (argsort a) (range (len a))
    /\ StronglySorted
         (fun p q => (nth (Z.to_nat p) a 0 <= nth (Z.to_nat q) a 0)%Q)
         (argsort a).

(** An argsort: insertion of the positions by their values, the earlier
    position first among equal values. *)
Fixpoint insert_position (a : list Q) (p : Z) (l : list Z) : list Z :=
  match l with
  | [] => [p]
  | q :: l' =>
      if Qle_bool (nth (Z.to_nat p) a 0%Q) (nth (Z.to_nat q) a 0%Q)
      then p :: l else q :: insert_position a p l'
  end.

Definition stable_argsort (a : list Q) : list Z :=
  fold_right (insert_position a) [] (range (len a)).

(** [[f(x) for x in l]], stopping at the first exception. *)
Fixpoint comprehension {A B : Type} (f : A -> result B) (l : list A)
  : result (list B) :=
  match l with
  | [] => Ok []
  | x :: l' => y <- f x ;; ys <- comprehension f l' ;; Ok (y :: ys)
  end.

(** [d[k] = v] on a dictionary kept in insertion order. *)
Definition dict_set {X : Type} (d : list (Z * X)) (k : Z) (v : X)
  : list (Z * X) :=
  if existsb (fun e => fst e =? k) d
  then map (fun e => if fst e =? k then (k, v) else e) d
  else d ++ [(k, v)].

Section Ranking.

Variable argsort : list Q -> list Z.

(** [np.where(row == 0)[0]] *)
Definition unrated_items (user_row : list Q) : list Z :=
  filter (fun j => Qeq_bool (nth (Z.to_nat j) user_row 0%Q) 0)
    (range (len user_row)).

(** The body of the loop of [get_top_recommendations] for one user: the
    items the user has not rated, ranked by predicted rating, the first [n]
    of them with their ratings. *)
Definition recommend_user (n : Z) (user_row predicted_row : list Q)
  : result (list (Z * Q)) :=
  let unrated_items := unrated_items user_row in
  if len unrated_items =? 0 then Ok []
  else
    predicted_ratings <- take_indices predicted_row unrated_items ;;
    let sorted_indices := argsort (map Qopp predicted_ratings) in
    let top_indices := slice sorted_indices 0 n in
    comprehension
      (fun idx =>
         item <- index unrated_items idx ;;
         rating <- index predicted_row item ;;
         Ok (item, rating))
      top_indices.

(** [get_top_recommendations(recommendations_matrix, user_item_matrix, n)]
    on the two dense arrays. *)
Definition get_top_recommendations (recommendations_array
  user_item_array : list (list Q)) (n : Z)
  : result (list (Z * list (Z * Q))) :=
  let n_users := len recommendations_array in
  for_each (range n_users)
    (fun user_id user_recommendations =>
       user_row <- index user_item_array user_id ;;
       predicted_row <- index recommendations_array user_id ;;
       recommended_items <- recommend_user n user_row predicted_row ;;
       Ok (dict_set user_recommendations user_id recommended_items))
    [].

End Ranking.

(** [save_recommendations_to_csv]: the records of the file, or [None] when
    there is no recommendation and no file is written. *)
Definition save_recommendations_to_csv
  (user_recommendations : list (Z * list (Z * Q)))
  : option (list RecVerifier.rec_row) :=
  let recommendations_list :=
    flat_map
      (fun entry =>
         map (fun item => RecVerifier.mk_rec (fst entry) (fst item) (snd item))
           (snd entry))
      user_recommendations in
  match recommendations_list with
  | [] => None
  | _ :: _ => Some recommendations_list
  end.

End Recommender.

(** * Properties *)

(** ** Python and NumPy building blocks *)

Lemma len_nonneg {A : Type} (l : list A) : 0 <= len l.
Proof. unfold len. lia. Qed.

Lemma len_app {A : Type} (l1 l2 : list A) : len (l1 ++ l2) = len l1 + len l2.
Proof. unfold len. rewrite length_app. lia. Qed.

Lemma len_nil_inv {A : Type} (l : list A) : len l = 0 -> l = [].
Proof. destruct l; [ reflexivity | unfold len; simpl; lia ]. Qed.

Lemma len_map {A B : Type} (f : A -> B) (l : list A) : len (map f l) = len l.
Proof. unfold len. now rewrite length_map. Qed.

Lemma len_repeat {A : Type} (x : A) (n : nat) : len (repeat x n) = Z.of_nat n.
Proof. unfold len. now rewrite repeat_length. Qed.

Section PyFacts.

Context {A : Type}.

Lemma index_ok (l : list A) (i : Z) (d : A) :
  0 <= i < len l -> index l i = Ok (nth (Z.to_nat i) l d).
Proof.
  intro H. unfold index.
  destruct (i <? 0) eqn:E; [ apply Z.ltb_lt in E; lia | ].
  assert (Hb : (0 <=? i) && (i <? len l) = true).
  { apply andb_true_iff. split; [ apply Z.leb_le | apply Z.ltb_lt ]; lia. }
  rewrite Hb.
  destruct (nth_error l (Z.to_nat i)) as [x | ] eqn:F.
  - now rewrite (nth_error_nth _ _ d F).
  - apply nth_error_None in F. unfold len in H. lia.
Qed.

Lemma index_negative (l : list A) (i : Z) (d : A) :
  - len l <= i < 0 -> index l i = Ok (nth (Z.to_nat (i + len l)) l d).
Proof.
  intro H. unfold index.
  destruct (i <? 0) eqn:E; [ | apply Z.ltb_ge in E; lia ].
  assert (Hb : (0 <=? i + len l) && (i + len l <? len l) = true).
  { apply andb_true_iff. split; [ apply Z.leb_le | apply Z.ltb_lt ]; lia. }
  rewrite Hb.
  destruct (nth_error l (Z.to_nat (i + len l))) as [x | ] eqn:F.
  - now rewrite (nth_error_nth _ _ d F).
  - apply nth_error_None in F. unfold len in *. lia.
Qed.

Lemma index_out (l : list A) (i : Z) :
  len l <= i -> index l i = Raise IndexError.
Proof.
  intro H. unfold index. pose proof (len_nonneg l).
  destruct (i <? 0) eqn:E; [ apply Z.ltb_lt in E; lia | ].
  assert (Hb : (i <? len l) = false) by (apply Z.ltb_ge; lia).
  rewrite Hb, andb_false_r. reflexivity.
Qed.

Lemma clamp_in (n i : Z) : 0 <= i <= n -> clamp n i = i.
Proof.
  intro H. unfold clamp.
  destruct (i <? 0) eqn:E; [ apply Z.ltb_lt in E; lia | lia ].
Qed.

Lemma slice_ok (l : list A) (s e : Z) :
  0 <= s <= e -> e <= len l ->
  slice l s e = firstn (Z.to_nat (e - s)) (skipn (Z.to_nat s) l).
Proof.
  intros H1 H2. unfold slice. now rewrite !clamp_in by lia.
Qed.

Lemma len_slice (l : list A) (s e : Z) :
  0 <= s <= e -> e <= len l -> len (slice l s e) = e - s.
Proof.
  intros H1 H2. rewrite slice_ok by assumption. unfold len in *.
  rewrite length_firstn, length_skipn. lia.
Qed.

Lemma slice_empty (l : list A) (s : Z) : 0 <= s <= len l -> slice l s s = [].
Proof.
  intro H. rewrite slice_ok by lia. now rewrite Z.sub_diag.
Qed.

Lemma slice_full (l : list A) : slice l 0 (len l) = l.
Proof.
  pose proof (len_nonneg l). rewrite slice_ok by lia. simpl.
  rewrite Z.sub_0_r. unfold len. rewrite Nat2Z.id. apply firstn_all.
Qed.

Lemma firstn_plus (n m : nat) (l : list A) :
  firstn n l ++ firstn m (skipn n l) = firstn (n + m) l.
Proof.
  revert l. induction n as [ | n IH ]; intro l; [ reflexivity | ].
  destruct l as [ | x l ]; simpl.
  - now rewrite firstn_nil.
  - now rewrite IH.
Qed.

Lemma slice_app (l : list A) (a b c : Z) :
  0 <= a <= b -> b <= c -> c <= len l ->
  slice l a b ++ slice l b c = slice l a c.
Proof.
  intros H1 H2 H3. rewrite !slice_ok by lia.
  replace (Z.to_nat b) with (Z.to_nat (b - a) + Z.to_nat a)%nat by lia.
  rewrite <- skipn_skipn, firstn_plus. f_equal. lia.
Qed.

Lemma slice_In (l : list A) (s e : Z) (x : A) : In x (slice l s e) -> In x l.
Proof.
  unfold slice. intro H.
  set (n := Z.to_nat (clamp (len l) e - clamp (len l) s)) in H.
  set (k := Z.to_nat (clamp (len l) s)) in H.
  rewrite <- (firstn_skipn k l). apply in_or_app. right.
  rewrite <- (firstn_skipn n (skipn k l)). apply in_or_app. left. exact H.
Qed.

End PyFacts.

(** *** Buffers *)

Section BufferFacts.

Context {A : Type}.

Lemma holds_empty (b : buffer A) : holds b [].
Proof. exists b. reflexivity. Qed.

Lemma slice_assign_holds (b : buffer A) (xs vals : list A) :
  holds b xs -> len xs + len vals <= len b ->
  exists b', slice_assign b (len xs) (len xs + len vals) vals = Ok b'
             /\ holds b' (xs ++ vals) /\ len b' = len b.
Proof.
  intros [rest ->] Hcap. rewrite len_app, len_map in Hcap.
  pose proof (len_nonneg xs). pose proof (len_nonneg vals).
  pose proof (len_nonneg rest).
  unfold slice_assign. rewrite len_app, len_map.
  rewrite !clamp_in by lia.
  replace (Z.max 0 (len xs + len vals - len xs)) with (len vals) by lia.
  rewrite Z.eqb_refl.
  eexists. split; [ reflexivity | ].
  assert (E1 : firstn (Z.to_nat (len xs)) (map Some xs ++ rest) = map Some xs).
  { unfold len. rewrite Nat2Z.id.
    rewrite <- (length_map Some xs) at 1.
    rewrite firstn_app, firstn_all, Nat.sub_diag. simpl. apply app_nil_r. }
  assert (E2 : skipn (Z.to_nat (len xs + len vals)) (map Some xs ++ rest)
               = skipn (List.length vals) rest).
  { unfold len. rewrite <- Nat2Z.inj_add, Nat2Z.id.
    rewrite skipn_app, length_map.
    rewrite skipn_all2 by (rewrite length_map; lia). simpl. f_equal. lia. }
  rewrite E1, E2. split.
  - exists (skipn (List.length vals) rest). now rewrite map_app, app_assoc.
  - rewrite !len_app, !len_map. unfold len in *.
    rewrite length_skipn. lia.
Qed.

Lemma slice_fill_holds (b : buffer A) (xs : list A) (v : A) (n : Z) :
  holds b xs -> 0 <= n -> len xs + n <= len b ->
  holds (slice_fill b (len xs) (len xs + n) v) (xs ++ repeat v (Z.to_nat n))
  /\ len (slice_fill b (len xs) (len xs + n) v) = len b.
Proof.
  intros [rest ->] Hn Hcap. rewrite len_app, len_map in Hcap.
  pose proof (len_nonneg xs). pose proof (len_nonneg rest).
  unfold slice_fill. rewrite len_app, len_map.
  rewrite !clamp_in by lia.
  replace (Z.max 0 (len xs + n - len xs)) with n by lia.
  assert (E1 : firstn (Z.to_nat (len xs)) (map Some xs ++ rest) = map Some xs).
  { unfold len. rewrite Nat2Z.id.
    rewrite <- (length_map Some xs) at 1.
    rewrite firstn_app, firstn_all, Nat.sub_diag. simpl. apply app_nil_r. }
  assert (E2 : skipn (Z.to_nat (len xs + n)) (map Some xs ++ rest)
               = skipn (Z.to_nat n) rest).
  { rewrite skipn_app, length_map.
    rewrite skipn_all2 by (rewrite length_map; unfold len; lia).
    simpl. f_equal. unfold len. lia. }
  rewrite E1, E2. split.
  - exists (skipn (Z.to_nat n) rest).
    rewrite map_app, map_repeat. now rewrite <- app_assoc.
  - rewrite !len_app, len_map. unfold len in *.
    rewrite repeat_length, length_skipn. lia.
Qed.

Lemma read_cells_some (xs : list A) : read_cells (map Some xs) = Ok xs.
Proof.
  induction xs as [ | x xs IH ]; simpl; [ reflexivity | now rewrite IH ].
Qed.

Lemma read_prefix (b : buffer A) (xs : list A) :
  holds b xs -> read_cells (slice b 0 (len xs)) = Ok xs.
Proof.
  intros [rest ->]. pose proof (len_nonneg xs). pose proof (len_nonneg rest).
  rewrite slice_ok by (rewrite ?len_app, ?len_map; lia).
  simpl. rewrite Z.sub_0_r. unfold len. rewrite Nat2Z.id.
  rewrite <- (length_map Some xs) at 1.
  rewrite firstn_app, firstn_all, Nat.sub_diag. simpl. rewrite app_nil_r.
  apply read_cells_some.
Qed.

Lemma read_prefix_at (b : buffer A) (xs : list A) (n : Z) :
  holds b xs -> n = len xs -> read_cells (slice b 0 n) = Ok xs.
Proof. intros H ->. now apply read_prefix. Qed.

Lemma holds_full (b : buffer A) (xs : list A) :
  holds b xs -> len b = len xs -> b = map Some xs.
Proof.
  intros [rest ->] H. rewrite len_app, len_map in H.
  assert (Hr : len rest = 0) by lia. apply len_nil_inv in Hr. subst rest.
  apply app_nil_r.
Qed.

End BufferFacts.

Lemma len_flat_map {A B : Type} (f : A -> list B) (l : list A) :
  len (flat_map f l) = zsum (map (fun x => len (f x)) l).
Proof.
  induction l as [ | x l IH ]; simpl; [ reflexivity | ].
  now rewrite len_app, IH.
Qed.

Lemma zsum_app (l1 l2 : list Z) : zsum (l1 ++ l2) = zsum l1 + zsum l2.
Proof.
  induction l1 as [ | x l1 IH ]; simpl; [ reflexivity | rewrite IH; lia ].
Qed.

Lemma zsum_flat_map {A : Type} (f : A -> list Z) (l : list A) :
  zsum (flat_map f l) = zsum (map (fun x => zsum (f x)) l).
Proof.
  induction l as [ | x l IH ]; simpl; [ reflexivity | ].
  now rewrite zsum_app, IH.
Qed.

Lemma zsum_nonneg (l : list Z) : Forall (fun x => 0 <= x) l -> 0 <= zsum l.
Proof.
  induction 1 as [ | x l Hx _ IH ]; simpl; lia.
Qed.

Lemma zsum_bound (l : list Z) (c : Z) :
  Forall (fun x => 0 <= x <= c) l -> 0 <= zsum l <= len l * c.
Proof.
  unfold len. induction 1 as [ | x l Hx _ IH ]; simpl List.length; simpl zsum;
    [ lia | ].
  rewrite Nat2Z.inj_succ. lia.
Qed.

Lemma wrap64_small (z : Z) : - 2 ^ 63 <= z < 2 ^ 63 -> wrap64 z = z.
Proof.
  intro H. unfold wrap64. rewrite Z.mod_small; lia.
Qed.

(** The 64-bit sum of non-negative numbers is their sum when it fits. *)
Lemma sum_int64_exact (l : list Z) :
  Forall (fun x => 0 <= x) l -> zsum l < 2 ^ 63 -> sum_int64 l = zsum l.
Proof.
  unfold sum_int64.
  assert (G : forall acc, 0 <= acc -> Forall (fun x => 0 <= x) l ->
                acc + zsum l < 2 ^ 63 ->
                fold_left (fun acc x => wrap64 (acc + x)) l acc = acc + zsum l).
  { induction l as [ | x l IH ]; intros acc Hacc Hall Hfit; simpl.
    - lia.
    - inversion Hall as [ | ? ? Hx Hl ]; subst. simpl in Hfit.
      pose proof (zsum_nonneg l Hl).
      rewrite wrap64_small by lia. rewrite IH; [ lia | lia | exact Hl | lia ]. }
  intros Hall Hfit. now rewrite G.
Qed.

(** A loop over the positions of two arrays is a loop over their pairs. *)
Lemma for_each_positions {A B S : Type} (f : A -> B -> S -> result S)
  (cols : list A) (vals : list B) (st : S) :
  List.length cols = List.length vals ->
  for_each (range (len cols))
    (fun idx st => k <- index cols idx ;; a <- index vals idx ;; f k a st) st
  = for_each (combine cols vals) (fun ka st => f (fst ka) (snd ka) st) st.
Proof.
  intro Hlen. unfold range, len. rewrite Nat2Z.id.
  assert (G : forall (rc : list A) (rv : list B) (pc : list A) (pv : list B) st,
             List.length pc = List.length pv -> List.length rc = List.length rv ->
             for_each (map Z.of_nat (seq (List.length pc) (List.length rc)))
               (fun idx st =>
                  k <- index (pc ++ rc) idx ;;
                  a <- index (pv ++ rv) idx ;; f k a st) st
             = for_each (combine rc rv)
                 (fun ka st => f (fst ka) (snd ka) st) st).
  { induction rc as [ | c rc IH ]; intros rv pc pv st0 Hp Hr.
    - reflexivity.
    - destruct rv as [ | v rv ]; [ discriminate | ].
      simpl List.length. simpl seq. simpl map. simpl combine. simpl for_each.
      rewrite (index_ok (pc ++ c :: rc) _ c)
        by (rewrite len_app; unfold len; simpl; lia).
      rewrite (index_ok (pv ++ v :: rv) _ v)
        by (rewrite len_app; unfold len; simpl; lia).
      rewrite Nat2Z.id. rewrite nth_middle. rewrite Hp, nth_middle. simpl.
      destruct (f c v st0) as [st1 | e]; simpl; [ | reflexivity ].
      specialize (IH rv (pc ++ [c]) (pv ++ [v]) st1).
      rewrite <- !app_assoc in IH. simpl in IH.
      rewrite length_app in IH. simpl in IH.
      rewrite Nat.add_1_r in IH. rewrite <- Hp. apply IH.
      + rewrite !length_app. simpl. lia.
      + simpl in Hr. lia. }
  apply (G cols vals [] [] st); [ reflexivity | exact Hlen ].
Qed.

(** *** Row pointers *)

Lemma nondecreasing_nth (l : list Z) (i j : nat) :
  PartialProdGen.nondecreasing l = true ->
  (i <= j < List.length l)%nat -> nth i l 0 <= nth j l 0.
Proof.
  revert i j. induction l as [ | x l IH ]; intros i j Hmono Hij.
  - simpl in Hij. lia.
  - destruct l as [ | y l ].
    + simpl in Hij. assert (i = 0%nat) by lia. assert (j = 0%nat) by lia.
      subst. lia.
    + simpl in Hmono. apply andb_true_iff in Hmono. destruct Hmono as [Hxy Hm].
      apply Z.leb_le in Hxy.
      destruct i as [ | i ]; destruct j as [ | j ]; try lia.
      * change (nth (S j) (x :: y :: l) 0) with (nth j (y :: l) 0).
        change (nth 0 (x :: y :: l) 0) with x.
        specialize (IH 0%nat j Hm). simpl in Hij.
        assert (H0 : (0 <= j < List.length (y :: l))%nat) by (simpl; lia).
        specialize (IH H0). simpl in IH. simpl. lia.
      * change (nth (S j) (x :: y :: l) 0) with (nth j (y :: l) 0).
        change (nth (S i) (x :: y :: l) 0) with (nth i (y :: l) 0).
        apply IH; [ exact Hm | simpl in *; lia ].
Qed.

Lemma last_nth (l : list Z) : last l 0 = nth (List.length l - 1) l 0.
Proof.
  induction l as [ | x l IH ]; [ reflexivity | ].
  destruct l as [ | y l ]; [ reflexivity | ].
  change (last (x :: y :: l) 0) with (last (y :: l) 0). rewrite IH.
  simpl List.length.
  replace (S (S (List.length l)) - 1)%nat with (S (List.length l)) by lia.
  replace (S (List.length l) - 1)%nat with (List.length l) by lia.
  reflexivity.
Qed.

Lemma diff_length (l : list Z) : List.length (diff l) = (List.length l - 1)%nat.
Proof.
  induction l as [ | x l IH ]; [ reflexivity | ].
  destruct l as [ | y l ]; [ reflexivity | ].
  change (diff (x :: y :: l)) with ((y - x) :: diff (y :: l)).
  simpl List.length in *. lia.
Qed.

Lemma diff_nth (l : list Z) (k : nat) :
  (k + 1 < List.length l)%nat ->
  nth k (diff l) 0 = nth (k + 1) l 0 - nth k l 0.
Proof.
  revert k. induction l as [ | x l IH ]; intros k Hk; [ simpl in Hk; lia | ].
  destruct l as [ | y l ]; [ simpl in Hk; lia | ].
  change (diff (x :: y :: l)) with ((y - x) :: diff (y :: l)).
  destruct k as [ | k ]; [ reflexivity | ].
  change (nth (S k) ((y - x) :: diff (y :: l)) 0) with (nth k (diff (y :: l)) 0).
  rewrite IH by (simpl in *; lia). reflexivity.
Qed.

Lemma map_fst_combine {A B : Type} (l : list A) (l' : list B) :
  List.length l = List.length l' -> map fst (combine l l') = l.
Proof.
  revert l'. induction l as [ | x l IH ]; intros [ | y l' ] H; simpl in *;
    try discriminate; [ reflexivity | ].
  f_equal. apply IH. lia.
Qed.

Lemma map_snd_combine {A B : Type} (l : list A) (l' : list B) :
  List.length l = List.length l' -> map snd (combine l l') = l'.
Proof.
  revert l'. induction l as [ | x l IH ]; intros [ | y l' ] H; simpl in *;
    try discriminate; [ reflexivity | ].
  f_equal. apply IH. lia.
Qed.

Lemma map_flat_map {A B C : Type} (g : B -> C) (f : A -> list B) (l : list A) :
  map g (flat_map f l) = flat_map (fun x => map g (f x)) l.
Proof.
  induction l as [ | x l IH ]; simpl; [ reflexivity | ].
  now rewrite map_app, IH.
Qed.

Lemma flat_map_ext_in {A B : Type} (f g : A -> list B) (l : list A) :
  (forall x, In x l -> f x = g x) -> flat_map f l = flat_map g l.
Proof.
  induction l as [ | x l IH ]; intro H; simpl; [ reflexivity | ].
  rewrite (H x) by (left; reflexivity). f_equal. apply IH.
  intros y Hy. apply H. right. exact Hy.
Qed.

Lemma take_indices_ok {A : Type} (a : list A) (ks : list Z) (g : Z -> A) :
  (forall k, In k ks -> index a k = Ok (g k)) ->
  take_indices a ks = Ok (map g ks).
Proof.
  induction ks as [ | k ks IH ]; intro H; simpl; [ reflexivity | ].
  rewrite (H k) by (left; reflexivity). simpl.
  rewrite IH by (intros k' Hk'; apply H; right; exact Hk'). reflexivity.
Qed.

Lemma In_range (n i : Z) : In i (range n) <-> 0 <= i < n.
Proof.
  unfold range. rewrite in_map_iff. split.
  - intros [x [<- Hx]]. apply in_seq in Hx. lia.
  - intro H. exists (Z.to_nat i). split; [ lia | ]. apply in_seq. lia.
Qed.

(** ** The estimator and the pre-allocated generator *)

Section GeneratorFacts.

Import PartialProdGen.

Variable V : Type.
Variable mul : V -> V -> V.
Variable nonzero : V -> bool.

Lemma valid_csr_facts (M : csr V) :
  valid_csr M = true ->
  0 <= shape0 M
  /\ len (indptr M) = shape0 M + 1
  /\ row_ptr M 0 = 0
  /\ nondecreasing (indptr M) = true
  /\ row_ptr M (shape0 M) = len (indices M)
  /\ len (data M) = len (indices M)
  /\ Forall (fun k => 0 <= k < shape1 M) (indices M).
Proof.
  unfold valid_csr, row_ptr. rewrite !andb_true_iff.
  intros [[[[[[[H1 H2] H3] H4] H5] H6] H7] H8].
  apply Z.leb_le in H1. apply Z.eqb_eq in H3, H4, H6, H7.
  repeat split; try assumption.
  - rewrite <- H6, last_nth. f_equal. unfold len in H3. lia.
  - apply Forall_forall. intros k Hk.
    rewrite forallb_forall in H8. specialize (H8 k Hk).
    apply andb_true_iff in H8. destruct H8 as [Ha Hb].
    apply Z.leb_le in Ha. apply Z.ltb_lt in Hb. lia.
Qed.

Lemma ptr_mono (M : csr V) (a b : Z) :
  valid_csr M = true -> 0 <= a <= b -> b <= shape0 M ->
  0 <= row_ptr M a /\ row_ptr M a <= row_ptr M b
  /\ row_ptr M b <= len (indices M).
Proof.
  intros Hv Hab Hb.
  destruct (valid_csr_facts M Hv) as [H0 [Hlen [Hfirst [Hmono [Hlast _]]]]].
  unfold len in Hlen.
  assert (G : forall x y, 0 <= x <= y -> y <= shape0 M ->
                          row_ptr M x <= row_ptr M y).
  { intros x y Hxy Hy. apply nondecreasing_nth; [ exact Hmono | lia ]. }
  repeat split.
  - rewrite <- Hfirst. apply G; lia.
  - apply G; lia.
  - rewrite <- Hlast. apply G; lia.
Qed.

Lemma index_ptr (M : csr V) (r : Z) :
  valid_csr M = true -> 0 <= r <= shape0 M ->
  index (indptr M) r = Ok (row_ptr M r).
Proof.
  intros Hv Hr. destruct (valid_csr_facts M Hv) as [_ [Hlen _]].
  apply index_ok. lia.
Qed.

Lemma row_nnz_bounds (M : csr V) (r : Z) :
  valid_csr M = true -> 0 <= r < shape0 M ->
  0 <= row_nnz M r <= len (indices M).
Proof.
  intros Hv Hr. unfold row_nnz.
  destruct (ptr_mono M r (r + 1) Hv) as [H1 [H2 H3]]; lia.
Qed.

Lemma row_slices (M : csr V) (r : Z) :
  valid_csr M = true -> 0 <= r < shape0 M ->
  len (slice (indices M) (row_ptr M r) (row_ptr M (r + 1))) = row_nnz M r
  /\ len (slice (data M) (row_ptr M r) (row_ptr M (r + 1))) = row_nnz M r.
Proof.
  intros Hv Hr. unfold row_nnz.
  destruct (valid_csr_facts M Hv) as [_ [_ [_ [_ [_ [Hdata _]]]]]].
  destruct (ptr_mono M r (r + 1) Hv) as [H1 [H2 H3]]; try lia.
  split; apply len_slice; lia.
Qed.

Lemma row_slices_length (M : csr V) (r : Z) :
  valid_csr M = true -> 0 <= r < shape0 M ->
  List.length (slice (indices M) (row_ptr M r) (row_ptr M (r + 1)))
  = List.length (slice (data M) (row_ptr M r) (row_ptr M (r + 1))).
Proof.
  intros Hv Hr. destruct (row_slices M r Hv Hr) as [H1 H2].
  unfold len in H1, H2. lia.
Qed.

Lemma row_of_cols (M : csr V) (r : Z) :
  valid_csr M = true -> 0 <= r < shape0 M ->
  map fst (row_of M r) = slice (indices M) (row_ptr M r) (row_ptr M (r + 1)).
Proof.
  intros Hv Hr. unfold row_of. apply map_fst_combine.
  now apply row_slices_length.
Qed.

Lemma row_of_vals (M : csr V) (r : Z) :
  valid_csr M = true -> 0 <= r < shape0 M ->
  map snd (row_of M r) = slice (data M) (row_ptr M r) (row_ptr M (r + 1)).
Proof.
  intros Hv Hr. unfold row_of. apply map_snd_combine.
  now apply row_slices_length.
Qed.

Lemma row_of_len (M : csr V) (r : Z) :
  valid_csr M = true -> 0 <= r < shape0 M -> len (row_of M r) = row_nnz M r.
Proof.
  intros Hv Hr. rewrite <- (len_map fst), row_of_cols by assumption.
  now apply row_slices.
Qed.

Lemma row_of_In (M : csr V) (r : Z) (ka : Z * V) :
  valid_csr M = true -> In ka (row_of M r) -> 0 <= fst ka < shape1 M.
Proof.
  intros Hv Hin. destruct (valid_csr_facts M Hv) as [_ [_ [_ [_ [_ [_ Hall]]]]]].
  rewrite Forall_forall in Hall. apply Hall.
  unfold row_of in Hin. destruct ka as [k a].
  apply in_combine_l in Hin. eapply slice_In. exact Hin.
Qed.

(** The rows of a matrix, one after the other, are its stored entries. *)
Lemma rows_concat (M : csr V) (n : nat) (o : Z) :
  valid_csr M = true -> 0 <= o -> o + Z.of_nat n <= shape0 M ->
  flat_map (fun i => slice (indices M) (row_ptr M i) (row_ptr M (i + 1)))
    (map Z.of_nat (seq (Z.to_nat o) n))
  = slice (indices M) (row_ptr M o) (row_ptr M (o + Z.of_nat n)).
Proof.
  intro Hv. revert o. induction n as [ | n IH ]; intros o Ho Hn.
  - simpl. rewrite Z.add_0_r.
    destruct (ptr_mono M o o Hv) as [H1 [H2 H3]]; try lia.
    symmetry. apply slice_empty. lia.
  - simpl seq. simpl map. simpl flat_map. rewrite Z2Nat.id by lia.
    replace (S (Z.to_nat o)) with (Z.to_nat (o + 1)) by lia.
    rewrite IH by lia.
    replace (o + 1 + Z.of_nat n) with (o + Z.of_nat (S n)) by lia.
    destruct (ptr_mono M o (o + 1) Hv) as [H1 [H2 H3]]; try lia.
    destruct (ptr_mono M (o + 1) (o + Z.of_nat (S n)) Hv) as [H4 [H5 H6]];
      try lia.
    apply slice_app; lia.
Qed.

Lemma rows_concat_all (M : csr V) :
  valid_csr M = true ->
  flat_map (fun i => slice (indices M) (row_ptr M i) (row_ptr M (i + 1)))
    (range (shape0 M))
  = indices M.
Proof.
  intro Hv. destruct (valid_csr_facts M Hv) as [H0 [_ [Hfirst [_ [Hlast _]]]]].
  unfold range. change 0%nat with (Z.to_nat 0).
  rewrite (rows_concat M (Z.to_nat (shape0 M)) 0 Hv) by lia.
  rewrite Z2Nat.id by lia. simpl. rewrite Hfirst, Hlast. apply slice_full.
Qed.

(** *** The number of products *)

Section Pair.

Variables A_csr AT_csr : csr V.
Hypothesis valid_A : valid_csr A_csr = true.
Hypothesis valid_AT : valid_csr AT_csr = true.
Hypothesis shapes : shape0 AT_csr = shape1 A_csr.

Lemma entry_products_len (i : Z) (ka : Z * V) :
  0 <= fst ka < shape0 AT_csr ->
  len (entry_products mul AT_csr i ka) = row_nnz AT_csr (fst ka).
Proof.
  intro Hk. unfold entry_products. rewrite len_map. now apply row_of_len.
Qed.

Lemma row_products_len (i : Z) :
  0 <= i < shape0 A_csr ->
  len (row_products mul A_csr AT_csr i)
  = zsum (map (row_nnz AT_csr)
            (slice (indices A_csr) (row_ptr A_csr i) (row_ptr A_csr (i + 1)))).
Proof.
  intro Hi. unfold row_products. rewrite len_flat_map.
  rewrite <- (row_of_cols A_csr i valid_A Hi), map_map. f_equal.
  apply map_ext_in. intros ka Hka. apply entry_products_len.
  rewrite shapes. now apply (row_of_In A_csr i).
Qed.

Lemma all_products_len :
  len (all_products mul A_csr AT_csr)
  = zsum (map (row_nnz AT_csr) (indices A_csr)).
Proof.
  unfold all_products. fold (row_products mul A_csr AT_csr).
  change (flat_map
            (fun i => flat_map (entry_products mul AT_csr i) (row_of A_csr i))
            (range (shape0 A_csr)))
    with (flat_map (row_products mul A_csr AT_csr) (range (shape0 A_csr))).
  rewrite len_flat_map.
  replace (map (row_nnz AT_csr) (indices A_csr))
    with (map (row_nnz AT_csr)
            (flat_map
               (fun i => slice (indices A_csr) (row_ptr A_csr i)
                           (row_ptr A_csr (i + 1)))
               (range (shape0 A_csr))))
    by (now rewrite rows_concat_all).
  rewrite map_flat_map, zsum_flat_map. f_equal.
  apply map_ext_in. intros i Hi. apply row_products_len.
  now apply In_range.
Qed.

Lemma products_bound :
  0 <= zsum (map (row_nnz AT_csr) (indices A_csr))
    <= len (indices A_csr) * len (indices AT_csr).
Proof.
  rewrite <- (len_map (row_nnz AT_csr) (indices A_csr)).
  apply zsum_bound. apply Forall_forall. intros x Hx.
  apply in_map_iff in Hx. destruct Hx as [k [<- Hk]].
  apply row_nnz_bounds; [ exact valid_AT | ].
  destruct (valid_csr_facts A_csr valid_A) as [_ [_ [_ [_ [_ [_ Hall]]]]]].
  rewrite Forall_forall in Hall. rewrite shapes. now apply Hall.
Qed.

Lemma nnz_ok : nnz A_csr = Ok (len (indices A_csr)).
Proof.
  destruct (valid_csr_facts A_csr valid_A) as [H0 [Hlen [_ [_ [Hlast _]]]]].
  unfold nnz. rewrite (index_negative _ _ 0) by lia.
  rewrite <- Hlast. unfold row_ptr. do 2 f_equal. lia.
Qed.

(** The estimator returns the number of elementary products. *)
Lemma estimate_exact :
  len (indices A_csr) * len (indices AT_csr) < 2 ^ 63 ->
  estimate_products A_csr AT_csr = Ok (len (all_products mul A_csr AT_csr)).
Proof.
  intro Hfit. unfold estimate_products. rewrite nnz_ok. simpl.
  rewrite all_products_len.
  destruct (len (indices A_csr) =? 0) eqn:E.
  - apply Z.eqb_eq, len_nil_inv in E. now rewrite E.
  - destruct (valid_csr_facts A_csr valid_A) as [_ [_ [_ [_ [_ [_ Hall]]]]]].
    destruct (valid_csr_facts AT_csr valid_AT) as [HT0 [HTlen _]].
    rewrite Forall_forall in Hall.
    assert (Hdiff : len (diff (indptr AT_csr)) = shape0 AT_csr).
    { unfold len in *. rewrite diff_length. lia. }
    rewrite forallb_filter_id.
    2:{ apply forallb_forall. intros k Hk. apply Z.ltb_lt.
        rewrite Hdiff, shapes. now apply Hall. }
    rewrite (take_indices_ok _ _ (row_nnz AT_csr)).
    2:{ intros k Hk. specialize (Hall k Hk).
        rewrite (index_ok _ _ 0) by (rewrite Hdiff, shapes; exact Hall).
        f_equal. rewrite diff_nth by (unfold len in HTlen; lia).
        unfold row_nnz, row_ptr. f_equal. f_equal. lia. }
    simpl. f_equal. apply sum_int64_exact.
    + apply Forall_forall. intros x Hx. apply in_map_iff in Hx.
      destruct Hx as [k [<- Hk]].
      apply row_nnz_bounds; [ exact valid_AT | ]. rewrite shapes. now apply Hall.
    + pose proof products_bound. lia.
Qed.


(** *** The pre-allocated generator *)

Lemma entry_columns (i : Z) (a : V) (cols : list Z) (vals : list V) :
  List.length cols = List.length vals ->
  let ts := map (fun jb : Z * V => (mul a (snd jb), i, fst jb))
              (combine cols vals) in
  map (fun t : V * Z * Z => fst (fst t)) ts = map (mul a) vals
  /\ map (fun t : V * Z * Z => snd (fst t)) ts = repeat i (List.length vals)
  /\ map (fun t : V * Z * Z => snd t) ts = cols.
Proof.
  revert vals. induction cols as [ | c cols IH ]; intros [ | v vals ] H;
    simpl in *; try discriminate; [ auto | ].
  destruct (IH vals) as [H1 [H2 H3]]; [ lia | ].
  rewrite H1, H2, H3. auto.
Qed.

Lemma emit_entry_ok (i k : Z) (a : V) (st : gen_state V)
  (done : list (V * Z * Z)) (cap : Z) :
  0 <= k < shape0 AT_csr ->
  gen_holds st done cap ->
  len done + row_nnz AT_csr k <= cap ->
  exists st',
    emit_entry mul AT_csr i k a st = Ok st'
    /\ gen_holds st' (done ++ entry_products mul AT_csr i (k, a)) cap.
Proof.
  intros Hk Hst Hcap. unfold emit_entry.
  rewrite !index_ptr by (try exact valid_AT; lia). cbn [bind].
  destruct (ptr_mono AT_csr k (k + 1) valid_AT) as [Hs [Hse He]]; try lia.
  destruct (row_slices AT_csr k valid_AT Hk) as [Lc Lv].
  pose proof (row_slices_length AT_csr k valid_AT Hk) as Hlen.
  unfold entry_products, row_of. simpl fst. simpl snd.
  set (cols := slice (indices AT_csr) (row_ptr AT_csr k)
                 (row_ptr AT_csr (k + 1))) in *.
  set (vals := slice (data AT_csr) (row_ptr AT_csr k)
                 (row_ptr AT_csr (k + 1))) in *.
  destruct (row_ptr AT_csr k =? row_ptr AT_csr (k + 1)) eqn:E.
  - apply Z.eqb_eq in E. exists st. split; [ reflexivity | ].
    assert (Hc : cols = []).
    { apply len_nil_inv. rewrite Lc. unfold row_nnz. lia. }
    rewrite Hc. simpl. now rewrite app_nil_r.
  - destruct Hst as [Hp [Hi [Hj [Hwp [Lp [Li Lj]]]]]].
    destruct (entry_columns i a cols vals Hlen) as [E1 [E2 E3]].
    rewrite Hwp.
    pose proof (slice_assign_holds (products st) _ (map (mul a) vals) Hp) as Gp.
    rewrite !len_map in Gp. destruct Gp as [bp [Gp1 [Gp2 Gp3]]]; [ lia | ].
    rewrite Gp1. cbn [bind].
    pose proof (slice_assign_holds (j_indices st) _ cols Hj) as Gj.
    rewrite !len_map in Gj. destruct Gj as [bj [Gj1 [Gj2 Gj3]]]; [ lia | ].
    assert (Hcv : len cols = len vals) by lia.
    rewrite Hcv in Gj1. rewrite Gj1. cbn [bind].
    pose proof (len_nonneg vals) as Hnn.
    pose proof (slice_fill_holds (i_indices st) _ i (len vals) Hi) as Gi.
    rewrite !len_map in Gi. destruct Gi as [Gi1 Gi2]; [ lia | lia | ].
    eexists. split; [ reflexivity | ].
    unfold gen_holds. simpl. rewrite !map_app, E1, E2, E3.
    repeat split; try assumption; try lia.
    + unfold len in Gi1. rewrite Nat2Z.id in Gi1. exact Gi1.
    + rewrite len_app, len_map. unfold len. rewrite length_combine. lia.
Qed.

Lemma emit_entries_ok (i : Z) (entries : list (Z * V)) :
  forall (st : gen_state V) (done : list (V * Z * Z)) (cap : Z),
    (forall ka, In ka entries -> 0 <= fst ka < shape0 AT_csr) ->
    gen_holds st done cap ->
    len done + len (flat_map (entry_products mul AT_csr i) entries) <= cap ->
    exists st',
      for_each entries
        (fun ka st => emit_entry mul AT_csr i (fst ka) (snd ka) st) st = Ok st'
      /\ gen_holds st' (done ++ flat_map (entry_products mul AT_csr i) entries)
           cap.
Proof.
  induction entries as [ | [k a] entries IH ]; intros st done cap Hin Hst Hcap.
  - exists st. simpl. now rewrite app_nil_r.
  - simpl in Hcap. rewrite len_app in Hcap.
    assert (Hk : 0 <= k < shape0 AT_csr) by (apply (Hin (k, a)); left; reflexivity).
    pose proof (len_nonneg (flat_map (entry_products mul AT_csr i) entries)).
    pose proof (entry_products_len i (k, a) Hk) as Hl. simpl fst in Hl.
    destruct (emit_entry_ok i k a st done cap Hk Hst) as [st1 [E1 H1]]; [ lia | ].
    simpl. rewrite E1. simpl.
    destruct (IH st1 (done ++ entry_products mul AT_csr i (k, a)) cap)
      as [st2 [E2 H2]].
    + intros ka Hka. apply Hin. right. exact Hka.
    + exact H1.
    + rewrite len_app. lia.
    + exists st2. split; [ exact E2 | ]. now rewrite app_assoc.
Qed.

Lemma emit_row_ok (i : Z) (st : gen_state V) (done : list (V * Z * Z))
  (cap : Z) :
  0 <= i < shape0 A_csr ->
  gen_holds st done cap ->
  len done + len (row_products mul A_csr AT_csr i) <= cap ->
  exists st',
    emit_row mul A_csr AT_csr i st = Ok st'
    /\ gen_holds st' (done ++ row_products mul A_csr AT_csr i) cap.
Proof.
  intros Hi Hst Hcap. unfold emit_row.
  rewrite !index_ptr by (try exact valid_A; lia). simpl.
  destruct (ptr_mono A_csr i (i + 1) valid_A) as [Hs [Hse He]]; try lia.
  destruct (row_slices A_csr i valid_A Hi) as [Lc Lv].
  pose proof (row_slices_length A_csr i valid_A Hi) as Hlen.
  destruct (row_ptr A_csr i =? row_ptr A_csr (i + 1)) eqn:E.
  - apply Z.eqb_eq in E. exists st. split; [ reflexivity | ].
    unfold row_products, row_of.
    assert (Hc : slice (indices A_csr) (row_ptr A_csr i) (row_ptr A_csr (i + 1))
                 = []).
    { apply len_nil_inv. rewrite Lc. unfold row_nnz. lia. }
    rewrite Hc. simpl. now rewrite app_nil_r.
  - rewrite (for_each_positions
               (fun k a st => emit_entry mul AT_csr i k a st) _ _ st Hlen).
    apply emit_entries_ok; try assumption.
    intros ka Hka. rewrite shapes. now apply (row_of_In A_csr i).
Qed.

Lemma emit_rows_ok (rows : list Z) :
  forall (st : gen_state V) (done : list (V * Z * Z)) (cap : Z),
    (forall i, In i rows -> 0 <= i < shape0 A_csr) ->
    gen_holds st done cap ->
    len done + len (flat_map (row_products mul A_csr AT_csr) rows) <= cap ->
    exists st',
      for_each rows (emit_row mul A_csr AT_csr) st = Ok st'
      /\ gen_holds st' (done ++ flat_map (row_products mul A_csr AT_csr) rows)
           cap.
Proof.
  induction rows as [ | i rows IH ]; intros st done cap Hin Hst Hcap.
  - exists st. simpl. now rewrite app_nil_r.
  - simpl in Hcap. rewrite len_app in Hcap.
    pose proof (len_nonneg (flat_map (row_products mul A_csr AT_csr) rows)).
    destruct (emit_row_ok i st done cap) as [st1 [E1 H1]];
      [ apply Hin; left; reflexivity | exact Hst | lia | ].
    simpl. rewrite E1. simpl.
    destruct (IH st1 (done ++ row_products mul A_csr AT_csr i) cap)
      as [st2 [E2 H2]].
    + intros j Hj. apply Hin. right. exact Hj.
    + exact H1.
    + rewrite len_app. lia.
    + exists st2. split; [ exact E2 | ]. now rewrite app_assoc.
Qed.

(** The loops fill the buffers with the elementary products, in order, and
    leave the cursor at the size of the allocation. *)
Lemma fill_buffers_ok :
  len (indices A_csr) * len (indices AT_csr) < 2 ^ 63 ->
  exists st,
    fill_buffers mul A_csr AT_csr
    = Ok (len (all_products mul A_csr AT_csr), st)
    /\ gen_holds st (all_products mul A_csr AT_csr)
         (len (all_products mul A_csr AT_csr)).
Proof.
  intro Hfit. unfold fill_buffers. rewrite (estimate_exact Hfit). simpl.
  set (total := len (all_products mul A_csr AT_csr)).
  assert (Htotal : 0 <= total) by apply len_nonneg.
  unfold np_empty. destruct (total <? 0) eqn:E; [ apply Z.ltb_lt in E; lia | ].
  simpl.
  destruct (emit_rows_ok (range (shape0 A_csr))
              (mk_gen (repeat None (Z.to_nat total))
                 (repeat None (Z.to_nat total))
                 (repeat None (Z.to_nat total)) 0) [] total)
    as [st [E1 H1]].
  - intros i Hi. now apply In_range.
  - unfold gen_holds. simpl. rewrite !len_repeat.
    repeat split; try apply holds_empty; lia.
  - change (len (@nil (V * Z * Z))) with 0. unfold total, all_products.
    unfold row_products. lia.
  - exists st. unfold row_products in E1. rewrite E1. simpl.
    split; [ reflexivity | exact H1 ].
Qed.

(** The result of the pre-allocated generator: the elementary products that
    pass the zero filter. *)
Lemma prealloc_result :
  len (indices A_csr) * len (indices AT_csr) < 2 ^ 63 ->
  produce_products_scipy_optimized mul nonzero A_csr AT_csr
  = Ok (filter (keeps nonzero) (all_products mul A_csr AT_csr)).
Proof.
  intro Hfit. unfold produce_products_scipy_optimized.
  destruct (fill_buffers_ok Hfit) as [st [E H]]. rewrite E. simpl.
  destruct H as [Hp [Hi [Hj [Hwp [Lp [Li Lj]]]]]].
  unfold finish. rewrite Hwp, Z.ltb_irrefl.
  rewrite (holds_full _ _ Hp) by (now rewrite len_map).
  rewrite (holds_full _ _ Hi) by (now rewrite len_map).
  rewrite (holds_full _ _ Hj) by (now rewrite len_map).
  rewrite !read_cells_some. simpl. f_equal. unfold keeps.
  f_equal. unfold zip3.
  generalize (all_products mul A_csr AT_csr). intro l.
  induction l as [ | [[p i] j] l IH ]; simpl; [ reflexivity | now rewrite IH ].
Qed.


(** *** The streaming generator *)

Lemma zip3_columns (l : list (V * Z * Z)) :
  zip3 (map (fun t => fst (fst t)) l) (map (fun t => snd (fst t)) l)
    (map (fun t => snd t) l) = l.
Proof.
  unfold zip3.
  induction l as [ | [[p i] j] l IH ]; simpl; [ reflexivity | now rewrite IH ].
Qed.

(** One chunk of products, as the loop body computes its three columns. *)
Lemma chunk_columns (i : Z) (a : V) (cols : list Z) (vals : list V) :
  List.length cols = List.length vals ->
  let kept := filter (keeps nonzero)
                (map (fun jb : Z * V => (mul a (snd jb), i, fst jb))
                   (combine cols vals)) in
  filter nonzero (map (mul a) vals) = map (fun t => fst (fst t)) kept
  /\ repeat i (List.length (filter nonzero (map (mul a) vals)))
     = map (fun t => snd (fst t)) kept
  /\ mask_select cols (map nonzero (map (mul a) vals))
     = Ok (map (fun t => snd t) kept)
  /\ (existsb (fun b => b) (map nonzero (map (mul a) vals)) = false ->
      kept = []).
Proof.
  unfold keeps.
  revert vals. induction cols as [ | c cols IH ]; intros [ | v vals ] H;
    simpl in *; try discriminate; [ auto | ].
  destruct (IH vals) as [H1 [H2 [H3 H4]]]; [ lia | ].
  rewrite H3. simpl.
  destruct (nonzero (mul a v)); simpl.
  - rewrite H2, H1. repeat split; try reflexivity. discriminate.
  - repeat split; assumption.
Qed.

Lemma combine_firstn_skipn {A B : Type} (n : nat) (l : list A) (l' : list B) :
  combine l l'
  = combine (firstn n l) (firstn n l') ++ combine (skipn n l) (skipn n l').
Proof.
  revert l l'. induction n as [ | n IH ]; intros l l'; [ reflexivity | ].
  destruct l as [ | x l ]; [ reflexivity | ].
  destruct l' as [ | y l' ]; simpl.
  - now destruct (skipn n l).
  - now rewrite <- IH.
Qed.

Lemma high_water_below (cap pos : Z) :
  high_water cap pos = false -> 0 <= pos -> 1 <= cap -> pos < cap.
Proof.
  unfold high_water. intros H Hp Hc. apply Z.leb_gt in H. lia.
Qed.

Lemma flush_ok (st : stream_state V) (out : list (V * Z * Z)) (cap : Z) :
  stream_filled st out cap ->
  exists st',
    flush st = Ok st' /\ stream_filled st' out cap /\ buf_pos st' = 0
    /\ csv_rows st' = out /\ total_written st' = len out.
Proof.
  intros [pending [Hout [Hp [Hi [Hj [Hpos [Htw [Lp [Li Lj]]]]]]]]].
  unfold flush. rewrite Hpos.
  rewrite (read_prefix_at _ _ _ Hp) by (now rewrite len_map). cbn [bind].
  rewrite (read_prefix_at _ _ _ Hi) by (now rewrite len_map). cbn [bind].
  rewrite (read_prefix_at _ _ _ Hj) by (now rewrite len_map). cbn [bind].
  rewrite zip3_columns, <- Hout.
  eexists. split; [ reflexivity | ]. simpl.
  repeat split; try assumption.
  - exists []. simpl. rewrite app_nil_r.
    repeat split; try assumption; try apply holds_empty.
    rewrite Htw, Hout, len_app. reflexivity.
  - rewrite Htw, Hout, len_app. reflexivity.
Qed.

(** The buffered part of one turn of the [while] loop. *)
Lemma buffer_chunk_ok (i : Z) (a : V) (cols : list Z) (vals : list V)
  (st : stream_state V) (out : list (V * Z * Z)) (cap : Z) :
  List.length cols = List.length vals ->
  stream_filled st out cap ->
  buf_pos st + len vals <= cap ->
  let products := map (mul a) vals in
  let non_zero_mask := map nonzero products in
  exists st1,
    (if existsb (fun b => b) non_zero_mask then
       let valid_products := filter nonzero products in
       let valid_i := repeat i (List.length valid_products) in
       valid_j <- mask_select cols non_zero_mask ;;
       let valid_count := len valid_products in
       if buf_pos st + valid_count <=? cap then
         bp <- slice_assign (buf_products st) (buf_pos st)
                 (buf_pos st + valid_count) valid_products ;;
         bi <- slice_assign (buf_i st) (buf_pos st)
                 (buf_pos st + valid_count) valid_i ;;
         bj <- slice_assign (buf_j st) (buf_pos st)
                 (buf_pos st + valid_count) valid_j ;;
         Ok (mk_stream bp bi bj (total_written st)
               (buf_pos st + valid_count) (csv_rows st))
       else Ok st
     else Ok st) = Ok st1
    /\ stream_filled st1
         (out ++ filter (keeps nonzero)
                   (map (fun jb : Z * V => (mul a (snd jb), i, fst jb))
                      (combine cols vals))) cap.
Proof.
  intros Hlen Hst Hfit. cbv zeta.
  destruct (chunk_columns i a cols vals Hlen) as [E1 [E2 [E3 E4]]].
  set (kept := filter (keeps nonzero)
                 (map (fun jb : Z * V => (mul a (snd jb), i, fst jb))
                    (combine cols vals))) in *.
  destruct (existsb (fun b => b) (map nonzero (map (mul a) vals))) eqn:Hany.
  - rewrite E3. cbn [bind]. rewrite E2, E1.
    assert (Hk : len kept <= len vals).
    { rewrite <- (len_map (fun t : V * Z * Z => fst (fst t)) kept), <- E1.
      unfold len. rewrite <- (length_map (mul a) vals).
      apply inj_le. apply filter_length_le. }
    rewrite len_map.
    destruct Hst as [pending [Hout [Hp [Hi [Hj [Hpos [Htw [Lp [Li Lj]]]]]]]]].
    assert (Hb : (buf_pos st + len kept <=? cap) = true)
      by (apply Z.leb_le; lia).
    rewrite Hb, Hpos.
    pose proof (slice_assign_holds (buf_products st) _
                  (map (fun t : V * Z * Z => fst (fst t)) kept) Hp) as Gp.
    rewrite !len_map in Gp. destruct Gp as [bp [Gp1 [Gp2 Gp3]]]; [ lia | ].
    rewrite Gp1. cbn [bind].
    pose proof (slice_assign_holds (buf_i st) _
                  (map (fun t : V * Z * Z => snd (fst t)) kept) Hi) as Gi.
    rewrite !len_map in Gi. destruct Gi as [bi [Gi1 [Gi2 Gi3]]]; [ lia | ].
    rewrite Gi1. cbn [bind].
    pose proof (slice_assign_holds (buf_j st) _
                  (map (fun t : V * Z * Z => snd t) kept) Hj) as Gj.
    rewrite !len_map in Gj. destruct Gj as [bj [Gj1 [Gj2 Gj3]]]; [ lia | ].
    rewrite Gj1. cbn [bind].
    eexists. split; [ reflexivity | ].
    exists (pending ++ kept). simpl. rewrite !map_app.
    repeat split; try assumption; try lia.
    + rewrite Hout. now rewrite app_assoc.
    + now rewrite len_app.
  - exists st. split; [ reflexivity | ].
    rewrite (E4 eq_refl). now rewrite app_nil_r.
Qed.

Lemma stream_chunks_ok (i : Z) (a : V) (cols : list Z) (vals : list V)
  (cap : Z) :
  List.length cols = List.length vals -> 1 <= cap ->
  forall (fuel : nat) (off : Z) (st : stream_state V)
         (out : list (V * Z * Z)),
    0 <= off <= len vals ->
    len vals - off <= Z.of_nat fuel ->
    stream_holds st out cap ->
    exists st',
      stream_chunks mul nonzero fuel cap i a cols vals (len vals - off) off st
      = Ok st'
      /\ stream_holds st'
           (out ++ filter (keeps nonzero)
                     (map (fun jb : Z * V => (mul a (snd jb), i, fst jb))
                        (combine (skipn (Z.to_nat off) cols)
                           (skipn (Z.to_nat off) vals)))) cap.
Proof.
  intros Hlen Hcap. induction fuel as [ | fuel IH ]; intros off st out Hoff Hfuel Hst.
  - assert (E : len vals - off = 0) by lia.
    rewrite E. simpl. exists st. split; [ reflexivity | ].
    rewrite (skipn_all2 vals) by (unfold len in *; lia).
    rewrite combine_nil. simpl. now rewrite app_nil_r.
  - destruct (Z.eq_dec (len vals - off) 0) as [E | Hne].
    + rewrite E. simpl. exists st. split; [ reflexivity | ].
      rewrite (skipn_all2 vals) by (unfold len in *; lia).
      rewrite combine_nil. simpl. now rewrite app_nil_r.
    + cbn [stream_chunks].
      assert (Hgt : (len vals - off >? 0) = true) by (apply Z.gtb_lt; lia).
      rewrite Hgt.
      destruct Hst as [Hfilled Hhw].
      assert (Hpos : 0 <= buf_pos st).
      { destruct Hfilled as [pending [_ [_ [_ [_ [Hp _]]]]]].
        rewrite Hp. apply len_nonneg. }
      pose proof (high_water_below cap (buf_pos st) Hhw Hpos Hcap) as Hbelow.
      set (wc := Z.min (len vals - off) (cap - buf_pos st)).
      assert (Hwc : 1 <= wc <= len vals - off) by (unfold wc; lia).
      assert (Hwc' : wc <= cap - buf_pos st) by (unfold wc; lia).
      assert (Hcols : len cols = len vals) by (unfold len; lia).
      rewrite (slice_ok vals off (off + wc)) by lia.
      rewrite (slice_ok cols off (off + wc)) by lia.
      replace (off + wc - off) with wc by lia.
      set (rc := skipn (Z.to_nat off) cols).
      set (rv := skipn (Z.to_nat off) vals).
      assert (Hchunk : List.length (firstn (Z.to_nat wc) rc)
                       = List.length (firstn (Z.to_nat wc) rv)).
      { unfold rc, rv. rewrite !length_firstn, !length_skipn. lia. }
      assert (Hvl : len (firstn (Z.to_nat wc) rv) = wc).
      { unfold rv, len in *. rewrite length_firstn, length_skipn. lia. }
      destruct (buffer_chunk_ok i a (firstn (Z.to_nat wc) rc)
                  (firstn (Z.to_nat wc) rv) st out cap Hchunk Hfilled)
        as [st1 [E1 H1]]; [ lia | ].
      cbv zeta in E1. rewrite E1. cbn [bind].
      set (out1 := out ++ filter (keeps nonzero)
                     (map (fun jb : Z * V => (mul a (snd jb), i, fst jb))
                        (combine (firstn (Z.to_nat wc) rc)
                           (firstn (Z.to_nat wc) rv)))) in *.
      assert (H2 : exists st2,
                 (if high_water cap (buf_pos st1) then flush st1 else Ok st1)
                 = Ok st2 /\ stream_holds st2 out1 cap).
      { destruct (high_water cap (buf_pos st1)) eqn:Hw.
        - destruct (flush_ok st1 out1 cap H1) as [st2 [F1 [F2 [F3 _]]]].
          exists st2. split; [ exact F1 | ]. split; [ exact F2 | ].
          rewrite F3. unfold high_water. apply Z.leb_gt. lia.
        - exists st1. split; [ reflexivity | ]. split; assumption. }
      destruct H2 as [st2 [E2 H2]]. rewrite E2. cbn [bind].
      replace (len vals - off - wc) with (len vals - (off + wc)) by lia.
      destruct (IH (off + wc) st2 out1) as [st' [E3 H3]]; [ lia | lia | exact H2 | ].
      exists st'. split; [ exact E3 | ].
      unfold out1 in H3. rewrite <- app_assoc, <- filter_app, <- map_app in H3.
      replace (Z.to_nat (off + wc)) with (Z.to_nat wc + Z.to_nat off)%nat in H3
        by lia.
      rewrite <- !skipn_skipn in H3. fold rc rv in H3.
      rewrite <- combine_firstn_skipn in H3. exact H3.
Qed.

Lemma stream_entry_ok (fuel : nat) (cap i k : Z) (a : V)
  (st : stream_state V) (out : list (V * Z * Z)) :
  1 <= cap -> len (indices AT_csr) <= Z.of_nat fuel ->
  0 <= k < shape0 AT_csr ->
  stream_holds st out cap ->
  exists st',
    stream_entry mul nonzero fuel cap AT_csr i k a st = Ok st'
    /\ stream_holds st'
         (out ++ filter (keeps nonzero) (entry_products mul AT_csr i (k, a)))
         cap.
Proof.
  intros Hcap Hfuel Hk Hst. unfold stream_entry.
  rewrite !index_ptr by (try exact valid_AT; lia). cbn [bind].
  destruct (ptr_mono AT_csr k (k + 1) valid_AT) as [Hs [Hse He]]; try lia.
  destruct (row_slices AT_csr k valid_AT Hk) as [Lc Lv].
  pose proof (row_slices_length AT_csr k valid_AT Hk) as Hlen.
  pose proof (row_nnz_bounds AT_csr k valid_AT Hk) as Hb.
  unfold entry_products, row_of. simpl fst. simpl snd.
  set (cols := slice (indices AT_csr) (row_ptr AT_csr k)
                 (row_ptr AT_csr (k + 1))) in *.
  set (vals := slice (data AT_csr) (row_ptr AT_csr k)
                 (row_ptr AT_csr (k + 1))) in *.
  destruct (row_ptr AT_csr k =? row_ptr AT_csr (k + 1)) eqn:E.
  - apply Z.eqb_eq in E. exists st. split; [ reflexivity | ].
    assert (Hc : cols = []).
    { apply len_nil_inv. rewrite Lc. unfold row_nnz. lia. }
    rewrite Hc. simpl. now rewrite app_nil_r.
  - cbv zeta.
    destruct (stream_chunks_ok i a cols vals cap Hlen Hcap fuel 0 st out)
      as [st' [E1 H1]]; [ pose proof (len_nonneg vals); lia | lia | exact Hst | ].
    rewrite Z.sub_0_r in E1. exists st'. split; [ exact E1 | exact H1 ].
Qed.

Lemma stream_entries_ok (fuel : nat) (cap i : Z) (entries : list (Z * V)) :
  1 <= cap -> len (indices AT_csr) <= Z.of_nat fuel ->
  forall (st : stream_state V) (out : list (V * Z * Z)),
    (forall ka, In ka entries -> 0 <= fst ka < shape0 AT_csr) ->
    stream_holds st out cap ->
    exists st',
      for_each entries
        (fun ka st =>
           stream_entry mul nonzero fuel cap AT_csr i (fst ka) (snd ka) st) st
      = Ok st'
      /\ stream_holds st'
           (out ++ filter (keeps nonzero)
                     (flat_map (entry_products mul AT_csr i) entries)) cap.
Proof.
  intros Hcap Hfuel.
  induction entries as [ | [k a] entries IH ]; intros st out Hin Hst.
  - exists st. simpl. now rewrite app_nil_r.
  - destruct (stream_entry_ok fuel cap i k a st out Hcap Hfuel) as [st1 [E1 H1]];
      [ apply (Hin (k, a)); left; reflexivity | exact Hst | ].
    simpl. rewrite E1. cbn [bind].
    destruct (IH st1 _ (fun ka Hka => Hin ka (or_intror Hka)) H1)
      as [st2 [E2 H2]].
    exists st2. split; [ exact E2 | ].
    now rewrite filter_app, app_assoc.
Qed.

Lemma stream_row_ok (fuel : nat) (cap i : Z) (st : stream_state V)
  (out : list (V * Z * Z)) :
  1 <= cap -> len (indices AT_csr) <= Z.of_nat fuel ->
  0 <= i < shape0 A_csr ->
  stream_holds st out cap ->
  exists st',
    stream_row mul nonzero fuel cap A_csr AT_csr i st = Ok st'
    /\ stream_holds st'
         (out ++ filter (keeps nonzero) (row_products mul A_csr AT_csr i)) cap.
Proof.
  intros Hcap Hfuel Hi Hst. unfold stream_row.
  rewrite !index_ptr by (try exact valid_A; lia). cbn [bind].
  destruct (ptr_mono A_csr i (i + 1) valid_A) as [Hs [Hse He]]; try lia.
  destruct (row_slices A_csr i valid_A Hi) as [Lc Lv].
  pose proof (row_slices_length A_csr i valid_A Hi) as Hlen.
  destruct (row_ptr A_csr i =? row_ptr A_csr (i + 1)) eqn:E.
  - apply Z.eqb_eq in E. exists st. split; [ reflexivity | ].
    unfold row_products, row_of.
    assert (Hc : slice (indices A_csr) (row_ptr A_csr i) (row_ptr A_csr (i + 1))
                 = []).
    { apply len_nil_inv. rewrite Lc. unfold row_nnz. lia. }
    rewrite Hc. simpl. now rewrite app_nil_r.
  - cbv zeta.
    rewrite (for_each_positions
               (fun k a st => stream_entry mul nonzero fuel cap AT_csr i k a st)
               _ _ st Hlen).
    apply stream_entries_ok; try assumption.
    intros ka Hka. rewrite shapes. now apply (row_of_In A_csr i).
Qed.

Lemma stream_rows_ok (fuel : nat) (cap : Z) (rows : list Z) :
  1 <= cap -> len (indices AT_csr) <= Z.of_nat fuel ->
  forall (st : stream_state V) (out : list (V * Z * Z)),
    (forall i, In i rows -> 0 <= i < shape0 A_csr) ->
    stream_holds st out cap ->
    exists st',
      for_each rows (stream_row mul nonzero fuel cap A_csr AT_csr) st = Ok st'
      /\ stream_holds st'
           (out ++ filter (keeps nonzero)
                     (flat_map (row_products mul A_csr AT_csr) rows)) cap.
Proof.
  intros Hcap Hfuel.
  induction rows as [ | i rows IH ]; intros st out Hin Hst.
  - exists st. simpl. now rewrite app_nil_r.
  - destruct (stream_row_ok fuel cap i st out Hcap Hfuel) as [st1 [E1 H1]];
      [ apply Hin; left; reflexivity | exact Hst | ].
    simpl. rewrite E1. cbn [bind].
    destruct (IH st1 _ (fun j Hj => Hin j (or_intror Hj)) H1)
      as [st2 [E2 H2]].
    exists st2. split; [ exact E2 | ].
    now rewrite filter_app, app_assoc.
Qed.

(** The result of the streaming generator: the same triples, in the same
    order, and their number. *)
Lemma stream_result (fuel : nat) (chunk_size : Z) :
  1 <= chunk_size -> len (indices AT_csr) <= Z.of_nat fuel ->
  produce_products_stream_scipy_optimized mul nonzero fuel A_csr AT_csr
    chunk_size
  = Ok (len (filter (keeps nonzero) (all_products mul A_csr AT_csr)),
        filter (keeps nonzero) (all_products mul A_csr AT_csr)).
Proof.
  intros Hcap Hfuel. unfold produce_products_stream_scipy_optimized, np_empty.
  destruct (chunk_size <? 0) eqn:E; [ apply Z.ltb_lt in E; lia | ].
  cbn [bind].
  destruct (stream_rows_ok fuel chunk_size (range (shape0 A_csr)) Hcap Hfuel
              (mk_stream (repeat None (Z.to_nat chunk_size))
                 (repeat None (Z.to_nat chunk_size))
                 (repeat None (Z.to_nat chunk_size)) 0 0 []) [])
    as [st [E1 H1]].
  - intros i Hi. now apply In_range.
  - split.
    + exists []. simpl. rewrite !len_repeat.
      repeat split; try apply holds_empty; lia.
    + simpl. unfold high_water. apply Z.leb_gt. lia.
  - rewrite E1. cbn [bind]. simpl app in H1.
    change (flat_map (row_products mul A_csr AT_csr) (range (shape0 A_csr)))
      with (all_products mul A_csr AT_csr) in H1.
    destruct H1 as [Hfilled _].
    destruct (buf_pos st >? 0) eqn:Hp.
    + destruct (flush_ok st _ chunk_size Hfilled) as [st' [F1 [_ [_ [F4 F5]]]]].
      rewrite F1. cbn [bind]. now rewrite F4, F5.
    + cbn [bind].
      destruct Hfilled as [pending [Hout [_ [_ [_ [Hpos [Htw _]]]]]]].
      assert (Hnil : pending = []).
      { apply len_nil_inv. pose proof (len_nonneg pending).
        rewrite Z.gtb_ltb in Hp. apply Z.ltb_ge in Hp. lia. }
      subst pending. rewrite app_nil_r in Hout. now rewrite Htw, <- Hout.
Qed.

End Pair.

End GeneratorFacts.

(** ** The transpose *)

Section TransposeFacts.

Import PartialProdGen.

Variable V : Type.

Lemma running_sums_length (l : list Z) (acc : Z) :
  List.length (running_sums acc l) = S (List.length l).
Proof.
  revert acc. induction l as [ | x l IH ]; intro acc; simpl;
    [ reflexivity | now rewrite IH ].
Qed.

Lemma running_sums_head (l : list Z) (acc : Z) :
  nth 0 (running_sums acc l) 0 = acc.
Proof. destruct l; reflexivity. Qed.

Lemma running_sums_last (l : list Z) (acc : Z) :
  last (running_sums acc l) 0 = acc + zsum l.
Proof.
  revert acc. induction l as [ | x l IH ]; intro acc.
  - simpl. lia.
  - change (running_sums acc (x :: l)) with (acc :: running_sums (acc + x) l).
    assert (Hne : running_sums (acc + x) l <> []) by (destruct l; discriminate).
    destruct (running_sums (acc + x) l) as [ | y t ] eqn:E; [ contradiction | ].
    change (last (acc :: y :: t) 0) with (last (y :: t) 0).
    rewrite <- E, IH. simpl. lia.
Qed.

Lemma running_sums_nondecreasing (l : list Z) (acc : Z) :
  Forall (fun x => 0 <= x) l -> nondecreasing (running_sums acc l) = true.
Proof.
  intro H. revert acc. induction H as [ | x l Hx _ IH ]; intro acc.
  - reflexivity.
  - change (running_sums acc (x :: l)) with (acc :: running_sums (acc + x) l).
    specialize (IH (acc + x)).
    pose proof (running_sums_head l (acc + x)) as Hh.
    destruct (running_sums (acc + x) l) as [ | y t ] eqn:E;
      [ reflexivity | ].
    simpl in Hh. subst y.
    change (nondecreasing (acc :: (acc + x) :: t))
      with ((acc <=? acc + x) && nondecreasing ((acc + x) :: t)).
    rewrite IH, andb_true_r. apply Z.leb_le. lia.
Qed.

Lemma len_concat {A : Type} (groups : list (list A)) :
  len (List.concat groups) = zsum (map (fun g => len g) groups).
Proof.
  induction groups as [ | g groups IH ]; simpl; [ reflexivity | ].
  now rewrite len_app, IH.
Qed.

Lemma column_entries_rows (M : csr V) (c : Z) (e : Z * V) :
  In e (column_entries M c) -> 0 <= fst e < shape0 M.
Proof.
  unfold column_entries. intro H. apply in_flat_map in H.
  destruct H as [i [Hi He]]. apply in_map_iff in He.
  destruct He as [ka [<- _]]. simpl. now apply In_range.
Qed.

(** The transpose of a well-formed matrix is well-formed, with the shape
    swapped. *)
Lemma transpose_valid (M : csr V) :
  valid_csr M = true ->
  valid_csr (transpose M) = true
  /\ shape0 (transpose M) = shape1 M
  /\ shape1 (transpose M) = shape0 M.
Proof.
  intro Hv. split; [ | split; reflexivity ].
  assert (H0 : 0 <= shape0 M /\ 0 <= shape1 M).
  { unfold valid_csr in Hv. rewrite !andb_true_iff in Hv.
    destruct Hv as [[[[[[[H1 H2] _] _] _] _] _] _].
    apply Z.leb_le in H1, H2. auto. }
  destruct H0 as [H0 H1].
  unfold valid_csr, transpose. cbn [shape0 shape1 indptr indices data].
  set (groups := map (column_entries M) (range (shape1 M))).
  rewrite !andb_true_iff. repeat split.
  - now apply Z.leb_le.
  - now apply Z.leb_le.
  - apply Z.eqb_eq. unfold len. rewrite running_sums_length, length_map.
    unfold groups, range. rewrite !length_map, length_seq. lia.
  - apply Z.eqb_eq. apply running_sums_head.
  - apply running_sums_nondecreasing. apply Forall_forall.
    intros x Hx. apply in_map_iff in Hx. destruct Hx as [g [<- _]].
    apply len_nonneg.
  - apply Z.eqb_eq. rewrite running_sums_last, len_map, len_concat. lia.
  - apply Z.eqb_eq. now rewrite !len_map.
  - apply forallb_forall. intros k Hk. apply in_map_iff in Hk.
    destruct Hk as [e [<- He]]. apply in_concat in He.
    destruct He as [g [Hg He]]. unfold groups in Hg. apply in_map_iff in Hg.
    destruct Hg as [c [<- _]]. apply column_entries_rows in He.
    apply andb_true_iff. split; [ apply Z.leb_le | apply Z.ltb_lt ]; lia.
Qed.

End TransposeFacts.

Example transpose_example :
  PartialProdGen.transpose PartialProdGen.example_A
  = PartialProdGen.example_AT.
Proof. reflexivity. Qed.



(** C2: under the same conditions, for every chunk size of at least one cell
    and enough fuel for the longest row of [AT], both generators return, and
    they return the same triples after zero-filtering, in the same order: the
    two outputs are one multiset, and every aggregation of one equals that of
    the other.  The streaming generator also returns their number. *)
Theorem generators_agree :
  forall (V : Type) (mul : V -> V -> V) (nonzero : V -> bool)
         (A_csr AT_csr : PartialProdGen.csr V) (fuel : nat) (chunk_size : Z),
    PartialProdGen.valid_csr A_csr = true ->
    PartialProdGen.valid_csr AT_csr = true ->
    PartialProdGen.shape0 AT_csr = PartialProdGen.shape1 A_csr ->
    len (PartialProdGen.indices A_csr) * len (PartialProdGen.indices AT_csr)
      < 2 ^ 63 ->
    1 <= chunk_size ->
    len (PartialProdGen.indices AT_csr) <= Z.of_nat fuel ->
    exists prealloc_triples stream_triples : list (V * Z * Z),
      PartialProdGen.produce_products_scipy_optimized mul nonzero A_csr AT_csr
      = Ok prealloc_triples
      /\ PartialProdGen.produce_products_stream_scipy_optimized mul nonzero
           fuel A_csr AT_csr chunk_size
         = Ok (len stream_triples, stream_triples)
      /\ prealloc_triples = stream_triples
      /\ Permutation prealloc_triples stream_triples
      /\ forall (R : Type) (aggregate : list (V * Z * Z) -> R),
           aggregate prealloc_triples = aggregate stream_triples.
Proof.
  intros V mul nonzero A_csr AT_csr fuel chunk_size HA HAT Hshape Hfit Hc Hf.
  exists (filter (PartialProdGen.keeps nonzero)
            (PartialProdGen.all_products mul A_csr AT_csr)),
         (filter (PartialProdGen.keeps nonzero)
            (PartialProdGen.all_products mul A_csr AT_csr)).
  split; [ now apply prealloc_result | ].
  split; [ now apply stream_result | ].
  split; [ reflexivity | ].
  split; [ apply Permutation_refl | reflexivity ].
Qed.

(** The statement above on a 2x3 matrix and its transpose, with buffers of
    two cells. *)
Lemma generators_agree_witness :
  exists prealloc_triples stream_triples : list (Z * Z * Z),
    PartialProdGen.produce_products_scipy_optimized Z.mul
      PartialProdGen.nonzeroZ PartialProdGen.example_A
      (PartialProdGen.transpose PartialProdGen.example_A) = Ok prealloc_triples
    /\ PartialProdGen.produce_products_stream_scipy_optimized Z.mul
         PartialProdGen.nonzeroZ 5 PartialProdGen.example_A
         (PartialProdGen.transpose PartialProdGen.example_A) 2
       = Ok (len stream_triples, stream_triples)
    /\ prealloc_triples = stream_triples
    /\ Permutation prealloc_triples stream_triples
    /\ forall (R : Type) (aggregate : list (Z * Z * Z) -> R),
         aggregate prealloc_triples = aggregate stream_triples.
Proof.
  apply (generators_agree Z Z.mul PartialProdGen.nonzeroZ
           PartialProdGen.example_A
           (PartialProdGen.transpose PartialProdGen.example_A) 5 2);
    try reflexivity; vm_compute; discriminate.
Defined.

(** With buffers of no cell the [while] loop of the streaming generator makes
    no progress: it uses up any fuel. *)
Lemma stream_chunks_no_cell (V : Type) (mul : V -> V -> V)
  (nonzero : V -> bool) (i : Z) (a : V) (cols : list Z) (vals : list V)
  (remaining : Z) :
  0 < remaining ->
  forall (fuel : nat) (off : Z) (st : PartialProdGen.stream_state V),
    PartialProdGen.buf_pos st = 0 ->
    PartialProdGen.stream_chunks mul nonzero fuel 0 i a cols vals remaining
      off st = Raise Diverges.
Proof.
  intros Hrem fuel.
  assert (Hgt : (remaining >? 0) = true) by (apply Z.gtb_lt; lia).
  induction fuel as [ | fuel IH ]; intros off st Hpos;
    cbn [PartialProdGen.stream_chunks]; rewrite Hgt; [ reflexivity | ].
  rewrite Hpos. replace (Z.min remaining (0 - 0)) with 0 by lia.
  rewrite Z.add_0_r, Z.sub_0_r.
  assert (Hs : forall (A : Type) (l : list A), slice l off off = []).
  { intros A l. unfold slice. now rewrite Z.sub_diag. }
  rewrite !Hs. cbn [map existsb bind]. rewrite Hpos.
  change (PartialProdGen.high_water 0 0) with true. cbv iota.
  unfold PartialProdGen.flush. rewrite Hpos.
  assert (H0 : forall (A : Type) (b : buffer A), read_cells (slice b 0 0) = Ok []).
  { intros A b. unfold slice. now rewrite Z.sub_diag. }
  rewrite !H0. cbn [bind]. apply IH. reflexivity.
Qed.

(** On the diagonal matrix a chunk size of 0 leaves the streaming generator
    in its loop, whatever the fuel. *)
Example stream_needs_a_cell (fuel : nat) :
  PartialProdGen.produce_products_stream_scipy_optimized Z.mul
    PartialProdGen.nonzeroZ fuel PartialProdGen.diagonal_A
    PartialProdGen.diagonal_A 0 = Raise Diverges.
Proof.
  unfold PartialProdGen.produce_products_stream_scipy_optimized.
  cbn [np_empty Z.ltb Z.compare bind Z.to_nat repeat].
  change (range (PartialProdGen.shape0 PartialProdGen.diagonal_A)) with [0; 1].
  cbn [for_each]. unfold PartialProdGen.stream_row at 1.
  change (index (PartialProdGen.indptr PartialProdGen.diagonal_A) 0) with (Ok 0).
  change (index (PartialProdGen.indptr PartialProdGen.diagonal_A) (0 + 1))
    with (Ok 1).
  cbn [bind Z.eqb].
  change (slice (PartialProdGen.indices PartialProdGen.diagonal_A) 0 1)
    with [0].
  change (slice (PartialProdGen.data PartialProdGen.diagonal_A) 0 1) with [2].
  change (range (len [0])) with [0]. cbn [for_each].
  change (index [0] 0) with (Ok 0). change (index [2] 0) with (Ok 2).
  cbn [bind]. unfold PartialProdGen.stream_entry.
  change (index (PartialProdGen.indptr PartialProdGen.diagonal_A) 0) with (Ok 0).
  change (index (PartialProdGen.indptr PartialProdGen.diagonal_A) (0 + 1))
    with (Ok 1).
  cbn [bind Z.eqb].
  rewrite stream_chunks_no_cell; reflexivity.
Qed.

(** C5 on the code: for a 1x2 matrix with an entry in column 1 and a 1x1
    second matrix, both well-formed, the estimator skips the entry and
    returns 0, while both generators stop with an [IndexError] on it. *)
Theorem out_of_range_index_not_handled_alike :
  PartialProdGen.valid_csr PartialProdGen.wide_A = true
  /\ PartialProdGen.valid_csr PartialProdGen.short_AT = true
  /\ PartialProdGen.estimate_products PartialProdGen.wide_A
       PartialProdGen.short_AT = Ok 0
  /\ PartialProdGen.produce_products_scipy_optimized Z.mul
       PartialProdGen.nonzeroZ PartialProdGen.wide_A PartialProdGen.short_AT
     = Raise IndexError
  /\ PartialProdGen.produce_products_stream_scipy_optimized Z.mul
       PartialProdGen.nonzeroZ 1 PartialProdGen.wide_A PartialProdGen.short_AT
       2000000
     = Raise IndexError.
Proof.
  repeat split.
Qed.

(** A stored index of -1 wraps around in NumPy: the estimator counts the two
    entries of the last row of the second matrix, the generator reads the
    empty slice between the last and the first row pointer and writes
    nothing. *)
Example negative_index_scenario :
  PartialProdGen.estimate_products PartialProdGen.negative_A
    PartialProdGen.two_row_AT = Ok 2
  /\ (exists st,
        PartialProdGen.fill_buffers Z.mul PartialProdGen.negative_A
          PartialProdGen.two_row_AT = Ok (2, st)
        /\ PartialProdGen.write_pos st = 0)
  /\ PartialProdGen.produce_products_scipy_optimized Z.mul
       PartialProdGen.nonzeroZ PartialProdGen.negative_A
       PartialProdGen.two_row_AT = Ok [].
Proof.
  split; [ reflexivity | split; [ | reflexivity ] ].
  eexists. split; reflexivity.
Qed.

(** The two scenarios of the specification. *)
Example diagonal_scenario :
  PartialProdGen.estimate_products PartialProdGen.diagonal_A
    PartialProdGen.diagonal_A = Ok 2
  /\ PartialProdGen.produce_products_scipy_optimized Z.mul
       PartialProdGen.nonzeroZ PartialProdGen.diagonal_A
       PartialProdGen.diagonal_A = Ok [(4, 0, 0); (9, 1, 1)]
  /\ PartialProdGen.produce_products_stream_scipy_optimized Z.mul
       PartialProdGen.nonzeroZ 1 PartialProdGen.diagonal_A
       PartialProdGen.diagonal_A 1 = Ok (2, [(4, 0, 0); (9, 1, 1)]).
Proof. repeat split. Qed.

Example fanout_scenario :
  PartialProdGen.produce_products_scipy_optimized Z.mul
    PartialProdGen.nonzeroZ PartialProdGen.fanout_A PartialProdGen.fanout_AT
  = Ok [(5, 0, 0); (14, 0, 0)].
Proof. reflexivity. Qed.

(** ** Choice of the execution mode *)

Lemma est_mem_le_iff (products : Z) (budget_GiB : Q) :
  (Planner.est_mem_GiB products <= budget_GiB <->
   inject_Z (products * 12) <= budget_GiB * inject_Z (1024 ^ 3))%Q.
Proof.
  unfold Planner.est_mem_GiB, Planner.bytes_per_triple.
  assert (Hpos : (0 < inject_Z (1024 ^ 3))%Q) by reflexivity.
  split; intro H.
  - apply (Qmult_le_r _ _ _ Hpos) in H.
    eapply Qle_trans; [ | exact H ].
    unfold Qdiv.
    rewrite <- Qmult_assoc, (Qmult_comm (/ _)), Qmult_inv_r, Qmult_1_r.
    + apply Qle_refl.
    + intro E. rewrite E in Hpos. discriminate.
  - apply Qle_shift_div_r; assumption.
Qed.

Lemma choose_mode_default (products : Z) :
  Planner.choose_mode products Planner.MAX_RAM_GiB =
  if products * 12 <=? 4 * 1024 ^ 3 then Planner.prealloc else Planner.stream.
Proof.
  unfold Planner.choose_mode.
  destruct (products * 12 <=? 4 * 1024 ^ 3) eqn:E.
  - apply Z.leb_le in E.
    assert (H : (Planner.est_mem_GiB products <= Planner.MAX_RAM_GiB)%Q).
    { apply est_mem_le_iff. change (Planner.MAX_RAM_GiB * inject_Z (1024 ^ 3))%Q
        with (inject_Z 4 * inject_Z (1024 ^ 3))%Q.
      rewrite <- inject_Z_mult. rewrite <- Zle_Qle. exact E. }
    apply Qle_bool_iff in H. rewrite H. reflexivity.
  - apply Z.leb_gt in E.
    destruct (Qle_bool (Planner.est_mem_GiB products) Planner.MAX_RAM_GiB) eqn:F;
      [ | reflexivity ].
    apply Qle_bool_iff, est_mem_le_iff in F.
    change (Planner.MAX_RAM_GiB * inject_Z (1024 ^ 3))%Q
      with (inject_Z 4 * inject_Z (1024 ^ 3))%Q in F.
    rewrite <- inject_Z_mult, <- Zle_Qle in F. lia.
Qed.

(** C7: the mode is [prealloc] exactly when the estimated count times the 12
    bytes of a triple is at most the budget (given in GiB, so compared in
    bytes with 1024^3 per GiB), and [stream] otherwise; [main] decides from
    the estimator's count and its constant budget of 4 GiB alone. *)
Theorem choose_mode_threshold :
  forall (products : Z) (budget_GiB : Q),
    (Planner.choose_mode products budget_GiB = Planner.prealloc <->
       (inject_Z (products * 12) <= budget_GiB * inject_Z (1024 ^ 3))%Q)
    /\ (Planner.choose_mode products budget_GiB = Planner.stream <->
       ~ (inject_Z (products * 12) <= budget_GiB * inject_Z (1024 ^ 3))%Q)
    /\ (forall (V : Type) (A AT : PartialProdGen.csr V),
          Planner.main_mode A AT =
          (n <- PartialProdGen.estimate_products A AT ;;
           Ok (if n * 12 <=? 4 * 1024 ^ 3 then Planner.prealloc
               else Planner.stream))).
Proof.
  intros products budget_GiB.
  pose proof (est_mem_le_iff products budget_GiB) as Hiff.
  assert (Hmain : forall (V : Type) (A AT : PartialProdGen.csr V),
          Planner.main_mode A AT =
          (n <- PartialProdGen.estimate_products A AT ;;
           Ok (if n * 12 <=? 4 * 1024 ^ 3 then Planner.prealloc
               else Planner.stream))).
  { intros V A AT. unfold Planner.main_mode.
    destruct (PartialProdGen.estimate_products A AT) as [n|e]; simpl;
      [ rewrite choose_mode_default | ]; reflexivity. }
  unfold Planner.choose_mode.
  destruct (Qle_bool (Planner.est_mem_GiB products) budget_GiB) eqn:E.
  - apply Qle_bool_iff, Hiff in E.
    split; [ | split; [ | exact Hmain ] ].
    + split; intros _; [ exact E | reflexivity ].
    + split; [ discriminate | intro Hn; contradiction ].
  - assert (Hn : ~ (inject_Z (products * 12)
                      <= budget_GiB * inject_Z (1024 ^ 3))%Q).
    { intro H. apply Hiff, Qle_bool_iff in H. congruence. }
    split; [ | split; [ | exact Hmain ] ].
    + split; [ discriminate | intro H; contradiction ].
    + split; intros _; [ exact Hn | reflexivity ].
Qed.

(** ** Column resolution *)

Section LoaderFacts.

Import Loader.
Local Open Scope string_scope.

Lemma user_alias_only (col : string) :
  is_in col user_aliases = true ->
  is_in col item_aliases = false /\ is_in col rating_aliases = false.
Proof.
  unfold is_in, user_aliases. simpl.
  destruct (String.eqb_spec col "user_id") as [-> | _]; [ now split | ].
  destruct (String.eqb_spec col "user") as [-> | _]; [ now split | ].
  destruct (String.eqb_spec col "row") as [-> | _]; [ now split | ].
  discriminate.
Qed.

Lemma item_alias_only (col : string) :
  is_in col item_aliases = true -> is_in col rating_aliases = false.
Proof.
  unfold is_in, item_aliases. simpl.
  destruct (String.eqb_spec col "item_id") as [-> | _]; [ reflexivity | ].
  destruct (String.eqb_spec col "movie_id") as [-> | _]; [ reflexivity | ].
  destruct (String.eqb_spec col "item") as [-> | _]; [ reflexivity | ].
  destruct (String.eqb_spec col "col") as [-> | _]; [ reflexivity | ].
  discriminate.
Qed.

Lemma last_match_snoc (aliases columns : list string) (col : string) :
  last_match aliases (columns ++ [col]) =
  if is_in col aliases then Some col else last_match aliases columns.
Proof.
  unfold last_match. rewrite rev_app_distr. reflexivity.
Qed.

(** The scan leaves in each variable the last column that matched it. *)
Lemma scan_columns_last (columns : list string) :
  scan_columns columns =
  mk_found (last_match user_aliases columns)
           (last_match item_aliases columns)
           (last_match rating_aliases columns).
Proof.
  induction columns as [ | col columns IH ] using rev_ind.
  - reflexivity.
  - unfold scan_columns in *. rewrite fold_left_app. cbn [fold_left].
    rewrite IH, !last_match_snoc. unfold scan_column.
    cbn [user_col item_col rating_col].
    destruct (is_in col user_aliases) eqn:Hu.
    + destruct (user_alias_only col Hu) as [-> ->]. reflexivity.
    + destruct (is_in col item_aliases) eqn:Hi.
      * rewrite (item_alias_only col Hi). reflexivity.
      * destruct (is_in col rating_aliases); reflexivity.
Qed.

End LoaderFacts.

(** C8, as the source has it: every matching column overwrites the variable of
    its field, so each field ends up with the last column that names it; when
    a field is named by no column the load raises [ValueError] before the
    matrix is built, whatever the construction would do. *)
Theorem load_matrix_last_match_wins :
  forall (M : Type) (build : string * string * string -> result M)
         (columns : list string),
    Loader.load_matrix_from_csv build columns =
    match Loader.last_match Loader.user_aliases columns,
          Loader.last_match Loader.item_aliases columns,
          Loader.last_match Loader.rating_aliases columns with
    | Some u, Some i, Some r => build (u, i, r)
    | _, _, _ => Raise ValueError
    end.
Proof.
  intros M build columns.
  unfold Loader.load_matrix_from_csv, Loader.resolve_columns.
  rewrite scan_columns_last.
  destruct (Loader.last_match Loader.user_aliases columns);
    destruct (Loader.last_match Loader.item_aliases columns);
    destruct (Loader.last_match Loader.rating_aliases columns); reflexivity.
Qed.

(** C8 fails as stated: with two columns that both name the user field, the
    loader keeps the second, not the first. *)
Lemma load_matrix_not_first_match :
  let columns := ["user_id"; "user"; "item"; "rating"]%string in
  Loader.resolve_columns columns = Ok ("user", "item", "rating")%string
  /\ Loader.first_match Loader.user_aliases columns = Some "user_id"%string
  /\ Loader.first_match Loader.user_aliases columns <> Some "user"%string.
Proof.
  repeat split. discriminate.
Qed.

(** ** Scaling and descaling *)

Section QuantizerFacts.

Import Quantizer.
Local Open Scope Q_scope.

(** Dropping the fraction moves a number by less than one, toward zero. *)
Lemma trunc_error (x : Q) : Qabs (inject_Z (trunc x) - x) < 1.
Proof.
  destruct x as [n d]. unfold trunc, Qlt, Qabs, Qminus, Qplus, Qopp, inject_Z.
  simpl.
  pose proof (Z.quot_rem' n (Z.pos d)) as Hqr.
  pose proof (Z.rem_bound_abs n (Z.pos d)) as Hr.
  assert (Hd : Z.pos d <> 0%Z) by discriminate. specialize (Hr Hd).
  simpl (Z.abs (Z.pos d)) in Hr.
  set (q := (n ÷ Z.pos d)%Z) in *. set (r := Z.rem n (Z.pos d)) in *. lia.
Qed.

Lemma trunc_toward_zero (x : Q) : Qabs (inject_Z (trunc x)) <= Qabs x.
Proof.
  destruct x as [n d]. unfold trunc, Qle, Qabs, inject_Z. simpl.
  rewrite Z.mul_1_r.
  assert (Hd : Z.pos d <> 0%Z) by discriminate.
  rewrite <- (Z.quot_abs n (Z.pos d) Hd). simpl (Z.abs (Z.pos d)).
  rewrite Z.mul_comm. apply Z.mul_quot_le; lia.
Qed.

Lemma trunc_inject_Z (z : Z) : trunc (inject_Z z) = z.
Proof. unfold trunc, inject_Z. simpl. apply Z.quot_1_r. Qed.

Lemma trunc_nonneg_mono (x y : Q) :
  0 <= x -> x <= y -> (trunc x <= trunc y)%Z.
Proof.
  destruct x as [n1 d1], y as [n2 d2]. unfold Qle, trunc. simpl.
  rewrite !Z.mul_1_r. intros H1 H.
  assert (H2 : (0 <= n2)%Z) by nia.
  rewrite !Z.quot_div_nonneg by lia.
  apply Z.div_le_lower_bound; [ lia | ].
  pose proof (Z.mul_div_le n1 (Z.pos d1) ltac:(lia)). nia.
Qed.

Lemma trunc_opp (x : Q) : trunc (- x) = (- trunc x)%Z.
Proof.
  destruct x as [n d]. unfold trunc, Qopp. simpl.
  apply Z.quot_opp_l. discriminate.
Qed.

Lemma trunc_sign (x : Q) :
  (0 <= x -> (0 <= trunc x)%Z) /\ (x <= 0 -> (trunc x <= 0)%Z).
Proof.
  destruct x as [n d]. unfold Qle, trunc. simpl. rewrite !Z.mul_1_r. split.
  - intro H. apply Z.quot_pos; lia.
  - intro H. rewrite <- (Z.opp_involutive n), Z.quot_opp_l by discriminate.
    assert (0 <= (- n) ÷ Z.pos d)%Z by (apply Z.quot_pos; lia). lia.
Qed.

(** Dropping the fraction keeps the order. *)
Lemma trunc_mono (x y : Q) : x <= y -> (trunc x <= trunc y)%Z.
Proof.
  intro H. destruct (Qlt_le_dec x 0) as [Hx | Hx].
  - destruct (Qlt_le_dec y 0) as [Hy | Hy].
    + assert (Hm : (trunc (- y) <= trunc (- x))%Z).
      { apply trunc_nonneg_mono.
        - apply (Qopp_le_compat y 0). now apply Qlt_le_weak.
        - now apply Qopp_le_compat. }
      rewrite !trunc_opp in Hm. lia.
    + destruct (trunc_sign x) as [_ H1]. destruct (trunc_sign y) as [H2 _].
      specialize (H1 (Qlt_le_weak _ _ Hx)). specialize (H2 Hy). lia.
  - now apply trunc_nonneg_mono.
Qed.

(** Equal rationals have the same integer part, whatever their fractions. *)
Lemma trunc_comp (x y : Q) : x == y -> trunc x = trunc y.
Proof.
  intro E. apply Z.le_antisymm; apply trunc_mono; rewrite E; apply Qle_refl.
Qed.

(** A number below one in magnitude has no integer part. *)
Lemma trunc_small (x : Q) : Qabs x < 1 -> trunc x = 0%Z.
Proof.
  intro H. pose proof (trunc_toward_zero x) as Ht.
  assert (Hlt : Qabs (inject_Z (trunc x)) < 1)
    by (eapply Qle_lt_trans; eassumption).
  unfold Qabs, inject_Z, Qlt in Hlt. simpl in Hlt. lia.
Qed.

(** *** Powers of two *)

Lemma two_pos : 0 < 2 # 1.
Proof. reflexivity. Qed.

Lemma two_nonzero : ~ (2 # 1) == 0.
Proof. discriminate. Qed.

Lemma pow2_pos (k : Z) : 0 < pow2 k.
Proof. apply Qpower_0_lt, two_pos. Qed.

Lemma pow2_nonzero (k : Z) : ~ pow2 k == 0.
Proof. apply Qpower_not_0, two_nonzero. Qed.

Lemma pow2_add (a b : Z) : pow2 (a + b) == pow2 a * pow2 b.
Proof. apply Qpower_plus, two_nonzero. Qed.

Lemma pow2_sub (a b : Z) : pow2 (a - b) == pow2 a / pow2 b.
Proof. apply Qpower_minus, two_nonzero. Qed.

Lemma pow2_inject_Z (k : Z) : (0 <= k)%Z -> pow2 k == inject_Z (2 ^ k).
Proof. intro H. symmetry. apply (Zpower_Qpower 2 k H). Qed.

Lemma pow2_le (a b : Z) : (a <= b)%Z -> pow2 a <= pow2 b.
Proof. intro H. apply Qpower_le_compat_l; [ exact H | discriminate ]. Qed.

Lemma pow2_lt_inv (a b : Z) : pow2 a < pow2 b -> (a < b)%Z.
Proof. intro H. apply (Qpower_lt_compat_l_inv (2 # 1)); [ exact H | reflexivity ]. Qed.

Lemma Qabs_pow2 (k : Z) : Qabs (pow2 k) == pow2 k.
Proof. apply Qabs_pos, Qlt_le_weak, pow2_pos. Qed.

(** *** Rounding to binary32 *)

(** The leading bit is not above the number. *)
Lemma ilog2_le (x : Q) : ~ x == 0 -> pow2 (ilog2 x) <= Qabs x.
Proof.
  intro Hx. unfold ilog2.
  set (k := (Z.log2 (Z.abs (Qnum x)) - Z.log2 (Z.pos (Qden x)))%Z).
  destruct (Qle_bool (pow2 k) (Qabs x)) eqn:E.
  - now apply Qle_bool_iff.
  - clear E. destruct x as [n d]. cbn [Qnum Qden] in k.
    assert (Hn : (0 < Z.abs n)%Z).
    { assert (n <> 0)%Z; [ | lia ]. intro E. apply Hx. subst n. reflexivity. }
    pose proof (Z.log2_spec (Z.abs n) Hn) as [Hn1 _].
    pose proof (Z.log2_spec (Z.pos d) ltac:(lia)) as [_ Hd2].
    pose proof (Z.log2_nonneg (Z.abs n)) as Hln.
    pose proof (Z.log2_nonneg (Z.pos d)) as Hld.
    set (ln := Z.log2 (Z.abs n)) in *. set (ld := Z.log2 (Z.pos d)) in *.
    assert (Ek : pow2 (k - 1) * inject_Z (2 ^ Z.succ ld) == inject_Z (2 ^ ln)).
    { rewrite <- !pow2_inject_Z by lia. rewrite <- pow2_add.
      replace (k - 1 + Z.succ ld)%Z with ln by (unfold k, ln, ld; lia). reflexivity. }
    assert (Hd : 0 < inject_Z (Z.pos d)) by reflexivity.
    apply Qmult_le_r with (z := inject_Z (Z.pos d)); [ exact Hd | ].
    assert (Eabs : Qabs (n # d) * inject_Z (Z.pos d) == inject_Z (Z.abs n)).
    { unfold Qabs, Qeq, Qmult, inject_Z. simpl. lia. }
    rewrite Eabs.
    apply Qle_trans with (pow2 (k - 1) * inject_Z (2 ^ Z.succ ld)).
    + apply Qmult_le_l; [ apply pow2_pos | ].
      rewrite <- Zle_Qle. lia.
    + rewrite Ek. rewrite <- Zle_Qle. exact Hn1.
Qed.

Lemma rint_inject_Z (x : Q) (z : Z) : x == inject_Z z -> rint x = z.
Proof.
  intro E. unfold rint. rewrite (Qfloor_comp _ _ E), Qfloor_Z.
  assert (Ec : (x - inject_Z z ?= 1 # 2) = Lt).
  { rewrite (Qcompare_comp (x - inject_Z z) 0 ltac:(rewrite E; ring)
               (1 # 2) (1 # 2) ltac:(reflexivity)).
    reflexivity. }
  now rewrite Ec.
Qed.

(** Rounding leaves a binary32 number as it is. *)
Lemma float32_exact (x : Q) (m e : Z) :
  (Z.abs m < 2 ^ 24)%Z -> (- 149 <= e)%Z ->
  x == inject_Z m * pow2 e -> float32 x == x.
Proof.
  intros Hm He E. unfold float32.
  destruct (Qeq_bool x 0) eqn:E0.
  - apply Qeq_bool_iff in E0. now rewrite E0.
  - assert (Hx : ~ x == 0) by now apply Qeq_bool_neq.
    set (e' := Z.max (ilog2 x - 23) (- 149)).
    assert (Hle : (e' <= e)%Z).
    { assert (ilog2 x < e + 24)%Z; [ | unfold e'; lia ].
      apply pow2_lt_inv.
      eapply Qle_lt_trans; [ apply ilog2_le, Hx | ].
      rewrite E, Qabs_Qmult, Qabs_pow2, pow2_add, (Qmult_comm (pow2 e)).
      apply Qmult_lt_r; [ apply pow2_pos | ].
      rewrite pow2_inject_Z by lia.
      assert (Ea : Qabs (inject_Z m) == inject_Z (Z.abs m)).
      { unfold Qabs, inject_Z. simpl. reflexivity. }
      rewrite Ea. rewrite <- Zlt_Qlt. exact Hm. }
    assert (Ei : x / pow2 e' == inject_Z (m * 2 ^ (e - e'))).
    { rewrite inject_Z_mult, <- pow2_inject_Z by lia.
      rewrite pow2_sub, E. field. apply pow2_nonzero. }
    rewrite (rint_inject_Z _ _ Ei), E, inject_Z_mult.
    rewrite <- pow2_inject_Z, <- Qmult_assoc, <- pow2_add by lia.
    replace (e - e' + e')%Z with e by lia. reflexivity.
Qed.

Lemma Qabs_inject_Z (z : Z) : Qabs (inject_Z z) == inject_Z (Z.abs z).
Proof. reflexivity. Qed.

(** A power of two is a binary32 number. *)
Lemma float32_pow2 (k : Z) :
  (0 <= k)%Z -> float32 (inject_Z (2 ^ k)) == inject_Z (2 ^ k).
Proof.
  intro Hk. apply (float32_exact _ 1 k); [ reflexivity | lia | ].
  rewrite pow2_inject_Z by lia. ring.
Qed.

(** An integer of at most 24 bits, moved by a power of two, is a binary32
    number. *)
Lemma int24_scaled (q k : Z) (x : Q) :
  (Z.abs q <= 2 ^ 24)%Z -> (- 149 <= k)%Z ->
  x == inject_Z q * pow2 k -> float32 x == x.
Proof.
  intros Hq Hk E.
  destruct (Z.eq_dec (Z.abs q) (2 ^ 24)) as [Heq | Hne].
  - apply (float32_exact x (Z.sgn q) (24 + k)); [ lia | lia | ].
    rewrite E, pow2_add, Qmult_assoc. apply Qmult_comp; [ | reflexivity ].
    rewrite (pow2_inject_Z 24) by lia. rewrite <- inject_Z_mult.
    apply inject_Z_injective. rewrite <- Heq. lia.
  - apply (float32_exact x q k); [ lia | lia | exact E ].
Qed.

Lemma float32_int24 (q : Z) :
  (Z.abs q <= 2 ^ 24)%Z -> float32 (inject_Z q) == inject_Z q.
Proof.
  intro Hq. apply (int24_scaled q 0); [ exact Hq | lia | ].
  change (pow2 0) with 1. ring.
Qed.

(** The integer part of a binary32 number is an integer that binary32 holds:
    one of fewer than 24 bits, or that many bits followed by zeros. *)
Lemma trunc_dyadic (x : Q) (m e : Z) :
  (Z.abs m < 2 ^ 24)%Z -> x == inject_Z m * pow2 e ->
  exists m' e' : Z,
    (Z.abs m' < 2 ^ 24)%Z /\ (0 <= e')%Z /\ trunc x = (m' * 2 ^ e')%Z.
Proof.
  intros Hm E. destruct (Z_le_gt_dec 0 e) as [He | He].
  - exists m, e. split; [ exact Hm | split; [ exact He | ] ].
    rewrite <- (trunc_inject_Z (m * 2 ^ e)). apply trunc_comp.
    rewrite E, inject_Z_mult, pow2_inject_Z by exact He. reflexivity.
  - exists (trunc x), 0%Z. split; [ | split; [ lia | simpl; lia ] ].
    pose proof (trunc_toward_zero x) as Ht.
    assert (Hx : Qabs x <= inject_Z (Z.abs m)).
    { rewrite E, Qabs_Qmult, Qabs_pow2, Qabs_inject_Z.
      rewrite <- (Qmult_1_l (inject_Z (Z.abs m))) at 2.
      rewrite (Qmult_comm (inject_Z (Z.abs m))).
      apply Qmult_le_compat_r.
      - change 1 with (pow2 0). apply pow2_le. lia.
      - rewrite <- (Qabs_inject_Z m). apply Qabs_nonneg. }
    assert (Hz : inject_Z (Z.abs (trunc x)) <= inject_Z (Z.abs m)).
    { rewrite <- Qabs_inject_Z. eapply Qle_trans; eassumption. }
    rewrite <- Zle_Qle in Hz. lia.
Qed.

Lemma astype_int32_in_range (x : Q) :
  (- 2 ^ 31 <= trunc x < 2 ^ 31)%Z -> astype_int32 x = trunc x.
Proof.
  intros [H1 H2]. unfold astype_int32.
  apply Z.leb_le in H1. apply Z.ltb_lt in H2. now rewrite H1, H2.
Qed.

Lemma astype_int32_comp (x y : Q) :
  x == y -> astype_int32 x = astype_int32 y.
Proof. intro E. unfold astype_int32. now rewrite (trunc_comp _ _ E). Qed.

Lemma astype_int32_range (x : Q) :
  (- 2 ^ 31 <= astype_int32 x < 2 ^ 31)%Z.
Proof.
  unfold astype_int32.
  destruct ((- 2 ^ 31 <=? trunc x)%Z && (trunc x <? 2 ^ 31)%Z) eqn:E.
  - apply andb_true_iff in E. destruct E as [E1 E2].
    apply Z.leb_le in E1. apply Z.ltb_lt in E2. lia.
  - lia.
Qed.

(** With a binary32 value and a scale factor that is a power of two, the
    product is exact: scaling is the conversion of the exact product. *)
Lemma quantize_pow2 (v : Q) (k : Z) :
  binary32 v -> (0 <= k <= 127)%Z ->
  quantize v (2 ^ k) = astype_int32 (v * inject_Z (2 ^ k)).
Proof.
  intros (m & e & Hm & He & Ev) Hk. unfold quantize.
  apply astype_int32_comp.
  pose proof (float32_pow2 k ltac:(lia)) as HS.
  assert (Ex : v * float32 (inject_Z (2 ^ k)) == inject_Z m * pow2 (e + k)).
  { rewrite HS, Ev, pow2_add, <- pow2_inject_Z by lia. ring. }
  rewrite (float32_exact _ m (e + k) Hm ltac:(lia) Ex), HS. reflexivity.
Qed.

(** Descaling the integer part of such a product is exact as well. *)
Lemma dequantize_pow2 (v : Q) (k : Z) :
  binary32 v -> (0 <= k <= 127)%Z ->
  let t := trunc (v * inject_Z (2 ^ k)) in
  dequantize t (2 ^ k) == inject_Z t / inject_Z (2 ^ k).
Proof.
  intros (m & e & Hm & He & Ev) Hk t. unfold dequantize.
  pose proof (float32_pow2 k ltac:(lia)) as HS.
  assert (Ex : v * inject_Z (2 ^ k) == inject_Z m * pow2 (e + k)).
  { rewrite Ev, pow2_add, <- pow2_inject_Z by lia. ring. }
  destruct (trunc_dyadic _ m (e + k) Hm Ex) as (m' & e' & Hm' & He' & Et).
  fold t in Et.
  assert (Ht : inject_Z t == inject_Z m' * pow2 e').
  { rewrite Et, inject_Z_mult, pow2_inject_Z by lia. reflexivity. }
  pose proof (float32_exact _ m' e' Hm' ltac:(lia) Ht) as Hft.
  assert (Ey : float32 (inject_Z t) / float32 (inject_Z (2 ^ k))
               == inject_Z m' * pow2 (e' - k)).
  { rewrite Hft, HS, Ht, pow2_sub, <- pow2_inject_Z by lia.
    field. apply pow2_nonzero. }
  rewrite (float32_exact _ m' (e' - k) Hm' ltac:(lia) Ey), Hft, HS.
  reflexivity.
Qed.

Lemma round_trip_error (v : Q) (scale_factor : Z) :
  (0 < scale_factor)%Z ->
  Qabs (inject_Z (trunc (v * inject_Z scale_factor)) / inject_Z scale_factor
        - v)
  < 1 / inject_Z scale_factor.
Proof.
  intro HS.
  assert (Hpos : 0 < inject_Z scale_factor).
  { change 0 with (inject_Z 0). rewrite <- Zlt_Qlt. exact HS. }
  assert (Hne : ~ inject_Z scale_factor == 0).
  { intro E. rewrite E in Hpos. discriminate. }
  apply Qlt_shift_div_l; [ exact Hpos | ].
  set (t := trunc (v * inject_Z scale_factor)).
  assert (E : Qabs (inject_Z t / inject_Z scale_factor - v)
              * inject_Z scale_factor
              == Qabs (inject_Z t - v * inject_Z scale_factor)).
  { transitivity (Qabs (inject_Z t / inject_Z scale_factor - v)
                  * Qabs (inject_Z scale_factor)).
    - apply Qmult_comp; [ reflexivity | ]. symmetry.
      apply Qabs_pos, Qlt_le_weak, Hpos.
    - transitivity (Qabs ((inject_Z t / inject_Z scale_factor - v)
                          * inject_Z scale_factor)).
      + symmetry. apply Qabs_Qmult.
      + apply Qabs_wd. field. exact Hne. }
  eapply Qle_lt_trans; [ | apply (trunc_error (v * inject_Z scale_factor)) ].
  apply Qle_lteq. right. exact E.
Qed.

Lemma binary32_opp (v : Q) : binary32 v -> binary32 (- v).
Proof.
  intros (m & e & Hm & He & Ev). exists (- m)%Z, e.
  split; [ lia | split; [ exact He | ] ].
  rewrite Ev, inject_Z_opp. ring.
Qed.

(** Descaling an integer of at most 24 bits by 65536 and scaling it again. *)
Lemma rescale_exact (q : Z) :
  (Z.abs q <= 2 ^ 24)%Z ->
  dequantize q SCALE_FACTOR == inject_Z q / inject_Z SCALE_FACTOR
  /\ quantize (dequantize q SCALE_FACTOR) SCALE_FACTOR = q.
Proof.
  intro Hq. unfold SCALE_FACTOR.
  pose proof (float32_pow2 16 ltac:(lia)) as HS.
  change (2 ^ 16)%Z with 65536%Z in HS.
  pose proof (float32_int24 q Hq) as Hfq.
  assert (Ey : float32 (inject_Z q) / float32 (inject_Z 65536)
               == inject_Z q * pow2 (- 16)).
  { rewrite Hfq, HS. unfold Qdiv. apply Qmult_comp; reflexivity. }
  assert (Ed : dequantize q 65536 == inject_Z q / inject_Z 65536).
  { unfold dequantize.
    rewrite (int24_scaled q (- 16) _ Hq ltac:(lia) Ey), Hfq, HS. reflexivity. }
  split; [ exact Ed | ].
  unfold quantize.
  assert (Ex : dequantize q 65536 * float32 (inject_Z 65536) == inject_Z q).
  { rewrite Ed, HS. field. }
  assert (Ex0 : dequantize q 65536 * float32 (inject_Z 65536)
                == inject_Z q * pow2 0).
  { rewrite Ex. change (pow2 0) with 1. ring. }
  rewrite (astype_int32_comp _ (inject_Z q)).
  - rewrite astype_int32_in_range; rewrite trunc_inject_Z; [ reflexivity | lia ].
  - rewrite (int24_scaled q 0 _ Hq ltac:(lia) Ex0). exact Ex.
Qed.

End QuantizerFacts.

(** The rounding of [Quantizer.float32] against the IEEE operations on
    binary32 numbers: a quotient and a product that are not exact, an
    integer of 25 bits, a tie that goes to the even neighbour, and a tie
    between two of the smallest numbers. *)
Lemma float32_agrees_with_ieee :
  (Quantizer.float32 (1 # 3)
   == Binary32.to_Q (SFdiv Binary32.prec Binary32.emax (Binary32.of_int 1)
                       (Binary32.of_int 3)))%Q
  /\ (Quantizer.float32 (inject_Z (4097 * 4097))
      == Binary32.to_Q (SFmul Binary32.prec Binary32.emax
                          (Binary32.of_int 4097) (Binary32.of_int 4097)))%Q
  /\ (Quantizer.float32 (inject_Z 16777217)
      == Binary32.to_Q (Binary32.of_int 16777217))%Q
  /\ (Quantizer.float32 (inject_Z 16777219)
      == Binary32.to_Q (Binary32.of_int 16777219))%Q
  /\ (Quantizer.float32 (inject_Z 16777219) == inject_Z 16777220)%Q
  /\ (Quantizer.float32 (inject_Z 3 * Quantizer.pow2 (- 150))
      == Binary32.to_Q (SFmul Binary32.prec Binary32.emax
                          (S754_finite false 3 (- 100))
                          (S754_finite false 1 (- 50))))%Q
  /\ (Quantizer.float32 (inject_Z 3 * Quantizer.pow2 (- 150))
      == Quantizer.pow2 (- 148))%Q.
Proof. repeat split; vm_compute; reflexivity. Qed.

(** C4 fails as stated: 0.75/65536 scaled by 65536 is 0.75, which the
    conversion to [int32] turns into 0, not into the nearest integer 1; the
    round trip then misses the value by 0.75/65536, more than 0.5/65536.  The
    binary32 computation, on the same value 12582912 * 2^-40, gives the same
    integer and descales it to zero. *)
Lemma quantize_does_not_round :
  let v := (3 # 262144)%Q in
  Quantizer.quantize v Quantizer.SCALE_FACTOR = 0
  /\ (Qabs (v * inject_Z Quantizer.SCALE_FACTOR - inject_Z 1)
      < Qabs (v * inject_Z Quantizer.SCALE_FACTOR - inject_Z 0))%Q
  /\ ~ (Qabs (Quantizer.dequantize 0 Quantizer.SCALE_FACTOR - v)
        <= (1 # 2) / inject_Z Quantizer.SCALE_FACTOR)%Q
  /\ Binary32.quantize (S754_finite false 12582912 (-40))
       Quantizer.SCALE_FACTOR = 0
  /\ Binary32.dequantize 0 Quantizer.SCALE_FACTOR = S754_zero false.
Proof.
  split; [ vm_compute; reflexivity | split; [ reflexivity | split ] ].
  - intro H. vm_compute in H. apply H. reflexivity.
  - split; vm_compute; reflexivity.
Qed.

(** The conversion does not saturate either, and a scale factor that is not
    a power of two lets the binary32 product round before the conversion:
    40000 scaled by 65536 is 2621440000, beyond [int32], and becomes
    -2147483648; the binary32 number nearest to 0.01, 10737418 * 2^-30, is
    below 0.01, yet its product with 100 rounds to 1.  The computation with
    the binary32 operations gives the same integers. *)
Lemma quantize_out_of_range_and_inexact :
  Quantizer.quantize (inject_Z 40000) Quantizer.SCALE_FACTOR = - 2147483648
  /\ Binary32.quantize (Binary32.of_int 40000) Quantizer.SCALE_FACTOR
     = - 2147483648
  /\ (Quantizer.float32 (1 # 100) == 10737418 # 1073741824)%Q
  /\ Quantizer.trunc ((10737418 # 1073741824) * inject_Z 100) = 0
  /\ Quantizer.quantize (10737418 # 1073741824) 100 = 1
  /\ Binary32.quantize (S754_finite false 10737418 (-30)) 100 = 1.
Proof. repeat split; vm_compute; reflexivity. Qed.

(** C4, as the source has it: for a binary32 value [v] and a scale factor
    that is a power of two up to [2^127] (the source's is [2^16]), the
    quantized value is the product [v * scale_factor] with its fraction
    dropped (rounded toward zero) when that integer lies in the [int32]
    range, and -2147483648 when it does not; when it does, dequantizing
    divides by the scale factor, and the round trip differs from [v] by less
    than [1 / scale_factor]. *)
Theorem quantize_round_trip :
  forall (v : Q) (k : Z),
    Quantizer.binary32 v ->
    0 <= k <= 127 ->
    let scale_factor := 2 ^ k in
    let t := Quantizer.trunc (v * inject_Z scale_factor) in
    Quantizer.quantize v scale_factor
    = (if (- 2 ^ 31 <=? t) && (t <? 2 ^ 31) then t else - 2 ^ 31)
    /\ (Qabs (inject_Z t) <= Qabs (v * inject_Z scale_factor))%Q
    /\ (- 2 ^ 31 <= t < 2 ^ 31 ->
        Quantizer.quantize v scale_factor = t
        /\ (Quantizer.dequantize (Quantizer.quantize v scale_factor)
              scale_factor
            == inject_Z t / inject_Z scale_factor)%Q
        /\ (Qabs (Quantizer.dequantize (Quantizer.quantize v scale_factor)
                    scale_factor - v)
            < 1 / inject_Z scale_factor)%Q).
Proof.
  intros v k Hv Hk S t.
  assert (Hq : Quantizer.quantize v S = Quantizer.astype_int32 (v * inject_Z S))
    by (apply quantize_pow2; assumption).
  split; [ exact Hq | split; [ apply trunc_toward_zero | ] ].
  intro Hr.
  assert (Hqt : Quantizer.quantize v S = t).
  { rewrite Hq. apply astype_int32_in_range. exact Hr. }
  assert (Hd : (Quantizer.dequantize t S == inject_Z t / inject_Z S)%Q)
    by (apply dequantize_pow2; assumption).
  split; [ exact Hqt | ]. rewrite Hqt.
  split; [ exact Hd | ].
  rewrite Hd. apply round_trip_error.
  unfold S. apply Z.pow_pos_nonneg; lia.
Qed.

(** The statement above at the scale factor [2^16] of the source and the
    value 0.75/65536, the binary32 number [3 * 2^-18]: the quantized value is
    0 and the round trip misses the value by less than 1/65536. *)
Lemma quantize_round_trip_witness :
  Quantizer.quantize (3 # 262144) (2 ^ 16) = 0
  /\ (Qabs (Quantizer.dequantize (Quantizer.quantize (3 # 262144) (2 ^ 16))
              (2 ^ 16) - (3 # 262144))
      < 1 / inject_Z (2 ^ 16))%Q.
Proof.
  assert (Hv : Quantizer.binary32 (3 # 262144)).
  { exists 3, (- 18). split; [ reflexivity | split; [ lia | reflexivity ] ]. }
  assert (Hk : 0 <= 16 <= 127) by lia.
  destruct (quantize_round_trip (3 # 262144) 16 Hv Hk) as (_ & _ & H).
  destruct H as (H1 & _ & H3).
  - split; [ discriminate | reflexivity ].
  - split; [ exact H1 | exact H3 ].
Defined.

(** ** The two verifiers on the examples of the specification *)

(** C3 fails as stated: 4.0 and 4.0000005 differ by 5e-7, which is within the
    tolerance 1e-6, so the pair is reported as matching.  Both verifiers are
    evaluated, over the rationals and over IEEE binary64. *)
Lemma close_pair_matches_at_1e6 :
  Qle_bool (Qabs (4 - (40000005 # 10000000))) (1 # 1000000) = true
  /\ RecVerifier.rating_differs (1 # 1000000)
       (RecVerifier.mk_merged 0 0 (Some 4%Q) (Some (40000005 # 10000000))
          RecVerifier.both) = false
  /\ RecVerifier.rating_mismatch_count
       (RecVerifier.compare_recommendations
          [RecVerifier.mk_rec 0 0 4] [RecVerifier.mk_rec 0 0 (40000005 # 10000000)]
          (1 # 1000000) 5) = 0
  /\ map RtlChecker.matched
       (RtlChecker.build_report [((0, 0), 4)%Q]
          [((0, 0), 40000005 # 10000000)%Q]) = [true]
  /\ Binary64.rating_differs 4 4.0000005 1e-6 = false
  /\ Binary64.isclose 4 4.0000005 1e-6 = true.
Proof.
  repeat split; vm_compute; reflexivity.
Qed.

(** C3, as the source has it: the pair (4.0, 4.0000005) is reported as
    matching ([matched = 1], no rating mismatch) at tolerance 1e-6 and at
    tolerance 1e-3 alike. *)
Theorem close_pair_matches :
  let ref := 4%Q in
  let obs := (40000005 # 10000000)%Q in
  let both_rows := RecVerifier.mk_merged 0 0 (Some ref) (Some obs)
                     RecVerifier.both in
  (RecVerifier.rating_differs (1 # 1000000) both_rows = false
   /\ RecVerifier.rating_differs (1 # 1000) both_rows = false)
  /\ (map RtlChecker.matched
        (RtlChecker.build_report_tol (1 # 1000000) [((0, 0), ref)%Q]
           [((0, 0), obs)%Q]) = [true]
      /\ map RtlChecker.matched
           (RtlChecker.build_report_tol (1 # 1000) [((0, 0), ref)%Q]
              [((0, 0), obs)%Q]) = [true])
  /\ (Binary64.rating_differs 4 4.0000005 1e-6 = false
      /\ Binary64.rating_differs 4 4.0000005 1e-3 = false)
  /\ (Binary64.isclose 4 4.0000005 1e-6 = true
      /\ Binary64.isclose 4 4.0000005 1e-3 = true).
Proof.
  repeat split; vm_compute; reflexivity.
Qed.

Section RecVerifierFacts.

Import RecVerifier.


End RecVerifierFacts.



(** ** The RTL regression checker *)

Section RtlCheckerFacts.

Import RtlChecker.
Local Open Scope Q_scope.

Lemma key_eqb_refl (k : key) : key_eqb k k = true.
Proof.
  unfold key_eqb. apply andb_true_iff; split; apply Qeq_bool_iff, Qeq_refl.
Qed.

Lemma key_eqb_sym (a b : key) : key_eqb a b = key_eqb b a.
Proof.
  unfold key_eqb.
  assert (H : forall x y, Qeq_bool x y = Qeq_bool y x).
  { intros x y. destruct (Qeq_bool x y) eqn:E, (Qeq_bool y x) eqn:F; auto.
    - apply Qeq_bool_iff in E. symmetry in E. apply Qeq_bool_iff in E. congruence.
    - apply Qeq_bool_iff in F. symmetry in F. apply Qeq_bool_iff in F. congruence. }
  now rewrite (H (fst a)), (H (snd a)).
Qed.

Lemma key_eqb_trans (a b c : key) :
  key_eqb a b = true -> key_eqb b c = true -> key_eqb a c = true.
Proof.
  unfold key_eqb. rewrite !andb_true_iff, !Qeq_bool_iff.
  intros [H1 H2] [H3 H4]. split; etransitivity; eassumption.
Qed.

Lemma filter_nil_existsb {A : Type} (f : A -> bool) (l : list A) :
  filter f l = [] <-> existsb f l = false.
Proof.
  induction l as [ | x l IH ]; simpl; [ tauto | ].
  destruct (f x); simpl; [ split; discriminate | exact IH ].
Qed.

Lemma insert_by_key_In (x y : report_row) (l : list report_row) :
  In y (insert_by_key x l) <-> y = x \/ In y l.
Proof.
  induction l as [ | z l IH ]; simpl.
  - intuition.
  - destruct (key_leb (rep_key x) (rep_key z)); simpl; [ intuition | ].
    rewrite IH. intuition.
Qed.

Lemma sort_by_key_In (y : report_row) (l : list report_row) :
  In y (sort_by_key l) <-> In y l.
Proof.
  induction l as [ | x l IH ]; simpl; [ tauto | ].
  rewrite insert_by_key_In, IH. intuition.
Qed.

(** The three kinds of rows an outer merge has. *)
Lemma outer_merge_In (sw hw : list (key * Q)) (m : key * option Q * option Q) :
  In m (outer_merge sw hw) <->
  (exists l r, In l sw /\ In r hw /\ key_eqb (fst l) (fst r) = true
               /\ m = (fst l, Some (snd l), Some (snd r)))
  \/ (exists l, In l sw
                /\ existsb (fun r => key_eqb (fst l) (fst r)) hw = false
                /\ m = (fst l, Some (snd l), None))
  \/ (exists r, In r hw
                /\ existsb (fun l => key_eqb (fst l) (fst r)) sw = false
                /\ m = (fst r, None, Some (snd r))).
Proof.
  unfold outer_merge. rewrite in_app_iff, !in_flat_map. split.
  - intros [[l [Hl Hm]] | [r [Hr Hm]]].
    + destruct (filter (fun r => key_eqb (fst l) (fst r)) hw) as [ | r0 rs ] eqn:F.
      * destruct Hm as [<- | []]. right; left. exists l.
        apply filter_nil_existsb in F. auto.
      * rewrite <- F in Hm. apply in_map_iff in Hm.
        destruct Hm as [r [<- Hr]]. apply filter_In in Hr. destruct Hr as [Hr Hk].
        left. exists l, r. auto.
    + destruct (existsb (fun l => key_eqb (fst l) (fst r)) sw) eqn:E.
      * destruct Hm.
      * destruct Hm as [<- | []]. right; right. exists r. auto.
  - intros [[l [r [Hl [Hr [Hk ->]]]]] | [[l [Hl [He ->]]] | [r [Hr [He ->]]]]].
    + left. exists l. split; [ exact Hl | ].
      assert (Hf : In r (filter (fun r => key_eqb (fst l) (fst r)) hw))
        by (apply filter_In; auto).
      destruct (filter (fun r => key_eqb (fst l) (fst r)) hw) as [ | r0 rs ] eqn:F;
        [ destruct Hf | ].
      rewrite <- F. apply in_map_iff. exists r. rewrite F. auto.
    + left. exists l. split; [ exact Hl | ].
      apply filter_nil_existsb in He. rewrite He. left; reflexivity.
    + right. exists r. split; [ exact Hr | ]. rewrite He. left; reflexivity.
Qed.

Lemma isclose_zero_right (g tol : Q) :
  isclose g 0 tol = Qle_bool (Qabs g) tol.
Proof.
  unfold isclose. apply Qleb_comp.
  - apply Qabs_wd. ring.
  - change (Qabs 0) with 0. ring.
Qed.

Lemma isclose_zero_left (h tol : Q) :
  isclose 0 h tol = Qle_bool (Qabs h) (tol + rtol * Qabs h).
Proof.
  unfold isclose. apply Qleb_comp; [ | reflexivity ].
  rewrite <- (Qabs_opp h). apply Qabs_wd. ring.
Qed.

End RtlCheckerFacts.

(** In [build_report] a row whose key the hardware side lacks carries
    [hw = 0] and is marked matched exactly when [|gold| <= TOL]; a row whose
    key the software side lacks carries [gold = 0] and is marked matched
    exactly when [np.isclose] accepts its value against 0, that is when
    [|hw| <= TOL + rtol * |hw|].  Such rows are ordinary report rows (key,
    gold, hw, match): every key found on one side only produces one, and a
    software-only key whose sum is within [TOL] of 0 is reported as a match. *)
Theorem missing_key_zero_filled :
  forall (sw hw : list (RtlChecker.key * Q)),
    (forall x : RtlChecker.report_row,
        In x (RtlChecker.build_report sw hw) ->
        (existsb (fun r => RtlChecker.key_eqb (RtlChecker.rep_key x) (fst r)) hw
           = false ->
         RtlChecker.hw x = 0%Q
         /\ In (RtlChecker.rep_key x, RtlChecker.gold x) sw
         /\ RtlChecker.matched x =
            Qle_bool (Qabs (RtlChecker.gold x)) RtlChecker.TOL)
        /\ (existsb (fun l => RtlChecker.key_eqb (fst l) (RtlChecker.rep_key x))
              sw = false ->
            RtlChecker.gold x = 0%Q
            /\ In (RtlChecker.rep_key x, RtlChecker.hw x) hw
            /\ RtlChecker.matched x =
               Qle_bool (Qabs (RtlChecker.hw x))
                 (RtlChecker.TOL + RtlChecker.rtol * Qabs (RtlChecker.hw x))))
    /\ (forall (k : RtlChecker.key) (g : Q),
           In (k, g) sw ->
           existsb (fun r => RtlChecker.key_eqb k (fst r)) hw = false ->
           In (RtlChecker.mk_report k g 0
                 (Qle_bool (Qabs g) RtlChecker.TOL))
              (RtlChecker.build_report sw hw)
           /\ ((Qabs g <= RtlChecker.TOL)%Q ->
               In (RtlChecker.mk_report k g 0 true)
                  (RtlChecker.build_report sw hw)))
    /\ (forall (k : RtlChecker.key) (h : Q),
           In (k, h) hw ->
           existsb (fun l => RtlChecker.key_eqb (fst l) k) sw = false ->
           In (RtlChecker.mk_report k 0 h
                 (Qle_bool (Qabs h)
                    (RtlChecker.TOL + RtlChecker.rtol * Qabs h)))
              (RtlChecker.build_report sw hw)).
Proof.
  intros sw hw. unfold RtlChecker.build_report, RtlChecker.build_report_tol.
  split; [ | split ].
  - intros x Hx. apply sort_by_key_In, in_map_iff in Hx.
    destruct Hx as [m [<- Hm]]. apply outer_merge_In in Hm. simpl.
    destruct Hm as [[l [r [Hl [Hr [Hk ->]]]]] | [[l [Hl [He ->]]] | [r [Hr [He ->]]]]];
      simpl; split; intro Hnone.
    + exfalso. apply Bool.not_true_iff_false in Hnone. apply Hnone.
      apply existsb_exists. exists r. auto.
    + exfalso. apply Bool.not_true_iff_false in Hnone. apply Hnone.
      apply existsb_exists. exists l. split; [ exact Hl | apply key_eqb_refl ].
    + split; [ reflexivity | split ].
      * rewrite <- surjective_pairing. exact Hl.
      * apply isclose_zero_right.
    + exfalso. apply Bool.not_true_iff_false in Hnone. apply Hnone.
      apply existsb_exists. exists l. split; [ exact Hl | apply key_eqb_refl ].
    + exfalso. apply Bool.not_true_iff_false in Hnone. apply Hnone.
      apply existsb_exists. exists r. split; [ exact Hr | apply key_eqb_refl ].
    + split; [ reflexivity | split ].
      * rewrite <- surjective_pairing. exact Hr.
      * apply isclose_zero_left.
  - intros k g Hin He.
    assert (Hrow : In (RtlChecker.mk_report k g 0
                         (Qle_bool (Qabs g) RtlChecker.TOL))
                     (RtlChecker.sort_by_key
                        (map (fun m =>
                                RtlChecker.mk_report (fst (fst m))
                                  (RtlChecker.fillna0 (snd (fst m)))
                                  (RtlChecker.fillna0 (snd m))
                                  (RtlChecker.isclose
                                     (RtlChecker.fillna0 (snd (fst m)))
                                     (RtlChecker.fillna0 (snd m))
                                     RtlChecker.TOL))
                           (RtlChecker.outer_merge sw hw)))).
    { apply sort_by_key_In, in_map_iff. exists (k, Some g, None). simpl.
      split; [ now rewrite isclose_zero_right | ].
      apply outer_merge_In. right; left. exists (k, g). auto. }
    split; [ exact Hrow | ].
    intro Hle. apply Qle_bool_iff in Hle. rewrite Hle in Hrow. exact Hrow.
  - intros k h Hin He.
    apply sort_by_key_In, in_map_iff. exists (k, None, Some h). simpl.
    split; [ now rewrite isclose_zero_left | ].
    apply outer_merge_In. right; right. exists (k, h). auto.
Qed.

(** The statement above at a software-only key whose sum, 5e-7, is near
    zero: its row reads [hw = 0] and [match = 1]. *)
Lemma missing_key_zero_filled_witness :
  In (RtlChecker.mk_report (0, 1)%Q (1 # 2000000) 0 true)
     (RtlChecker.build_report [((0, 1)%Q, 1 # 2000000)] []).
Proof.
  refine (proj2 (proj1 (proj2
            (missing_key_zero_filled [((0, 1)%Q, 1 # 2000000)] []))
            (0, 1)%Q (1 # 2000000) _ _) _).
  - simpl. left. reflexivity.
  - reflexivity.
  - vm_compute. discriminate.
Defined.

(** C9 on the code: a key that only the hardware side has, with the sum
    1.000005e-6, is filled with [gold = 0] and reported with [match = 1],
    although the sum is further than [TOL = 1e-6] from 0: [np.isclose] adds
    its default relative term, [1e-5 * |hw|], to the tolerance, against the
    module's own description of the column ([match] is 1 if
    [|gold - hw| <= 1e-6]).  The report is computed by [build_report] over
    the rationals; the two comparisons are evaluated again on the IEEE
    binary64 numbers. *)
Theorem hardware_only_key_matches_beyond_tolerance :
  let h := (1000005 # 1000000000000)%Q in
  RtlChecker.build_report [] [((0, 0)%Q, h)]
  = [RtlChecker.mk_report (0, 0)%Q 0 h true]
  /\ Qle_bool (Qabs (0 - h)) RtlChecker.TOL = false
  /\ ~ (Qabs (0 - h) <= RtlChecker.TOL)%Q
  /\ RtlChecker.isclose 0 h RtlChecker.TOL = true
  /\ Binary64.isclose 0 1.000005e-6 1e-6 = true
  /\ PrimFloat.leb (PrimFloat.abs (0 - 1.000005e-6)) 1e-6 = false.
Proof.
  split; [ vm_compute; reflexivity | ].
  split; [ vm_compute; reflexivity | ].
  split; [ intro H; vm_compute in H; apply H; reflexivity | ].
  repeat split; vm_compute; reflexivity.
Qed.

Section GroupFacts.

Import RtlChecker.
Local Open Scope Q_scope.

Lemma groupby_sum_snoc (rows : list (key * Q)) (r : key * Q) :
  groupby_sum (rows ++ [r]) = add_to_group (groupby_sum rows) (fst r) (snd r).
Proof. unfold groupby_sum. now rewrite fold_left_app. Qed.

Lemma key_total_snoc (rows : list (key * Q)) (r : key * Q) (k : key) :
  key_total (rows ++ [r]) k =
  if key_eqb k (fst r) then key_total rows k + snd r else key_total rows k.
Proof. unfold key_total. now rewrite fold_left_app. Qed.

(** Where the rows of a group list come from after one more value. *)
Lemma add_to_group_In (groups : list (key * Q)) (k : key) (v : Q)
  (k' : key) (s' : Q) :
  distinct_keys groups = true ->
  In (k', s') (add_to_group groups k v) ->
  (In (k', s') groups /\ key_eqb k' k = false)
  \/ (exists s, In (k', s) groups /\ key_eqb k' k = true /\ s' = s + v)
  \/ (k' = k /\ s' = 0 + v
      /\ existsb (fun g => key_eqb (fst g) k) groups = false).
Proof.
  induction groups as [ | [k0 s0] rest IH ]; simpl; intros Hd Hin.
  - destruct Hin as [E | []]. inversion E; subst. right; right. auto.
  - apply andb_true_iff in Hd. destruct Hd as [Hfresh Hd].
    apply negb_true_iff in Hfresh.
    destruct (key_eqb k0 k) eqn:E0; simpl in Hin.
    + destruct Hin as [E | Hin].
      * inversion E; subst. right; left. exists s0. auto.
      * left. split; [ auto | ].
        destruct (key_eqb k' k) eqn:E'; [ exfalso | reflexivity ].
        apply Bool.not_true_iff_false in Hfresh. apply Hfresh.
        apply existsb_exists. exists (k', s'). split; [ exact Hin | ]. simpl.
        apply key_eqb_trans with k; [ exact E0 | ].
        rewrite key_eqb_sym. exact E'.
    + destruct Hin as [E | Hin].
      * inversion E; subst. left. auto.
      * destruct (IH Hd Hin) as [[H1 H2] | [[s [H1 [H2 H3]]] | [H1 [H2 H3]]]].
        -- left. auto.
        -- right; left. exists s. auto.
        -- right; right. auto.
Qed.

Lemma add_to_group_keys (groups : list (key * Q)) (k : key) (v : Q)
  (g : key * Q) :
  In g (add_to_group groups k v) ->
  fst g = k \/ exists h, In h groups /\ fst h = fst g.
Proof.
  induction groups as [ | [k0 s0] rest IH ]; simpl; intros Hin.
  - destruct Hin as [<- | []]. left; reflexivity.
  - destruct (key_eqb k0 k); simpl in Hin.
    + destruct Hin as [<- | Hin]; right.
      * exists (k0, s0). auto.
      * exists g. auto.
    + destruct Hin as [<- | Hin].
      * right. exists (k0, s0). auto.
      * destruct (IH Hin) as [E | [h [Hh E]]]; [ left; exact E | right ].
        exists h. auto.
Qed.

Lemma add_to_group_distinct (groups : list (key * Q)) (k : key) (v : Q) :
  distinct_keys groups = true ->
  distinct_keys (add_to_group groups k v) = true.
Proof.
  induction groups as [ | [k0 s0] rest IH ]; simpl; intros Hd.
  - reflexivity.
  - apply andb_true_iff in Hd. destruct Hd as [Hfresh Hd].
    destruct (key_eqb k0 k) eqn:E0; simpl.
    + now rewrite Hfresh, Hd.
    + rewrite (IH Hd), andb_true_r. apply negb_true_iff.
      apply Bool.not_true_iff_false. intro Hex.
      apply existsb_exists in Hex. destruct Hex as [g [Hg Hk]].
      apply add_to_group_keys in Hg. destruct Hg as [E | [h [Hh E]]].
      * rewrite E in Hk. congruence.
      * apply negb_true_iff, Bool.not_true_iff_false in Hfresh. apply Hfresh.
        apply existsb_exists. exists h. rewrite E. auto.
Qed.

(** A value is added to a group that stands for its key. *)
Lemma add_to_group_covers (groups : list (key * Q)) (k : key) (v : Q) :
  existsb (fun g => key_eqb (fst g) k) (add_to_group groups k v) = true.
Proof.
  induction groups as [ | [k0 s0] rest IH ]; simpl.
  - now rewrite key_eqb_refl.
  - destruct (key_eqb k0 k) eqn:E0; simpl; rewrite ?E0; auto.
Qed.

Lemma add_to_group_keeps (groups : list (key * Q)) (k k' : key) (v : Q) :
  existsb (fun g => key_eqb (fst g) k') groups = true ->
  existsb (fun g => key_eqb (fst g) k') (add_to_group groups k v) = true.
Proof.
  induction groups as [ | [k0 s0] rest IH ]; simpl; [ discriminate | ].
  intro H. destruct (key_eqb k0 k); simpl.
  - exact H.
  - apply orb_true_iff in H. destruct H as [H | H].
    + now rewrite H.
    + rewrite (IH H). apply orb_true_r.
Qed.

(** What [groupby_sum] yields: groups for distinct keys, each key taken from a
    row, each row covered by a group, each sum the total of its key. *)
Lemma groupby_sum_spec (rows : list (key * Q)) :
  distinct_keys (groupby_sum rows) = true
  /\ (forall r, In r rows ->
        existsb (fun g => key_eqb (fst g) (fst r)) (groupby_sum rows) = true)
  /\ (forall k s, In (k, s) (groupby_sum rows) ->
        (exists r, In r rows /\ fst r = k) /\ s = key_total rows k).
Proof.
  induction rows as [ | r rows IH ] using rev_ind.
  - repeat split; simpl; intros; contradiction.
  - destruct IH as [Hd [Hcov Hsum]]. rewrite groupby_sum_snoc.
    split; [ | split ].
    + now apply add_to_group_distinct.
    + intros r' Hr'. apply in_app_or in Hr'. destruct Hr' as [Hr' | [<- | []]].
      * apply add_to_group_keeps, Hcov, Hr'.
      * apply add_to_group_covers.
    + intros k s Hin. rewrite key_total_snoc.
      apply add_to_group_In in Hin; [ | exact Hd ].
      destruct Hin as [[H1 H2] | [[s0 [H1 [H2 H3]]] | [H1 [H2 H3]]]].
      * destruct (Hsum k s H1) as [[r0 [Hr0 E]] Hs]. rewrite H2. split; [ | exact Hs ].
        exists r0. split; [ apply in_or_app; auto | exact E ].
      * destruct (Hsum k s0 H1) as [[r0 [Hr0 E]] Hs]. rewrite H2. subst s s0.
        split; [ | reflexivity ].
        exists r0. split; [ apply in_or_app; auto | exact E ].
      * subst k s. rewrite key_eqb_refl. split.
        -- exists r. split; [ apply in_or_app; simpl; auto | reflexivity ].
        -- assert (Hz : key_total rows (fst r) = 0); [ | now rewrite Hz ].
           clear - Hcov H3.
           assert (Hno : forall r0, In r0 rows -> key_eqb (fst r) (fst r0) = false).
           { intros r0 Hr0. destruct (key_eqb (fst r) (fst r0)) eqn:E; [ | reflexivity ].
             exfalso. apply Bool.not_true_iff_false in H3. apply H3.
             specialize (Hcov r0 Hr0). apply existsb_exists in Hcov.
             destruct Hcov as [g [Hg Hk]]. apply existsb_exists. exists g.
             split; [ exact Hg | ].
             apply key_eqb_trans with (fst r0); [ exact Hk | ].
             rewrite key_eqb_sym. exact E. }
           clear Hcov H3. unfold key_total. generalize 0.
           induction rows as [ | r0 rows IHr ]; intro q; simpl; [ reflexivity | ].
           rewrite (Hno r0) by (left; reflexivity).
           apply IHr. intros r1 Hr1. apply Hno. right. exact Hr1.
Qed.

(** Records at row 0.5 add nothing to the total of a key at another row. *)
Lemma key_total_filter (rows : list sw_row) (k : key) :
  ~ fst k == 1 # 2 ->
  key_total
    (map keyed (filter (fun r => negb (Qeq_bool (row_idx_i r) (1 # 2))) rows)) k
  = key_total (map keyed rows) k.
Proof.
  intro Hk. unfold key_total. generalize 0.
  induction rows as [ | r rows IH ]; intro q; [ reflexivity | ].
  cbn [filter map fold_left].
  destruct (Qeq_bool (row_idx_i r) (1 # 2)) eqn:E; cbn [negb map fold_left].
  - assert (Hne : key_eqb k (fst (keyed r)) = false).
    { unfold key_eqb, keyed. simpl.
      destruct (Qeq_bool (fst k) (row_idx_i r)) eqn:F; [ | reflexivity ].
      exfalso. apply Hk. apply Qeq_bool_iff in E, F. now rewrite F. }
    rewrite Hne. apply IH.
  - apply IH.
Qed.

Lemma as_int_not_half (x : Q) : ~ as_int x == 1 # 2.
Proof.
  unfold as_int, Qeq. simpl. lia.
Qed.

End GroupFacts.

Section LoadFacts.

Import RtlChecker.
Local Open Scope Q_scope.

Lemma load_hw_keys (raw : hw_frame) (hw : list (key * Q)) (k : key) (s : Q) :
  load_hw raw = Ok hw -> In (k, s) hw -> ~ fst k == 1 # 2.
Proof.
  destruct raw as [rows | rows | | columns ]; simpl; intros E Hin;
    [ | | discriminate
    | destruct ((columns =? 2)%Z || (columns =? 3)%Z); discriminate ];
    inversion E; subst hw;
    match type of Hin with
    | In _ (groupby_sum ?l) => destruct (groupby_sum_spec l) as [_ [_ H]]
    end;
    destruct (H k s Hin) as [[r [Hr <-]] _];
    apply in_map_iff in Hr; destruct Hr as [r0 [<- _]]; apply as_int_not_half.
Qed.

Lemma filter_remove_dummy (rows1 rows2 : list sw_row) (r : sw_row) :
  row_idx_i r == 1 # 2 ->
  filter (fun r => negb (Qeq_bool (row_idx_i r) (1 # 2))) (rows1 ++ r :: rows2)
  = filter (fun r => negb (Qeq_bool (row_idx_i r) (1 # 2))) (rows1 ++ rows2).
Proof.
  intro H. apply Qeq_bool_iff in H. rewrite !filter_app. simpl.
  now rewrite H.
Qed.

End LoadFacts.

(** C10: [load_sw] produces no group at row index 0.5, and the sum of every
    group is the total of its key over the records of the file, to which the
    records at row index 0.5 add nothing; a record at any other row index is
    kept, its key has a group; deleting a record at row index 0.5 from the
    file leaves the result as it is; and no line of the report of a run is at
    row index 0.5. *)
Theorem load_sw_drops_dummy_rows :
  forall (columns : list string) (rows : list RtlChecker.sw_row)
         (sw : list (RtlChecker.key * Q)),
    RtlChecker.load_sw columns rows = Ok sw ->
    (forall k s, In (k, s) sw ->
       ~ (fst k == 1 # 2)%Q
       /\ s = RtlChecker.key_total (map RtlChecker.keyed rows) k)
    /\ (forall r, In r rows -> ~ (RtlChecker.row_idx_i r == 1 # 2)%Q ->
          existsb (fun g => RtlChecker.key_eqb (fst g)
                              (fst (RtlChecker.keyed r))) sw = true)
    /\ (forall rows1 r rows2,
          rows = rows1 ++ r :: rows2 ->
          (RtlChecker.row_idx_i r == 1 # 2)%Q ->
          RtlChecker.load_sw columns (rows1 ++ rows2) = Ok sw)
    /\ (forall raw report,
          RtlChecker.run_report columns rows raw = Ok report ->
          forall x, In x report ->
            ~ (fst (RtlChecker.rep_key x) == 1 # 2)%Q).
Proof.
  intros columns rows sw Hload.
  assert (Hkeys : forall k s, In (k, s) sw ->
            ~ (fst k == 1 # 2)%Q
            /\ s = RtlChecker.key_total (map RtlChecker.keyed rows) k).
  { unfold RtlChecker.load_sw in Hload.
    destruct (forallb _ _); [ | discriminate ]. inversion Hload; subst sw.
    intros k s Hin.
    destruct (groupby_sum_spec
                (map RtlChecker.keyed
                   (filter (fun r => negb (Qeq_bool (RtlChecker.row_idx_i r)
                                             (1 # 2))) rows)))
      as [_ [_ H]].
    destruct (H k s Hin) as [[r [Hr E]] Hs].
    apply in_map_iff in Hr. destruct Hr as [r0 [E0 Hr0]].
    apply filter_In in Hr0. destruct Hr0 as [_ Hne].
    assert (Hk : ~ (fst k == 1 # 2)%Q).
    { subst k r. simpl. intro Hq. apply Qeq_bool_iff in Hq.
      rewrite Hq in Hne. discriminate. }
    split; [ exact Hk | ]. rewrite Hs. now apply key_total_filter. }
  split; [ exact Hkeys | split; [ | split ] ].
  - unfold RtlChecker.load_sw in Hload.
    destruct (forallb _ _); [ | discriminate ]. inversion Hload; subst sw.
    intros r Hr Hne.
    destruct (groupby_sum_spec
                (map RtlChecker.keyed
                   (filter (fun r => negb (Qeq_bool (RtlChecker.row_idx_i r)
                                             (1 # 2))) rows)))
      as [_ [H _]].
    apply (H (RtlChecker.keyed r)). apply in_map. apply filter_In.
    split; [ exact Hr | ]. apply negb_true_iff.
    apply Bool.not_true_iff_false. intro Hq. apply Qeq_bool_iff in Hq. auto.
  - intros rows1 r rows2 -> Hr. rewrite <- Hload. unfold RtlChecker.load_sw.
    now rewrite (filter_remove_dummy rows1 rows2 r Hr).
  - intros raw report Hrun x Hx. unfold RtlChecker.run_report in Hrun.
    rewrite Hload in Hrun. simpl in Hrun.
    destruct (RtlChecker.load_hw raw) as [hw | e] eqn:Hhw; [ | discriminate ].
    simpl in Hrun. inversion Hrun; subst report.
    unfold RtlChecker.build_report, RtlChecker.build_report_tol in Hx.
    apply sort_by_key_In, in_map_iff in Hx. destruct Hx as [m [<- Hm]]. simpl.
    apply outer_merge_In in Hm.
    destruct Hm as [[l [r [Hl [Hr [Hk ->]]]]] | [[l [Hl [He ->]]] | [r [Hr [He ->]]]]];
      simpl.
    + apply (Hkeys (fst l) (snd l)). now rewrite <- surjective_pairing.
    + apply (Hkeys (fst l) (snd l)). now rewrite <- surjective_pairing.
    + apply (load_hw_keys raw hw (fst r) (snd r) Hhw).
      now rewrite <- surjective_pairing.
Qed.

(** The statement above on a file with one dummy record and one real one. *)
Lemma load_sw_drops_dummy_rows_witness :
  RtlChecker.load_sw ["prod"; "row_idx_i"; "col_idx_j"]%string
    [RtlChecker.mk_sw 0 0 4] = Ok [((0, 0)%Q, (0 + 4)%Q)].
Proof.
  refine (proj1 (proj2 (proj2
            (load_sw_drops_dummy_rows
               ["prod"; "row_idx_i"; "col_idx_j"]%string
               [RtlChecker.mk_sw (1 # 2) 0 7; RtlChecker.mk_sw 0 0 4]
               [((0, 0)%Q, (0 + 4)%Q)] _)))
            [] (RtlChecker.mk_sw (1 # 2) 0 7) [RtlChecker.mk_sw 0 0 4] _ _).
  - reflexivity.
  - reflexivity.
  - reflexivity.
Defined.

(** ** More on the generators of [partial_prod_gen.py] *)

Section GeneratorExtras.

Import PartialProdGen.

Variable V : Type.
Variable mul : V -> V -> V.
Variable nonzero : V -> bool.

Lemma all_products_In (A_csr AT_csr : csr V) (v : V) (i j : Z) :
  In (v, i, j) (all_products mul A_csr AT_csr) <->
  0 <= i < shape0 A_csr
  /\ exists (k : Z) (a b : V),
       In (k, a) (row_of A_csr i) /\ In (j, b) (row_of AT_csr k)
       /\ v = mul a b.
Proof.
  unfold all_products. rewrite in_flat_map. split.
  - intros [i' [Hi' Hin]]. apply in_flat_map in Hin.
    destruct Hin as [[k a] [Hka Hin]]. unfold entry_products in Hin.
    apply in_map_iff in Hin. destruct Hin as [[j' b] [E Hjb]].
    simpl in E. inversion E; subst. split; [ now apply In_range | ].
    exists k, a, b. auto.
  - intros [Hi [k [a [b [Hka [Hjb ->]]]]]]. exists i.
    split; [ now apply In_range | ]. apply in_flat_map. exists (k, a).
    split; [ exact Hka | ]. unfold entry_products. apply in_map_iff.
    exists (j, b). auto.
Qed.

Lemma for_each_unchanged {A S : Type} (l : list A)
  (body : A -> S -> result S) (s : S) :
  (forall x, In x l -> body x s = Ok s) -> for_each l body s = Ok s.
Proof.
  induction l as [ | x l IH ]; intro H; simpl; [ reflexivity | ].
  rewrite (H x) by (left; reflexivity). simpl. apply IH.
  intros y Hy. apply H. right. exact Hy.
Qed.

Lemma for_each_raises {A S : Type} (l1 l2 : list A) (x : A)
  (body : A -> S -> result S) (s : S) (e : error) :
  (forall y, In y l1 -> body y s = Ok s) -> body x s = Raise e ->
  for_each (l1 ++ x :: l2) body s = Raise e.
Proof.
  induction l1 as [ | y l1 IH ]; intros H Hx; simpl.
  - now rewrite Hx.
  - rewrite (H y) by (left; reflexivity). simpl. apply IH; [ | exact Hx ].
    intros z Hz. apply H. right. exact Hz.
Qed.

(** A list is made of empty pieces, or has a first piece that is not. *)
Lemma first_nonempty {A B : Type} (f : A -> list B) (l : list A) :
  (forall x, In x l -> f x = [])
  \/ exists l1 x l2, l = l1 ++ x :: l2 /\ (forall y, In y l1 -> f y = [])
                     /\ f x <> [].
Proof.
  induction l as [ | x l IH ]; [ left; intros x [] | ].
  destruct (f x) as [ | b t ] eqn:E.
  - destruct IH as [H | [l1 [y [l2 [-> [H1 H2]]]]]].
    + left. intros z [<- | Hz]; auto.
    + right. exists (x :: l1), y, l2. repeat split; auto.
      intros z [<- | Hz]; auto.
  - right. exists [], x, l. repeat split.
    + intros z [].
    + rewrite E. discriminate.
Qed.

Lemma flat_map_nil {A B : Type} (f : A -> list B) (l : list A) :
  (forall x, In x l -> f x = []) -> flat_map f l = [].
Proof.
  induction l as [ | x l IH ]; intro H; simpl; [ reflexivity | ].
  rewrite (H x) by (left; reflexivity). apply IH.
  intros y Hy. apply H. right. exact Hy.
Qed.

Section PairExtras.

Variables A_csr AT_csr : csr V.
Hypothesis valid_A : valid_csr A_csr = true.
Hypothesis valid_AT : valid_csr AT_csr = true.
Hypothesis shapes : shape0 AT_csr = shape1 A_csr.

(** With buffers of no cell, an entry without products leaves the state as
    it is and an entry with products keeps the loop turning. *)
Lemma stream_entry_no_cell (fuel : nat) (i : Z) (ka : Z * V)
  (st : stream_state V) :
  0 <= fst ka < shape0 AT_csr -> buf_pos st = 0 ->
  stream_entry mul nonzero fuel 0 AT_csr i (fst ka) (snd ka) st
  = if match entry_products mul AT_csr i ka with [] => true | _ => false end
    then Ok st else Raise Diverges.
Proof.
  intros Hk Hpos. unfold stream_entry.
  rewrite !(index_ptr V AT_csr) by (try exact valid_AT; lia). cbn [bind].
  pose proof (entry_products_len V mul AT_csr valid_AT i ka Hk) as Hlen.
  destruct (row_slices V AT_csr (fst ka) valid_AT Hk) as [_ Lv].
  pose proof (row_nnz_bounds V AT_csr (fst ka) valid_AT Hk) as Hb.
  destruct (row_ptr AT_csr (fst ka) =? row_ptr AT_csr (fst ka + 1)) eqn:E.
  - apply Z.eqb_eq in E.
    assert (Hz : len (entry_products mul AT_csr i ka) = 0)
      by (rewrite Hlen; unfold row_nnz; lia).
    apply len_nil_inv in Hz. now rewrite Hz.
  - apply Z.eqb_neq in E. cbv zeta.
    assert (Hp : 0 < row_nnz AT_csr (fst ka)) by (unfold row_nnz in *; lia).
    rewrite Lv. rewrite stream_chunks_no_cell by assumption.
    destruct (entry_products mul AT_csr i ka) as [ | t ts ];
      [ unfold len in Hlen; simpl in Hlen; lia | reflexivity ].
Qed.

Lemma stream_row_no_cell (fuel : nat) (i : Z) (st : stream_state V) :
  0 <= i < shape0 A_csr -> buf_pos st = 0 ->
  stream_row mul nonzero fuel 0 A_csr AT_csr i st
  = if match row_products mul A_csr AT_csr i with [] => true | _ => false end
    then Ok st else Raise Diverges.
Proof.
  intros Hi Hpos. unfold stream_row.
  rewrite !(index_ptr V A_csr) by (try exact valid_A; lia). cbn [bind].
  destruct (ptr_mono V A_csr i (i + 1) valid_A) as [Hs [Hse He]]; try lia.
  destruct (row_slices V A_csr i valid_A Hi) as [Lc Lv].
  pose proof (row_slices_length V A_csr i valid_A Hi) as Hlen.
  assert (Hrange : forall ka, In ka (row_of A_csr i) ->
                              0 <= fst ka < shape0 AT_csr).
  { intros ka Hka. rewrite shapes. now apply (row_of_In V A_csr i). }
  assert (Hloop :
    for_each (row_of A_csr i)
      (fun ka st => stream_entry mul nonzero fuel 0 AT_csr i (fst ka) (snd ka) st)
      st
    = if match row_products mul A_csr AT_csr i with [] => true | _ => false end
      then Ok st else Raise Diverges).
  { unfold row_products.
    destruct (first_nonempty (entry_products mul AT_csr i) (row_of A_csr i))
      as [Hall | [l1 [x [l2 [E [H1 H2]]]]]].
    - rewrite (flat_map_nil _ _ Hall). apply for_each_unchanged.
      intros ka Hka. rewrite stream_entry_no_cell by auto.
      now rewrite (Hall ka Hka).
    - rewrite E in Hrange |- *.
      rewrite flat_map_app. simpl flat_map. rewrite (flat_map_nil _ _ H1).
      simpl app.
      destruct (entry_products mul AT_csr i x) as [ | t ts ] eqn:Ex;
        [ contradiction | ].
      simpl. apply for_each_raises.
      + intros y Hy. rewrite stream_entry_no_cell
          by (try assumption; apply Hrange, in_or_app; auto).
        now rewrite (H1 y Hy).
      + rewrite stream_entry_no_cell
          by (try assumption; apply Hrange, in_or_app; right; left; reflexivity).
        now rewrite Ex. }
  destruct (row_ptr A_csr i =? row_ptr A_csr (i + 1)) eqn:E.
  - apply Z.eqb_eq in E.
    assert (Hc : slice (indices A_csr) (row_ptr A_csr i) (row_ptr A_csr (i + 1))
                 = []).
    { apply len_nil_inv. rewrite Lc. unfold row_nnz. lia. }
    unfold row_products, row_of. rewrite Hc. reflexivity.
  - cbv zeta.
    rewrite (for_each_positions
               (fun k a st => stream_entry mul nonzero fuel 0 AT_csr i k a st)
               _ _ st Hlen).
    exact Hloop.
Qed.

Lemma stream_rows_no_cell (fuel : nat) (rows : list Z) (st : stream_state V) :
  (forall i, In i rows -> 0 <= i < shape0 A_csr) -> buf_pos st = 0 ->
  for_each rows (stream_row mul nonzero fuel 0 A_csr AT_csr) st
  = if match flat_map (row_products mul A_csr AT_csr) rows with
       | [] => true | _ => false end
    then Ok st else Raise Diverges.
Proof.
  intros Hrange Hpos.
  destruct (first_nonempty (row_products mul A_csr AT_csr) rows)
    as [Hall | [l1 [x [l2 [E [H1 H2]]]]]].
  - rewrite (flat_map_nil _ _ Hall). apply for_each_unchanged.
    intros i Hi. rewrite stream_row_no_cell by auto. now rewrite (Hall i Hi).
  - rewrite E in Hrange |- *.
    rewrite flat_map_app. simpl flat_map. rewrite (flat_map_nil _ _ H1).
    simpl app.
    destruct (row_products mul A_csr AT_csr x) as [ | t ts ] eqn:Ex;
      [ contradiction | ].
    simpl. apply for_each_raises.
    + intros y Hy. rewrite stream_row_no_cell
        by (try assumption; apply Hrange, in_or_app; auto).
      now rewrite (H1 y Hy).
    + rewrite stream_row_no_cell
        by (try assumption; apply Hrange, in_or_app; right; left; reflexivity).
      now rewrite Ex.
Qed.

End PairExtras.

End GeneratorExtras.

(** X1: on well-formed matrices the pre-allocated generator returns, in the
    order of the rows of [A], exactly the products [a * b] of a stored entry
    [(k, a)] of row [i] of [A] with a stored entry [(j, b)] of row [k] of
    [AT] that are not zero, each with its [i] and [j]; the column index of
    every triple is a column of [AT]. *)
Theorem prealloc_emits_the_nonzero_products :
  forall (V : Type) (mul : V -> V -> V) (nonzero : V -> bool)
         (A_csr AT_csr : PartialProdGen.csr V),
    PartialProdGen.valid_csr A_csr = true ->
    PartialProdGen.valid_csr AT_csr = true ->
    PartialProdGen.shape0 AT_csr = PartialProdGen.shape1 A_csr ->
    len (PartialProdGen.indices A_csr) * len (PartialProdGen.indices AT_csr)
      < 2 ^ 63 ->
    exists triples : list (V * Z * Z),
      PartialProdGen.produce_products_scipy_optimized mul nonzero A_csr AT_csr
      = Ok triples
      /\ triples = filter (PartialProdGen.keeps nonzero)
                     (PartialProdGen.all_products mul A_csr AT_csr)
      /\ (forall (v : V) (i j : Z),
            In (v, i, j) triples <->
            nonzero v = true
            /\ 0 <= i < PartialProdGen.shape0 A_csr
            /\ exists (k : Z) (a b : V),
                 In (k, a) (PartialProdGen.row_of A_csr i)
                 /\ In (j, b) (PartialProdGen.row_of AT_csr k)
                 /\ v = mul a b)
      /\ (forall (v : V) (i j : Z),
            In (v, i, j) triples -> 0 <= j < PartialProdGen.shape1 AT_csr).
Proof.
  intros V mul nonzero A_csr AT_csr HA HAT Hshape Hfit.
  exists (filter (PartialProdGen.keeps nonzero)
            (PartialProdGen.all_products mul A_csr AT_csr)).
  split; [ now apply prealloc_result | ]. split; [ reflexivity | ].
  assert (Hiff : forall (v : V) (i j : Z),
            In (v, i, j) (filter (PartialProdGen.keeps nonzero)
                            (PartialProdGen.all_products mul A_csr AT_csr)) <->
            nonzero v = true
            /\ 0 <= i < PartialProdGen.shape0 A_csr
            /\ exists (k : Z) (a b : V),
                 In (k, a) (PartialProdGen.row_of A_csr i)
                 /\ In (j, b) (PartialProdGen.row_of AT_csr k)
                 /\ v = mul a b).
  { intros v i j. rewrite filter_In, all_products_In.
    unfold PartialProdGen.keeps. simpl. tauto. }
  split; [ exact Hiff | ].
  intros v i j Hin. apply Hiff in Hin.
  destruct Hin as [_ [_ [k [a [b [_ [Hjb _]]]]]]].
  exact (row_of_In V AT_csr k (j, b) HAT Hjb).
Qed.

(** The statement above on a 2x3 matrix and its transpose. *)
Lemma prealloc_emits_the_nonzero_products_witness :
  exists triples : list (Z * Z * Z),
    PartialProdGen.produce_products_scipy_optimized Z.mul
      PartialProdGen.nonzeroZ PartialProdGen.example_A
      PartialProdGen.example_AT = Ok triples
    /\ triples = filter (PartialProdGen.keeps PartialProdGen.nonzeroZ)
                   (PartialProdGen.all_products Z.mul PartialProdGen.example_A
                      PartialProdGen.example_AT)
    /\ (forall (v : Z) (i j : Z),
          In (v, i, j) triples <->
          PartialProdGen.nonzeroZ v = true
          /\ 0 <= i < PartialProdGen.shape0 PartialProdGen.example_A
          /\ exists (k : Z) (a b : Z),
               In (k, a) (PartialProdGen.row_of PartialProdGen.example_A i)
               /\ In (j, b) (PartialProdGen.row_of PartialProdGen.example_AT k)
               /\ v = Z.mul a b)
    /\ (forall (v : Z) (i j : Z),
          In (v, i, j) triples ->
          0 <= j < PartialProdGen.shape1 PartialProdGen.example_AT).
Proof.
  apply (prealloc_emits_the_nonzero_products Z Z.mul PartialProdGen.nonzeroZ
           PartialProdGen.example_A PartialProdGen.example_AT); reflexivity.
Defined.

(** X2: the number the streaming generator returns is the number of rows it
    wrote; it is at most the estimator's count, and equal to it when no
    elementary product is zero. *)
Theorem stream_count_at_most_estimate :
  forall (V : Type) (mul : V -> V -> V) (nonzero : V -> bool)
         (A_csr AT_csr : PartialProdGen.csr V) (fuel : nat) (chunk_size : Z),
    PartialProdGen.valid_csr A_csr = true ->
    PartialProdGen.valid_csr AT_csr = true ->
    PartialProdGen.shape0 AT_csr = PartialProdGen.shape1 A_csr ->
    len (PartialProdGen.indices A_csr) * len (PartialProdGen.indices AT_csr)
      < 2 ^ 63 ->
    1 <= chunk_size ->
    len (PartialProdGen.indices AT_csr) <= Z.of_nat fuel ->
    exists (rows : list (V * Z * Z)) (total : Z),
      PartialProdGen.produce_products_stream_scipy_optimized mul nonzero fuel
        A_csr AT_csr chunk_size = Ok (len rows, rows)
      /\ PartialProdGen.estimate_products A_csr AT_csr = Ok total
      /\ len rows <= total
      /\ (forallb (PartialProdGen.keeps nonzero)
            (PartialProdGen.all_products mul A_csr AT_csr) = true ->
          len rows = total).
Proof.
  intros V mul nonzero A_csr AT_csr fuel chunk_size HA HAT Hshape Hfit Hc Hf.
  exists (filter (PartialProdGen.keeps nonzero)
            (PartialProdGen.all_products mul A_csr AT_csr)),
         (len (PartialProdGen.all_products mul A_csr AT_csr)).
  split; [ now apply stream_result | ].
  split; [ now apply estimate_exact | ]. split.
  - unfold len. apply inj_le. apply filter_length_le.
  - intro Hall. now rewrite forallb_filter_id.
Qed.

(** The statement above on a 2x3 matrix and its transpose. *)
Lemma stream_count_at_most_estimate_witness :
  exists (rows : list (Z * Z * Z)) (total : Z),
    PartialProdGen.produce_products_stream_scipy_optimized Z.mul
      PartialProdGen.nonzeroZ 5 PartialProdGen.example_A
      PartialProdGen.example_AT 3 = Ok (len rows, rows)
    /\ PartialProdGen.estimate_products PartialProdGen.example_A
         PartialProdGen.example_AT = Ok total
    /\ len rows <= total
    /\ (forallb (PartialProdGen.keeps PartialProdGen.nonzeroZ)
          (PartialProdGen.all_products Z.mul PartialProdGen.example_A
             PartialProdGen.example_AT) = true ->
        len rows = total).
Proof.
  apply (stream_count_at_most_estimate Z Z.mul PartialProdGen.nonzeroZ
           PartialProdGen.example_A PartialProdGen.example_AT 5 3);
    try reflexivity; vm_compute; discriminate.
Defined.

(** X3: the chunk size is a memory setting only: for two chunk sizes of at
    least one cell the streaming generator returns the same count and writes
    the same rows in the same order. *)
Theorem stream_result_independent_of_chunk_size :
  forall (V : Type) (mul : V -> V -> V) (nonzero : V -> bool)
         (A_csr AT_csr : PartialProdGen.csr V) (fuel1 fuel2 : nat)
         (chunk1 chunk2 : Z),
    PartialProdGen.valid_csr A_csr = true ->
    PartialProdGen.valid_csr AT_csr = true ->
    PartialProdGen.shape0 AT_csr = PartialProdGen.shape1 A_csr ->
    1 <= chunk1 -> 1 <= chunk2 ->
    len (PartialProdGen.indices AT_csr) <= Z.of_nat fuel1 ->
    len (PartialProdGen.indices AT_csr) <= Z.of_nat fuel2 ->
    PartialProdGen.produce_products_stream_scipy_optimized mul nonzero fuel1
      A_csr AT_csr chunk1
    = PartialProdGen.produce_products_stream_scipy_optimized mul nonzero fuel2
        A_csr AT_csr chunk2
    /\ exists rows,
         PartialProdGen.produce_products_stream_scipy_optimized mul nonzero
           fuel1 A_csr AT_csr chunk1 = Ok (len rows, rows).
Proof.
  intros V mul nonzero A_csr AT_csr fuel1 fuel2 chunk1 chunk2
         HA HAT Hshape H1 H2 Hf1 Hf2.
  rewrite !(stream_result V mul nonzero A_csr AT_csr HA HAT Hshape)
    by assumption.
  split; [ reflexivity | ]. eexists. reflexivity.
Qed.

(** The statement above on a 2x3 matrix and its transpose, with buffers of
    one cell and of a thousand. *)
Lemma stream_result_independent_of_chunk_size_witness :
  PartialProdGen.produce_products_stream_scipy_optimized Z.mul
    PartialProdGen.nonzeroZ 5 PartialProdGen.example_A
    PartialProdGen.example_AT 1
  = PartialProdGen.produce_products_stream_scipy_optimized Z.mul
      PartialProdGen.nonzeroZ 7 PartialProdGen.example_A
      PartialProdGen.example_AT 1000.
Proof.
  refine (proj1 (stream_result_independent_of_chunk_size Z Z.mul
                   PartialProdGen.nonzeroZ PartialProdGen.example_A
                   PartialProdGen.example_AT 5 7 1 1000 _ _ _ _ _ _ _));
    try reflexivity; vm_compute; discriminate.
Defined.

(** X4: with a chunk size of 0 the streaming generator never returns as soon
    as the matrices have one elementary product, zero or not: its [while]
    loop writes nothing and keeps turning, whatever the fuel.  Without any
    product it returns the count 0 and no row. *)
Theorem stream_chunk_size_zero :
  forall (V : Type) (mul : V -> V -> V) (nonzero : V -> bool)
         (A_csr AT_csr : PartialProdGen.csr V) (fuel : nat),
    PartialProdGen.valid_csr A_csr = true ->
    PartialProdGen.valid_csr AT_csr = true ->
    PartialProdGen.shape0 AT_csr = PartialProdGen.shape1 A_csr ->
    PartialProdGen.produce_products_stream_scipy_optimized mul nonzero fuel
      A_csr AT_csr 0
    = match PartialProdGen.all_products mul A_csr AT_csr with
      | [] => Ok (0, [])
      | _ :: _ => Raise Diverges
      end.
Proof.
  intros V mul nonzero A_csr AT_csr fuel HA HAT Hshape.
  unfold PartialProdGen.produce_products_stream_scipy_optimized.
  cbn [np_empty Z.ltb Z.compare bind Z.to_nat repeat].
  rewrite (stream_rows_no_cell V mul nonzero A_csr AT_csr HA HAT Hshape)
    by (try reflexivity; intros i Hi; now apply In_range).
  change (flat_map (PartialProdGen.row_products mul A_csr AT_csr)
            (range (PartialProdGen.shape0 A_csr)))
    with (PartialProdGen.all_products mul A_csr AT_csr).
  destruct (PartialProdGen.all_products mul A_csr AT_csr); reflexivity.
Qed.

(** The statement above on the diagonal matrix, which has two products. *)
Lemma stream_chunk_size_zero_witness :
  PartialProdGen.produce_products_stream_scipy_optimized Z.mul
    PartialProdGen.nonzeroZ 1000 PartialProdGen.diagonal_A
    PartialProdGen.diagonal_A 0 = Raise Diverges.
Proof.
  apply (stream_chunk_size_zero Z Z.mul PartialProdGen.nonzeroZ
           PartialProdGen.diagonal_A PartialProdGen.diagonal_A 1000);
    reflexivity.
Defined.

(** X5: for a well-formed matrix [A] without stored entries and any second
    matrix, well-formed or not, the estimator returns 0, the pre-allocated
    generator returns no triple, and the streaming generator, for every chunk
    size that is not negative, returns the count 0 and writes no row. *)
Theorem empty_matrix_yields_nothing :
  forall (V : Type) (mul : V -> V -> V) (nonzero : V -> bool)
         (A_csr AT_csr : PartialProdGen.csr V) (fuel : nat) (chunk_size : Z),
    PartialProdGen.valid_csr A_csr = true ->
    PartialProdGen.indices A_csr = [] ->
    0 <= chunk_size ->
    PartialProdGen.estimate_products A_csr AT_csr = Ok 0
    /\ PartialProdGen.produce_products_scipy_optimized mul nonzero A_csr AT_csr
       = Ok []
    /\ PartialProdGen.produce_products_stream_scipy_optimized mul nonzero fuel
         A_csr AT_csr chunk_size = Ok (0, []).
Proof.
  intros V mul nonzero A_csr AT_csr fuel chunk_size HA Hempty Hc.
  assert (Hest : PartialProdGen.estimate_products A_csr AT_csr = Ok 0).
  { unfold PartialProdGen.estimate_products.
    rewrite (nnz_ok V A_csr HA), Hempty. reflexivity. }
  assert (Hrow : forall i, 0 <= i < PartialProdGen.shape0 A_csr ->
            PartialProdGen.row_ptr A_csr i
            = PartialProdGen.row_ptr A_csr (i + 1)).
  { intros i Hi.
    destruct (ptr_mono V A_csr i (i + 1) HA) as [H1 [H2 H3]]; try lia.
    rewrite Hempty in H3. change (len (@nil Z)) with 0 in H3. lia. }
  split; [ exact Hest | split ].
  - unfold PartialProdGen.produce_products_scipy_optimized,
      PartialProdGen.fill_buffers.
    rewrite Hest. cbn [bind np_empty Z.ltb Z.compare Z.to_nat repeat].
    rewrite for_each_unchanged.
    + reflexivity.
    + intros i Hi. apply In_range in Hi. unfold PartialProdGen.emit_row.
      rewrite !(index_ptr V A_csr) by (try exact HA; lia). cbn [bind].
      rewrite <- (Hrow i Hi), Z.eqb_refl. reflexivity.
  - unfold PartialProdGen.produce_products_stream_scipy_optimized, np_empty.
    destruct (chunk_size <? 0) eqn:E; [ apply Z.ltb_lt in E; lia | ].
    cbn [bind]. rewrite for_each_unchanged.
    + reflexivity.
    + intros i Hi. apply In_range in Hi. unfold PartialProdGen.stream_row.
      rewrite !(index_ptr V A_csr) by (try exact HA; lia). cbn [bind].
      rewrite <- (Hrow i Hi), Z.eqb_refl. reflexivity.
Qed.

(** The statement above on a matrix without stored entries and arrays that
    are no matrix. *)
Lemma empty_matrix_yields_nothing_witness :
  PartialProdGen.estimate_products Traversal.empty_A Traversal.no_matrix = Ok 0
  /\ PartialProdGen.produce_products_scipy_optimized Z.mul
       PartialProdGen.nonzeroZ Traversal.empty_A Traversal.no_matrix = Ok []
  /\ PartialProdGen.produce_products_stream_scipy_optimized Z.mul
       PartialProdGen.nonzeroZ 0 Traversal.empty_A Traversal.no_matrix 0
     = Ok (0, []).
Proof.
  apply (empty_matrix_yields_nothing Z Z.mul PartialProdGen.nonzeroZ
           Traversal.empty_A Traversal.no_matrix 0 0); reflexivity || discriminate.
Defined.

(** ** The triples and the matrix product *)

Section MatMulFacts.

Import PartialProdGen MatMul.

Lemma zsum_map_add {A : Type} (f g : A -> Z) (l : list A) :
  zsum (map (fun x => f x + g x) l) = zsum (map f l) + zsum (map g l).
Proof.
  induction l as [ | x l IH ]; simpl; [ reflexivity | rewrite IH; lia ].
Qed.

Lemma zsum_map_zero {A : Type} (f : A -> Z) (l : list A) :
  (forall x, In x l -> f x = 0) -> zsum (map f l) = 0.
Proof.
  induction l as [ | x l IH ]; intro H; simpl; [ reflexivity | ].
  rewrite (H x) by (left; reflexivity). rewrite IH; [ reflexivity | ].
  intros y Hy. apply H. right. exact Hy.
Qed.

Lemma zsum_map_ext {A : Type} (f g : A -> Z) (l : list A) :
  (forall x, In x l -> f x = g x) -> zsum (map f l) = zsum (map g l).
Proof.
  intro H. f_equal. now apply map_ext_in.
Qed.

(** Picking one position out of a list without repetition. *)
Lemma zsum_indicator (k0 : Z) (c : Z -> Z) (l : list Z) :
  NoDup l -> In k0 l ->
  zsum (map (fun k => if k0 =? k then c k else 0) l) = c k0.
Proof.
  induction 1 as [ | x l Hx Hnd IH ]; intro Hin; [ destruct Hin | ].
  simpl. destruct Hin as [-> | Hin].
  - rewrite Z.eqb_refl. rewrite zsum_map_zero; [ lia | ].
    intros y Hy. destruct (k0 =? y) eqn:E; [ | reflexivity ].
    apply Z.eqb_eq in E. subst y. contradiction.
  - destruct (k0 =? x) eqn:E.
    + apply Z.eqb_eq in E. subst x. contradiction.
    + rewrite IH by assumption. lia.
Qed.

Lemma NoDup_map_injective {A B : Type} (f : A -> B) (l : list A) :
  (forall x y, f x = f y -> x = y) -> NoDup l -> NoDup (map f l).
Proof.
  intros Hf. induction 1 as [ | x l Hx Hnd IH ]; simpl; constructor.
  - intro Hin. apply in_map_iff in Hin. destruct Hin as [y [Hy Hin]].
    apply Hf in Hy. subst y. contradiction.
  - exact IH.
Qed.

Lemma range_NoDup (n : Z) : NoDup (range n).
Proof.
  unfold range. apply NoDup_map_injective.
  - intros x y H. lia.
  - apply seq_NoDup.
Qed.

(** A sum over the entries of a row, regrouped by column. *)
Lemma row_sum_by_column (f : Z -> Z) (n : Z) (row : list (Z * Z)) :
  (forall ka, In ka row -> 0 <= fst ka < n) ->
  zsum (map (fun ka => snd ka * f (fst ka)) row)
  = zsum (map (fun k =>
                 zsum (map snd (filter (fun ka => fst ka =? k) row)) * f k)
            (range n)).
Proof.
  induction row as [ | [k0 a0] row IH ]; intro Hin.
  - simpl. symmetry. apply zsum_map_zero. intros; reflexivity.
  - cbn [map zsum fold_right fst snd]. change (fold_right Z.add 0) with zsum.
    rewrite IH by (intros ka Hka; apply Hin; right; exact Hka).
    rewrite <- (zsum_indicator k0 (fun k => a0 * f k) (range n))
      by (try apply range_NoDup; apply In_range; apply (Hin (k0, a0));
          left; reflexivity).
    rewrite <- zsum_map_add. apply zsum_map_ext. intros k Hk.
    cbn [filter fst]. destruct (k0 =? k); [ | lia ].
    cbn [map snd]. unfold zsum. cbn [fold_right]. lia.
Qed.

Lemma key_sum_app (l1 l2 : list (Z * Z * Z)) (i j : Z) :
  key_sum (l1 ++ l2) i j = key_sum l1 i j + key_sum l2 i j.
Proof.
  unfold key_sum. now rewrite filter_app, map_app, zsum_app.
Qed.

Lemma key_sum_flat_map {A : Type} (f : A -> list (Z * Z * Z)) (l : list A)
  (i j : Z) :
  key_sum (flat_map f l) i j = zsum (map (fun x => key_sum (f x) i j) l).
Proof.
  induction l as [ | x l IH ]; simpl; [ reflexivity | ].
  now rewrite key_sum_app, IH.
Qed.

(** The zero filter does not change the sum of a key. *)
Lemma key_sum_filter (l : list (Z * Z * Z)) (i j : Z) :
  key_sum (filter (keeps nonzeroZ) l) i j = key_sum l i j.
Proof.
  induction l as [ | [[v i'] j'] l IH ]; [ reflexivity | ].
  cbn [filter]. unfold keeps at 1. cbn [fst].
  change ((v, i', j') :: l) with ([(v, i', j')] ++ l).
  rewrite (key_sum_app [(v, i', j')] l).
  destruct (nonzeroZ v) eqn:E.
  - change ((v, i', j') :: filter (keeps nonzeroZ) l)
      with ([(v, i', j')] ++ filter (keeps nonzeroZ) l).
    now rewrite key_sum_app, IH.
  - rewrite IH. unfold nonzeroZ in E. apply negb_false_iff, Z.eqb_eq in E.
    subst v. unfold key_sum. simpl.
    destruct ((i' =? i) && (j' =? j)); simpl; lia.
Qed.

Lemma key_sum_entry (AT_csr : csr Z) (i i' j : Z) (ka : Z * Z) :
  key_sum (entry_products Z.mul AT_csr i' ka) i j
  = if i' =? i then snd ka * dense_entry AT_csr (fst ka) j else 0.
Proof.
  unfold key_sum, entry_products, dense_entry.
  induction (row_of AT_csr (fst ka)) as [ | [j' b] row IH ].
  - simpl. destruct (i' =? i); lia.
  - cbn [map filter fst snd]. destruct (i' =? i) eqn:E.
    + cbn [andb]. destruct (j' =? j); cbn [map zsum fold_right fst snd];
        change (fold_right Z.add 0) with zsum; rewrite IH; lia.
    + cbn [andb]. exact IH.
Qed.

Lemma row_of_data {V : Type} (M : csr V) (r : Z) (ka : Z * V) :
  In ka (row_of M r) -> In (snd ka) (data M).
Proof.
  unfold row_of. destruct ka as [k a]. intro Hin.
  apply in_combine_r in Hin. eapply slice_In. exact Hin.
Qed.

(** Two products that agree on the stored values give the same elementary
    products. *)
Lemma all_products_ext {V : Type} (mul mul' : V -> V -> V)
  (A_csr AT_csr : csr V) :
  (forall a b, In a (data A_csr) -> In b (data AT_csr) ->
               mul a b = mul' a b) ->
  all_products mul A_csr AT_csr = all_products mul' A_csr AT_csr.
Proof.
  intro H. unfold all_products.
  apply flat_map_ext_in. intros i _.
  apply flat_map_ext_in. intros ka Hka.
  unfold entry_products. apply map_ext_in. intros jb Hjb.
  rewrite (H (snd ka) (snd jb)); [ reflexivity | | ].
  - now apply (row_of_data A_csr i).
  - now apply (row_of_data AT_csr (fst ka)).
Qed.

(** The binary32 product of two integers of at most 12 bits is their
    product: it has at most 24 bits. *)
Lemma mul32_exact (a b : Z) :
  Z.abs a <= 4096 -> Z.abs b <= 4096 -> mul32 a b = a * b.
Proof.
  intros Ha Hb. unfold mul32.
  assert (Hab : Z.abs (a * b) <= 2 ^ 24).
  { rewrite Z.abs_mul. change (2 ^ 24) with (4096 * 4096). nia. }
  assert (E : (inject_Z a * inject_Z b == inject_Z (a * b) * Quantizer.pow2 0)%Q).
  { rewrite inject_Z_mult. change (Quantizer.pow2 0) with 1%Q. ring. }
  rewrite <- (trunc_inject_Z (a * b)). apply trunc_comp.
  rewrite (int24_scaled (a * b) 0 _ Hab ltac:(lia) E).
  rewrite inject_Z_mult. reflexivity.
Qed.

Lemma bounded_data_In (bound : Z) (M : csr Z) (a : Z) :
  bounded_data bound M = true -> In a (data M) -> Z.abs a <= bound.
Proof.
  unfold bounded_data. intros H Hin.
  rewrite forallb_forall in H. apply Z.leb_le. now apply H.
Qed.

End MatMulFacts.

(** Beyond 24 bits the binary32 product is not the product: 4097 * 4097 is
    16785409, which the generators store as 16785408. *)
Lemma mul32_rounds_beyond_24_bits :
  MatMul.mul32 4097 4097 = 16785408
  /\ 4097 * 4097 = 16785409
  /\ Binary32.astype_int32
       (SFmul Binary32.prec Binary32.emax (Binary32.of_int 4097)
          (Binary32.of_int 4097)) = 16785408.
Proof. repeat split; vm_compute; reflexivity. Qed.

(** X6: for matrices of integers of magnitude at most 4096, whose products
    binary32 holds exactly, the pre-allocated generator, run with the
    binary32 product, returns the triples it returns with the exact product,
    and their values under a key [(i, j)] add up to the entry [(i, j)] of the
    matrix product of [A] and [AT]; the generator itself sums nothing. *)
Theorem triples_add_up_to_the_product :
  forall (A_csr AT_csr : PartialProdGen.csr Z) (i j : Z),
    PartialProdGen.valid_csr A_csr = true ->
    PartialProdGen.valid_csr AT_csr = true ->
    PartialProdGen.shape0 AT_csr = PartialProdGen.shape1 A_csr ->
    len (PartialProdGen.indices A_csr) * len (PartialProdGen.indices AT_csr)
      < 2 ^ 63 ->
    MatMul.bounded_data 4096 A_csr = true ->
    MatMul.bounded_data 4096 AT_csr = true ->
    0 <= i < PartialProdGen.shape0 A_csr ->
    exists triples : list (Z * Z * Z),
      PartialProdGen.produce_products_scipy_optimized MatMul.mul32
        PartialProdGen.nonzeroZ A_csr AT_csr = Ok triples
      /\ PartialProdGen.produce_products_scipy_optimized Z.mul
           PartialProdGen.nonzeroZ A_csr AT_csr = Ok triples
      /\ MatMul.key_sum triples i j = MatMul.product_entry A_csr AT_csr i j.
Proof.
  intros A_csr AT_csr i j HA HAT Hshape Hfit HbA HbAT Hi.
  assert (Hmul : PartialProdGen.all_products MatMul.mul32 A_csr AT_csr
                 = PartialProdGen.all_products Z.mul A_csr AT_csr).
  { apply all_products_ext. intros a b Ha Hb. apply mul32_exact.
    - now apply (bounded_data_In 4096 A_csr).
    - now apply (bounded_data_In 4096 AT_csr). }
  eexists. split; [ | split; [ now apply prealloc_result | ] ].
  { rewrite <- Hmul. now apply prealloc_result. }
  rewrite key_sum_filter. unfold PartialProdGen.all_products.
  rewrite key_sum_flat_map.
  rewrite (zsum_map_ext _
             (fun i' => if i =? i'
                        then MatMul.product_entry A_csr AT_csr i' j else 0)).
  - rewrite (zsum_indicator i
               (fun i' => MatMul.product_entry A_csr AT_csr i' j));
      [ reflexivity | apply range_NoDup | now apply In_range ].
  - intros i' Hi'. rewrite key_sum_flat_map.
    rewrite (zsum_map_ext _
               (fun ka => if i' =? i
                          then snd ka * MatMul.dense_entry AT_csr (fst ka) j
                          else 0))
      by (intros ka _; apply key_sum_entry).
    rewrite (Z.eqb_sym i i').
    destruct (i' =? i) eqn:E.
    + unfold MatMul.product_entry, MatMul.dense_entry at 1.
      apply (row_sum_by_column
               (fun k => MatMul.dense_entry AT_csr k j)
               (PartialProdGen.shape1 A_csr)
               (PartialProdGen.row_of A_csr i')).
      intros ka Hka. now apply (row_of_In Z A_csr i').
    + apply zsum_map_zero. intros; reflexivity.
Qed.

(** The statement above on a 2x3 matrix and its transpose, at the key (0, 1):
    1*4 + 3*5 = 19. *)
Lemma triples_add_up_to_the_product_witness :
  exists triples : list (Z * Z * Z),
    PartialProdGen.produce_products_scipy_optimized MatMul.mul32
      PartialProdGen.nonzeroZ PartialProdGen.example_A
      PartialProdGen.example_AT = Ok triples
    /\ PartialProdGen.produce_products_scipy_optimized Z.mul
         PartialProdGen.nonzeroZ PartialProdGen.example_A
         PartialProdGen.example_AT = Ok triples
    /\ MatMul.key_sum triples 0 1
       = MatMul.product_entry PartialProdGen.example_A
           PartialProdGen.example_AT 0 1.
Proof.
  apply (triples_add_up_to_the_product PartialProdGen.example_A
           PartialProdGen.example_AT 0 1); try reflexivity.
  split; [ discriminate | reflexivity ].
Defined.

(** ** The item-similarity generators *)

Section SimilarityFacts.

Import PartialProdGen SimilarityGen.

Variable V : Type.
Variable mul : V -> V -> V.
Variable nonzero : V -> bool.
Variable scale : V -> Z.

(** The three columns of the scaled products that are kept. *)
Lemma scaled_columns (i : Z) (a : V) (cols : list Z) (vals : list V) :
  List.length cols = List.length vals ->
  let kept := filter (keeps nonzeroZ)
                (map (scaled V scale)
                   (map (fun jb : Z * V => (mul a (snd jb), i, fst jb))
                      (combine cols vals))) in
  filter nonzeroZ (map scale (map (mul a) vals))
  = map (fun t => fst (fst t)) kept
  /\ repeat i (List.length (filter nonzeroZ (map scale (map (mul a) vals))))
     = map (fun t => snd (fst t)) kept
  /\ mask_select cols (map nonzeroZ (map scale (map (mul a) vals)))
     = Ok (map (fun t => snd t) kept)
  /\ (existsb (fun b => b) (map nonzeroZ (map scale (map (mul a) vals)))
      = false -> kept = []).
Proof.
  unfold keeps, scaled.
  revert vals. induction cols as [ | c cols IH ]; intros [ | v vals ] H;
    simpl in *; try discriminate; [ auto | ].
  destruct (IH vals) as [H1 [H2 [H3 H4]]]; [ lia | ].
  rewrite H3. simpl.
  destruct (nonzeroZ (scale (mul a v))); simpl.
  - rewrite H2, H1. repeat split; try reflexivity. discriminate.
  - repeat split; assumption.
Qed.

(** Writing a group of triples behind the cursor. *)
Lemma write_group_ok (kept : list (Z * Z * Z)) (st : stream_state Z)
  (out : list (Z * Z * Z)) (cap : Z) :
  stream_filled st out cap ->
  buf_pos st + len kept <= cap ->
  exists st1,
    (bp <- slice_assign (buf_products st) (buf_pos st)
             (buf_pos st + len kept) (map (fun t => fst (fst t)) kept) ;;
     bi <- slice_assign (buf_i st) (buf_pos st)
             (buf_pos st + len kept) (map (fun t => snd (fst t)) kept) ;;
     bj <- slice_assign (buf_j st) (buf_pos st)
             (buf_pos st + len kept) (map (fun t => snd t) kept) ;;
     Ok (mk_stream bp bi bj (total_written st)
           (buf_pos st + len kept) (csv_rows st))) = Ok st1
    /\ stream_filled st1 (out ++ kept) cap.
Proof.
  intros Hst Hfit.
  destruct Hst as [pending [Hout [Hp [Hi [Hj [Hpos [Htw [Lp [Li Lj]]]]]]]]].
  rewrite Hpos in *.
  pose proof (slice_assign_holds (buf_products st) _
                (map (fun t : Z * Z * Z => fst (fst t)) kept) Hp) as Gp.
  rewrite !len_map in Gp. destruct Gp as [bp [Gp1 [Gp2 Gp3]]]; [ lia | ].
  rewrite Gp1. cbn [bind].
  pose proof (slice_assign_holds (buf_i st) _
                (map (fun t : Z * Z * Z => snd (fst t)) kept) Hi) as Gi.
  rewrite !len_map in Gi. destruct Gi as [bi [Gi1 [Gi2 Gi3]]]; [ lia | ].
  rewrite Gi1. cbn [bind].
  pose proof (slice_assign_holds (buf_j st) _
                (map (fun t : Z * Z * Z => snd t) kept) Hj) as Gj.
  rewrite !len_map in Gj. destruct Gj as [bj [Gj1 [Gj2 Gj3]]]; [ lia | ].
  rewrite Gj1. cbn [bind].
  eexists. split; [ reflexivity | ].
  exists (pending ++ kept). simpl. rewrite !map_app.
  repeat split; try assumption; try lia.
  - rewrite Hout. now rewrite app_assoc.
  - now rewrite len_app.
Qed.

Lemma stream_filled_pos (st : stream_state Z) (out : list (Z * Z * Z))
  (cap : Z) :
  stream_filled st out cap -> 0 <= buf_pos st <= cap.
Proof.
  intros [pending [_ [[rest Hp] [_ [_ [Hpos [_ [Lp _]]]]]]]].
  rewrite Hpos. split; [ apply len_nonneg | ].
  rewrite <- Lp, Hp, len_app, !len_map. pose proof (len_nonneg rest). lia.
Qed.

(** The flush before a group that does not fit behind the cursor. *)
Lemma make_room_ok (st : stream_state Z) (out : list (Z * Z * Z))
  (cap n : Z) :
  stream_filled st out cap -> 0 <= n ->
  exists st1,
    (if buf_pos st + n >? cap then
       if buf_pos st >? 0 then flush st else Ok st
     else Ok st) = Ok st1
    /\ stream_filled st1 out cap
    /\ (n <= cap -> buf_pos st1 + n <= cap).
Proof.
  intros Hst Hn. pose proof (stream_filled_pos st out cap Hst) as Hpos.
  destruct (buf_pos st + n >? cap) eqn:E.
  - destruct (buf_pos st >? 0) eqn:E0.
    + destruct (flush_ok Z st out cap Hst) as [st' [F1 [F2 [F3 _]]]].
      exists st'. repeat split; try assumption. rewrite F3. lia.
    + exists st. repeat split; try assumption.
      rewrite Z.gtb_ltb in E0. apply Z.ltb_ge in E0. lia.
  - exists st. repeat split; try assumption.
    rewrite Z.gtb_ltb in E. apply Z.ltb_ge in E. lia.
Qed.

Lemma fitting_nil (cap : Z) : fitting cap [] = [].
Proof. unfold fitting. now destruct (len [] <=? cap). Qed.

Section OnePair.

Variables A_csr AT_csr : csr V.
Hypothesis valid_A : valid_csr A_csr = true.
Hypothesis valid_AT : valid_csr AT_csr = true.
Hypothesis shapes : shape0 AT_csr = shape1 A_csr.

Lemma similarity_entry_ok (cap i k : Z) (a : V) (st : stream_state Z)
  (out : list (Z * Z * Z)) :
  0 <= k < shape0 AT_csr ->
  stream_filled st out cap ->
  exists st',
    similarity_entry V mul scale cap AT_csr i k a st = Ok st'
    /\ stream_filled st'
         (out ++ fitting cap (scaled_entry V mul scale AT_csr i (k, a))) cap.
Proof.
  intros Hk Hst. unfold similarity_entry.
  rewrite !(index_ptr V AT_csr) by (try exact valid_AT; lia). cbn [bind].
  destruct (ptr_mono V AT_csr k (k + 1) valid_AT) as [Hs [Hse He]]; try lia.
  destruct (row_slices V AT_csr k valid_AT Hk) as [Lc Lv].
  pose proof (row_slices_length V AT_csr k valid_AT Hk) as Hlen.
  unfold scaled_entry, entry_products, row_of. simpl fst. simpl snd.
  set (cols := slice (indices AT_csr) (row_ptr AT_csr k)
                 (row_ptr AT_csr (k + 1))) in *.
  set (vals := slice (data AT_csr) (row_ptr AT_csr k)
                 (row_ptr AT_csr (k + 1))) in *.
  destruct (row_ptr AT_csr k =? row_ptr AT_csr (k + 1)) eqn:E.
  - apply Z.eqb_eq in E. exists st. split; [ reflexivity | ].
    assert (Hc : cols = []).
    { apply len_nil_inv. rewrite Lc. unfold row_nnz. lia. }
    rewrite Hc. simpl. now rewrite fitting_nil, app_nil_r.
  - cbv zeta.
    destruct (scaled_columns i a cols vals Hlen) as [E1 [E2 [E3 E4]]].
    set (kept := filter (keeps nonzeroZ)
                   (map (scaled V scale)
                      (map (fun jb : Z * V => (mul a (snd jb), i, fst jb))
                         (combine cols vals)))) in *.
    destruct (existsb (fun b => b)
                (map nonzeroZ (map scale (map (mul a) vals)))) eqn:Hany.
    + rewrite E3. cbn [bind]. rewrite E2, E1. rewrite len_map.
      destruct (make_room_ok st out cap (len kept) Hst (len_nonneg kept))
        as [st1 [M1 [M2 M3]]].
      rewrite M1. cbn [bind]. unfold fitting.
      destruct (len kept <=? cap) eqn:Hfit.
      * apply Z.leb_le in Hfit.
        apply (write_group_ok kept st1 out cap M2 (M3 Hfit)).
      * exists st1. split; [ reflexivity | ]. now rewrite app_nil_r.
    + exists st. split; [ reflexivity | ].
      rewrite (E4 eq_refl). now rewrite fitting_nil, app_nil_r.
Qed.

Lemma similarity_entries_ok (cap i : Z) (entries : list (Z * V)) :
  forall (st : stream_state Z) (out : list (Z * Z * Z)),
    (forall ka, In ka entries -> 0 <= fst ka < shape0 AT_csr) ->
    stream_filled st out cap ->
    exists st',
      for_each entries
        (fun ka st =>
           similarity_entry V mul scale cap AT_csr i (fst ka) (snd ka) st) st
      = Ok st'
      /\ stream_filled st'
           (out ++ flat_map
                     (fun ka =>
                        fitting cap (scaled_entry V mul scale AT_csr i ka))
                     entries) cap.
Proof.
  induction entries as [ | [k a] entries IH ]; intros st out Hin Hst.
  - exists st. simpl. now rewrite app_nil_r.
  - destruct (similarity_entry_ok cap i k a st out) as [st1 [E1 H1]];
      [ apply (Hin (k, a)); left; reflexivity | exact Hst | ].
    simpl. rewrite E1. cbn [bind].
    destruct (IH st1 _ (fun ka Hka => Hin ka (or_intror Hka)) H1)
      as [st2 [E2 H2]].
    exists st2. split; [ exact E2 | ].
    now rewrite app_assoc.
Qed.

Lemma similarity_row_ok (cap i : Z) (st : stream_state Z)
  (out : list (Z * Z * Z)) :
  0 <= i < shape0 A_csr ->
  stream_filled st out cap ->
  exists st',
    similarity_row V mul scale cap A_csr AT_csr i st = Ok st'
    /\ stream_filled st'
         (out ++ fitting_row V mul scale cap A_csr AT_csr i) cap.
Proof.
  intros Hi Hst. unfold similarity_row.
  rewrite !(index_ptr V A_csr) by (try exact valid_A; lia). cbn [bind].
  destruct (ptr_mono V A_csr i (i + 1) valid_A) as [Hs [Hse He]]; try lia.
  destruct (row_slices V A_csr i valid_A Hi) as [Lc Lv].
  pose proof (row_slices_length V A_csr i valid_A Hi) as Hlen.
  destruct (row_ptr A_csr i =? row_ptr A_csr (i + 1)) eqn:E.
  - apply Z.eqb_eq in E. exists st. split; [ reflexivity | ].
    unfold fitting_row, row_of.
    assert (Hc : slice (indices A_csr) (row_ptr A_csr i) (row_ptr A_csr (i + 1))
                 = []).
    { apply len_nil_inv. rewrite Lc. unfold row_nnz. lia. }
    rewrite Hc. simpl. now rewrite app_nil_r.
  - cbv zeta.
    rewrite (for_each_positions
               (fun k a st => similarity_entry V mul scale cap AT_csr i k a st)
               _ _ st Hlen).
    apply similarity_entries_ok; try assumption.
    intros ka Hka. rewrite shapes. now apply (row_of_In V A_csr i).
Qed.

Lemma similarity_rows_ok (cap : Z) (rows : list Z) :
  forall (st : stream_state Z) (out : list (Z * Z * Z)),
    (forall i, In i rows -> 0 <= i < shape0 A_csr) ->
    stream_filled st out cap ->
    exists st',
      for_each rows (similarity_row V mul scale cap A_csr AT_csr) st = Ok st'
      /\ stream_filled st'
           (out ++ flat_map (fitting_row V mul scale cap A_csr AT_csr) rows)
           cap.
Proof.
  induction rows as [ | i rows IH ]; intros st out Hin Hst.
  - exists st. simpl. now rewrite app_nil_r.
  - destruct (similarity_row_ok cap i st out) as [st1 [E1 H1]];
      [ apply Hin; left; reflexivity | exact Hst | ].
    simpl. rewrite E1. cbn [bind].
    destruct (IH st1 _ (fun j Hj => Hin j (or_intror Hj)) H1)
      as [st2 [E2 H2]].
    exists st2. split; [ exact E2 | ].
    now rewrite app_assoc.
Qed.

End OnePair.

(** The file and the count of the streaming version, for every buffer
    size. *)
Lemma similarity_stream_result (A_csr : csr V) (chunk_size : Z) :
  valid_csr A_csr = true -> 0 <= chunk_size ->
  produce_similarity_products_stream V mul scale A_csr chunk_size
  = Ok (len (fitting_products V mul scale chunk_size A_csr),
        fitting_products V mul scale chunk_size A_csr).
Proof.
  intros HA Hcap.
  destruct (transpose_valid V A_csr HA) as [HAT [Hs0 Hs1]].
  unfold produce_similarity_products_stream, np_empty.
  destruct (chunk_size <? 0) eqn:E; [ apply Z.ltb_lt in E; lia | ].
  cbn [bind]. cbv zeta.
  destruct (similarity_rows_ok A_csr (transpose A_csr) HA HAT Hs0 chunk_size
              (range (shape0 A_csr))
              (mk_stream (repeat None (Z.to_nat chunk_size))
                 (repeat None (Z.to_nat chunk_size))
                 (repeat None (Z.to_nat chunk_size)) 0 0 []) [])
    as [st [E1 H1]].
  - intros i Hi. now apply In_range.
  - exists []. simpl. rewrite !len_repeat.
    repeat split; try apply holds_empty; lia.
  - rewrite E1. cbn [bind]. simpl app in H1.
    change (flat_map (fitting_row V mul scale chunk_size A_csr
                        (transpose A_csr)) (range (shape0 A_csr)))
      with (fitting_products V mul scale chunk_size A_csr) in H1.
    destruct (buf_pos st >? 0) eqn:Hp.
    + destruct (flush_ok Z st _ chunk_size H1) as [st' [F1 [_ [_ [F4 F5]]]]].
      rewrite F1. cbn [bind]. now rewrite F4, F5.
    + cbn [bind].
      destruct H1 as [pending [Hout [_ [_ [_ [Hpos [Htw _]]]]]]].
      assert (Hnil : pending = []).
      { apply len_nil_inv. pose proof (len_nonneg pending).
        rewrite Z.gtb_ltb in Hp. apply Z.ltb_ge in Hp. lia. }
      subst pending. rewrite app_nil_r in Hout. now rewrite Htw, <- Hout.
Qed.

End SimilarityFacts.

Section TransposeCount.

Import PartialProdGen.

Variable V : Type.

Lemma zsum_swap {A B : Type} (f : A -> B -> Z) (la : list A) (lb : list B) :
  zsum (map (fun a => zsum (map (f a) lb)) la)
  = zsum (map (fun b => zsum (map (fun a => f a b) la)) lb).
Proof.
  induction la as [ | a la IH ].
  - simpl. symmetry. apply zsum_map_zero. intros; reflexivity.
  - cbn [map]. unfold zsum at 1. cbn [fold_right].
    change (fold_right Z.add 0) with zsum. rewrite IH.
    rewrite <- zsum_map_add. apply zsum_map_ext. intros b _.
    reflexivity.
Qed.

(** The entries of a row, counted column by column. *)
Lemma len_by_column (n : Z) (row : list (Z * V)) :
  (forall ka, In ka row -> 0 <= fst ka < n) ->
  len row
  = zsum (map (fun c => len (filter (fun ka => fst ka =? c) row)) (range n)).
Proof.
  induction row as [ | [k0 a0] row IH ]; intro Hin.
  - simpl. symmetry. apply zsum_map_zero. intros; reflexivity.
  - change (len ((k0, a0) :: row)) with (len ([(k0, a0)] ++ row)).
    rewrite len_app, IH by (intros ka Hka; apply Hin; right; exact Hka).
    rewrite <- (zsum_indicator k0 (fun _ => len [(k0, a0)]) (range n))
      by (try apply range_NoDup; apply In_range; apply (Hin (k0, a0));
          left; reflexivity).
    rewrite <- zsum_map_add. apply zsum_map_ext. intros c Hc.
    cbn [filter fst]. rewrite (Z.eqb_sym k0 c).
    destruct (c =? k0).
    + change ((k0, a0) :: filter (fun ka : Z * V => fst ka =? c) row)
        with ([(k0, a0)] ++ filter (fun ka : Z * V => fst ka =? c) row).
      now rewrite len_app.
    + lia.
Qed.

(** The transpose stores as many entries as the matrix. *)
Lemma nnz_transpose (M : csr V) :
  valid_csr M = true -> len (indices (transpose M)) = len (indices M).
Proof.
  intro HM. unfold transpose. cbn [indices].
  rewrite len_map, len_concat, map_map.
  rewrite (zsum_map_ext _
             (fun c => zsum (map (fun i =>
                                    len (filter (fun ka => fst ka =? c)
                                           (row_of M i)))
                               (range (shape0 M))))).
  2:{ intros c _. unfold column_entries. rewrite len_flat_map.
      apply zsum_map_ext. intros i _. apply len_map. }
  rewrite <- (zsum_swap
                (fun i c => len (filter (fun ka => fst ka =? c) (row_of M i)))).
  pose proof (f_equal (fun l => len l) (rows_concat_all V M HM)) as Hall.
  cbv beta in Hall. rewrite <- Hall, len_flat_map.
  apply zsum_map_ext. intros i Hi. apply In_range in Hi.
  rewrite <- len_by_column
    by (intros ka Hka; now apply (row_of_In V M i)).
  rewrite (row_of_len V M i HM Hi).
  destruct (row_slices V M i HM Hi) as [Lc _]. now rewrite Lc.
Qed.

End TransposeCount.

Section SimilarityResults.

Import PartialProdGen SimilarityGen.

Variable V : Type.
Variable mul : V -> V -> V.
Variable nonzero : V -> bool.
Variable scale : V -> Z.

(** The result of the in-memory version. *)
Lemma similarity_prealloc_result (A_csr : csr V) :
  valid_csr A_csr = true ->
  len (indices A_csr) * len (indices A_csr) < 2 ^ 63 ->
  produce_similarity_products_scipy_optimized V mul nonzero scale A_csr
  = Ok (map (scaled V scale)
          (filter (keeps nonzero)
             (all_products mul A_csr (transpose A_csr)))).
Proof.
  intros HA Hfit.
  destruct (transpose_valid V A_csr HA) as [HAT [Hs0 _]].
  pose proof (prealloc_result V mul nonzero A_csr (transpose A_csr) HA HAT Hs0)
    as Hr.
  rewrite (nnz_transpose V A_csr HA) in Hr. specialize (Hr Hfit).
  unfold produce_products_scipy_optimized in Hr.
  unfold produce_similarity_products_scipy_optimized. cbv zeta.
  destruct (fill_buffers mul A_csr (transpose A_csr)) as [r | e];
    [ | discriminate ].
  cbn [bind] in *. rewrite Hr. reflexivity.
Qed.

Lemma fitting_zero (group : list (Z * Z * Z)) : fitting 0 group = [].
Proof.
  unfold fitting. destruct (len group <=? 0) eqn:E; [ | reflexivity ].
  apply Z.leb_le in E. apply len_nil_inv. pose proof (len_nonneg group). lia.
Qed.

Lemma fitting_all (chunk_size : Z) (group : list (Z * Z * Z)) :
  len group <= chunk_size -> fitting chunk_size group = group.
Proof.
  intro H. unfold fitting. apply Z.leb_le in H. now rewrite H.
Qed.

Lemma fitting_incl (chunk_size : Z) (group : list (Z * Z * Z)) t :
  In t (fitting chunk_size group) -> In t group.
Proof.
  unfold fitting. destruct (len group <=? chunk_size); [ auto | intros [] ].
Qed.

Lemma len_filter_le {A : Type} (f : A -> bool) (l : list A) :
  len (filter f l) <= len l.
Proof. unfold len. apply inj_le. apply filter_length_le. Qed.

Lemma filter_flat_map {A B : Type} (p : B -> bool) (f : A -> list B)
  (l : list A) :
  filter p (flat_map f l) = flat_map (fun x => filter p (f x)) l.
Proof.
  induction l as [ | x l IH ]; simpl; [ reflexivity | ].
  now rewrite filter_app, IH.
Qed.

(** Scaling after the zero filter, then filtering the scaled values, is
    filtering the scaled values when zero scales to zero. *)
Lemma scaled_filter (l : list (V * Z * Z)) :
  (forall v, nonzero v = false -> scale v = 0) ->
  filter (keeps nonzeroZ) (map (scaled V scale) (filter (keeps nonzero) l))
  = filter (keeps nonzeroZ) (map (scaled V scale) l).
Proof.
  intro Hz. induction l as [ | [[v i] j] l IH ]; [ reflexivity | ].
  cbn [filter map]. unfold keeps at 2. cbn [fst].
  destruct (nonzero v) eqn:E.
  - cbn [filter map]. now rewrite IH.
  - rewrite IH. unfold keeps at 2, scaled at 2. cbn [fst].
    rewrite (Hz v E). reflexivity.
Qed.

(** With a buffer that takes every row of the transpose, no group is left
    out. *)
Lemma fitting_products_all (A_csr : csr V) (chunk_size : Z) :
  valid_csr A_csr = true -> len (indices A_csr) <= chunk_size ->
  fitting_products V mul scale chunk_size A_csr
  = filter (keeps nonzeroZ)
      (map (scaled V scale) (all_products mul A_csr (transpose A_csr))).
Proof.
  intros HA Hc.
  destruct (transpose_valid V A_csr HA) as [HAT [Hs0 _]].
  unfold fitting_products, all_products.
  rewrite map_flat_map, filter_flat_map.
  apply flat_map_ext_in. intros i Hi. unfold fitting_row.
  rewrite map_flat_map, filter_flat_map.
  apply flat_map_ext_in. intros ka Hka.
  apply fitting_all. unfold scaled_entry.
  eapply Z.le_trans; [ apply len_filter_le | ].
  rewrite len_map.
  assert (Hk : 0 <= fst ka < shape0 (transpose A_csr))
    by (rewrite Hs0; now apply (row_of_In V A_csr i)).
  rewrite (entry_products_len V mul (transpose A_csr) HAT i ka Hk).
  pose proof (row_nnz_bounds V (transpose A_csr) (fst ka) HAT Hk) as Hb.
  rewrite (nnz_transpose V A_csr HA) in Hb. lia.
Qed.

End SimilarityResults.

(** A rational zero scales to the integer zero. *)
Lemma scaleQ_zero (v : Q) :
  SimilarityGen.nonzeroQ v = false -> SimilarityGen.scaleQ v = 0.
Proof.
  unfold SimilarityGen.nonzeroQ, SimilarityGen.scaleQ, Quantizer.trunc.
  intro H. apply negb_false_iff, Qeq_bool_eq in H.
  unfold Qeq in H. simpl in H. rewrite Z.mul_1_r in H.
  destruct v as [n d]. simpl in *. subst n. reflexivity.
Qed.

(** X7: on a well-formed matrix and with a buffer of [chunk_size >= 0] cells
    the streaming similarity generator never raises; for each stored entry,
    in order, it writes the scaled products that are not zero when there are
    at most [chunk_size] of them and nothing otherwise, and it returns the
    number of rows written.  With [chunk_size = 0] the file has no row.
    Every row written has a non-zero value and is a scaled product of the
    matrix and its transpose. *)
Theorem similarity_stream_leaves_out_oversized_groups :
  forall (V : Type) (mul : V -> V -> V) (scale : V -> Z)
         (A_csr : PartialProdGen.csr V) (chunk_size : Z),
    PartialProdGen.valid_csr A_csr = true ->
    0 <= chunk_size ->
    let rows := SimilarityGen.fitting_products V mul scale chunk_size A_csr in
    SimilarityGen.produce_similarity_products_stream V mul scale A_csr
      chunk_size = Ok (len rows, rows)
    /\ (chunk_size = 0 -> rows = [])
    /\ (forall t, In t rows ->
          PartialProdGen.nonzeroZ (fst (fst t)) = true
          /\ In t (map (SimilarityGen.scaled V scale)
                     (PartialProdGen.all_products mul A_csr
                        (PartialProdGen.transpose A_csr)))).
Proof.
  intros V mul scale A_csr chunk_size HA Hc rows. repeat split.
  - now apply similarity_stream_result.
  - intros ->. unfold rows, SimilarityGen.fitting_products.
    apply flat_map_nil. intros i _. unfold SimilarityGen.fitting_row.
    apply flat_map_nil. intros ka _. apply fitting_zero.
  - unfold rows, SimilarityGen.fitting_products in H.
    apply in_flat_map in H. destruct H as [i [_ H]].
    apply in_flat_map in H. destruct H as [ka [_ H]].
    apply fitting_incl in H. apply filter_In in H. apply H.
  - unfold rows, SimilarityGen.fitting_products in H.
    apply in_flat_map in H. destruct H as [i [Hi H]].
    apply in_flat_map in H. destruct H as [ka [Hka H]].
    apply fitting_incl in H. apply filter_In in H. destruct H as [H _].
    apply in_map_iff in H. destruct H as [t0 [<- Ht0]].
    apply in_map. unfold PartialProdGen.all_products.
    apply in_flat_map. exists i. split; [ exact Hi | ].
    apply in_flat_map. exists ka. split; assumption.
Qed.

(** The statement above on the 2x1 matrix of ones with a buffer of one cell:
    each stored entry has two products, so nothing is written. *)
Lemma similarity_stream_leaves_out_oversized_groups_witness :
  SimilarityGen.produce_similarity_products_stream Q Qmult
    SimilarityGen.scaleQ SimilarityGen.ones_column 1 = Ok (0, []).
Proof.
  exact (proj1 (similarity_stream_leaves_out_oversized_groups Q Qmult
                  SimilarityGen.scaleQ SimilarityGen.ones_column 1
                  eq_refl ltac:(discriminate))).
Defined.

(** X8: when the buffer has a cell for every stored entry of the matrix, the
    rows the streaming similarity generator writes are the triples of the
    in-memory one whose scaled value is not zero, in the same order: the
    in-memory version filters before it scales and keeps the products that
    scale to zero, the streaming version drops them. *)
Theorem similarity_stream_is_prealloc_without_zeros :
  forall (V : Type) (mul : V -> V -> V) (nonzero : V -> bool)
         (scale : V -> Z) (A_csr : PartialProdGen.csr V) (chunk_size : Z),
    PartialProdGen.valid_csr A_csr = true ->
    len (PartialProdGen.indices A_csr) * len (PartialProdGen.indices A_csr)
      < 2 ^ 63 ->
    len (PartialProdGen.indices A_csr) <= chunk_size ->
    (forall v, nonzero v = false -> scale v = 0) ->
    exists (triples rows : list (Z * Z * Z)),
      SimilarityGen.produce_similarity_products_scipy_optimized V mul nonzero
        scale A_csr = Ok triples
      /\ SimilarityGen.produce_similarity_products_stream V mul scale A_csr
           chunk_size = Ok (len rows, rows)
      /\ rows = filter (PartialProdGen.keeps PartialProdGen.nonzeroZ) triples.
Proof.
  intros V mul nonzero scale A_csr chunk_size HA Hfit Hc Hz.
  do 2 eexists. split; [ | split ].
  - now apply similarity_prealloc_result.
  - apply similarity_stream_result; [ exact HA | ].
    pose proof (len_nonneg (PartialProdGen.indices A_csr)). lia.
  - rewrite scaled_filter by exact Hz. now apply fitting_products_all.
Qed.

(** The statement above on the matrix [[1/512, 1]]: the product of 1/512
    with itself scales to 0.25, which the conversion makes 0. *)
Lemma similarity_stream_is_prealloc_without_zeros_witness :
  exists (triples rows : list (Z * Z * Z)),
    SimilarityGen.produce_similarity_products_scipy_optimized Q Qmult
      SimilarityGen.nonzeroQ SimilarityGen.scaleQ SimilarityGen.small_A
    = Ok triples
    /\ SimilarityGen.produce_similarity_products_stream Q Qmult
         SimilarityGen.scaleQ SimilarityGen.small_A 2 = Ok (len rows, rows)
    /\ rows = filter (PartialProdGen.keeps PartialProdGen.nonzeroZ) triples.
Proof.
  apply (similarity_stream_is_prealloc_without_zeros Q Qmult
           SimilarityGen.nonzeroQ SimilarityGen.scaleQ SimilarityGen.small_A 2).
  - reflexivity.
  - reflexivity.
  - vm_compute. discriminate.
  - exact scaleQ_zero.
Defined.

(** ** The report of the RTL regression checker *)

Section ReportFacts.

Import RtlChecker RtlMain.
Local Open Scope Q_scope.

Lemma Qeq_bool_false_neq (x y : Q) : Qeq_bool x y = false -> ~ x == y.
Proof.
  intros H E. apply Qeq_bool_iff in E. congruence.
Qed.

Lemma Qle_bool_false_lt (x y : Q) : Qle_bool x y = false -> y < x.
Proof.
  intro H. apply Qnot_le_lt. intro E. apply Qle_bool_iff in E. congruence.
Qed.

(** The order of the keys is total and transitive. *)
Lemma key_leb_total (a b : key) : key_leb a b = false -> key_leb b a = true.
Proof.
  unfold key_leb.
  destruct (Qeq_bool (fst a) (fst b)) eqn:E.
  - apply Qeq_bool_iff in E. symmetry in E. apply Qeq_bool_iff in E.
    rewrite E. intro H. apply Qle_bool_false_lt in H.
    apply Qle_bool_iff. now apply Qlt_le_weak.
  - intro H. apply Qle_bool_false_lt in H.
    destruct (Qeq_bool (fst b) (fst a)) eqn:F.
    + apply Qeq_bool_iff in F. symmetry in F. apply Qeq_bool_iff in F.
      congruence.
    + apply Qle_bool_iff. now apply Qlt_le_weak.
Qed.

Lemma Qeq_bool_reflect (x y : Q) : reflect (x == y) (Qeq_bool x y).
Proof.
  destruct (Qeq_bool x y) eqn:E; constructor.
  - now apply Qeq_bool_iff.
  - now apply Qeq_bool_false_neq.
Qed.

Lemma key_leb_trans (a b c : key) :
  key_leb a b = true -> key_leb b c = true -> key_leb a c = true.
Proof.
  unfold key_leb.
  destruct (Qeq_bool_reflect (fst a) (fst b)) as [Eab | Eab];
    destruct (Qeq_bool_reflect (fst b) (fst c)) as [Ebc | Ebc];
    destruct (Qeq_bool_reflect (fst a) (fst c)) as [Eac | Eac];
    intros H1 H2; apply Qle_bool_iff in H1, H2; apply Qle_bool_iff.
  - eapply Qle_trans; eassumption.
  - exfalso. apply Eac. now rewrite Eab.
  - exfalso. apply Ebc. now rewrite <- Eab.
  - now rewrite Eab.
  - exfalso. apply Eab. now rewrite Eac, Ebc.
  - now rewrite <- Ebc.
  - exfalso. apply Eab. apply Qle_antisym; [ exact H1 | ].
    now rewrite Eac.
  - eapply Qle_trans; eassumption.
Qed.

Lemma insert_by_key_perm (x : report_row) (l : list report_row) :
  Permutation (insert_by_key x l) (x :: l).
Proof.
  induction l as [ | y l IH ]; simpl; [ apply Permutation_refl | ].
  destruct (key_leb (rep_key x) (rep_key y)); [ apply Permutation_refl | ].
  eapply Permutation_trans; [ apply perm_skip, IH | apply perm_swap ].
Qed.

Lemma sort_by_key_perm (l : list report_row) : Permutation (sort_by_key l) l.
Proof.
  induction l as [ | x l IH ]; simpl; [ apply Permutation_refl | ].
  eapply Permutation_trans; [ apply insert_by_key_perm | now apply perm_skip ].
Qed.

Lemma insert_by_key_ascending (x : report_row) (l : list report_row) :
  ascending l = true -> ascending (insert_by_key x l) = true.
Proof.
  induction l as [ | y l IH ]; intro H; [ reflexivity | ].
  cbn [ascending] in H. apply andb_true_iff in H. destruct H as [Hy Hl].
  cbn [insert_by_key].
  destruct (key_leb (rep_key x) (rep_key y)) eqn:E.
  - cbn [ascending forallb]. rewrite E, Hy, Hl, !andb_true_r.
    apply forallb_forall. intros z Hz.
    rewrite forallb_forall in Hy.
    apply (key_leb_trans _ (rep_key y)); [ exact E | now apply Hy ].
  - cbn [ascending]. rewrite (IH Hl), andb_true_r.
    apply forallb_forall. intros z Hz.
    apply insert_by_key_In in Hz. destruct Hz as [-> | Hz].
    + now apply key_leb_total.
    + rewrite forallb_forall in Hy. now apply Hy.
Qed.

Lemma sort_by_key_ascending (l : list report_row) :
  ascending (sort_by_key l) = true.
Proof.
  induction l as [ | x l IH ]; [ reflexivity | ].
  simpl. now apply insert_by_key_ascending.
Qed.

Lemma build_report_lines (tol : Q) (sw hw : list (key * Q)) :
  build_report_tol tol sw hw
  = sort_by_key (map (report_line tol) (outer_merge sw hw)).
Proof. reflexivity. Qed.

(** When every line of the report is a match. *)
Lemma report_all_match_iff (tol : Q) (sw hw : list (key * Q)) :
  all_match (build_report_tol tol sw hw) = true <->
  (forall l r, In l sw -> In r hw -> key_eqb (fst l) (fst r) = true ->
     isclose (snd l) (snd r) tol = true)
  /\ (forall l, In l sw ->
        existsb (fun r => key_eqb (fst l) (fst r)) hw = false ->
        isclose (snd l) 0 tol = true)
  /\ (forall r, In r hw ->
        existsb (fun l => key_eqb (fst l) (fst r)) sw = false ->
        isclose 0 (snd r) tol = true).
Proof.
  unfold all_match. rewrite build_report_lines, forallb_forall. split.
  - intro H. repeat split.
    + intros l r Hl Hr Hk.
      apply (H (report_line tol (fst l, Some (snd l), Some (snd r)))).
      apply sort_by_key_In, in_map, outer_merge_In. left.
      exists l, r. auto.
    + intros l Hl Hk.
      apply (H (report_line tol (fst l, Some (snd l), None))).
      apply sort_by_key_In, in_map, outer_merge_In. right. left.
      exists l. auto.
    + intros r Hr Hk.
      apply (H (report_line tol (fst r, None, Some (snd r)))).
      apply sort_by_key_In, in_map, outer_merge_In. right. right.
      exists r. auto.
  - intros [H1 [H2 H3]] x Hx.
    apply sort_by_key_In, in_map_iff in Hx. destruct Hx as [m [<- Hm]].
    apply outer_merge_In in Hm.
    destruct Hm as [[l [r [Hl [Hr [Hk ->]]]]] | [[l [Hl [Hk ->]]]
                                                | [r [Hr [Hk ->]]]]]; simpl.
    + now apply H1.
    + now apply H2.
    + now apply H3.
Qed.

(** Two groups of a frame with distinct keys that share a key are one. *)
Lemma distinct_keys_same (groups : list (key * Q)) (a b : key * Q) :
  distinct_keys groups = true -> In a groups -> In b groups ->
  key_eqb (fst a) (fst b) = true -> a = b.
Proof.
  induction groups as [ | g groups IH ]; intros Hd Ha Hb Hk; [ destruct Ha | ].
  cbn [distinct_keys] in Hd. apply andb_true_iff in Hd.
  destruct Hd as [Hg Hd]. apply negb_true_iff in Hg.
  assert (Hno : forall h, In h groups -> key_eqb (fst g) (fst h) = false).
  { intros h Hh. destruct (key_eqb (fst g) (fst h)) eqn:E; [ | reflexivity ].
    assert (existsb (fun h => key_eqb (fst g) (fst h)) groups = true)
      by (apply existsb_exists; exists h; auto).
    congruence. }
  destruct Ha as [<- | Ha], Hb as [<- | Hb].
  - reflexivity.
  - rewrite (Hno b Hb) in Hk. discriminate.
  - rewrite key_eqb_sym, (Hno a Ha) in Hk. discriminate.
  - now apply IH.
Qed.

Lemma isclose_refl (g tol : Q) : 0 <= tol -> isclose g g tol = true.
Proof.
  intro Ht. unfold isclose. apply Qle_bool_iff.
  setoid_replace (g - g) with 0 by ring. simpl.
  rewrite <- (Qplus_0_r 0) at 1. apply Qplus_le_compat; [ exact Ht | ].
  apply Qmult_le_0_compat; [ discriminate | apply Qabs_nonneg ].
Qed.

Lemma bad_count (report : list report_row) :
  bad report = len (filter (fun x => negb (matched x)) report).
Proof.
  unfold bad. induction report as [ | x report IH ]; [ reflexivity | ].
  change (x :: report) with ([x] ++ report) at 1.
  rewrite len_app. cbn [map filter]. unfold zsum in *. cbn [fold_right].
  destruct (matched x); cbn [negb].
  - rewrite <- IH. change (len [x]) with 1%Z. lia.
  - change (x :: filter (fun x => negb (matched x)) report)
      with ([x] ++ filter (fun x => negb (matched x)) report).
    rewrite len_app, <- IH. change (len [x]) with 1%Z. lia.
Qed.

Lemma all_match_bad (report : list report_row) :
  all_match report = true <-> bad report = 0%Z.
Proof.
  rewrite bad_count. unfold all_match.
  induction report as [ | x report IH ]; [ split; reflexivity | ].
  cbn [forallb filter]. destruct (matched x); cbn [negb andb].
  - exact IH.
  - split; [ discriminate | ].
    change (x :: filter (fun x => negb (matched x)) report)
      with ([x] ++ filter (fun x => negb (matched x)) report).
    rewrite len_app. change (len [x]) with 1%Z.
    pose proof (len_nonneg (filter (fun x => negb (matched x)) report)). lia.
Qed.

End ReportFacts.

Section ReportCount.

Import RtlChecker RtlMain.

Lemma len_cons {A : Type} (x : A) (l : list A) : len (x :: l) = 1 + len l.
Proof. change (x :: l) with ([x] ++ l). now rewrite len_app. Qed.

Lemma filter_perm_len {A : Type} (f : A -> bool) (l l' : list A) :
  Permutation l l' -> len (filter f l) = len (filter f l').
Proof.
  induction 1 as [ | x l l' _ IH | x y l | l l' l'' _ IH1 _ IH2 ].
  - reflexivity.
  - cbn [filter]. destruct (f x); [ rewrite !len_cons | ]; now rewrite IH.
  - cbn [filter]. destruct (f x), (f y); rewrite ?len_cons; reflexivity.
  - now rewrite IH1.
Qed.

Lemma len_filter_map {A B : Type} (f : A -> B) (p : B -> bool) (l : list A) :
  len (filter p (map f l)) = len (filter (fun x => p (f x)) l).
Proof.
  induction l as [ | x l IH ]; [ reflexivity | ].
  cbn [map filter]. destruct (p (f x)); [ rewrite !len_cons | ];
    now rewrite IH.
Qed.

Lemma len_filter_flat_map {A B : Type} (f : A -> list B) (p : B -> bool)
  (l : list A) :
  len (filter p (flat_map f l))
  = zsum (map (fun x => len (filter p (f x))) l).
Proof.
  induction l as [ | x l IH ]; [ reflexivity | ].
  cbn [flat_map map]. rewrite filter_app, len_app, IH. reflexivity.
Qed.

Lemma len_filter_indicator {A : Type} (p : A -> bool) (l : list A) :
  zsum (map (fun x => if p x then 1 else 0) l) = len (filter p l).
Proof.
  induction l as [ | x l IH ]; [ reflexivity | ].
  cbn [map filter]. unfold zsum in *. cbn [fold_right]. rewrite IH.
  destruct (p x); [ rewrite len_cons | ]; lia.
Qed.

(** In a frame with distinct keys a key has one group or none. *)
Lemma distinct_count (groups : list (key * Q)) (k : key) :
  distinct_keys groups = true ->
  len (filter (fun g => key_eqb k (fst g)) groups)
  = if existsb (fun g => key_eqb k (fst g)) groups then 1 else 0.
Proof.
  induction groups as [ | g groups IH ]; intro Hd; [ reflexivity | ].
  cbn [distinct_keys] in Hd. apply andb_true_iff in Hd.
  destruct Hd as [Hg Hd]. apply negb_true_iff in Hg.
  cbn [filter existsb]. destruct (key_eqb k (fst g)) eqn:E; cbn [orb].
  - rewrite len_cons, (IH Hd).
    destruct (existsb (fun g0 => key_eqb k (fst g0)) groups) eqn:F;
      [ | reflexivity ].
    apply existsb_exists in F. destruct F as [h [Hh Hk]].
    assert (existsb (fun h => key_eqb (fst g) (fst h)) groups = true).
    { apply existsb_exists. exists h. split; [ exact Hh | ].
      apply (key_eqb_trans _ k); [ now rewrite key_eqb_sym | exact Hk ]. }
    congruence.
  - now apply IH.
Qed.

(** The rows the merge makes of one left row, counted under a key. *)
Lemma left_rows_count (hw : list (key * Q)) (l : key * Q) (k : key) :
  distinct_keys hw = true ->
  len (filter (fun m : key * option Q * option Q => key_eqb k (fst (fst m)))
         match filter (fun r => key_eqb (fst l) (fst r)) hw with
         | [] => [(fst l, Some (snd l), None)]
         | r :: rs =>
             map (fun r => (fst l, Some (snd l), Some (snd r))) (r :: rs)
         end)
  = if key_eqb k (fst l) then 1 else 0.
Proof.
  intro Hd. pose proof (distinct_count hw (fst l) Hd) as Hc.
  destruct (filter (fun r => key_eqb (fst l) (fst r)) hw) as [ | r rs ].
  - cbn [filter fst]. destruct (key_eqb k (fst l)); reflexivity.
  - destruct (existsb (fun g => key_eqb (fst l) (fst g)) hw).
    + destruct rs as [ | r' rs ].
      * cbn [map filter fst]. destruct (key_eqb k (fst l)); reflexivity.
      * rewrite !len_cons in Hc. pose proof (len_nonneg rs). lia.
    + rewrite len_cons in Hc. pose proof (len_nonneg rs). lia.
Qed.

Lemma right_rows_count (sw hw : list (key * Q)) (k : key) :
  distinct_keys hw = true ->
  len (filter (fun m : key * option Q * option Q => key_eqb k (fst (fst m)))
         (flat_map
            (fun r =>
               if existsb (fun l => key_eqb (fst l) (fst r)) sw then []
               else [(fst r, None, Some (snd r))]) hw))
  = if existsb (fun l => key_eqb k (fst l)) sw then 0
    else if existsb (fun r => key_eqb k (fst r)) hw then 1 else 0.
Proof.
  intro Hd. rewrite len_filter_flat_map.
  destruct (existsb (fun l => key_eqb k (fst l)) sw) eqn:Hs.
  - apply zsum_map_zero. intros r Hr.
    destruct (existsb (fun l => key_eqb (fst l) (fst r)) sw) eqn:E;
      [ reflexivity | ].
    cbn [filter fst]. destruct (key_eqb k (fst r)) eqn:F; [ | reflexivity ].
    apply existsb_exists in Hs. destruct Hs as [l [Hl Hk]].
    assert (existsb (fun l => key_eqb (fst l) (fst r)) sw = true).
    { apply existsb_exists. exists l. split; [ exact Hl | ].
      apply (key_eqb_trans _ k); [ now rewrite key_eqb_sym | exact F ]. }
    congruence.
  - rewrite <- (distinct_count hw k Hd), <- len_filter_indicator.
    f_equal. apply map_ext_in. intros r Hr.
    destruct (key_eqb k (fst r)) eqn:F.
    + destruct (existsb (fun l => key_eqb (fst l) (fst r)) sw) eqn:E.
      * apply existsb_exists in E. destruct E as [l [Hl Hk]].
        assert (existsb (fun l => key_eqb k (fst l)) sw = true).
        { apply existsb_exists. exists l. split; [ exact Hl | ].
          apply (key_eqb_trans _ (fst r)); [ exact F | ].
          now rewrite key_eqb_sym. }
        congruence.
      * cbn [filter fst]. now rewrite F.
    + destruct (existsb (fun l => key_eqb (fst l) (fst r)) sw);
        [ reflexivity | ].
      cbn [filter fst]. now rewrite F.
Qed.

Lemma report_count (tol : Q) (sw hw : list (key * Q)) (k : key) :
  distinct_keys sw = true -> distinct_keys hw = true ->
  len (filter (fun x => key_eqb k (rep_key x)) (build_report_tol tol sw hw))
  = if existsb (fun l => key_eqb k (fst l)) sw
       || existsb (fun r => key_eqb k (fst r)) hw
    then 1 else 0.
Proof.
  intros Hs Hh. rewrite build_report_lines.
  rewrite (filter_perm_len _ _ _ (sort_by_key_perm _)).
  rewrite len_filter_map. cbn [report_line rep_key].
  unfold outer_merge. rewrite filter_app, len_app.
  rewrite (right_rows_count sw hw k Hh).
  rewrite len_filter_flat_map.
  rewrite (map_ext _ (fun l => if key_eqb k (fst l) then 1 else 0))
    by (intro l; apply (left_rows_count hw l k Hh)).
  rewrite len_filter_indicator, (distinct_count sw k Hs).
  destruct (existsb (fun l => key_eqb k (fst l)) sw); [ reflexivity | ].
  cbn [orb]. lia.
Qed.

End ReportCount.

(** X9: whatever the two frames, the report is sorted by key (row index,
    then column index) and its lines are the rows of the outer merge, each
    once, with the missing values filled and the match column. *)
Theorem report_is_the_sorted_merge :
  forall (tol : Q) (sw hw : list (RtlChecker.key * Q)),
    RtlMain.ascending (RtlChecker.build_report_tol tol sw hw) = true
    /\ Permutation (RtlChecker.build_report_tol tol sw hw)
         (map (RtlMain.report_line tol) (RtlChecker.outer_merge sw hw)).
Proof.
  intros tol sw hw. rewrite build_report_lines. split.
  - apply sort_by_key_ascending.
  - apply sort_by_key_perm.
Qed.

(** X10: when no key is repeated within a frame, as is the case for the
    frames the two loaders return, the report has exactly one line for a key
    that occurs in either frame and none for any other key. *)
Theorem report_has_one_line_per_key :
  forall (sw hw : list (RtlChecker.key * Q)) (k : RtlChecker.key),
    RtlChecker.distinct_keys sw = true ->
    RtlChecker.distinct_keys hw = true ->
    len (filter (fun x => RtlChecker.key_eqb k (RtlChecker.rep_key x))
           (RtlChecker.build_report sw hw))
    = if existsb (fun l => RtlChecker.key_eqb k (fst l)) sw
         || existsb (fun r => RtlChecker.key_eqb k (fst r)) hw
      then 1 else 0.
Proof.
  intros sw hw k Hs Hh. now apply report_count.
Qed.

(** The statement above for the key (0, 1), which both frames have. *)
Lemma report_has_one_line_per_key_witness :
  len (filter (fun x => RtlChecker.key_eqb (0, 1)%Q (RtlChecker.rep_key x))
         (RtlChecker.build_report
            [((0, 0), 4); ((0, 1), 2)]%Q [((0, 1), 2); ((1, 1), 3)]%Q))
  = 1.
Proof.
  exact (report_has_one_line_per_key
           [((0, 0), 4); ((0, 1), 2)]%Q [((0, 1), 2); ((1, 1), 3)]%Q
           (0, 1)%Q eq_refl eq_refl).
Defined.

(** X11: [main] exits with 0 exactly when every pair of a software and a
    hardware value under one key is close, every software value whose key the
    hardware lacks is within [TOL] of 0 and every hardware value whose key
    the software lacks is close to 0; otherwise it exits with 1, and the
    number of mismatches it prints is the number of lines that do not match
    and is not 0. *)
Theorem exit_status_zero_iff :
  forall (sw hw : list (RtlChecker.key * Q)),
    (RtlMain.exit_status (RtlChecker.build_report sw hw) = 0 <->
       (forall k g k' h,
          In (k, g) sw -> In (k', h) hw -> RtlChecker.key_eqb k k' = true ->
          RtlChecker.isclose g h RtlChecker.TOL = true)
       /\ (forall k g,
             In (k, g) sw ->
             existsb (fun r => RtlChecker.key_eqb k (fst r)) hw = false ->
             (Qabs g <= RtlChecker.TOL)%Q)
       /\ (forall k h,
             In (k, h) hw ->
             existsb (fun l => RtlChecker.key_eqb (fst l) k) sw = false ->
             (Qabs h <= RtlChecker.TOL + RtlChecker.rtol * Qabs h)%Q))
    /\ (RtlMain.exit_status (RtlChecker.build_report sw hw) = 1 <->
          0 < RtlMain.bad (RtlChecker.build_report sw hw))
    /\ (RtlMain.exit_status (RtlChecker.build_report sw hw) = 0
        \/ RtlMain.exit_status (RtlChecker.build_report sw hw) = 1)
    /\ RtlMain.bad (RtlChecker.build_report sw hw)
       = len (filter (fun x => negb (RtlChecker.matched x))
                (RtlChecker.build_report sw hw)).
Proof.
  intros sw hw.
  pose proof (report_all_match_iff RtlChecker.TOL sw hw) as Hiff.
  pose proof (all_match_bad (RtlChecker.build_report sw hw)) as Hbad.
  pose proof (bad_count (RtlChecker.build_report sw hw)) as Hcount.
  pose proof (len_nonneg
                (filter (fun x => negb (RtlChecker.matched x))
                   (RtlChecker.build_report sw hw))) as Hpos.
  unfold RtlMain.exit_status. fold (RtlChecker.build_report sw hw) in Hiff.
  destruct (RtlMain.all_match (RtlChecker.build_report sw hw)) eqn:E.
  - repeat split; try discriminate; try (now left); try exact Hcount.
    + destruct Hiff as [[H1 _] _]; [ reflexivity | ].
      intros k g k' h Hl Hr Hk. apply (H1 (k, g) (k', h)); assumption.
    + destruct Hiff as [[_ [H2 _]] _]; [ reflexivity | ].
      intros k g Hl Hk. specialize (H2 (k, g) Hl Hk).
      rewrite isclose_zero_right in H2. now apply Qle_bool_iff.
    + destruct Hiff as [[_ [_ H3]] _]; [ reflexivity | ].
      intros k h Hr Hk. specialize (H3 (k, h) Hr Hk).
      rewrite isclose_zero_left in H3. now apply Qle_bool_iff.
    + destruct Hbad as [Hb _]. rewrite (Hb eq_refl). lia.
  - repeat split; try discriminate; try (now right); try exact Hcount.
    + intros [H1 [H2 H3]]. exfalso.
      assert (Hft : false = true); [ | discriminate ].
      apply Hiff. repeat split.
      * intros [k g] [k' h] Hl Hr Hk. apply (H1 k g k' h); assumption.
      * intros [k g] Hl Hk. rewrite isclose_zero_right.
        apply Qle_bool_iff. apply (H2 k g); assumption.
      * intros [k h] Hr Hk. rewrite isclose_zero_left.
        apply Qle_bool_iff. apply (H3 k h); assumption.
    + intros _. destruct (Z.eq_dec (RtlMain.bad (RtlChecker.build_report sw hw)) 0)
        as [Hz | Hz]; [ | lia ].
      apply Hbad in Hz. discriminate.
Qed.

(** X12: a frame without repeated keys reconciled with any rearrangement of
    itself gives a report whose lines all carry the same value twice, and
    [main] exits with 0. *)
Theorem rearranged_frame_passes :
  forall (sw hw : list (RtlChecker.key * Q)),
    RtlChecker.distinct_keys sw = true ->
    Permutation sw hw ->
    RtlMain.exit_status (RtlChecker.build_report sw hw) = 0
    /\ (forall x, In x (RtlChecker.build_report sw hw) ->
          RtlChecker.gold x = RtlChecker.hw x
          /\ RtlChecker.matched x = true
          /\ In (RtlChecker.rep_key x, RtlChecker.gold x) sw).
Proof.
  intros sw hw Hd Hp.
  assert (Hin : forall r, In r hw -> In r sw)
    by (intros r Hr; apply (Permutation_in r (Permutation_sym Hp) Hr)).
  assert (Hx : forall x, In x (RtlChecker.build_report sw hw) ->
            RtlChecker.gold x = RtlChecker.hw x
            /\ RtlChecker.matched x = true
            /\ In (RtlChecker.rep_key x, RtlChecker.gold x) sw).
  { intros x Hx. unfold RtlChecker.build_report in Hx.
    rewrite build_report_lines in Hx.
    apply sort_by_key_In, in_map_iff in Hx. destruct Hx as [m [<- Hm]].
    apply outer_merge_In in Hm.
    destruct Hm as [[l [r [Hl [Hr [Hk ->]]]]] | [[l [Hl [Hk ->]]]
                                                | [r [Hr [Hk ->]]]]].
    - pose proof (distinct_keys_same sw l r Hd Hl (Hin r Hr) Hk) as <-.
      simpl. repeat split.
      + apply isclose_refl. discriminate.
      + now destruct l.
    - exfalso.
      assert (existsb (fun r => RtlChecker.key_eqb (fst l) (fst r)) hw = true).
      { apply existsb_exists. exists l. split.
        - apply (Permutation_in l Hp Hl).
        - apply key_eqb_refl. }
      congruence.
    - exfalso.
      assert (existsb (fun l => RtlChecker.key_eqb (fst l) (fst r)) sw = true).
      { apply existsb_exists. exists r. split.
        - now apply Hin.
        - apply key_eqb_refl. }
      congruence. }
  split; [ | exact Hx ].
  unfold RtlMain.exit_status, RtlMain.all_match.
  assert (H : forallb RtlChecker.matched (RtlChecker.build_report sw hw) = true)
    by (apply forallb_forall; intros x Hxin; apply (Hx x Hxin)).
  now rewrite H.
Qed.

(** The statement above on a frame of two keys and its reversal. *)
Lemma rearranged_frame_passes_witness :
  RtlMain.exit_status
    (RtlChecker.build_report [((0, 0), 4); ((0, 1), 2)]%Q
       [((0, 1), 2); ((0, 0), 4)]%Q) = 0.
Proof.
  exact (proj1 (rearranged_frame_passes
                  [((0, 0), 4); ((0, 1), 2)]%Q [((0, 1), 2); ((0, 0), 4)]%Q
                  eq_refl (perm_swap _ _ _))).
Defined.

(** X13: a hardware file that [load_hw] turns into a numeric frame has
    numbers in all its cells and two or three columns; the frame has no
    repeated key; its keys are pairs of integers, the parsed numbers with
    their fraction dropped; a file of two columns is filed under row 0; and
    the value of a group is the sum of the values of the lines that fall
    under its key.  A file of any other number of columns is refused with
    [ValueError], with text cells or without them. *)
Theorem load_hw_groups_by_integer_key :
  forall (raw : RtlChecker.hw_frame) (hw : list (RtlChecker.key * Q)),
    RtlChecker.load_hw raw = Ok hw ->
    RtlChecker.distinct_keys hw = true
    /\ ((exists rows, raw = RtlChecker.TwoColumns rows)
        \/ (exists rows, raw = RtlChecker.ThreeColumns rows))
    /\ RtlChecker.load_hw RtlChecker.OtherShape = Raise ValueError
    /\ (forall columns : Z,
          columns <> 2 -> columns <> 3 ->
          RtlChecker.load_hw (RtlChecker.TextCells columns) = Raise ValueError)
    /\ (forall k s, In (k, s) hw ->
          exists i j : Z, k = (inject_Z i, inject_Z j))
    /\ (forall rows, raw = RtlChecker.TwoColumns rows ->
          forall k s, In (k, s) hw ->
            fst k = 0%Q
            /\ s = RtlChecker.key_total
                     (map (fun r => ((0%Q, RtlChecker.as_int (fst r)), snd r))
                        rows) k)
    /\ (forall rows, raw = RtlChecker.ThreeColumns rows ->
          forall k s, In (k, s) hw ->
            s = RtlChecker.key_total
                  (map (fun r => ((RtlChecker.as_int (fst (fst r)),
                                   RtlChecker.as_int (snd (fst r))), snd r))
                     rows) k).
Proof.
  intros raw hw Hload.
  assert (Htext : forall columns : Z,
             columns <> 2 -> columns <> 3 ->
             RtlChecker.load_hw (RtlChecker.TextCells columns)
             = Raise ValueError).
  { intros columns H2 H3. cbn [RtlChecker.load_hw].
    apply Z.eqb_neq in H2. apply Z.eqb_neq in H3. now rewrite H2, H3. }
  destruct raw as [rows | rows | | columns ]; cbn [RtlChecker.load_hw] in Hload;
    [ | | discriminate
    | destruct ((columns =? 2) || (columns =? 3)); discriminate ];
    inversion Hload; subst hw; clear Hload;
    match goal with
    | |- context [RtlChecker.groupby_sum ?l] =>
        destruct (groupby_sum_spec l) as [Hd [_ Hs]]
    end;
    (split; [ exact Hd | ]);
    (split; [ | split; [ reflexivity | split; [ exact Htext | ] ] ]).
  - left. eexists. reflexivity.
  - split; [ | split ].
    + intros k s Hin. destruct (Hs k s Hin) as [[r [Hr <-]] _].
      apply in_map_iff in Hr. destruct Hr as [r0 [<- _]]. cbn [fst].
      eexists _, _. reflexivity.
    + intros rows' Heq k s Hin. inversion Heq; subst rows'.
      destruct (Hs k s Hin) as [[r [Hr <-]] Hsum]. split.
      * apply in_map_iff in Hr. destruct Hr as [r0 [<- _]]. reflexivity.
      * exact Hsum.
    + intros rows' Heq. discriminate.
  - right. eexists. reflexivity.
  - split; [ | split ].
    + intros k s Hin. destruct (Hs k s Hin) as [[r [Hr <-]] _].
      apply in_map_iff in Hr. destruct Hr as [r0 [<- _]]. cbn [fst].
      eexists _, _. reflexivity.
    + intros rows' Heq. discriminate.
    + intros rows' Heq k s Hin. inversion Heq; subst rows'.
      now destruct (Hs k s Hin) as [_ Hsum].
Qed.

(** The statement above on a file of two columns, all numbers, whose lines
    1.2 and 1.7 fall under column 1; a file of two columns with text cells
    gives no numeric frame. *)
Lemma load_hw_groups_by_integer_key_witness :
  RtlChecker.load_hw (RtlChecker.TwoColumns [(12 # 10, 5); (17 # 10, 6)]%Q)
  = Ok [((0, 1), 0 + 5 + 6)%Q]
  /\ RtlChecker.distinct_keys [((0, 1), 0 + 5 + 6)%Q] = true
  /\ RtlChecker.load_hw (RtlChecker.TextCells 2) = Raise NotNumeric.
Proof.
  split; [ reflexivity | split; [ | reflexivity ] ].
  exact (proj1 (load_hw_groups_by_integer_key
                  (RtlChecker.TwoColumns [(12 # 10, 5); (17 # 10, 6)]%Q)
                  [((0, 1), 0 + 5 + 6)%Q] eq_refl)).
Defined.

(** ** The recommendation verifier *)

Section VerdictFacts.

Import RecVerifier.
Local Open Scope Q_scope.

Lemma len_filter_split {A : Type} (p : A -> bool) (l : list A) :
  (len (filter (fun x => negb (p x)) l) + len (filter p l))%Z = len l.
Proof.
  induction l as [ | x l IH ]; [ reflexivity | ].
  cbn [filter]. rewrite (len_cons x l).
  destruct (p x); cbn [negb]; rewrite len_cons; lia.
Qed.

Lemma percent_zero (total : Z) : percent 0 total == 0.
Proof.
  unfold percent. destruct (total >? 0)%Z; [ | reflexivity ].
  unfold Qdiv. rewrite Qmult_0_l, Qmult_0_l. reflexivity.
Qed.


Lemma percent_mono (a b total : Z) :
  (a <= b)%Z -> percent a total <= percent b total.
Proof.
  intro H. unfold percent. destruct (total >? 0)%Z eqn:E;
    [ | apply Qle_refl ].
  apply Z.gtb_lt in E.
  apply Qmult_le_compat_r; [ | discriminate ].
  unfold Qdiv. apply Qmult_le_compat_r.
  - now rewrite <- Zle_Qle.
  - apply Qinv_le_0_compat. change 0 with (inject_Z 0).
    rewrite <- Zle_Qle. lia.
Qed.

(** A larger tolerance flags no new row. *)
Lemma rating_differs_mono (tol tol' : Q) (m : merged_row) :
  tol <= tol' -> rating_differs tol' m = true -> rating_differs tol m = true.
Proof.
  intro H. unfold rating_differs.
  destruct (predicted_rating_golden m) as [g | ]; [ | auto ].
  destruct (predicted_rating_coprocessor m) as [c | ]; [ | auto ].
  rewrite !negb_true_iff. intro H'.
  destruct (Qle_bool (Qabs (g - c)) tol) eqn:E; [ | reflexivity ].
  apply Qle_bool_iff in E.
  assert (F : Qle_bool (Qabs (g - c)) tol' = true)
    by (apply Qle_bool_iff; eapply Qle_trans; eassumption).
  congruence.
Qed.

Lemma len_filter_mono {A : Type} (p q : A -> bool) (l : list A) :
  (forall x, p x = true -> q x = true) ->
  (len (filter p l) <= len (filter q l))%Z.
Proof.
  intro H. induction l as [ | x l IH ]; [ apply Z.le_refl | ].
  cbn [filter]. destruct (p x) eqn:E.
  - rewrite (H x E), !len_cons. lia.
  - destruct (q x); [ rewrite len_cons | ]; lia.
Qed.

(** A frame merged with itself has no row on one side only. *)
Lemma merge_outer_self (df : list rec_row) (m : merged_row) :
  In m (merge_outer df df) ->
  exists g c, In g df /\ In c df /\ same_ids g c = true
              /\ m = mk_merged (user_id g) (item_id g)
                       (Some (predicted_rating g))
                       (Some (predicted_rating c)) both.
Proof.
  assert (Hrefl : forall g, same_ids g g = true)
    by (intro g; unfold same_ids; now rewrite !Z.eqb_refl).
  unfold merge_outer. intro Hin. apply in_app_or in Hin.
  destruct Hin as [Hin | Hin]; apply in_flat_map in Hin;
    destruct Hin as [x [Hx Hm]].
  - destruct (filter (same_ids x) df) as [ | c cs ] eqn:F.
    + exfalso. assert (Hf : In x (filter (same_ids x) df))
        by (apply filter_In; auto).
      rewrite F in Hf. destruct Hf.
    + apply in_map_iff in Hm. destruct Hm as [c' [<- Hc']].
      rewrite <- F in Hc'. apply filter_In in Hc'. destruct Hc' as [Hc' Hs].
      exists x, c'. auto.
  - assert (E : existsb (fun g => same_ids g x) df = true)
      by (apply existsb_exists; exists x; auto).
    rewrite E in Hm. destruct Hm.
Qed.

Lemma filter_nil_all {A : Type} (p : A -> bool) (l : list A) :
  (forall x, In x l -> p x = false) -> filter p l = [].
Proof.
  induction l as [ | x l IH ]; intro H; [ reflexivity | ].
  cbn [filter]. rewrite (H x) by (left; reflexivity).
  apply IH. intros y Hy. apply H. right. exact Hy.
Qed.


End VerdictFacts.

(** X14: in every verdict the merged rows split into the ID mismatches and
    the common rows, and the rating mismatches are among the common rows.  A
    run that passes writes the summary and no detail file; a run that fails
    writes no summary and at least one detail file; the file of ID mismatches
    has one line per mismatch, none of them for a pair found in both
    files. *)
Theorem verdict_counts_and_files :
  forall (df_golden df_coprocessor : list RecVerifier.rec_row)
         (tolerance threshold : Q),
    let v := RecVerifier.compare_recommendations df_golden df_coprocessor
               tolerance threshold in
    RecVerifier.total_unique_pairs v
    = RecVerifier.id_mismatch_count v + RecVerifier.common_rows_count v
    /\ 0 <= RecVerifier.rating_mismatch_count v
         <= RecVerifier.common_rows_count v
    /\ (RecVerifier.passed v = true ->
        RecVerifier.summary_written v = true
        /\ RecVerifier.id_mismatches_csv v = None
        /\ RecVerifier.rating_mismatches_csv v = None)
    /\ (RecVerifier.passed v = false ->
        RecVerifier.summary_written v = false
        /\ (RecVerifier.id_mismatches_csv v <> None
            \/ RecVerifier.rating_mismatches_csv v <> None))
    /\ (forall rows, RecVerifier.id_mismatches_csv v = Some rows ->
          len rows = RecVerifier.id_mismatch_count v
          /\ forall r, In r rows -> snd r <> RecVerifier.both)
    /\ (forall rows, RecVerifier.rating_mismatches_csv v = Some rows ->
          len rows = RecVerifier.rating_mismatch_count v).
Proof.
  intros df_golden df_coprocessor tolerance threshold v.
  unfold v, RecVerifier.compare_recommendations.
  cbn [RecVerifier.total_unique_pairs RecVerifier.id_mismatch_count
       RecVerifier.common_rows_count RecVerifier.rating_mismatch_count
       RecVerifier.passed RecVerifier.summary_written
       RecVerifier.id_mismatches_csv RecVerifier.rating_mismatches_csv].
  set (merged := RecVerifier.merge_outer df_golden df_coprocessor).
  set (isboth := fun m => RecVerifier.indicator_eqb (RecVerifier._merge m)
                            RecVerifier.both).
  set (a := Qle_bool _ threshold). set (b := Qle_bool _ threshold).
  split; [ symmetry; apply (len_filter_split isboth merged) | ].
  split; [ split; [ apply len_nonneg | apply len_filter_le ] | ].
  split; [ intro H; rewrite H; auto | ].
  split.
  - intro H. split; [ exact H | ]. rewrite H. cbn [orb].
    destruct a; [ | left; discriminate ].
    destruct b; [ discriminate | right; discriminate ].
  - split.
    + intros rows H. destruct (a && b || a); [ discriminate | ].
      inversion H; subst rows. rewrite len_map. split; [ reflexivity | ].
      intros r Hr. apply in_map_iff in Hr. destruct Hr as [m [<- Hm]].
      apply filter_In in Hm. destruct Hm as [_ Hm]. cbn [snd].
      intro E. rewrite E in Hm. discriminate.
    + intros rows H. destruct (a && b || b); [ discriminate | ].
      inversion H; subst rows. now rewrite len_map.
Qed.

(** X15: a file compared with itself passes, with no ID mismatch and no
    rating mismatch, for every tolerance and threshold that are not
    negative, provided the rows of a repeated (user, item) pair agree on the
    rating. *)
Theorem same_file_passes :
  forall (df : list RecVerifier.rec_row) (tolerance threshold : Q),
    (0 <= tolerance)%Q -> (0 <= threshold)%Q ->
    (forall a b, In a df -> In b df -> RecVerifier.same_ids a b = true ->
       (RecVerifier.predicted_rating a == RecVerifier.predicted_rating b)%Q) ->
    let v := RecVerifier.compare_recommendations df df tolerance threshold in
    RecVerifier.passed v = true
    /\ RecVerifier.id_mismatch_count v = 0
    /\ RecVerifier.rating_mismatch_count v = 0
    /\ RecVerifier.common_rows_count v = RecVerifier.total_unique_pairs v.
Proof.
  intros df tolerance threshold Htol Hthr Hsame v.
  unfold v, RecVerifier.compare_recommendations.
  cbn [RecVerifier.total_unique_pairs RecVerifier.id_mismatch_count
       RecVerifier.common_rows_count RecVerifier.rating_mismatch_count
       RecVerifier.passed].
  set (merged := RecVerifier.merge_outer df df).
  assert (H1 : filter (fun m => negb (RecVerifier.indicator_eqb
                                        (RecVerifier._merge m)
                                        RecVerifier.both)) merged = []).
  { apply filter_nil_all. intros m Hm. apply merge_outer_self in Hm.
    destruct Hm as [g [c [_ [_ [_ ->]]]]]. reflexivity. }
  assert (H2 : filter (RecVerifier.rating_differs tolerance)
                 (filter (fun m => RecVerifier.indicator_eqb
                                     (RecVerifier._merge m) RecVerifier.both)
                    merged) = []).
  { apply filter_nil_all. intros m Hm. apply filter_In in Hm.
    destruct Hm as [Hm _]. apply merge_outer_self in Hm.
    destruct Hm as [g [c [Hg [Hc [Hs ->]]]]].
    unfold RecVerifier.rating_differs.
    cbn [RecVerifier.predicted_rating_golden
         RecVerifier.predicted_rating_coprocessor].
    apply negb_false_iff, Qle_bool_iff.
    assert (E : (RecVerifier.predicted_rating g
                 - RecVerifier.predicted_rating c == 0)%Q)
      by (rewrite (Hsame g c Hg Hc Hs); ring).
    rewrite E. exact Htol. }
  rewrite H1, H2.
  pose proof (len_filter_split
                (fun m => RecVerifier.indicator_eqb (RecVerifier._merge m)
                            RecVerifier.both) merged) as Hsplit.
  cbv beta in Hsplit. rewrite H1 in Hsplit.
  repeat split; try reflexivity; try exact Hsplit.
  apply andb_true_iff. split; apply Qle_bool_iff;
    change (len []) with 0; rewrite percent_zero; exact Hthr.
Qed.

(** The statement above on a file of two recommendations. *)
Lemma same_file_passes_witness :
  RecVerifier.passed
    (RecVerifier.compare_recommendations
       [RecVerifier.mk_rec 0 1 (7 # 2); RecVerifier.mk_rec 0 2 3]
       [RecVerifier.mk_rec 0 1 (7 # 2); RecVerifier.mk_rec 0 2 3]
       (1 # 2) 5) = true.
Proof.
  refine (proj1 (same_file_passes
                   [RecVerifier.mk_rec 0 1 (7 # 2); RecVerifier.mk_rec 0 2 3]
                   (1 # 2) 5 _ _ _)).
  - discriminate.
  - discriminate.
  - intros a b [<- | [<- | []]] [<- | [<- | []]] H;
      try reflexivity; discriminate.
Defined.

(** X16: a comparison that passes keeps passing when the tolerance or the
    threshold is raised. *)
Theorem raising_tolerance_keeps_pass :
  forall (df_golden df_coprocessor : list RecVerifier.rec_row)
         (tolerance tolerance' threshold threshold' : Q),
    (tolerance <= tolerance')%Q -> (threshold <= threshold')%Q ->
    RecVerifier.passed
      (RecVerifier.compare_recommendations df_golden df_coprocessor
         tolerance threshold) = true ->
    RecVerifier.passed
      (RecVerifier.compare_recommendations df_golden df_coprocessor
         tolerance' threshold') = true.
Proof.
  intros df_golden df_coprocessor tolerance tolerance' threshold threshold'
    Htol Hthr.
  unfold RecVerifier.compare_recommendations. cbn [RecVerifier.passed].
  rewrite !andb_true_iff, !Qle_bool_iff. intros [H1 H2]. split.
  - eapply Qle_trans; eassumption.
  - eapply Qle_trans; [ | exact Hthr ].
    eapply Qle_trans; [ | exact H2 ].
    apply percent_mono. apply len_filter_mono.
    intro m. now apply rating_differs_mono.
Qed.

(** The statement above on two files that differ by 0.4 in one rating. *)
Lemma raising_tolerance_keeps_pass_witness :
  RecVerifier.passed
    (RecVerifier.compare_recommendations
       [RecVerifier.mk_rec 0 1 (7 # 2)] [RecVerifier.mk_rec 0 1 (39 # 10)]
       1 10) = true.
Proof.
  refine (raising_tolerance_keeps_pass
            [RecVerifier.mk_rec 0 1 (7 # 2)]
            [RecVerifier.mk_rec 0 1 (39 # 10)] (1 # 2) 1 5 10 _ _ _).
  - discriminate.
  - discriminate.
  - reflexivity.
Defined.


(** ** More on scaling and descaling *)

(** X18: an integer of at most 24 bits, which binary32 holds exactly, comes
    back unchanged when it is descaled by the scale factor 65536 of the
    source and scaled again; its descaled value is the exact quotient. *)
Theorem descaled_integer_rescales_exactly :
  forall q : Z,
    - 2 ^ 24 <= q <= 2 ^ 24 ->
    Quantizer.quantize (Quantizer.dequantize q Quantizer.SCALE_FACTOR)
      Quantizer.SCALE_FACTOR = q
    /\ (Quantizer.dequantize q Quantizer.SCALE_FACTOR
        == inject_Z q / inject_Z Quantizer.SCALE_FACTOR)%Q.
Proof.
  intros q Hq. destruct (rescale_exact q) as [H1 H2]; [ lia | ].
  split; assumption.
Qed.

(** The statement above at the largest such integer, over the rationals and
    with the binary32 operations; the next integer, 16777217, needs 25 bits
    and comes back as 16777216 in both. *)
Lemma descaled_integer_rescales_exactly_witness :
  Quantizer.quantize (Quantizer.dequantize 16777216 Quantizer.SCALE_FACTOR)
    Quantizer.SCALE_FACTOR = 16777216
  /\ Binary32.quantize (Binary32.dequantize 16777216 Quantizer.SCALE_FACTOR)
       Quantizer.SCALE_FACTOR = 16777216
  /\ Quantizer.quantize (Quantizer.dequantize 16777217 Quantizer.SCALE_FACTOR)
       Quantizer.SCALE_FACTOR = 16777216
  /\ Binary32.quantize (Binary32.dequantize 16777217 Quantizer.SCALE_FACTOR)
       Quantizer.SCALE_FACTOR = 16777216.
Proof.
  split; [ | repeat split; vm_compute; reflexivity ].
  apply (descaled_integer_rescales_exactly 16777216). split; discriminate.
Defined.

(** X19: for binary32 values and a scale factor that is a power of two up to
    [2^127], as long as the scaled values fit [int32], scaling keeps the order
    of the values, turns every value whose scaled magnitude is below one into
    0, and commutes with negation unless the result is the least [int32]. *)
Theorem quantize_keeps_order_and_sign :
  forall (v : Q) (k : Z),
    Quantizer.binary32 v ->
    0 <= k <= 127 ->
    let scale_factor := 2 ^ k in
    - 2 ^ 31 <= Quantizer.trunc (v * inject_Z scale_factor) < 2 ^ 31 ->
    (forall w : Q,
       Quantizer.binary32 w -> (v <= w)%Q ->
       Quantizer.trunc (w * inject_Z scale_factor) < 2 ^ 31 ->
       Quantizer.quantize v scale_factor <= Quantizer.quantize w scale_factor)
    /\ ((Qabs (v * inject_Z scale_factor) < 1)%Q ->
        Quantizer.quantize v scale_factor = 0)
    /\ (- 2 ^ 31 < Quantizer.quantize v scale_factor ->
        Quantizer.quantize (- v) scale_factor
        = - Quantizer.quantize v scale_factor).
Proof.
  intros v k Hv Hk S Hr.
  assert (HSq : (0 <= inject_Z S)%Q).
  { change 0%Q with (inject_Z 0). rewrite <- Zle_Qle.
    unfold S. apply Z.pow_nonneg. lia. }
  assert (Hq : Quantizer.quantize v S = Quantizer.trunc (v * inject_Z S)).
  { unfold S. rewrite quantize_pow2 by assumption.
    now apply astype_int32_in_range. }
  split; [ | split ].
  - intros w Hw Hvw Hwr.
    assert (Hm : Quantizer.trunc (v * inject_Z S)
                 <= Quantizer.trunc (w * inject_Z S)).
    { apply trunc_mono. now apply Qmult_le_compat_r. }
    rewrite Hq. unfold S. rewrite (quantize_pow2 w) by assumption.
    rewrite astype_int32_in_range; [ exact Hm | fold S; lia ].
  - intro Hs. rewrite Hq. now apply trunc_small.
  - rewrite Hq. intro Hmin.
    assert (E : Quantizer.trunc (- v * inject_Z S)
                = - Quantizer.trunc (v * inject_Z S)).
    { rewrite <- trunc_opp. apply trunc_comp. ring. }
    unfold S. rewrite quantize_pow2 by (try apply binary32_opp; assumption).
    fold S. rewrite astype_int32_in_range; rewrite E; [ reflexivity | lia ].
Qed.

(** The statement above for 0.296875 and 0.703125, the binary32 numbers
    [19 * 2^-6] and [45 * 2^-6], at the scale factor [2^16]. *)
Lemma quantize_keeps_order_and_sign_witness :
  Quantizer.quantize (19 # 64) (2 ^ 16) <= Quantizer.quantize (45 # 64) (2 ^ 16)
  /\ Quantizer.quantize (- (19 # 64)) (2 ^ 16)
     = - Quantizer.quantize (19 # 64) (2 ^ 16)
  /\ Quantizer.quantize (19 # 64) (2 ^ 16) = 19456.
Proof.
  assert (Hv : Quantizer.binary32 (19 # 64)).
  { exists 19, (- 6). split; [ reflexivity | split; [ lia | reflexivity ] ]. }
  assert (Hw : Quantizer.binary32 (45 # 64)).
  { exists 45, (- 6). split; [ reflexivity | split; [ lia | reflexivity ] ]. }
  assert (Hk : 0 <= 16 <= 127) by lia.
  destruct (quantize_keeps_order_and_sign (19 # 64) 16 Hv Hk)
    as [Horder [_ Hopp]].
  - split; [ discriminate | reflexivity ].
  - split; [ | split ].
    + apply (Horder (45 # 64)%Q Hw); [ discriminate | reflexivity ].
    + apply Hopp. vm_compute. reflexivity.
    + vm_compute. reflexivity.
Defined.

(** ** More on the loader and the planner *)

Section ResolveFacts.

Import Loader.
Local Open Scope string_scope.

Lemma last_match_some (aliases columns : list string) (col : string) :
  last_match aliases columns = Some col ->
  In col columns /\ is_in col aliases = true.
Proof.
  unfold last_match. intro H. apply find_some in H.
  destruct H as [H1 H2]. split; [ now apply in_rev | exact H2 ].
Qed.

Lemma last_match_none (aliases columns : list string) :
  last_match aliases columns = None <->
  existsb (fun col => is_in col aliases) columns = false.
Proof.
  unfold last_match. split.
  - intro H. destruct (existsb _ columns) eqn:E; [ | reflexivity ].
    apply existsb_exists in E. destruct E as [c [Hc Hin]].
    apply in_rev in Hc.
    pose proof (find_none _ _ H c Hc) as Hn. cbv beta in Hn. congruence.
  - intro H. destruct (find _ (rev columns)) as [c | ] eqn:E;
      [ | reflexivity ].
    apply find_some in E. destruct E as [Hc Hin]. apply in_rev in Hc.
    assert (existsb (fun col => is_in col aliases) columns = true)
      by (apply existsb_exists; exists c; auto).
    congruence.
Qed.

End ResolveFacts.

(** X20: when the loader resolves the three columns, each of them is a
    column of the table named by an alias of its field, and the three are
    different columns; it raises [ValueError], and nothing else, exactly when
    some field is named by no column of the table. *)
Theorem resolved_columns_are_sound :
  forall columns : list string,
    (forall u i r,
       Loader.resolve_columns columns = Ok (u, i, r) ->
       (In u columns /\ Loader.is_in u Loader.user_aliases = true)
       /\ (In i columns /\ Loader.is_in i Loader.item_aliases = true)
       /\ (In r columns /\ Loader.is_in r Loader.rating_aliases = true)
       /\ u <> i /\ u <> r /\ i <> r)
    /\ (Loader.resolve_columns columns = Raise ValueError <->
        existsb (fun c => Loader.is_in c Loader.user_aliases) columns = false
        \/ existsb (fun c => Loader.is_in c Loader.item_aliases) columns
           = false
        \/ existsb (fun c => Loader.is_in c Loader.rating_aliases) columns
           = false)
    /\ (forall e, Loader.resolve_columns columns = Raise e -> e = ValueError).
Proof.
  intro columns. unfold Loader.resolve_columns.
  rewrite scan_columns_last.
  rewrite <- !last_match_none.
  destruct (Loader.last_match Loader.user_aliases columns) as [u0 | ] eqn:Eu;
    destruct (Loader.last_match Loader.item_aliases columns) as [i0 | ] eqn:Ei;
    destruct (Loader.last_match Loader.rating_aliases columns) as [r0 | ] eqn:Er;
    (split; [ | split ]);
    try (intros u i r H; discriminate);
    try (intros e H; now inversion H);
    try (split; [ intros _; auto | reflexivity ]).
  - intros u i r H. inversion H; subst u0 i0 r0.
    apply last_match_some in Eu, Ei, Er.
    destruct Eu as [Hu1 Hu2], Ei as [Hi1 Hi2], Er as [Hr1 Hr2].
    destruct (user_alias_only u Hu2) as [Hui Hur].
    pose proof (item_alias_only i Hi2) as Hir.
    repeat split; try assumption; intro E; subst; congruence.
  - split; [ discriminate | intros [H | [H | H]]; discriminate ].
Qed.

(** X21: with its budget of 4 GiB and 12 bytes per triple, [main] generates
    in memory exactly when the estimator returns a count of at most
    357913941, streams exactly when it returns more, and makes no choice
    when the estimator raises. *)
Theorem in_memory_up_to_357913941_products :
  forall (V : Type) (A AT : PartialProdGen.csr V),
    (Planner.main_mode A AT = Ok Planner.prealloc <->
       exists n, PartialProdGen.estimate_products A AT = Ok n
                 /\ n <= 357913941)
    /\ (Planner.main_mode A AT = Ok Planner.stream <->
          exists n, PartialProdGen.estimate_products A AT = Ok n
                    /\ 357913941 < n)
    /\ (forall e, Planner.main_mode A AT = Raise e <->
          PartialProdGen.estimate_products A AT = Raise e).
Proof.
  intros V A AT. unfold Planner.main_mode.
  destruct (PartialProdGen.estimate_products A AT) as [n | e0]; cbn [bind].
  - rewrite choose_mode_default.
    destruct (n * 12 <=? 4 * 1024 ^ 3) eqn:E.
    + apply Z.leb_le in E. split; [ | split ].
      * split; [ intros _; exists n; split; [ reflexivity | lia ]
               | reflexivity ].
      * split; [ discriminate | ].
        intros [m [Hm Hlt]]. inversion Hm; subst m. lia.
      * intro e. split; discriminate.
    + apply Z.leb_gt in E. split; [ | split ].
      * split; [ discriminate | ].
        intros [m [Hm Hle]]. inversion Hm; subst m. lia.
      * split; [ intros _; exists n; split; [ reflexivity | lia ]
               | reflexivity ].
      * intro e. split; discriminate.
  - split; [ | split ].
    + split; [ discriminate | intros [m [Hm _]]; discriminate ].
    + split; [ discriminate | intros [m [Hm _]]; discriminate ].
    + intro e. split; intro H; inversion H; reflexivity.
Qed.

(** ** The neighbourhood filter *)

Section SortFacts.

Import Recommender.

Lemma insert_sorted_perm (x : Q) (l : list Q) :
  Permutation (insert_sorted x l) (x :: l).
Proof.
  induction l as [ | y l IH ]; simpl; [ apply Permutation_refl | ].
  destruct (Qle_bool x y); [ apply Permutation_refl | ].
  eapply Permutation_trans; [ apply perm_skip, IH | apply perm_swap ].
Qed.

Lemma np_sort_perm (l : list Q) : Permutation (np_sort l) l.
Proof.
  induction l as [ | x l IH ]; simpl; [ apply Permutation_refl | ].
  eapply Permutation_trans; [ apply insert_sorted_perm | now apply perm_skip ].
Qed.

Lemma insert_sorted_ascending (x : Q) (l : list Q) :
  StronglySorted Qle l -> StronglySorted Qle (insert_sorted x l).
Proof.
  induction 1 as [ | y l Hl IH Hy ]; simpl.
  - constructor; constructor.
  - destruct (Qle_bool x y) eqn:E.
    + apply Qle_bool_iff in E. constructor.
      * now constructor.
      * constructor; [ exact E | ].
        eapply Forall_impl; [ | exact Hy ].
        intros z Hz. eapply Qle_trans; eassumption.
    + constructor; [ exact IH | ].
      assert (Hyx : (y <= x)%Q).
      { apply Qlt_le_weak, Qnot_le_lt. intro H.
        apply Qle_bool_iff in H. congruence. }
      eapply Permutation_Forall;
        [ apply Permutation_sym, insert_sorted_perm | ].
      now constructor.
Qed.

Lemma np_sort_ascending (l : list Q) : StronglySorted Qle (np_sort l).
Proof.
  induction l as [ | x l IH ]; simpl; [ constructor | ].
  now apply insert_sorted_ascending.
Qed.

(** In a sorted list the entries from a position on are at least the entry
    at the position, and the entries up to it at most. *)
Lemma sorted_tail (s : list Q) :
  StronglySorted Qle s ->
  forall p : nat, (p < List.length s)%nat ->
    Forall (fun x => (nth p s 0 <= x)%Q) (skipn p s)
    /\ Forall (fun x => (x <= nth p s 0)%Q) (firstn (S p) s).
Proof.
  induction 1 as [ | y l Hl IH Hy ]; intros p Hp; [ simpl in Hp; lia | ].
  destruct p as [ | p ].
  - simpl. split; constructor; try apply Qle_refl; [ exact Hy | constructor ].
  - simpl in Hp. destruct (IH p ltac:(lia)) as [H1 H2].
    cbn [nth skipn]. split; [ exact H1 | ].
    change (firstn (S (S p)) (y :: l)) with (y :: firstn (S p) l).
    constructor; [ | exact H2 ].
    rewrite Forall_forall in Hy. apply Hy. apply nth_In. lia.
Qed.

Lemma filter_all {A : Type} (p : A -> bool) (l : list A) :
  Forall (fun x => p x = true) l -> filter p l = l.
Proof.
  induction 1 as [ | x l Hx _ IH ]; [ reflexivity | ].
  cbn [filter]. now rewrite Hx, IH.
Qed.

Lemma filter_none {A : Type} (p : A -> bool) (l : list A) :
  Forall (fun x => p x = false) l -> filter p l = [].
Proof.
  induction 1 as [ | x l Hx _ IH ]; [ reflexivity | ].
  cbn [filter]. now rewrite Hx.
Qed.

Lemma len_firstn_skipn {A : Type} (p : nat) (l : list A) :
  len l = len (firstn p l) + len (skipn p l).
Proof. now rewrite <- len_app, firstn_skipn. Qed.

Lemma len_skipn {A : Type} (p : nat) (l : list A) :
  (p <= List.length l)%nat -> len (skipn p l) = len l - Z.of_nat p.
Proof. intro H. unfold len. rewrite length_skipn. lia. Qed.

(** Counting around the entry sorting puts at position [p]. *)
Lemma sorted_counts (l : list Q) (p : nat) :
  (p < List.length l)%nat ->
  let thr := nth p (np_sort l) 0%Q in
  In thr l
  /\ len l - Z.of_nat p <= len (filter (fun x => Qle_bool thr x) l)
  /\ len (filter (fun x => Qlt_bool thr x) l) < len l - Z.of_nat p
  /\ Z.of_nat p < len (filter (fun x => Qle_bool x thr) l).
Proof.
  intros Hp thr.
  pose proof (np_sort_perm l) as Hperm.
  pose proof (Permutation_length Hperm) as Hlen.
  assert (Hp' : (p < List.length (np_sort l))%nat) by lia.
  destruct (sorted_tail _ (np_sort_ascending l) p Hp') as [H1 H2].
  fold thr in H1, H2.
  assert (Hl : len (np_sort l) = len l) by (unfold len; now rewrite Hlen).
  split; [ | split; [ | split ] ].
  - apply (Permutation_in _ Hperm). apply nth_In. exact Hp'.
  - rewrite <- (filter_perm_len _ _ _ Hperm).
    rewrite <- (firstn_skipn p (np_sort l)) at 1.
    rewrite filter_app, len_app.
    rewrite (filter_all _ (skipn p (np_sort l))).
    + rewrite len_skipn by lia. rewrite Hl.
      pose proof (len_nonneg
                    (filter (fun x => Qle_bool thr x)
                       (firstn p (np_sort l)))). lia.
    + eapply Forall_impl; [ | exact H1 ].
      intros x Hx. now apply Qle_bool_iff.
  - rewrite <- (filter_perm_len _ _ _ Hperm).
    rewrite <- (firstn_skipn (S p) (np_sort l)) at 1.
    rewrite filter_app, len_app.
    rewrite (filter_none _ (firstn (S p) (np_sort l))).
    + change (len []) with 0.
      pose proof (len_filter_le (fun x => Qlt_bool thr x)
                    (skipn (S p) (np_sort l))) as Hle.
      rewrite len_skipn in Hle by lia. lia.
    + eapply Forall_impl; [ | exact H2 ].
      intros x Hx. unfold Qlt_bool. apply negb_false_iff.
      now apply Qle_bool_iff.
  - rewrite <- (filter_perm_len _ _ _ Hperm).
    rewrite <- (firstn_skipn (S p) (np_sort l)) at 1.
    rewrite filter_app, len_app.
    rewrite (filter_all _ (firstn (S p) (np_sort l))).
    + pose proof (len_nonneg
                    (filter (fun x => Qle_bool x thr)
                       (skipn (S p) (np_sort l)))).
      unfold len at 1. rewrite length_firstn. lia.
    + eapply Forall_impl; [ | exact H2 ].
      intros x Hx. now apply Qle_bool_iff.
Qed.

Lemma set_item_ok {A : Type} (a : list A) (i : Z) (v : A) :
  0 <= i < len a ->
  exists a', set_item a i v = Ok a'
             /\ a' = firstn (Z.to_nat i) a ++ v :: skipn (Z.to_nat (i + 1)) a
             /\ len a' = len a
             /\ index a' i = Ok v.
Proof.
  intro H. unfold set_item.
  destruct (i <? 0) eqn:E; [ apply Z.ltb_lt in E; lia | ].
  assert (Hb : (0 <=? i) && (i <? len a) = true).
  { apply andb_true_iff. split; [ apply Z.leb_le | apply Z.ltb_lt ]; lia. }
  rewrite Hb. eexists. split; [ reflexivity | split; [ reflexivity | ] ].
  assert (Hlen : len (firstn (Z.to_nat i) a ++ v :: skipn (Z.to_nat (i + 1)) a)
                 = len a).
  { unfold len in *. rewrite length_app, length_firstn. cbn [List.length].
    rewrite length_skipn. lia. }
  split; [ exact Hlen | ].
  rewrite (index_ok _ i v) by (rewrite Hlen; exact H).
  f_equal. rewrite app_nth2; rewrite length_firstn; unfold len in H;
    [ | lia ].
  replace (Z.to_nat i - Init.Nat.min (Z.to_nat i) (List.length a))%nat
    with 0%nat by lia.
  reflexivity.
Qed.

End SortFacts.

Section TopKFacts.

Import Recommender.

Lemma index_map {A B : Type} (f : A -> B) (l : list A) (i : Z) (x : A) :
  index l i = Ok x -> index (map f l) i = Ok (f x).
Proof.
  unfold index. rewrite len_map.
  destruct ((0 <=? (if i <? 0 then i + len l else i))
            && ((if i <? 0 then i + len l else i) <? len l));
    [ | discriminate ].
  rewrite nth_error_map.
  destruct (nth_error l _) as [y | ]; [ | discriminate ].
  intro H. inversion H. reflexivity.
Qed.

Lemma keep_from_threshold (threshold : Q) (l : list Q) :
  map (fun x => if Qlt_bool x threshold then 0%Q else x) l
  = map (fun x => if Qle_bool threshold x then x else 0%Q) l.
Proof.
  apply map_ext. intro x. unfold Qlt_bool.
  now destruct (Qle_bool threshold x).
Qed.

(** The filter of one row, for [0 < k < len(row)]. *)
Lemma topk_row_result (k i : Z) (row : list Q) :
  0 <= i < len row -> 0 < k < len row ->
  exists zeroed threshold,
    set_item row i 0%Q = Ok zeroed
    /\ len zeroed = len row
    /\ index zeroed i = Ok 0%Q
    /\ topk_row k i row
       = Ok (map (fun x => if Qle_bool threshold x then x else 0%Q) zeroed)
    /\ In threshold zeroed
    /\ k <= len (filter (fun x => Qle_bool threshold x) zeroed)
    /\ len (filter (fun x => Qlt_bool threshold x) zeroed) < k.
Proof.
  intros Hi Hk.
  destruct (set_item_ok row i 0%Q Hi) as [zeroed [E1 [_ [E3 E4]]]].
  set (p := Z.to_nat (- k + len zeroed)).
  assert (Hp : (p < List.length zeroed)%nat) by (unfold p, len in *; lia).
  destruct (sorted_counts zeroed p Hp) as [C1 [C2 [C3 _]]].
  assert (Hkp : len zeroed - Z.of_nat p = k) by (unfold p; lia).
  rewrite Hkp in C2, C3.
  exists zeroed, (nth p (np_sort zeroed) 0%Q).
  repeat split; try assumption.
  - unfold topk_row. rewrite E1. cbn [bind].
    assert (Hg : (len zeroed >? k) = true) by (apply Z.gtb_lt; lia).
    rewrite Hg. unfold np_partition.
    assert (Hn : (- k <? 0) = true) by (apply Z.ltb_lt; lia). rewrite Hn.
    assert (Hb : (0 <=? - k + len zeroed) && (- k + len zeroed <? len zeroed)
                 = true).
    { apply andb_true_iff. split; [ apply Z.leb_le | apply Z.ltb_lt ]; lia. }
    rewrite Hb. cbn [bind].
    assert (Hl : len (np_sort zeroed) = len zeroed).
    { unfold len. now rewrite (Permutation_length (np_sort_perm zeroed)). }
    rewrite (index_negative _ (- k) 0%Q) by (rewrite Hl; lia).
    cbn [bind]. rewrite Hl. fold p. now rewrite keep_from_threshold.
Qed.

(** With [k = 0] the threshold is the least entry, and with [k] at least
    the length of the row there is none: the row only loses entry [i]. *)
Lemma topk_row_unfiltered (k i : Z) (row : list Q) :
  0 <= i < len row -> k = 0 \/ len row <= k ->
  topk_row k i row = set_item row i 0%Q.
Proof.
  intros Hi Hk.
  destruct (set_item_ok row i 0%Q Hi) as [zeroed [E1 [_ [E3 E4]]]].
  unfold topk_row. rewrite E1. cbn [bind].
  destruct Hk as [-> | Hk].
  - assert (Hg : (len zeroed >? 0) = true) by (apply Z.gtb_lt; lia).
    rewrite Hg. unfold np_partition. cbn [Z.opp Z.ltb Z.compare].
    assert (Hb : (0 <=? 0) && (0 <? len zeroed) = true).
    { apply andb_true_iff. split; [ reflexivity | apply Z.ltb_lt; lia ]. }
    rewrite Hb. cbn [bind].
    assert (Hl : len (np_sort zeroed) = len zeroed).
    { unfold len. now rewrite (Permutation_length (np_sort_perm zeroed)). }
    rewrite (index_ok _ 0 0%Q) by (rewrite Hl; lia). cbn [bind].
    f_equal. rewrite keep_from_threshold.
    rewrite <- (map_id zeroed) at 2. apply map_ext_in. intros x Hx.
    assert (Hp : (0 < List.length (np_sort zeroed))%nat)
      by (unfold len in *; lia).
    destruct (sorted_tail _ (np_sort_ascending zeroed) 0%nat Hp) as [H1 _].
    cbn [skipn] in H1. rewrite Forall_forall in H1.
    assert (Hle : (nth 0 (np_sort zeroed) 0 <= x)%Q).
    { apply H1. apply (Permutation_in _ (Permutation_sym (np_sort_perm zeroed))).
      exact Hx. }
    apply Qle_bool_iff in Hle. cbn [Z.to_nat]. now rewrite Hle.
  - assert (Hg : (len zeroed >? k) = false).
    { rewrite Z.gtb_ltb. apply Z.ltb_ge. lia. }
    now rewrite Hg.
Qed.

Lemma topk_row_len (k i : Z) (row out : list Q) :
  topk_row k i row = Ok out -> len out = len row.
Proof.
  unfold topk_row, set_item.
  destruct ((0 <=? (if i <? 0 then i + len row else i))
            && ((if i <? 0 then i + len row else i) <? len row)) eqn:Hb;
    [ | discriminate ].
  cbn [bind].
  set (zeroed := firstn _ row ++ 0%Q :: skipn _ row).
  assert (Hlen : len zeroed = len row).
  { apply andb_true_iff in Hb. destruct Hb as [H1 H2].
    apply Z.leb_le in H1. apply Z.ltb_lt in H2.
    unfold zeroed, len in *. rewrite length_app, length_firstn.
    cbn [List.length]. rewrite length_skipn. lia. }
  destruct (len zeroed >? k).
  - destruct (np_partition zeroed (- k)) as [part | e]; [ | discriminate ].
    cbn [bind]. destruct (index part (- k)) as [t | e]; [ | discriminate ].
    cbn [bind]. intro H. inversion H. now rewrite len_map.
  - intro H. inversion H. subst out. exact Hlen.
Qed.

(** The loop over the rows: the rows below [s] are done, the others are as
    they were. *)
Lemma topk_rows_ok (n k : Z) (original : list (list Q)) :
  len original = n ->
  (forall i, 0 <= i < n ->
     exists r r', index original i = Ok r /\ topk_row k i r = Ok r') ->
  forall (c s : nat) (arr : list (list Q)),
    Z.of_nat s + Z.of_nat c = n ->
    len arr = n ->
    (forall i, 0 <= i < Z.of_nat s ->
       exists r r', index original i = Ok r /\ topk_row k i r = Ok r'
                    /\ index arr i = Ok r') ->
    (forall i, Z.of_nat s <= i < n -> index arr i = index original i) ->
    exists out,
      for_each (map Z.of_nat (seq s c))
        (fun i arr =>
           sim_items <- index arr i ;;
           sim_items' <- topk_row k i sim_items ;;
           set_item arr i sim_items') arr = Ok out
      /\ len out = n
      /\ (forall i, 0 <= i < n ->
            exists r r', index original i = Ok r /\ topk_row k i r = Ok r'
                         /\ index out i = Ok r').
Proof.
  intros Hn Hrows. induction c as [ | c IH ]; intros s arr Hs Hlen Hdone Hrest.
  - exists arr. split; [ reflexivity | split; [ exact Hlen | ] ].
    intros i Hi. apply Hdone. lia.
  - cbn [seq map for_each].
    destruct (Hrows (Z.of_nat s) ltac:(lia)) as [r [r' [Hr Hr']]].
    rewrite (Hrest (Z.of_nat s)) by lia. rewrite Hr. cbn [bind].
    rewrite Hr'. cbn [bind].
    destruct (set_item_ok arr (Z.of_nat s) r' ltac:(lia))
      as [arr' [E1 [E2 [E3 E4]]]].
    rewrite E1. cbn [bind].
    assert (Hother : forall i, 0 <= i < n -> i <> Z.of_nat s ->
              index arr' i = index arr i).
    { intros i Hi Hne.
      rewrite (index_ok arr' i []) by lia.
      rewrite (index_ok arr i []) by lia. f_equal. subst arr'.
      assert (Hf : List.length (firstn (Z.to_nat (Z.of_nat s)) arr) = s)
        by (rewrite length_firstn; unfold len in *; lia).
      destruct (Z_lt_le_dec i (Z.of_nat s)) as [Hlt | Hge].
      - rewrite app_nth1 by lia. rewrite nth_firstn.
        assert (E : (Z.to_nat i <? Z.to_nat (Z.of_nat s))%nat = true)
          by (apply Nat.ltb_lt; lia).
        now rewrite E.
      - rewrite app_nth2 by lia. rewrite Hf.
        replace (Z.to_nat i - s)%nat with (S (Z.to_nat i - s - 1)) by lia.
        cbn [nth]. rewrite nth_skipn. f_equal. lia. }
    apply (IH (S s) arr'); try lia.
    + intros i Hi. destruct (Z.eq_dec i (Z.of_nat s)) as [-> | Hne].
      * exists r, r'. auto.
      * destruct (Hdone i ltac:(lia)) as [r0 [r0' [H1 [H2 H3]]]].
        exists r0, r0'. rewrite (Hother i) by lia. auto.
    + intros i Hi. rewrite (Hother i) by lia. apply Hrest. lia.
Qed.

End TopKFacts.

(** X22: for [0 < k < n] the neighbourhood filter turns a row of [n]
    entries into the row with entry [i] set to 0 and every entry below a
    threshold set to 0; the threshold is an entry of the zeroed row, at least
    [k] entries are not below it and so are left as they are, and fewer than
    [k] entries are above it. *)
Theorem topk_row_keeps_the_k_largest :
  forall (k i : Z) (row : list Q),
    0 <= i < len row -> 0 < k < len row ->
    exists (zeroed : list Q) (threshold : Q),
      Recommender.set_item row i 0%Q = Ok zeroed
      /\ len zeroed = len row
      /\ index zeroed i = Ok 0%Q
      /\ Recommender.topk_row k i row
         = Ok (map (fun x => if Qle_bool threshold x then x else 0%Q) zeroed)
      /\ In threshold zeroed
      /\ k <= len (filter (fun x => Qle_bool threshold x) zeroed)
      /\ len (filter (fun x => Recommender.Qlt_bool threshold x) zeroed) < k.
Proof.
  intros k i row Hi Hk. now apply topk_row_result.
Qed.

(** The statement above for the two largest of a row of four entries, the
    first of which is the entry of the item itself. *)
Lemma topk_row_keeps_the_k_largest_witness :
  exists (zeroed : list Q) (threshold : Q),
    Recommender.set_item [1; 1 # 2; 1 # 4; 3 # 4]%Q 0 0%Q = Ok zeroed
    /\ len zeroed = 4
    /\ index zeroed 0 = Ok 0%Q
    /\ Recommender.topk_row 2 0 [1; 1 # 2; 1 # 4; 3 # 4]%Q
       = Ok (map (fun x => if Qle_bool threshold x then x else 0%Q) zeroed)
    /\ In threshold zeroed
    /\ 2 <= len (filter (fun x => Qle_bool threshold x) zeroed)
    /\ len (filter (fun x => Recommender.Qlt_bool threshold x) zeroed) < 2.
Proof.
  apply (topk_row_keeps_the_k_largest 2 0 [1; 1 # 2; 1 # 4; 3 # 4]%Q);
    split; reflexivity || discriminate.
Defined.

(** X23: with [k = 0] the neighbourhood filter removes nothing but the entry
    of the item itself, as it does when [k] is at least the length of the
    row; with a negative [k] whose magnitude is at least the length of the
    row it raises [ValueError]. *)
Theorem topk_row_with_k_zero_keeps_all :
  forall (k i : Z) (row : list Q),
    0 <= i < len row ->
    (k = 0 \/ len row <= k ->
     Recommender.topk_row k i row = Recommender.set_item row i 0%Q)
    /\ (k <= - len row -> Recommender.topk_row k i row = Raise ValueError).
Proof.
  intros k i row Hi. split; [ now apply topk_row_unfiltered | ].
  intro Hk.
  destruct (set_item_ok row i 0%Q Hi) as [zeroed [E1 [_ [E3 _]]]].
  unfold Recommender.topk_row. rewrite E1. cbn [bind].
  assert (Hg : (len zeroed >? k) = true) by (apply Z.gtb_lt; lia).
  rewrite Hg. unfold Recommender.np_partition.
  assert (Hn : (- k <? 0) = false) by (apply Z.ltb_ge; lia). rewrite Hn.
  assert (Hb : (0 <=? - k) && (- k <? len zeroed) = false).
  { apply andb_false_iff. right. apply Z.ltb_ge. lia. }
  now rewrite Hb.
Qed.

(** The statement above for [k = 0] on a row of three entries. *)
Lemma topk_row_with_k_zero_keeps_all_witness :
  Recommender.topk_row 0 1 [1 # 2; 1; 1 # 4]%Q = Ok [1 # 2; 0; 1 # 4]%Q.
Proof.
  refine (proj1 (topk_row_with_k_zero_keeps_all 0 1 [1 # 2; 1; 1 # 4]%Q _) _).
  - split; reflexivity || discriminate.
  - left. reflexivity.
Defined.

(** X24: on a square array of [n] rows and columns, with [0 < k < n], the
    neighbourhood filter succeeds and treats every row on its own: row [i] of
    the result is row [i] of the input filtered as above, whatever the other
    rows hold. *)
Theorem topk_filter_works_row_by_row :
  forall (n k : Z) (arr : list (list Q)),
    len arr = n ->
    (forall r, In r arr -> len r = n) ->
    0 < k < n ->
    exists out : list (list Q),
      Recommender.topk_filter n k arr = Ok out
      /\ len out = n
      /\ (forall i, 0 <= i < n ->
            exists r r', index arr i = Ok r
                         /\ Recommender.topk_row k i r = Ok r'
                         /\ index out i = Ok r'
                         /\ len r' = n).
Proof.
  intros n k arr Hlen Hsq Hk.
  assert (Hrows : forall i, 0 <= i < n ->
            exists r r', index arr i = Ok r
                         /\ Recommender.topk_row k i r = Ok r').
  { intros i Hi. exists (nth (Z.to_nat i) arr []).
    assert (Hr : len (nth (Z.to_nat i) arr []) = n).
    { apply Hsq. apply nth_In. unfold len in *. lia. }
    destruct (topk_row_result k i (nth (Z.to_nat i) arr []))
      as [zeroed [thr [_ [_ [_ [E _]]]]]]; try lia.
    eexists. split; [ apply index_ok; lia | exact E ]. }
  destruct (topk_rows_ok n k arr Hlen Hrows (Z.to_nat n) 0 arr)
    as [out [E1 [E2 E3]]]; try lia; try reflexivity.
  exists out. split; [ exact E1 | split; [ exact E2 | ] ].
  intros i Hi. destruct (E3 i Hi) as [r [r' [H1 [H2 H3]]]].
  exists r, r'. repeat split; try assumption.
  rewrite (topk_row_len k i r r' H2).
  rewrite (index_ok arr i []) in H1 by lia. inversion H1; subst r.
  apply Hsq. apply nth_In. unfold len in *. lia.
Qed.

(** The statement above on a 3x3 array with [k = 1]. *)
Lemma topk_filter_works_row_by_row_witness :
  exists out : list (list Q),
    Recommender.topk_filter 3 1
      [[1; 1 # 2; 1 # 4]; [1 # 2; 1; 3 # 4]; [1 # 4; 3 # 4; 1]]%Q = Ok out
    /\ len out = 3.
Proof.
  destruct (topk_filter_works_row_by_row 3 1
              [[1; 1 # 2; 1 # 4]; [1 # 2; 1; 3 # 4]; [1 # 4; 3 # 4; 1]]%Q)
    as [out [E1 [E2 _]]].
  - reflexivity.
  - intros r [<- | [<- | [<- | []]]]; reflexivity.
  - split; reflexivity.
  - exists out. split; assumption.
Defined.

(** ** The ranking *)

Section RankingFacts.

Import Recommender.

Lemma slice_prefix {A : Type} (l : list A) (n : Z) :
  0 <= n -> slice l 0 n = firstn (Z.to_nat n) l.
Proof.
  intro H. unfold slice, clamp. cbn [Z.ltb Z.compare].
  replace (Z.min 0 (len l)) with 0 by (pose proof (len_nonneg l); lia).
  destruct (n <? 0) eqn:E; [ apply Z.ltb_lt in E; lia | ].
  cbn [Z.to_nat skipn]. rewrite Z.sub_0_r.
  destruct (Z_le_gt_dec n (len l)) as [Hle | Hgt].
  - now rewrite Z.min_l by lia.
  - rewrite Z.min_r by lia. unfold len in *. rewrite Nat2Z.id.
    rewrite firstn_all. symmetry. apply firstn_all2. lia.
Qed.

Lemma In_firstn {A : Type} (n : nat) (l : list A) (x : A) :
  In x (firstn n l) -> In x l.
Proof.
  intro H. rewrite <- (firstn_skipn n l). apply in_or_app. now left.
Qed.

Lemma In_skipn {A : Type} (n : nat) (l : list A) (x : A) :
  In x (skipn n l) -> In x l.
Proof.
  intro H. rewrite <- (firstn_skipn n l). apply in_or_app. now right.
Qed.

Lemma comprehension_ok {A B : Type} (f : A -> result B) (g : A -> B)
  (l : list A) :
  (forall x, In x l -> f x = Ok (g x)) -> comprehension f l = Ok (map g l).
Proof.
  induction l as [ | x l IH ]; intro H; [ reflexivity | ].
  cbn [comprehension map]. rewrite (H x) by (left; reflexivity).
  cbn [bind]. rewrite IH by (intros y Hy; apply H; right; exact Hy).
  reflexivity.
Qed.

Lemma unrated_items_spec (user_row : list Q) (j : Z) :
  In j (unrated_items user_row) <->
  0 <= j < len user_row /\ (nth (Z.to_nat j) user_row 0 == 0)%Q.
Proof.
  unfold unrated_items. rewrite filter_In, In_range, Qeq_bool_iff.
  reflexivity.
Qed.

Lemma NoDup_filter {A : Type} (p : A -> bool) (l : list A) :
  NoDup l -> NoDup (filter p l).
Proof.
  induction 1 as [ | x l Hx _ IH ]; [ constructor | ].
  cbn [filter]. destruct (p x); [ | exact IH ].
  constructor; [ | exact IH ].
  intro H. apply filter_In in H. now destruct H.
Qed.

Lemma unrated_items_NoDup (user_row : list Q) :
  NoDup (unrated_items user_row).
Proof. apply NoDup_filter, range_NoDup. Qed.

Lemma StronglySorted_app_inv {A : Type} (R : A -> A -> Prop)
  (l1 l2 : list A) :
  StronglySorted R (l1 ++ l2) ->
  StronglySorted R l1
  /\ (forall x y, In x l1 -> In y l2 -> R x y).
Proof.
  induction l1 as [ | a l1 IH ]; intro H.
  - split; [ constructor | intros x y [] ].
  - cbn [app] in H. apply StronglySorted_inv in H. destruct H as [H1 H2].
    destruct (IH H1) as [IH1 IH2]. split.
    + constructor; [ exact IH1 | ].
      rewrite Forall_forall in *. intros x Hx. apply H2.
      apply in_or_app. now left.
    + intros x y [<- | Hx] Hy.
      * rewrite Forall_forall in H2. apply H2. apply in_or_app. now right.
      * now apply IH2.
Qed.

Lemma StronglySorted_map {A B : Type} (R : B -> B -> Prop) (f : A -> B)
  (l : list A) :
  StronglySorted (fun x y => R (f x) (f y)) l -> StronglySorted R (map f l).
Proof.
  induction 1 as [ | a l _ IH Ha ]; [ constructor | ].
  cbn [map]. constructor; [ exact IH | ].
  rewrite Forall_forall in *. intros y Hy. apply in_map_iff in Hy.
  destruct Hy as [x [<- Hx]]. now apply Ha.
Qed.

Lemma NoDup_map_on {A B : Type} (f : A -> B) (l : list A) :
  (forall x y, In x l -> In y l -> f x = f y -> x = y) ->
  NoDup l -> NoDup (map f l).
Proof.
  intros Hf. induction 1 as [ | x l Hx Hnd IH ]; [ constructor | ].
  cbn [map]. constructor.
  - intro Hin. apply in_map_iff in Hin. destruct Hin as [y [Hy Hin]].
    assert (y = x) by (apply Hf; [ now right | now left | exact Hy ]).
    subst y. contradiction.
  - apply IH. intros a b Ha Hb. apply Hf; now right.
Qed.

Lemma NoDup_nth_inj {A : Type} (l : list A) (d : A) (a b : nat) :
  NoDup l -> (a < List.length l)%nat -> (b < List.length l)%nat ->
  nth a l d = nth b l d -> a = b.
Proof.
  intros Hnd Ha Hb H. exact (proj1 (NoDup_nth l d) Hnd a b Ha Hb H).
Qed.

Variable argsort : list Q -> list Z.
Hypothesis argsort_ok : argsort_correct argsort.

(** The recommendations for one user. *)
Lemma recommend_user_result (n : Z) (user_row predicted_row : list Q) :
  0 <= n -> len predicted_row = len user_row ->
  let unrated := unrated_items user_row in
  let rating := fun item => nth (Z.to_nat item) predicted_row 0%Q in
  exists top rest : list Z,
    Permutation (top ++ rest) unrated
    /\ len top = Z.min n (len unrated)
    /\ recommend_user argsort n user_row predicted_row
       = Ok (map (fun item => (item, rating item)) top)
    /\ StronglySorted (fun a b => (rating b <= rating a)%Q) top
    /\ (forall a b, In a top -> In b rest -> (rating b <= rating a)%Q).
Proof.
  intros Hn Hlen unrated rating.
  unfold recommend_user. fold unrated.
  destruct (len unrated =? 0) eqn:E0.
  - apply Z.eqb_eq in E0. apply len_nil_inv in E0.
    exists [], []. rewrite E0. cbn [app map]. change (len []) with 0.
    repeat split; try constructor; try (intros a b []).
    lia.
  - apply Z.eqb_neq in E0.
    assert (Hin : forall j, In j unrated -> 0 <= j < len predicted_row).
    { intros j Hj. apply unrated_items_spec in Hj. lia. }
    rewrite (take_indices_ok predicted_row unrated rating)
      by (intros j Hj; apply index_ok; auto).
    cbn [bind].
    set (key := map Qopp (map rating unrated)).
    destruct (argsort_ok key) as [Hperm Hsorted].
    assert (Hk : len key = len unrated)
      by (unfold key; now rewrite !len_map).
    rewrite Hk in Hperm.
    rewrite slice_prefix by exact Hn.
    set (S := argsort key) in *.
    set (T := firstn (Z.to_nat n) S).
    set (item_at := fun idx => nth (Z.to_nat idx) unrated 0).
    assert (HS : forall idx, In idx S -> 0 <= idx < len unrated).
    { intros idx Hidx. apply In_range. now apply (Permutation_in _ Hperm). }
    assert (HT : forall idx, In idx T -> In idx S)
      by (intros idx Hidx; apply (In_firstn _ _ _ Hidx)).
    assert (Hitem : forall idx, In idx S -> In (item_at idx) unrated).
    { intros idx Hidx. apply nth_In. specialize (HS idx Hidx).
      unfold len in HS. lia. }
    assert (Hkey : forall idx, In idx S ->
              nth (Z.to_nat idx) key 0%Q = (- rating (item_at idx))%Q).
    { intros idx Hidx. specialize (HS idx Hidx). unfold key.
      change 0%Q with (Qopp 0) at 1. rewrite map_nth.
      rewrite (nth_indep _ 0%Q (rating 0)) by
        (rewrite length_map; unfold len in HS; lia).
      now rewrite map_nth. }
    exists (map item_at T), (map item_at (skipn (Z.to_nat n) S)).
    split; [ | split; [ | split; [ | split ] ] ].
    + rewrite <- map_app. unfold T. rewrite firstn_skipn.
      eapply Permutation_trans; [ apply Permutation_map, Hperm | ].
      unfold item_at, range. rewrite map_map.
      rewrite (map_ext _ (fun i : nat => nth i unrated 0))
        by (intro i; now rewrite Nat2Z.id).
      unfold len. rewrite Nat2Z.id.
      clear. induction unrated as [ | x l IH ] using rev_ind;
        [ apply Permutation_refl | ].
      rewrite length_app. cbn [List.length].
      rewrite Nat.add_1_r, seq_S, map_app. cbn [map Nat.add].
      rewrite app_nth2, Nat.sub_diag by lia. cbn [nth].
      apply Permutation_app_tail.
      rewrite (map_ext_in _ (fun i : nat => nth i l 0)); [ exact IH | ].
      intros i Hi. apply in_seq in Hi. apply app_nth1. lia.
    + rewrite len_map. unfold T, len. rewrite length_firstn.
      rewrite (Permutation_length Hperm). unfold range.
      rewrite length_map, length_seq. unfold len. lia.
    + rewrite (comprehension_ok _
                 (fun idx => (item_at idx, rating (item_at idx)))).
      * now rewrite map_map.
      * intros idx Hidx. apply HT in Hidx.
        rewrite (index_ok unrated idx 0) by (now apply HS). cbn [bind].
        fold (item_at idx).
        rewrite (index_ok predicted_row (item_at idx) 0%Q)
          by (apply Hin; now apply Hitem).
        reflexivity.
    + apply StronglySorted_map.
      rewrite <- (firstn_skipn (Z.to_nat n) S) in Hsorted.
      apply StronglySorted_app_inv in Hsorted. destruct Hsorted as [Hs _].
      fold T in Hs.
      assert (Hs' : Forall (fun idx => In idx S) T)
        by (apply Forall_forall; exact HT).
      clear - Hs Hs' Hkey. induction Hs as [ | a l _ IH Ha ];
        [ constructor | ].
      apply Forall_cons_iff in Hs'. destruct Hs' as [Ha' Hl'].
      constructor; [ now apply IH | ].
      rewrite Forall_forall in *. intros b Hb. specialize (Ha b Hb).
      rewrite (Hkey a Ha'), (Hkey b (Hl' b Hb)) in Ha.
      now apply Qopp_le_compat in Ha; rewrite !Qopp_involutive in Ha.
    + intros a b Ha Hb. apply in_map_iff in Ha, Hb.
      destruct Ha as [ia [<- Hia]], Hb as [ib [<- Hib]].
      rewrite <- (firstn_skipn (Z.to_nat n) S) in Hsorted.
      apply StronglySorted_app_inv in Hsorted. destruct Hsorted as [_ Hs].
      specialize (Hs ia ib Hia Hib).
      assert (Hib' : In ib S) by (apply (In_skipn _ _ _ Hib)).
      rewrite (Hkey ia (HT ia Hia)), (Hkey ib Hib') in Hs.
      now apply Qopp_le_compat in Hs; rewrite !Qopp_involutive in Hs.
Qed.

End RankingFacts.

Section ArgsortFacts.

Import Recommender.

Lemma insert_position_perm (a : list Q) (p : Z) (l : list Z) :
  Permutation (insert_position a p l) (p :: l).
Proof.
  induction l as [ | q l IH ]; simpl; [ apply Permutation_refl | ].
  destruct (Qle_bool _ _); [ apply Permutation_refl | ].
  eapply Permutation_trans; [ apply perm_skip, IH | apply perm_swap ].
Qed.

Lemma insert_position_sorted (a : list Q) (p : Z) (l : list Z) :
  StronglySorted
    (fun p q => (nth (Z.to_nat p) a 0 <= nth (Z.to_nat q) a 0)%Q) l ->
  StronglySorted
    (fun p q => (nth (Z.to_nat p) a 0 <= nth (Z.to_nat q) a 0)%Q)
    (insert_position a p l).
Proof.
  induction 1 as [ | q l Hl IH Hq ]; simpl.
  - constructor; constructor.
  - destruct (Qle_bool (nth (Z.to_nat p) a 0%Q) (nth (Z.to_nat q) a 0%Q))
      eqn:E.
    + apply Qle_bool_iff in E. constructor.
      * now constructor.
      * constructor; [ exact E | ].
        eapply Forall_impl; [ | exact Hq ].
        intros z Hz. eapply Qle_trans; eassumption.
    + constructor; [ exact IH | ].
      assert (Hqp : (nth (Z.to_nat q) a 0 <= nth (Z.to_nat p) a 0)%Q).
      { apply Qlt_le_weak, Qnot_le_lt. intro H.
        apply Qle_bool_iff in H. congruence. }
      eapply Permutation_Forall;
        [ apply Permutation_sym, insert_position_perm | ].
      now constructor.
Qed.

(** The insertion argsort is an argsort. *)
Lemma stable_argsort_correct : argsort_correct stable_argsort.
Proof.
  intro a. unfold stable_argsort. generalize (range (len a)) as l.
  induction l as [ | p l [IH1 IH2] ]; simpl.
  - split; [ apply Permutation_refl | constructor ].
  - split.
    + eapply Permutation_trans;
        [ apply insert_position_perm | now apply perm_skip ].
    + now apply insert_position_sorted.
Qed.

Lemma dict_set_fresh {X : Type} (d : list (Z * X)) (k : Z) (v : X) :
  ~ In k (map fst d) -> dict_set d k v = d ++ [(k, v)].
Proof.
  intro H. unfold dict_set.
  destruct (existsb (fun e => fst e =? k) d) eqn:E; [ | reflexivity ].
  exfalso. apply H. apply existsb_exists in E. destruct E as [e [He Hk]].
  apply Z.eqb_eq in Hk. subst k. now apply in_map.
Qed.

Lemma NoDup_flat_map_pairs {X : Type} (d : list (Z * list X)) (key : X -> Z) :
  NoDup (map fst d) ->
  (forall e, In e d -> NoDup (map key (snd e))) ->
  NoDup (flat_map (fun e => map (fun x => (fst e, key x)) (snd e)) d).
Proof.
  induction d as [ | e d IH ]; intros Hk Hi; [ constructor | ].
  cbn [map] in Hk. apply NoDup_cons_iff in Hk. destruct Hk as [Hk1 Hk2].
  cbn [flat_map]. apply NoDup_app.
  - apply NoDup_map_on.
    + intros x y Hx Hy H. inversion H as [H'].
      assert (Hnd : NoDup (map key (snd e))) by (apply Hi; now left).
      clear - Hnd Hx Hy H'. induction (snd e) as [ | z l IHl ];
        [ destruct Hx | ].
      cbn [map] in Hnd. apply NoDup_cons_iff in Hnd.
      destruct Hnd as [Hz Hnd].
      destruct Hx as [<- | Hx], Hy as [<- | Hy].
      * reflexivity.
      * exfalso. apply Hz. rewrite H'. now apply in_map.
      * exfalso. apply Hz. rewrite <- H'. now apply in_map.
      * now apply IHl.
    + assert (Hnd : NoDup (map key (snd e))) by (apply Hi; now left).
      now apply NoDup_map_inv in Hnd.
  - apply IH; [ exact Hk2 | ]. intros e' He'. apply Hi. now right.
  - intros p Hp Hq. apply in_map_iff in Hp. destruct Hp as [x [<- _]].
    apply in_flat_map in Hq. destruct Hq as [e' [He' Hq]].
    apply in_map_iff in Hq. destruct Hq as [y [Hy _]].
    inversion Hy as [[H1 H2]]. apply Hk1. rewrite <- H1. now apply in_map.
Qed.

Variable argsort : list Q -> list Z.

(** The loop over the users: the dictionary has an entry for every user done
    so far, in order. *)
Lemma users_loop_ok (n : Z) (recommendations_array user_item_array
                                 : list (list Q)) :
  (forall u, 0 <= u < len recommendations_array ->
     exists user_row predicted_row recs,
       index user_item_array u = Ok user_row
       /\ index recommendations_array u = Ok predicted_row
       /\ recommend_user argsort n user_row predicted_row = Ok recs) ->
  forall (c s : nat) (d : list (Z * list (Z * Q))),
    Z.of_nat s + Z.of_nat c = len recommendations_array ->
    map fst d = map Z.of_nat (seq 0 s) ->
    (forall u recs, In (u, recs) d ->
       exists user_row predicted_row,
         index user_item_array u = Ok user_row
         /\ index recommendations_array u = Ok predicted_row
         /\ recommend_user argsort n user_row predicted_row = Ok recs) ->
    exists d',
      for_each (map Z.of_nat (seq s c))
        (fun user_id user_recommendations =>
           user_row <- index user_item_array user_id ;;
           predicted_row <- index recommendations_array user_id ;;
           recommended_items <- recommend_user argsort n user_row
                                  predicted_row ;;
           Ok (dict_set user_recommendations user_id recommended_items)) d
      = Ok d'
      /\ map fst d' = map Z.of_nat (seq 0 (s + c))
      /\ (forall u recs, In (u, recs) d' ->
            exists user_row predicted_row,
              index user_item_array u = Ok user_row
              /\ index recommendations_array u = Ok predicted_row
              /\ recommend_user argsort n user_row predicted_row = Ok recs).
Proof.
  intro Hrows. induction c as [ | c IH ]; intros s d Hs Hkeys Hd.
  - exists d. rewrite Nat.add_0_r. auto.
  - cbn [seq map for_each].
    destruct (Hrows (Z.of_nat s) ltac:(lia)) as [ur [pr [recs [H1 [H2 H3]]]]].
    rewrite H1. cbn [bind]. rewrite H2. cbn [bind]. rewrite H3. cbn [bind].
    rewrite dict_set_fresh.
    + replace (s + S c)%nat with (S s + c)%nat by lia.
      apply IH; try lia.
      * rewrite map_app, Hkeys, seq_S, map_app. reflexivity.
      * intros u recs' Hin. apply in_app_or in Hin.
        destruct Hin as [Hin | [Hin | []]]; [ now apply Hd | ].
        inversion Hin; subst u recs'. exists ur, pr. auto.
    + rewrite Hkeys. intro Hin. apply in_map_iff in Hin.
      destruct Hin as [x [Hx Hin]]. apply in_seq in Hin. lia.
Qed.

End ArgsortFacts.

Section TopNFacts.

Import Recommender.

Variable argsort : list Q -> list Z.
Hypothesis argsort_ok : argsort_correct argsort.

Lemma recommend_user_facts (n : Z) (user_row predicted_row : list Q) :
  0 <= n -> len predicted_row = len user_row ->
  exists recs : list (Z * Q),
    recommend_user argsort n user_row predicted_row = Ok recs
    /\ len recs = Z.min n (len (unrated_items user_row))
    /\ NoDup (map fst recs)
    /\ (forall item rating, In (item, rating) recs ->
          In item (unrated_items user_row)
          /\ rating = nth (Z.to_nat item) predicted_row 0%Q)
    /\ StronglySorted (fun a b => (snd b <= snd a)%Q) recs
    /\ (forall item, In item (unrated_items user_row) ->
          ~ In item (map fst recs) ->
          forall r, In r recs ->
            (nth (Z.to_nat item) predicted_row 0 <= snd r)%Q).
Proof.
  intros Hn Hlen.
  destruct (recommend_user_result argsort argsort_ok n user_row predicted_row
              Hn Hlen) as [top [rest [Hperm [Hl [E [Hs Hrest]]]]]].
  pose proof (unrated_items_NoDup user_row) as Hnd.
  apply (Permutation_NoDup (Permutation_sym Hperm)) in Hnd.
  assert (Hfst : map fst
                   (map (fun item => (item, nth (Z.to_nat item) predicted_row 0%Q))
                      top) = top).
  { rewrite map_map. cbn [fst]. apply map_id. }
  eexists. split; [ exact E | ].
  split; [ now rewrite len_map | ].
  split; [ rewrite Hfst; now apply NoDup_app_remove_r in Hnd | ].
  split; [ | split ].
  - intros item rating Hin. apply in_map_iff in Hin.
    destruct Hin as [x [Hx Hin]]. inversion Hx; subst. split; [ | reflexivity ].
    apply (Permutation_in _ Hperm). apply in_or_app. now left.
  - apply StronglySorted_map with
      (R := fun a b : Z * Q => (snd b <= snd a)%Q)
      (f := fun item => (item, nth (Z.to_nat item) predicted_row 0%Q)).
    exact Hs.
  - rewrite Hfst. intros item Hitem Hnot r Hr.
    apply in_map_iff in Hr. destruct Hr as [x [<- Hx]]. cbn [snd].
    apply Hrest; [ exact Hx | ].
    apply (Permutation_in _ (Permutation_sym Hperm)) in Hitem.
    apply in_app_or in Hitem. destruct Hitem as [H | H];
      [ contradiction | exact H ].
Qed.

End TopNFacts.

(** X25: for [n >= 0] and whatever order the argsort gives to equal ratings,
    the recommendations of a user are [min(n, number of unrated items)] pairs
    of an item the user has not rated and its predicted rating, no item
    twice, in an order in which the ratings never go up; no unrated item
    that is left out has a higher predicted rating than a recommended one. *)
Theorem top_n_are_the_best_unrated :
  forall (argsort : list Q -> list Z) (n : Z)
         (user_row predicted_row : list Q),
    Recommender.argsort_correct argsort ->
    0 <= n ->
    len predicted_row = len user_row ->
    exists recs : list (Z * Q),
      Recommender.recommend_user argsort n user_row predicted_row = Ok recs
      /\ len recs = Z.min n (len (Recommender.unrated_items user_row))
      /\ NoDup (map fst recs)
      /\ (forall item rating, In (item, rating) recs ->
            (0 <= item < len user_row
             /\ (nth (Z.to_nat item) user_row 0 == 0)%Q)
            /\ rating = nth (Z.to_nat item) predicted_row 0%Q)
      /\ StronglySorted (fun a b => (snd b <= snd a)%Q) recs
      /\ (forall item,
            0 <= item < len user_row ->
            (nth (Z.to_nat item) user_row 0 == 0)%Q ->
            ~ In item (map fst recs) ->
            forall r, In r recs ->
              (nth (Z.to_nat item) predicted_row 0 <= snd r)%Q).
Proof.
  intros argsort n user_row predicted_row Hok Hn Hlen.
  destruct (recommend_user_facts argsort Hok n user_row predicted_row Hn Hlen)
    as [recs [E [H1 [H2 [H3 [H4 H5]]]]]].
  exists recs. repeat split; try assumption.
  - apply (H3 item rating) in H. destruct H as [H _].
    apply unrated_items_spec in H. lia.
  - apply (H3 item rating) in H. destruct H as [H _].
    apply unrated_items_spec in H. lia.
  - apply (H3 item rating) in H. destruct H as [H _].
    now apply unrated_items_spec in H.
  - now apply (H3 item rating).
  - intros item Hitem Hzero. apply H5. apply unrated_items_spec. auto.
Qed.

(** The statement above for a user who rated item 0 only, with the two best
    of the three other items asked for. *)
Lemma top_n_are_the_best_unrated_witness :
  exists recs : list (Z * Q),
    Recommender.recommend_user Recommender.stable_argsort 2 [5; 0; 0; 0]%Q
      [9; 1; 3; 2]%Q = Ok recs
    /\ len recs = Z.min 2 (len (Recommender.unrated_items [5; 0; 0; 0]%Q))
    /\ NoDup (map fst recs).
Proof.
  destruct (top_n_are_the_best_unrated Recommender.stable_argsort 2
              [5; 0; 0; 0]%Q [9; 1; 3; 2]%Q stable_argsort_correct)
    as [recs [E [H1 [H2 _]]]].
  - discriminate.
  - reflexivity.
  - exists recs. auto.
Defined.

(** X26: for [n >= 0] and two arrays of the same shape, the ranking gives
    every user an entry, in the order of the user ids, with at most [n]
    recommendations; when no user has a recommendation no file is written;
    otherwise the file has one record per recommendation, no (user, item)
    pair twice, each for an item its user has not rated and with the
    predicted rating of the array. *)
Theorem recommendations_file_has_each_pair_once :
  forall (argsort : list Q -> list Z) (n : Z)
         (recommendations_array user_item_array : list (list Q)),
    Recommender.argsort_correct argsort ->
    0 <= n ->
    len user_item_array = len recommendations_array ->
    (forall u, 0 <= u < len recommendations_array ->
       len (nth (Z.to_nat u) recommendations_array [])
       = len (nth (Z.to_nat u) user_item_array [])) ->
    exists d : list (Z * list (Z * Q)),
      Recommender.get_top_recommendations argsort recommendations_array
        user_item_array n = Ok d
      /\ map fst d = range (len recommendations_array)
      /\ (forall u recs, In (u, recs) d -> len recs <= n)
      /\ match Recommender.save_recommendations_to_csv d with
         | None => forall u recs, In (u, recs) d -> recs = []
         | Some rows =>
             rows <> []
             /\ NoDup (map (fun r => (RecVerifier.user_id r,
                                      RecVerifier.item_id r)) rows)
             /\ (forall r, In r rows ->
                   0 <= RecVerifier.user_id r < len recommendations_array
                   /\ (nth (Z.to_nat (RecVerifier.item_id r))
                         (nth (Z.to_nat (RecVerifier.user_id r))
                            user_item_array []) 0 == 0)%Q
                   /\ RecVerifier.predicted_rating r
                      = nth (Z.to_nat (RecVerifier.item_id r))
                          (nth (Z.to_nat (RecVerifier.user_id r))
                             recommendations_array []) 0%Q)
         end.
Proof.
  intros argsort n R U Hok Hn Hlen Hshape.
  assert (Hrows : forall u, 0 <= u < len R ->
            exists user_row predicted_row recs,
              index U u = Ok user_row /\ index R u = Ok predicted_row
              /\ Recommender.recommend_user argsort n user_row predicted_row
                 = Ok recs).
  { intros u Hu.
    destruct (recommend_user_facts argsort Hok n (nth (Z.to_nat u) U [])
                (nth (Z.to_nat u) R []) Hn (Hshape u Hu)) as [recs [E _]].
    exists (nth (Z.to_nat u) U []), (nth (Z.to_nat u) R []), recs.
    repeat split; [ apply index_ok; lia | apply index_ok; lia | exact E ]. }
  destruct (users_loop_ok argsort n R U Hrows (Z.to_nat (len R)) 0 [])
    as [d [E [Hkeys Hd]]].
  - pose proof (len_nonneg R). lia.
  - reflexivity.
  - intros u recs [].
  - assert (Hfacts : forall u recs, In (u, recs) d ->
              0 <= u < len R
              /\ len recs <= n
              /\ NoDup (map fst recs)
              /\ forall item rating, In (item, rating) recs ->
                   (nth (Z.to_nat item) (nth (Z.to_nat u) U []) 0 == 0)%Q
                   /\ rating = nth (Z.to_nat item) (nth (Z.to_nat u) R []) 0%Q).
    { intros u recs Hin.
      assert (Hu : 0 <= u < len R).
      { apply In_range. unfold range. cbn [Nat.add] in Hkeys.
        rewrite <- Hkeys. change u with (fst (u, recs)). now apply in_map. }
      destruct (Hd u recs Hin) as [ur [pr [H1 [H2 H3]]]].
      rewrite (index_ok U u []) in H1 by lia.
      rewrite (index_ok R u []) in H2 by lia.
      inversion H1; subst ur. inversion H2; subst pr.
      destruct (recommend_user_facts argsort Hok n (nth (Z.to_nat u) U [])
                  (nth (Z.to_nat u) R []) Hn (Hshape u Hu))
        as [recs' [E' [F1 [F2 [F3 _]]]]].
      rewrite H3 in E'. inversion E'; subst recs'.
      split; [ exact Hu | split; [ lia | split; [ exact F2 | ] ] ].
      intros item rating Hr. destruct (F3 item rating Hr) as [G1 G2].
      apply unrated_items_spec in G1. tauto. }
    exists d. split; [ exact E | ]. split; [ exact Hkeys | ].
    split; [ intros u recs Hin; apply (Hfacts u recs Hin) | ].
    unfold Recommender.save_recommendations_to_csv.
    set (rows := flat_map _ d).
    assert (Hin_rows : forall r, In r rows ->
              exists recs, In (RecVerifier.user_id r, recs) d
                           /\ In (RecVerifier.item_id r,
                                  RecVerifier.predicted_rating r) recs).
    { intros r Hr. unfold rows in Hr. apply in_flat_map in Hr.
      destruct Hr as [[u recs] [He Hr]]. apply in_map_iff in Hr.
      destruct Hr as [[item rating] [<- Hi]]. exists recs. auto. }
    assert (Hnd : NoDup (map (fun r => (RecVerifier.user_id r,
                                        RecVerifier.item_id r)) rows)).
    { unfold rows. rewrite map_flat_map.
      rewrite (flat_map_ext_in _
                 (fun e : Z * list (Z * Q) =>
                    map (fun x => (fst e, fst x)) (snd e)))
        by (intros e _; now rewrite map_map).
      apply NoDup_flat_map_pairs.
      - cbn [Nat.add] in Hkeys. rewrite Hkeys.
        apply NoDup_map_injective; [ intros x y H; lia | apply seq_NoDup ].
      - intros [u recs] He. apply (Hfacts u recs He). }
    destruct rows as [ | r0 rows' ] eqn:Erows.
    + intros u recs Hin. destruct recs as [ | x recs ]; [ reflexivity | ].
      exfalso.
      assert (Hx : In (RecVerifier.mk_rec u (fst x) (snd x)) rows).
      { unfold rows. apply in_flat_map. exists (u, x :: recs).
        split; [ exact Hin | now left ]. }
      rewrite Erows in Hx. destruct Hx.
    + split; [ discriminate | split; [ exact Hnd | ] ].
      intros r Hr. destruct (Hin_rows r Hr) as [recs [H1 H2]].
      destruct (Hfacts _ _ H1) as [Hu [_ [_ Hitems]]].
      destruct (Hitems _ _ H2) as [G1 G2]. auto.
Qed.

(** The statement above for two users and three items, one recommendation
    each. *)
Lemma recommendations_file_has_each_pair_once_witness :
  exists d : list (Z * list (Z * Q)),
    Recommender.get_top_recommendations Recommender.stable_argsort
      [[9; 1; 3]; [2; 8; 4]]%Q [[5; 0; 0]; [0; 0; 3]]%Q 1 = Ok d
    /\ map fst d = [0; 1].
Proof.
  destruct (recommendations_file_has_each_pair_once
              Recommender.stable_argsort 1
              [[9; 1; 3]; [2; 8; 4]]%Q [[5; 0; 0]; [0; 0; 3]]%Q
              stable_argsort_correct)
    as [d [E [H _]]].
  - discriminate.
  - reflexivity.
  - intros u Hu. assert (Hc : u = 0 \/ u = 1) by (change (len _) with 2 in Hu; lia).
    destruct Hc as [-> | ->]; reflexivity.
  - exists d. split; [ exact E | exact H ].
Defined.

(** ** A stored index past the rows of the second matrix *)

Section FirstFailure.

Import PartialProdGen Traversal.

Lemma emit_row_traverse {V : Type} (mul : V -> V -> V) (A_csr AT_csr : csr V)
  (i : Z) (st : gen_state V) :
  emit_row mul A_csr AT_csr i st
  = traverse_row (emit_entry mul AT_csr) A_csr i st.
Proof. reflexivity. Qed.

Lemma stream_row_traverse {V : Type} (mul : V -> V -> V) (nonzero : V -> bool)
  (fuel : nat) (chunk_size : Z) (A_csr AT_csr : csr V) (i : Z)
  (st : stream_state V) :
  stream_row mul nonzero fuel chunk_size A_csr AT_csr i st
  = traverse_row (stream_entry mul nonzero fuel chunk_size AT_csr) A_csr i st.
Proof. reflexivity. Qed.

(** The first element of a list that passes a test. *)
Lemma first_match_split {A : Type} (p : A -> bool) (l : list A) :
  existsb p l = true ->
  exists l1 x l2, l = l1 ++ x :: l2
                  /\ (forall y, In y l1 -> p y = false) /\ p x = true.
Proof.
  induction l as [ | y l IH ]; [ discriminate | ].
  cbn [existsb]. destruct (p y) eqn:E.
  - intros _. exists [], y, l. repeat split; [ intros z [] | exact E ].
  - cbn [orb]. intro H. destruct (IH H) as [l1 [x [l2 [-> [H1 H2]]]]].
    exists (y :: l1), x, l2. repeat split; [ | exact H2 ].
    intros z [<- | Hz]; auto.
Qed.

Variable V : Type.
Variable mul : V -> V -> V.
Variable S : Type.
Variable body : Z -> Z -> V -> S -> result S.
Variables A_csr AT_csr : csr V.
Hypothesis valid_A : valid_csr A_csr = true.
Hypothesis valid_AT : valid_csr AT_csr = true.

(** What the state of a generator has taken in, and whether a list of
    triples is within what it can take. *)
Variable Inv : S -> list (V * Z * Z) -> Prop.
Variable room : list (V * Z * Z) -> Prop.

Hypothesis room_prefix : forall l1 l2, room (l1 ++ l2) -> room l1.

Hypothesis body_good :
  forall i k a st done,
    0 <= k < shape0 AT_csr -> Inv st done ->
    room (done ++ entry_products mul AT_csr i (k, a)) ->
    exists st', body i k a st = Ok st'
                /\ Inv st' (done ++ entry_products mul AT_csr i (k, a)).

Hypothesis body_bad :
  forall i k a st, shape0 AT_csr <= k -> body i k a st = Raise IndexError.

Lemma entries_good (i : Z) (entries : list (Z * V)) :
  forall st done,
    (forall ka, In ka entries -> 0 <= fst ka < shape0 AT_csr) ->
    Inv st done ->
    room (done ++ flat_map (entry_products mul AT_csr i) entries) ->
    exists st',
      for_each entries (fun ka st => body i (fst ka) (snd ka) st) st = Ok st'
      /\ Inv st' (done ++ flat_map (entry_products mul AT_csr i) entries).
Proof.
  induction entries as [ | [k a] entries IH ]; intros st done Hin Hst Hroom.
  - exists st. simpl. now rewrite app_nil_r.
  - cbn [flat_map] in *. rewrite app_assoc in Hroom.
    destruct (body_good i k a st done) as [st1 [E1 H1]];
      [ apply (Hin (k, a)); now left | exact Hst
      | now apply room_prefix in Hroom | ].
    cbn [for_each fst snd]. rewrite E1. cbn [bind].
    destruct (IH st1 _ (fun ka Hka => Hin ka (or_intror Hka)) H1 Hroom)
      as [st2 [E2 H2]].
    exists st2. split; [ exact E2 | now rewrite app_assoc ].
Qed.

Lemma entries_bad (i : Z) (l1 l2 : list (Z * V)) (x : Z * V) :
  forall st done,
    (forall ka, In ka l1 -> 0 <= fst ka < shape0 AT_csr) ->
    shape0 AT_csr <= fst x ->
    Inv st done ->
    room (done ++ flat_map (entry_products mul AT_csr i) l1) ->
    for_each (l1 ++ x :: l2) (fun ka st => body i (fst ka) (snd ka) st) st
    = Raise IndexError.
Proof.
  intros st done Hin Hx Hst Hroom.
  destruct (entries_good i l1 st done Hin Hst Hroom) as [st1 [E1 _]].
  clear Hroom Hin Hst. revert st E1.
  induction l1 as [ | y l1 IH ]; intros st E1.
  - cbn [app for_each]. now rewrite body_bad.
  - cbn [app for_each] in *.
    destruct (body i (fst y) (snd y) st) as [st' | e]; [ | discriminate ].
    cbn [bind] in *. now apply (IH st').
Qed.

Lemma row_entries (i : Z) (st : S) :
  0 <= i < shape0 A_csr ->
  traverse_row body A_csr i st
  = for_each (row_of A_csr i) (fun ka st => body i (fst ka) (snd ka) st) st.
Proof.
  intro Hi. unfold traverse_row.
  rewrite !(index_ptr V A_csr) by (try exact valid_A; lia). cbn [bind].
  destruct (ptr_mono V A_csr i (i + 1) valid_A) as [Hs [Hse He]]; try lia.
  destruct (row_slices V A_csr i valid_A Hi) as [Lc Lv].
  pose proof (row_slices_length V A_csr i valid_A Hi) as Hlen.
  destruct (row_ptr A_csr i =? row_ptr A_csr (i + 1)) eqn:E.
  - apply Z.eqb_eq in E. unfold row_of.
    assert (Hc : slice (indices A_csr) (row_ptr A_csr i) (row_ptr A_csr (i + 1))
                 = []).
    { apply len_nil_inv. rewrite Lc. unfold row_nnz. lia. }
    rewrite Hc. reflexivity.
  - cbv zeta.
    now rewrite (for_each_positions (fun k a st => body i k a st) _ _ st Hlen).
Qed.

Lemma rows_good (rows : list Z) :
  forall st done,
    (forall i, In i rows -> 0 <= i < shape0 A_csr) ->
    (forall i ka, In i rows -> In ka (row_of A_csr i) ->
       0 <= fst ka < shape0 AT_csr) ->
    Inv st done ->
    room (done ++ flat_map (row_products mul A_csr AT_csr) rows) ->
    exists st',
      for_each rows (traverse_row body A_csr) st = Ok st'
      /\ Inv st' (done ++ flat_map (row_products mul A_csr AT_csr) rows).
Proof.
  induction rows as [ | i rows IH ]; intros st done Hin Hgood Hst Hroom.
  - exists st. simpl. now rewrite app_nil_r.
  - cbn [flat_map] in *. rewrite app_assoc in Hroom.
    cbn [for_each]. rewrite row_entries by (apply Hin; now left).
    destruct (entries_good i (row_of A_csr i) st done) as [st1 [E1 H1]];
      [ intros ka Hka; apply (Hgood i ka); [ now left | exact Hka ]
      | exact Hst | now apply room_prefix in Hroom | ].
    rewrite E1. cbn [bind].
    destruct (IH st1 (done ++ row_products mul A_csr AT_csr i))
      as [st2 [E2 H2]]; try assumption.
    + intros j Hj. apply Hin. now right.
    + intros j ka Hj. apply Hgood. now right.
    + exists st2. split; [ exact E2 | now rewrite app_assoc ].
Qed.

Lemma for_each_app {A T : Type} (l1 l2 : list A) (f : A -> T -> result T)
  (s : T) :
  for_each (l1 ++ l2) f s = (s' <- for_each l1 f s ;; for_each l2 f s').
Proof.
  revert s. induction l1 as [ | x l1 IH ]; intro s; [ reflexivity | ].
  cbn [app for_each]. destruct (f x s) as [s1 | e]; [ | reflexivity ].
  cbn [bind]. apply IH.
Qed.

(** The traversal stops with [IndexError] at the first stored index that is
    no row of the second matrix, provided there is room for what comes
    before. *)
Lemma traversal_raises (st : S) :
  existsb (fun k => shape0 AT_csr <=? k) (indices A_csr) = true ->
  Inv st [] ->
  (forall R1 i R2 l1 x l2,
     range (shape0 A_csr) = R1 ++ i :: R2 ->
     row_of A_csr i = l1 ++ x :: l2 ->
     (forall j ka, In j R1 -> In ka (row_of A_csr j) ->
        0 <= fst ka < shape0 AT_csr) ->
     (forall ka, In ka l1 -> 0 <= fst ka < shape0 AT_csr) ->
     room (flat_map (row_products mul A_csr AT_csr) R1
           ++ flat_map (entry_products mul AT_csr i) l1)) ->
  for_each (range (shape0 A_csr)) (traverse_row body A_csr) st
  = Raise IndexError.
Proof.
  intros Hbad Hst Hroom.
  assert (Hrow : existsb
                   (fun i => existsb (fun ka => shape0 AT_csr <=? fst ka)
                               (row_of A_csr i))
                   (range (shape0 A_csr)) = true).
  { apply existsb_exists in Hbad. destruct Hbad as [k [Hk Hle]].
    rewrite <- (rows_concat_all V A_csr valid_A) in Hk.
    apply in_flat_map in Hk. destruct Hk as [i [Hi Hk]].
    apply existsb_exists. exists i. split; [ exact Hi | ].
    apply In_range in Hi.
    rewrite <- (row_of_cols V A_csr i valid_A Hi) in Hk.
    apply in_map_iff in Hk. destruct Hk as [ka [<- Hka]].
    apply existsb_exists. exists ka. auto. }
  destruct (first_match_split _ _ Hrow) as [R1 [i [R2 [HR [HR1 Hi]]]]].
  destruct (first_match_split _ _ Hi) as [l1 [x [l2 [Hl [Hl1 Hx]]]]].
  assert (Hgood : forall j ka, In ka (row_of A_csr j) ->
            (shape0 AT_csr <=? fst ka) = false ->
            0 <= fst ka < shape0 AT_csr).
  { intros j ka Hka Hle. apply Z.leb_gt in Hle.
    pose proof (row_of_In V A_csr j ka valid_A Hka). lia. }
  assert (HinR : forall j, In j (range (shape0 A_csr)) ->
            0 <= j < shape0 A_csr) by (intros j Hj; now apply In_range).
  assert (HR1good : forall j ka, In j R1 -> In ka (row_of A_csr j) ->
            0 <= fst ka < shape0 AT_csr).
  { intros j ka Hj Hka. apply (Hgood j ka Hka).
    specialize (HR1 j Hj). cbv beta in HR1.
    destruct (shape0 AT_csr <=? fst ka) eqn:E; [ | reflexivity ].
    assert (existsb (fun ka => shape0 AT_csr <=? fst ka) (row_of A_csr j)
            = true) by (apply existsb_exists; exists ka; auto).
    congruence. }
  assert (Hl1good : forall ka, In ka l1 -> 0 <= fst ka < shape0 AT_csr).
  { intros ka Hka. apply (Hgood i ka).
    - rewrite Hl. apply in_or_app. now left.
    - now apply Hl1. }
  specialize (Hroom R1 i R2 l1 x l2 HR Hl HR1good Hl1good).
  rewrite HR in HinR |- *.
  destruct (rows_good R1 st []) as [st1 [E1 H1]].
  - intros j Hj. apply HinR. apply in_or_app. now left.
  - exact HR1good.
  - exact Hst.
  - cbn [app]. now apply room_prefix in Hroom.
  - cbn [app] in H1. rewrite for_each_app, E1. cbn [bind for_each].
    rewrite row_entries by (apply HinR; apply in_or_app; right; now left).
    rewrite Hl.
    rewrite (entries_bad i l1 l2 x st1
               (flat_map (row_products mul A_csr AT_csr) R1));
      try assumption; [ reflexivity | now apply Z.leb_le ].
Qed.

End FirstFailure.

Section ShortSecondMatrix.

Import PartialProdGen Traversal.

Variable V : Type.
Variable mul : V -> V -> V.
Variable nonzero : V -> bool.
Variables A_csr AT_csr : csr V.
Hypothesis valid_A : valid_csr A_csr = true.
Hypothesis valid_AT : valid_csr AT_csr = true.
Hypothesis fits :
  len (indices A_csr) * len (indices AT_csr) < 2 ^ 63.

Lemma index_raises {A : Type} (l : list A) (i : Z) (e : error) :
  index l i = Raise e -> e = IndexError.
Proof.
  unfold index.
  destruct ((0 <=? (if i <? 0 then i + len l else i))
            && ((if i <? 0 then i + len l else i) <? len l)).
  - destruct (nth_error l _); intro H; now inversion H.
  - intro H. now inversion H.
Qed.

(** Both inner loop bodies start by reading the row pointers [k] and
    [k + 1] of the second matrix. *)
Lemma row_pointers_raise (k : Z) {T : Type}
  (rest : Z -> Z -> result T) :
  shape0 AT_csr <= k ->
  (at_row_start <- index (indptr AT_csr) k ;;
   at_row_end <- index (indptr AT_csr) (k + 1) ;;
   rest at_row_start at_row_end) = Raise IndexError.
Proof.
  intro Hk.
  destruct (valid_csr_facts V AT_csr valid_AT) as [H0 [Hlen _]].
  destruct (index (indptr AT_csr) k) as [s | e] eqn:E.
  - cbn [bind]. now rewrite index_out by lia.
  - cbn [bind]. now rewrite (index_raises _ _ _ E).
Qed.

Lemma emit_entry_raises (i k : Z) (a : V) (st : gen_state V) :
  shape0 AT_csr <= k -> emit_entry mul AT_csr i k a st = Raise IndexError.
Proof. intro Hk. unfold emit_entry. now apply row_pointers_raise. Qed.

Lemma stream_entry_raises (fuel : nat) (chunk_size i k : Z) (a : V)
  (st : stream_state V) :
  shape0 AT_csr <= k ->
  stream_entry mul nonzero fuel chunk_size AT_csr i k a st = Raise IndexError.
Proof. intro Hk. unfold stream_entry. now apply row_pointers_raise. Qed.

Lemma indices_nonneg (k : Z) : In k (indices A_csr) -> 0 <= k.
Proof.
  destruct (valid_csr_facts V A_csr valid_A) as [_ [_ [_ [_ [_ [_ Hall]]]]]].
  rewrite Forall_forall in Hall. intro H. specialize (Hall k H). lia.
Qed.

Lemma valid_indices_k_In (k : Z) :
  In k (valid_indices_k A_csr AT_csr) ->
  In k (indices A_csr) /\ 0 <= k < shape0 AT_csr.
Proof.
  unfold valid_indices_k. intro H. apply filter_In in H.
  destruct H as [H1 H2]. apply Z.ltb_lt in H2.
  pose proof (indices_nonneg k H1). auto.
Qed.

Lemma counted_bound :
  0 <= zsum (map (row_nnz AT_csr) (valid_indices_k A_csr AT_csr)) < 2 ^ 63.
Proof.
  pose proof (zsum_bound (map (row_nnz AT_csr) (valid_indices_k A_csr AT_csr))
                (len (indices AT_csr))) as Hb.
  rewrite len_map in Hb.
  assert (Hl : len (valid_indices_k A_csr AT_csr) <= len (indices A_csr))
    by (unfold len; apply inj_le, filter_length_le).
  pose proof (len_nonneg (valid_indices_k A_csr AT_csr)).
  pose proof (len_nonneg (indices AT_csr)).
  destruct Hb as [Hb1 Hb2]; [ | nia ].
  apply Forall_forall. intros x Hx. apply in_map_iff in Hx.
  destruct Hx as [k [<- Hk]]. apply valid_indices_k_In in Hk.
  apply row_nnz_bounds; [ exact valid_AT | apply Hk ].
Qed.

(** The estimator counts the products of the stored indices that are rows
    of the second matrix, and skips the others. *)
Lemma estimate_skips :
  estimate_products A_csr AT_csr
  = Ok (zsum (map (row_nnz AT_csr) (valid_indices_k A_csr AT_csr))).
Proof.
  unfold estimate_products. rewrite (nnz_ok V A_csr valid_A). cbn [bind].
  destruct (valid_csr_facts V AT_csr valid_AT) as [HT0 [HTlen _]].
  assert (Hdiff : len (diff (indptr AT_csr)) = shape0 AT_csr).
  { unfold len in *. rewrite diff_length. lia. }
  destruct (len (indices A_csr) =? 0) eqn:E.
  - apply Z.eqb_eq, len_nil_inv in E. unfold valid_indices_k.
    now rewrite E.
  - rewrite Hdiff. fold (valid_indices_k A_csr AT_csr).
    rewrite (take_indices_ok _ _ (row_nnz AT_csr)).
    + cbn [bind]. f_equal. apply sum_int64_exact.
      * apply Forall_forall. intros x Hx. apply in_map_iff in Hx.
        destruct Hx as [k [<- Hk]]. apply valid_indices_k_In in Hk.
        apply row_nnz_bounds; [ exact valid_AT | apply Hk ].
      * apply counted_bound.
    + intros k Hk. apply valid_indices_k_In in Hk. destruct Hk as [_ Hk].
      rewrite (index_ok _ _ 0) by (rewrite Hdiff; exact Hk).
      f_equal. rewrite diff_nth by (unfold len in HTlen; lia).
      unfold row_nnz, row_ptr. f_equal. f_equal. lia.
Qed.

Lemma good_entries_len (i : Z) (entries : list (Z * V)) :
  (forall ka, In ka entries -> 0 <= fst ka < shape0 AT_csr) ->
  len (flat_map (entry_products mul AT_csr i) entries)
  = zsum (map (row_nnz AT_csr) (map fst entries)).
Proof.
  intro H. rewrite len_flat_map, map_map. apply zsum_map_ext.
  intros ka Hka. apply (entry_products_len V mul AT_csr valid_AT).
  now apply H.
Qed.

Lemma counted_app (l1 l2 : list Z) :
  zsum (map (row_nnz AT_csr) (filter (fun k => k <? shape0 AT_csr) (l1 ++ l2)))
  = zsum (map (row_nnz AT_csr) (filter (fun k => k <? shape0 AT_csr) l1))
    + zsum (map (row_nnz AT_csr) (filter (fun k => k <? shape0 AT_csr) l2)).
Proof. now rewrite filter_app, map_app, zsum_app. Qed.

Lemma counted_nonneg (l : list Z) :
  (forall k, In k l -> 0 <= k) ->
  0 <= zsum (map (row_nnz AT_csr) (filter (fun k => k <? shape0 AT_csr) l)).
Proof.
  intro H. apply zsum_nonneg. apply Forall_forall. intros x Hx.
  apply in_map_iff in Hx. destruct Hx as [k [<- Hk]].
  apply filter_In in Hk. destruct Hk as [Hk1 Hk2]. apply Z.ltb_lt in Hk2.
  apply row_nnz_bounds; [ exact valid_AT | ]. specialize (H k Hk1). lia.
Qed.

Lemma counted_good (l : list Z) :
  (forall k, In k l -> 0 <= k < shape0 AT_csr) ->
  filter (fun k => k <? shape0 AT_csr) l = l.
Proof.
  intro H. apply forallb_filter_id. apply forallb_forall.
  intros k Hk. apply Z.ltb_lt. now apply H.
Qed.

(** What the traversal emits before the first stored index that is no row of
    the second matrix is within the estimator's count. *)
Lemma prefix_within_estimate (R1 R2 : list Z) (i : Z)
  (l1 l2 : list (Z * V)) (x : Z * V) :
  range (shape0 A_csr) = R1 ++ i :: R2 ->
  row_of A_csr i = l1 ++ x :: l2 ->
  (forall j ka, In j R1 -> In ka (row_of A_csr j) ->
     0 <= fst ka < shape0 AT_csr) ->
  (forall ka, In ka l1 -> 0 <= fst ka < shape0 AT_csr) ->
  len (flat_map (row_products mul A_csr AT_csr) R1
       ++ flat_map (entry_products mul AT_csr i) l1)
  <= zsum (map (row_nnz AT_csr) (valid_indices_k A_csr AT_csr)).
Proof.
  intros HR Hl HR1 Hl1.
  assert (Hrange : forall j, In j (R1 ++ i :: R2) -> 0 <= j < shape0 A_csr)
    by (intros j Hj; apply In_range; now rewrite HR).
  assert (Hidx : indices A_csr
                 = flat_map (fun j => map fst (row_of A_csr j)) R1
                   ++ map fst l1
                   ++ (fst x :: map fst l2)
                   ++ flat_map (fun j => map fst (row_of A_csr j)) R2).
  { rewrite <- (rows_concat_all V A_csr valid_A) at 1. rewrite HR.
    rewrite flat_map_app. cbn [flat_map].
    rewrite <- (row_of_cols V A_csr i valid_A)
      by (apply Hrange; apply in_or_app; right; now left).
    rewrite Hl, map_app. cbn [map].
    rewrite (flat_map_ext_in _ (fun j => map fst (row_of A_csr j)) R1).
    2:{ intros j Hj. symmetry. apply (row_of_cols V A_csr j valid_A).
        apply Hrange. apply in_or_app. now left. }
    rewrite (flat_map_ext_in _ (fun j => map fst (row_of A_csr j)) R2).
    2:{ intros j Hj. symmetry. apply (row_of_cols V A_csr j valid_A).
        apply Hrange. apply in_or_app. right. now right. }
    now rewrite <- !app_assoc. }
  assert (Hnn : forall k, In k (indices A_csr) -> 0 <= k)
    by apply indices_nonneg.
  unfold valid_indices_k. rewrite Hidx in Hnn |- *.
  rewrite !counted_app, len_app.
  assert (E1 : len (flat_map (row_products mul A_csr AT_csr) R1)
               = zsum (map (row_nnz AT_csr)
                         (filter (fun k => k <? shape0 AT_csr)
                            (flat_map (fun j => map fst (row_of A_csr j)) R1)))).
  { rewrite counted_good.
    2:{ intros k Hk. apply in_flat_map in Hk. destruct Hk as [j [Hj Hk]].
        apply in_map_iff in Hk. destruct Hk as [ka [<- Hka]].
        now apply (HR1 j ka). }
    clear - HR1 valid_AT. induction R1 as [ | j R1 IH ]; [ reflexivity | ].
    cbn [flat_map]. rewrite len_app, map_app, zsum_app. f_equal.
    - unfold row_products. apply good_entries_len.
      intros ka Hka. apply (HR1 j ka); [ now left | exact Hka ].
    - apply IH. intros j' ka Hj'. apply HR1. now right. }
  assert (E2 : len (flat_map (entry_products mul AT_csr i) l1)
               = zsum (map (row_nnz AT_csr)
                         (filter (fun k => k <? shape0 AT_csr) (map fst l1)))).
  { rewrite counted_good.
    - now apply good_entries_len.
    - intros k Hk. apply in_map_iff in Hk. destruct Hk as [ka [<- Hka]].
      now apply Hl1. }
  rewrite E1, E2.
  assert (Hrest : 0 <= zsum (map (row_nnz AT_csr)
                             (filter (fun k => k <? shape0 AT_csr)
                                (fst x :: map fst l2)))
                       + zsum (map (row_nnz AT_csr)
                                 (filter (fun k => k <? shape0 AT_csr)
                                    (flat_map
                                       (fun j => map fst (row_of A_csr j))
                                       R2)))).
  { rewrite <- counted_app. apply counted_nonneg. intros k Hk. apply Hnn.
    apply in_or_app. right. apply in_or_app. now right. }
  lia.
Qed.

Hypothesis past_the_rows :
  existsb (fun k => shape0 AT_csr <=? k) (indices A_csr) = true.

Lemma prealloc_raises :
  produce_products_scipy_optimized mul nonzero A_csr AT_csr
  = Raise IndexError.
Proof.
  unfold produce_products_scipy_optimized, fill_buffers.
  rewrite estimate_skips. cbn [bind].
  set (total := zsum (map (row_nnz AT_csr) (valid_indices_k A_csr AT_csr))).
  assert (Htotal : 0 <= total) by apply counted_bound.
  unfold np_empty. destruct (total <? 0) eqn:E; [ apply Z.ltb_lt in E; lia | ].
  cbn [bind].
  change (for_each (range (shape0 A_csr)) (emit_row mul A_csr AT_csr))
    with (for_each (range (shape0 A_csr))
            (traverse_row (emit_entry mul AT_csr) A_csr)).
  rewrite (traversal_raises V mul (gen_state V) (emit_entry mul AT_csr)
             A_csr AT_csr valid_A
             (fun st done => gen_holds st done total)
             (fun l => len l <= total)).
  - reflexivity.
  - intros l1 l2. rewrite len_app. pose proof (len_nonneg l2). lia.
  - intros i k a st done Hk Hst Hroom.
    apply (emit_entry_ok V mul AT_csr valid_AT); try assumption.
    rewrite len_app in Hroom.
    now rewrite (entry_products_len V mul AT_csr valid_AT i (k, a)) in Hroom.
  - intros i k a st. apply emit_entry_raises.
  - exact past_the_rows.
  - unfold gen_holds. cbn. rewrite !len_repeat.
    repeat split; try apply holds_empty; lia.
  - intros R1 i R2 l1 x l2 HR Hl HR1 Hl1.
    now apply (prefix_within_estimate R1 R2 i l1 l2 x).
Qed.

Lemma stream_raises (fuel : nat) (chunk_size : Z) :
  1 <= chunk_size -> len (indices AT_csr) <= Z.of_nat fuel ->
  produce_products_stream_scipy_optimized mul nonzero fuel A_csr AT_csr
    chunk_size = Raise IndexError.
Proof.
  intros Hc Hf. unfold produce_products_stream_scipy_optimized, np_empty.
  destruct (chunk_size <? 0) eqn:E; [ apply Z.ltb_lt in E; lia | ].
  cbn [bind].
  change (for_each (range (shape0 A_csr))
            (stream_row mul nonzero fuel chunk_size A_csr AT_csr))
    with (for_each (range (shape0 A_csr))
            (traverse_row (stream_entry mul nonzero fuel chunk_size AT_csr)
               A_csr)).
  rewrite (traversal_raises V mul (stream_state V)
             (stream_entry mul nonzero fuel chunk_size AT_csr)
             A_csr AT_csr valid_A
             (fun st done =>
                stream_holds st (filter (keeps nonzero) done) chunk_size)
             (fun _ => True)).
  - reflexivity.
  - auto.
  - intros i k a st done Hk Hst _. rewrite filter_app.
    now apply (stream_entry_ok V mul nonzero AT_csr valid_AT).
  - intros i k a st. apply stream_entry_raises.
  - exact past_the_rows.
  - cbn [filter]. split.
    + exists []. cbn. rewrite !len_repeat.
      repeat split; try apply holds_empty; lia.
    + cbn. unfold high_water. apply Z.leb_gt. lia.
  - auto.
Qed.

End ShortSecondMatrix.

(** X27: when the two matrices are well-formed but some column index stored
    in [A] is no row of [AT], the estimator skips that index and returns the
    count of the others, while both generators stop with [IndexError] when
    they reach it, whatever they produced before. *)
Theorem index_past_the_rows_raises :
  forall (V : Type) (mul : V -> V -> V) (nonzero : V -> bool)
         (A_csr AT_csr : PartialProdGen.csr V),
    PartialProdGen.valid_csr A_csr = true ->
    PartialProdGen.valid_csr AT_csr = true ->
    len (PartialProdGen.indices A_csr) * len (PartialProdGen.indices AT_csr)
      < 2 ^ 63 ->
    existsb (fun k => PartialProdGen.shape0 AT_csr <=? k)
      (PartialProdGen.indices A_csr) = true ->
    PartialProdGen.estimate_products A_csr AT_csr
    = Ok (zsum (map (PartialProdGen.row_nnz AT_csr)
                  (Traversal.valid_indices_k A_csr AT_csr)))
    /\ PartialProdGen.produce_products_scipy_optimized mul nonzero A_csr
         AT_csr = Raise IndexError
    /\ (forall (fuel : nat) (chunk_size : Z),
          1 <= chunk_size ->
          len (PartialProdGen.indices AT_csr) <= Z.of_nat fuel ->
          PartialProdGen.produce_products_stream_scipy_optimized mul nonzero
            fuel A_csr AT_csr chunk_size = Raise IndexError).
Proof.
  intros V mul nonzero A_csr AT_csr HA HAT Hfit Hbad. split; [ | split ].
  - now apply estimate_skips.
  - now apply prealloc_raises.
  - intros fuel chunk_size Hc Hf. now apply stream_raises.
Qed.

(** The statement above on a row with the entries 3 and 4 and a second
    matrix of one row: the estimator counts the product of the first entry,
    the generator stops at the second. *)
Lemma index_past_the_rows_raises_witness :
  PartialProdGen.estimate_products Traversal.long_row_A Traversal.one_row_AT
  = Ok 1
  /\ PartialProdGen.produce_products_scipy_optimized Z.mul
       PartialProdGen.nonzeroZ Traversal.long_row_A Traversal.one_row_AT
     = Raise IndexError.
Proof.
  destruct (index_past_the_rows_raises Z Z.mul PartialProdGen.nonzeroZ
              Traversal.long_row_A Traversal.one_row_AT)
    as [H1 [H2 _]]; try reflexivity.
  split; [ exact H1 | exact H2 ].
Defined.
